(** * LP-Rebalancing-Vault: a shallow embedding of the vault manager's core

    The Go sources embedded here are
    - [internal/utils/conversion.go]       (fixed point <-> float conversion),
    - [internal/wallet/transactions.go]    (minimum-output embedding),
    - [internal/planner/planner.go]        (action planner),
    - [internal/analyzer/SelectTopPools.go] (selector, allocator, volatility),
    - the pool scorer ([CalculatePoolScore] and its component functions),
    - [internal/avm/avm.go]                (cycle orchestrator),
    - [internal/vault/live.go]             (pool denominations, plan checks),
    - [internal/datafetcher]               (the denomination of a pool's shares).

    Numeric conventions.
    - [sdkmath.Int] is an integer: [Z]; the nil [Int] is outside the model.
      [sdkmath.LegacyDec] is an integer scaled by [10^18]: [Z], with the
      SDK's banker's rounding on [Mul] and [Quo].
    - The SDK bounds an [Int] to 256 bits and a [LegacyDec] to 315 bits.
      The bounds are written out where a [float64], which can be far larger,
      becomes a decimal: in [LegacyNewDecFromStr] (an error) and in
      [Float64ToSDKInt] (panics of [Mul] and [TruncateInt]).  Elsewhere
      (the wallet's minimum outputs, the planner's target shares, the way
      back to [float64]) the arithmetic is written without the panics: the
      operands are [Int]s and factors of at most 1, or the overflow needs a
      number of shares beyond the range of an [Int].
    - In the conversion, wallet, planner, selector and allocator code a
      [float64] is modelled by the rational it denotes ([Q]) and its
      arithmetic is exact; [math.IsNaN] and [math.IsInf] are kept in the text
      of each function and are constantly [false] on such values.  The one
      operation whose digits reach a message is rounded as binary64 rounds
      it: the wallet's [1.0 - SlippageTolerancePct], printed with [%.18f]
      ([Float64Sub]).
    - The volatility calculator needs [math.Log] and [math.Sqrt]; it is
      embedded over the real numbers ([R], with [ln] and [sqrt]).
    - The pool scorer is the one place whose claims are about NaN and
      infinities; it is embedded over an abstract [float64] interface
      ([Float64Ops]) that makes no assumption on the arithmetic at all, with
      the kernel's binary64 floats as an instance.
    - [sort.Slice] is modelled by a stable insertion sort; Go leaves the
      relative order of elements that compare equal unspecified.
    - A Go [map] is an association list with unique keys, kept in the order
      of first insertion; ranging over it visits the entries in that order
      (one of the orders Go may choose). *)

From Stdlib Require Import ZArith QArith Qabs Qround List Bool String Lia Psatz.
From Stdlib Require Import Sorting.Sorted Sorting.Permutation.
From Stdlib Require Import Reals.
From Stdlib Require Floats.
From Stdlib Require Import Ascii DecimalString DecimalN DecimalPos.
From Stdlib Require Import Qpower.
Import ListNotations.

Local Open Scope Z_scope.

(** ** Errors and results *)

(** Go's [(value, error)] returns.  The sentinel errors of the packages are
    constructors; [errors.New] and [fmt.Errorf] values carry their message
    (format arguments left out). *)
Inductive error : Type :=
| ErrInvalidPrecision
| ErrAmountNil
| ErrAmountNegative
| ErrNotFinite
| ErrConversionFailed
| ErrInsufficientData
| ErrNoValidPools
| ErrSimulationFailed
| ErrInvalidPoolData (e : error)
| ErrInvalidScoringParameters (e : error)
| ErrMsg (msg : string)
| Panic (msg : string).              (* a Go panic: the call does not return *)

Inductive result (A : Type) : Type :=
| Ok (a : A)
| Err (e : error).
Arguments Ok {A} a.
Arguments Err {A} e.

Definition bind {A B : Type} (r : result A) (k : A -> result B) : result B :=
  match r with
  | Ok a => k a
  | Err e => Err e
  end.

Notation "x <- e ;; k" := (bind e (fun x => k))
  (at level 61, e at next level, right associativity).
Notation "' p <- e ;; k" := (bind e (fun p => k))
  (at level 61, p pattern, e at next level, right associativity).

Definition is_ok {A : Type} (r : result A) : bool :=
  match r with Ok _ => true | Err _ => false end.

(** [if cond { return err }] *)
Definition guard (failing : bool) (e : error) : result unit :=
  if failing then Err e else Ok tt.

(** ** Rationals as finite float64 values *)

Definition Qleb (x y : Q) : bool := Qle_bool x y.
Definition Qltb (x y : Q) : bool := negb (Qle_bool y x).
Definition Qeqb (x y : Q) : bool := Qeq_bool x y.

Declare Scope f64_scope.
Delimit Scope f64_scope with f64.
Notation "x <=? y" := (Qleb x y) : f64_scope.
Notation "x <? y" := (Qltb x y) : f64_scope.
Notation "x =? y" := (Qeqb x y) : f64_scope.
Notation "x >? y" := (Qltb y x) : f64_scope.
Notation "x >=? y" := (Qleb y x) : f64_scope.

(** [math.IsNaN], [math.IsInf(x, 0)] on a finite value. *)
Definition IsNaN (x : Q) : bool := false.
Definition IsInf (x : Q) : bool := false.

(** [math.Abs] *)
Definition Abs (x : Q) : Q := Qabs x.

(** Nearest integer, ties to even: the rounding of [fmt.Sprintf("%.Nf")]
    and of [LegacyDec]'s [chopPrecisionAndRound]. *)
Definition round_half_even (q : Q) : Z :=
  let f := Qfloor q in
  match (q - inject_Z f ?= 1 # 2)%Q with
  | Lt => f
  | Gt => f + 1
  | Eq => if Z.even f then f else f + 1
  end.

(** ** Rounding to binary64

    The value of a float64 operation is the exact result rounded to the
    nearest binary64 value, ties to the even significand (IEEE 754, the only
    rounding mode Go has).  A binary64 value has 53 significant bits, fewer
    below [2^-1022]; a result beyond the largest one is an infinity and
    outside the model. *)

(** [floor (log2 x)] for a positive [x]. *)
Definition floorLog2 (x : Q) : Z :=
  let k := Z.log2 (Qnum x) - Z.log2 (Zpos (Qden x)) in
  if (x <? 2 ^ k)%f64 then k - 1 else k.

(** The exponent of the last significant bit of the binary64 values next to
    [x]. *)
Definition ulpExponent (x : Q) : Z :=
  Z.max (floorLog2 (Qabs x) - 52) (- 1074).

Definition roundBinary64 (x : Q) : Q :=
  if (x =? 0)%f64 then 0%Q
  else
    let e := ulpExponent x in
    (inject_Z (round_half_even (x / 2 ^ e)) * 2 ^ e)%Q.

(** [a - b] on two float64 values. *)
Definition Float64Sub (a b : Q) : Q := roundBinary64 (a - b).

(** The rational a finite binary64 value of the kernel denotes, to compare
    the rounding above with the kernel's arithmetic. *)
Definition Float64Value (f : PrimFloat.float) : Q :=
  match FloatOps.Prim2SF f with
  | SpecFloat.S754_finite s m e =>
      ((if s then - (1) else 1) * inject_Z (Zpos m) * 2 ^ e)%Q
  | _ => 0%Q
  end.

(** ** cosmossdk.io/math LegacyDec (18 decimals) *)

Module LegacyDec.

Definition Precision : Z := 18.
Definition precisionReuse : Z := 10 ^ 18.
Definition fivePrecision : Z := precisionReuse / 2.

(** A decimal string [digits * 10^-decs], as [fmt.Sprintf("%.Nf", x)]
    prints it ([decs = N]). *)
Record decimal_string : Type := mkDecimal { digits : Z; decs : Z }.

(** [fmt.Sprintf("%.Nf", x)]: [x] rounded to [N] decimals, ties to even. *)
Definition Sprintf_f (N : Z) (x : Q) : decimal_string :=
  mkDecimal (round_half_even (x * inject_Z (10 ^ N))) N.

(** [big.Int.BitLen]: the length of the absolute value in bits. *)
Definition BitLen (i : Z) : Z := Z.log2_up (Z.abs i + 1).

(** The range of an [Int] and of a [LegacyDec], in bits:
    [LegacyDecimalPrecisionBits = 60],
    [decimalTruncateBits = LegacyDecimalPrecisionBits - 1],
    [maxDecBitLen = MaxBitLen + decimalTruncateBits]. *)
Definition MaxBitLen : Z := 256.
Definition LegacyDecimalPrecisionBits : Z := 60.
Definition decimalTruncateBits : Z := LegacyDecimalPrecisionBits - 1.
Definition maxDecBitLen : Z := MaxBitLen + decimalTruncateBits.

(** [LegacyNewDecFromStr]: more than 18 decimals is an error, and so is a
    decimal out of range. *)
Definition LegacyNewDecFromStr (s : decimal_string) : result Z :=
  if (decs s >? Precision) || (decs s <? 0) then
    Err (ErrMsg "value exceeds max precision")
  else
    let combined := digits s * 10 ^ (Precision - decs s) in
    if BitLen combined >? maxDecBitLen then Err (ErrMsg "decimal out of range")
    else Ok combined.

Definition chopPrecisionAndRoundNonNeg (d : Z) : Z :=
  let quo := d / precisionReuse in
  let rem := d mod precisionReuse in
  if rem =? 0 then quo
  else match rem ?= fivePrecision with
       | Lt => quo
       | Gt => quo + 1
       | Eq => if Z.even quo then quo else quo + 1
       end.

(** Removes 18 digits with banker's rounding. *)
Definition chopPrecisionAndRound (d : Z) : Z :=
  if d <? 0 then - chopPrecisionAndRoundNonNeg (- d)
  else chopPrecisionAndRoundNonNeg d.

Definition LegacyNewDec (i : Z) : Z := i * precisionReuse.
Definition LegacyNewDecFromInt (i : Z) : Z := i * precisionReuse.
Definition Mul (d d2 : Z) : Z := chopPrecisionAndRound (d * d2).
Definition Quo (d d2 : Z) : Z :=
  chopPrecisionAndRound (Z.quot (d * precisionReuse * precisionReuse) d2).
Definition TruncateInt (d : Z) : Z := Z.quot d precisionReuse.

(** [Float64()]: the decimal's value. *)
Definition Float64 (d : Z) : Q := d # (Z.to_pos precisionReuse).

End LegacyDec.

(** ** internal/utils/conversion.go *)

(** [factor := LegacyNewDec(1); for i := 0; i < precision; i++
    { factor = factor.Mul(LegacyNewDec(10)) }] *)
Fixpoint power_of_ten_dec (n : nat) : Z :=
  match n with
  | O => LegacyDec.LegacyNewDec 1
  | S k => LegacyDec.Mul (power_of_ten_dec k) (LegacyDec.LegacyNewDec 10)
  end.

Definition SDKIntToFloat64 (amount : Z) (precision : Z) : result Q :=
  if (precision <? 0) || (precision >? 18) then Err ErrInvalidPrecision
  else if amount <? 0 then Err ErrAmountNegative
  else
    let decAmount := LegacyDec.LegacyNewDecFromInt amount in
    let factor := power_of_ten_dec (Z.to_nat precision) in
    let result := LegacyDec.Quo decAmount factor in
    let resultFloat := LegacyDec.Float64 result in
    if IsNaN resultFloat || IsInf resultFloat then Err ErrNotFinite
    else Ok resultFloat.

Definition Float64ToSDKInt (amount : Q) (precision : Z) : result Z :=
  if (precision <? 0) || (precision >? 18) then Err ErrInvalidPrecision
  else if IsNaN amount || IsInf amount then Err ErrNotFinite
  else if (amount <? 0)%f64 then Err ErrAmountNegative
  else if (amount =? 0)%f64 then Ok 0
  else
    let amountStr := LegacyDec.Sprintf_f precision amount in
    match LegacyDec.LegacyNewDecFromStr amountStr with
    | Err _ => Err ErrConversionFailed
    | Ok decAmount =>
        let factor := power_of_ten_dec (Z.to_nat precision) in
        let product := LegacyDec.Mul decAmount factor in
        if LegacyDec.BitLen product >? LegacyDec.maxDecBitLen then
          Err (Panic "Int overflow")                        (* in Mul *)
        else
          let result := LegacyDec.TruncateInt product in
          if LegacyDec.BitLen result >? LegacyDec.MaxBitLen then
            Err (Panic "NewIntFromBigInt() out of bound")   (* in TruncateInt *)
          else if result <? 0 then Err ErrAmountNegative else Ok result
    end.

(** ** internal/types *)

Definition PoolID : Type := N.

(** [sdktypes.Coin] *)
Record Coin : Type := mkCoin { Denom : string; Amount : Z }.

Inductive SubActionType : Type :=
| SubActionSwap
| SubActionDepositLP
| SubActionWithdrawLP
| SubActionNoOp
| SubActionEmpty                      (* the empty string *)
| SubActionUnknown (name : string).   (* any other string *)

Record SubAction : Type := mkSubAction {
  Type_ : SubActionType;
  (* SWAP *)
  TokenIn : Coin;
  TokenOutDenom : string;
  PoolIDForSwap : PoolID;
  (* DEPOSIT_LP *)
  PoolIDToDeposit : PoolID;
  AmountsToDeposit : list Coin;
  (* WITHDRAW_LP *)
  PoolIDToWithdraw : PoolID;
  LPSharesToWithdraw : Z;
  TargetDenomOnExit : string;
  (* simulation results for slippage protection *)
  ExpectedTokenOut : Z;
  ExpectedAmountsOut : list Coin;
  ExpectedSlippage : Q;
  ExpectedSharesOut : Z;
  SlippageTolerancePct : Q
}.

Definition emptyCoin : Coin := mkCoin EmptyString 0.

(** The zero value of [types.SubAction]. *)
Definition zeroSubAction : SubAction :=
  mkSubAction SubActionEmpty emptyCoin EmptyString 0%N 0%N [] 0%N 0 EmptyString
              0 [] 0%Q 0 0%Q.

(** ** internal/wallet/transactions.go *)

Module Wallet.

(** The three vault messages the executor submits. *)
Inductive Msg : Type :=
| MsgPerformActionSwapByDenom
    (Creator : string) (VaultId : N) (Amount_ : Coin)
    (DenomIn DenomOut : string) (MinAmount MaxAmount : Coin)
| MsgPerformActionJoinPool
    (Creator : string) (VaultId : N) (PoolId : N)
    (MaxAmountsIn : list Coin) (ShareAmountOut : Z)
| MsgPerformActionExitPool
    (Creator : string) (VaultId : N) (PoolId : N)
    (MinAmountsOut : list Coin) (ShareAmountIn : Z) (TokenOutDenom_ : string).

Definition is_empty (s : string) : bool := String.eqb s EmptyString.

Definition validateSlippageParameters (slippageTolerance expectedSlippage : Q)
  : result unit :=
  _ <- guard (IsNaN slippageTolerance || IsInf slippageTolerance)
         (ErrMsg "slippage tolerance is not finite") ;;
  _ <- guard (slippageTolerance <? 0)%f64
         (ErrMsg "slippage tolerance cannot be negative") ;;
  _ <- guard (slippageTolerance >? 1)%f64
         (ErrMsg "slippage tolerance cannot exceed 100%") ;;
  if negb (expectedSlippage =? 0)%f64 then
    _ <- guard (IsNaN expectedSlippage || IsInf expectedSlippage)
           (ErrMsg "expected slippage is not finite") ;;
    _ <- guard (expectedSlippage <? 0)%f64
           (ErrMsg "expected slippage cannot be negative") ;;
    guard (expectedSlippage >? 1)%f64
          (ErrMsg "expected slippage cannot exceed 100%")
  else Ok tt.

Definition validateCoin (coin : Coin) : result unit :=
  _ <- guard (Amount coin =? 0) (ErrMsg "amount cannot be zero") ;;
  _ <- guard (Amount coin <? 0) (ErrMsg "amount cannot be negative") ;;
  guard (is_empty (Denom coin)) (ErrMsg "denomination cannot be empty").

(** [for i, c := range coins { if err := f(c); err != nil { return err } }] *)
Fixpoint forM_ {A : Type} (f : A -> result unit) (l : list A) : result unit :=
  match l with
  | [] => Ok tt
  | x :: rest => _ <- f x ;; forM_ f rest
  end.

Definition validateSwapAction (subAction : SubAction) : result unit :=
  _ <- guard (Amount (TokenIn subAction) =? 0)
         (ErrMsg "token in amount cannot be zero") ;;
  _ <- guard (Amount (TokenIn subAction) <? 0)
         (ErrMsg "token in amount cannot be negative") ;;
  _ <- guard (is_empty (Denom (TokenIn subAction)))
         (ErrMsg "token in denom cannot be empty") ;;
  _ <- guard (is_empty (TokenOutDenom subAction))
         (ErrMsg "token out denom cannot be empty") ;;
  _ <- guard (String.eqb (Denom (TokenIn subAction)) (TokenOutDenom subAction))
         (ErrMsg "input and output denoms cannot be the same") ;;
  _ <- guard (ExpectedTokenOut subAction <? 0)
         (ErrMsg "expected token out cannot be negative") ;;
  validateSlippageParameters (SlippageTolerancePct subAction)
                             (ExpectedSlippage subAction).

Definition validateDepositAction (subAction : SubAction) : result unit :=
  _ <- guard (PoolIDToDeposit subAction =? 0)%N
         (ErrMsg "pool ID cannot be zero") ;;
  _ <- guard (Nat.eqb (List.length (AmountsToDeposit subAction)) 0)
         (ErrMsg "amounts to deposit cannot be empty") ;;
  _ <- forM_ validateCoin (AmountsToDeposit subAction) ;;
  _ <- guard (ExpectedSharesOut subAction <? 0)
         (ErrMsg "expected shares out cannot be negative") ;;
  validateSlippageParameters (SlippageTolerancePct subAction)
                             (ExpectedSlippage subAction).

Definition validateWithdrawAction (subAction : SubAction) : result unit :=
  _ <- guard (PoolIDToWithdraw subAction =? 0)%N
         (ErrMsg "pool ID cannot be zero") ;;
  _ <- guard (LPSharesToWithdraw subAction =? 0)
         (ErrMsg "LP shares to withdraw cannot be zero") ;;
  _ <- guard (LPSharesToWithdraw subAction <? 0)
         (ErrMsg "LP shares to withdraw cannot be negative") ;;
  if Nat.ltb 0 (List.length (ExpectedAmountsOut subAction)) then
    _ <- validateSlippageParameters (SlippageTolerancePct subAction)
                                    (ExpectedSlippage subAction) ;;
    forM_ validateCoin (ExpectedAmountsOut subAction)
  else Ok tt.

Definition validateSubAction (subAction : SubAction) : result unit :=
  match Type_ subAction with
  | SubActionSwap => validateSwapAction subAction
  | SubActionDepositLP => validateDepositAction subAction
  | SubActionWithdrawLP => validateWithdrawAction subAction
  | SubActionEmpty => Err (ErrMsg "action type cannot be empty")
  | SubActionNoOp | SubActionUnknown _ => Err (ErrMsg "action has unknown type")
  end.

(** The body shared, line for line, by [calculateMinimumSwapAmount] (on
    [ExpectedTokenOut]) and [calculateMinimumShares] (on
    [ExpectedSharesOut]). *)
Definition calculateMinimum (expected : Z) (slippageTolerancePct : Q)
  : result Z :=
  let minAmount := 1 in
  if negb (expected =? 0) && (slippageTolerancePct >? 0)%f64 then
    _ <- guard (expected <? 0) (ErrMsg "expected output cannot be negative") ;;
    _ <- guard (slippageTolerancePct >=? 1)%f64
           (ErrMsg "slippage tolerance must be less than 100%") ;;
    let toleranceFactor := Float64Sub 1 slippageTolerancePct in
    _ <- guard (toleranceFactor <=? 0)%f64
           (ErrMsg "tolerance factor must be positive") ;;
    let expectedDec := LegacyDec.LegacyNewDecFromInt expected in
    toleranceFactorDec <-
      LegacyDec.LegacyNewDecFromStr (LegacyDec.Sprintf_f 18 toleranceFactor) ;;
    let minAmountDec := LegacyDec.Mul expectedDec toleranceFactorDec in
    let calculatedMinAmount := LegacyDec.TruncateInt minAmountDec in
    let minAmount :=
      if calculatedMinAmount =? 0 then 1 else calculatedMinAmount in
    _ <- guard (minAmount <? 0)
           (ErrMsg "calculated minimum amount is negative") ;;
    Ok minAmount
  else Ok minAmount.

Definition calculateMinimumSwapAmount (subAction : SubAction) : result Z :=
  calculateMinimum (ExpectedTokenOut subAction) (SlippageTolerancePct subAction).

Definition calculateMinimumShares (subAction : SubAction) : result Z :=
  calculateMinimum (ExpectedSharesOut subAction) (SlippageTolerancePct subAction).

(** One iteration of the loop of [calculateMinimumWithdrawAmounts]. *)
Definition minimumWithdrawCoin (toleranceFactor : Q) (expectedCoin : Coin)
  : result Coin :=
  _ <- validateCoin expectedCoin ;;
  let expectedDec := LegacyDec.LegacyNewDecFromInt (Amount expectedCoin) in
  toleranceFactorDec <-
    LegacyDec.LegacyNewDecFromStr (LegacyDec.Sprintf_f 18 toleranceFactor) ;;
  let minAmountDec := LegacyDec.Mul expectedDec toleranceFactorDec in
  let minAmount := LegacyDec.TruncateInt minAmountDec in
  let minAmount :=
    if (minAmount =? 0) && (Amount expectedCoin >? 0) then 1 else minAmount in
  Ok (mkCoin (Denom expectedCoin) minAmount).

Fixpoint mapM {A B : Type} (f : A -> result B) (l : list A) : result (list B) :=
  match l with
  | [] => Ok []
  | x :: rest => y <- f x ;; ys <- mapM f rest ;; Ok (y :: ys)
  end.

Definition calculateMinimumWithdrawAmounts (subAction : SubAction)
  : result (list Coin) :=
  if Nat.eqb (List.length (ExpectedAmountsOut subAction)) 0 then
    if negb (is_empty (TargetDenomOnExit subAction)) then
      Ok [mkCoin (TargetDenomOnExit subAction) 1]
    else Ok []
  else
    _ <- guard ((SlippageTolerancePct subAction <? 0)%f64
                || (SlippageTolerancePct subAction >? 1)%f64)
           (ErrMsg "invalid slippage tolerance") ;;
    let toleranceFactor := Float64Sub 1 (SlippageTolerancePct subAction) in
    _ <- guard ((toleranceFactor <? 0)%f64 || (toleranceFactor >? 1)%f64)
           (ErrMsg "calculated tolerance factor is invalid") ;;
    mapM (minimumWithdrawCoin toleranceFactor) (ExpectedAmountsOut subAction).

Definition validateSwapMessage (msg : Msg) : result unit :=
  match msg with
  | MsgPerformActionSwapByDenom creator vaultId amount denomIn denomOut
                                minAmount maxAmount =>
      _ <- guard (is_empty creator)
             (ErrMsg "swap message creator cannot be empty") ;;
      _ <- guard (vaultId =? 0)%N
             (ErrMsg "swap message vault ID cannot be zero") ;;
      _ <- guard ((Amount amount =? 0) || (Amount amount <? 0))
             (ErrMsg "swap message amount is invalid") ;;
      _ <- guard (is_empty (Denom amount))
             (ErrMsg "swap message input denom cannot be empty") ;;
      _ <- guard (is_empty denomOut)
             (ErrMsg "swap message output denom cannot be empty") ;;
      _ <- guard (Amount minAmount <? 0)
             (ErrMsg "swap message minimum amount is invalid") ;;
      guard (Amount maxAmount <? 0)
            (ErrMsg "swap message maximum amount is invalid")
  | _ => Ok tt
  end.

Definition createSwapMessage (creator : string) (subAction : SubAction)
           (vaultID : N) : result Msg :=
  minAmount <- calculateMinimumSwapAmount subAction ;;
  _ <- guard (minAmount <? 0) (ErrMsg "calculated minimum amount is invalid") ;;
  let msg :=
    MsgPerformActionSwapByDenom creator vaultID (TokenIn subAction)
      (Denom (TokenIn subAction)) (TokenOutDenom subAction)
      (mkCoin (TokenOutDenom subAction) minAmount)
      (mkCoin (TokenOutDenom subAction) 1000000000000000000) in
  _ <- validateSwapMessage msg ;;
  Ok msg.

Definition validateDepositMessage (msg : Msg) : result unit :=
  match msg with
  | MsgPerformActionJoinPool creator vaultId poolId maxAmountsIn shareAmountOut =>
      _ <- guard (is_empty creator)
             (ErrMsg "deposit message creator cannot be empty") ;;
      _ <- guard (vaultId =? 0)%N
             (ErrMsg "deposit message vault ID cannot be zero") ;;
      _ <- guard (poolId =? 0)%N
             (ErrMsg "deposit message pool ID cannot be zero") ;;
      _ <- guard (Nat.eqb (List.length maxAmountsIn) 0)
             (ErrMsg "deposit message must have at least one amount") ;;
      _ <- guard (shareAmountOut <? 0)
             (ErrMsg "deposit message share amount out is invalid") ;;
      forM_ validateCoin maxAmountsIn
  | _ => Ok tt
  end.

Definition createDepositLPMessage (creator : string) (subAction : SubAction)
           (vaultID : N) : result Msg :=
  minShares <- calculateMinimumShares subAction ;;
  _ <- guard (minShares <? 0) (ErrMsg "calculated minimum shares is invalid") ;;
  _ <- forM_ validateCoin (AmountsToDeposit subAction) ;;
  let maxAmountsIn := AmountsToDeposit subAction in
  let msg :=
    MsgPerformActionJoinPool creator vaultID (PoolIDToDeposit subAction)
      maxAmountsIn minShares in
  _ <- validateDepositMessage msg ;;
  Ok msg.

Definition validateWithdrawMessage (msg : Msg) : result unit :=
  match msg with
  | MsgPerformActionExitPool creator vaultId poolId minAmountsOut shareAmountIn _ =>
      _ <- guard (is_empty creator)
             (ErrMsg "withdraw message creator cannot be empty") ;;
      _ <- guard (vaultId =? 0)%N
             (ErrMsg "withdraw message vault ID cannot be zero") ;;
      _ <- guard (poolId =? 0)%N
             (ErrMsg "withdraw message pool ID cannot be zero") ;;
      _ <- guard ((shareAmountIn =? 0) || (shareAmountIn <? 0))
             (ErrMsg "withdraw message share amount in is invalid") ;;
      forM_ validateCoin minAmountsOut
  | _ => Ok tt
  end.

Definition createWithdrawLPMessage (creator : string) (subAction : SubAction)
           (vaultID : N) : result Msg :=
  _ <- guard (LPSharesToWithdraw subAction =? 0)
         (ErrMsg "LP shares to withdraw cannot be zero") ;;
  _ <- guard (LPSharesToWithdraw subAction <? 0)
         (ErrMsg "LP shares to withdraw cannot be negative") ;;
  minAmountsOut <- calculateMinimumWithdrawAmounts subAction ;;
  let msg :=
    MsgPerformActionExitPool creator vaultID (PoolIDToWithdraw subAction)
      minAmountsOut (LPSharesToWithdraw subAction)
      (TargetDenomOnExit subAction) in
  _ <- validateWithdrawMessage msg ;;
  Ok msg.

(** The body of the loop of [SubActionsToMessages]: validate, build, (the
    message's own [ValidateBasic] belongs to the chain's module). *)
Definition subActionToMessage (creator : string) (vaultID : N)
           (subAction : SubAction) : result Msg :=
  _ <- validateSubAction subAction ;;
  match Type_ subAction with
  | SubActionSwap => createSwapMessage creator subAction vaultID
  | SubActionDepositLP => createDepositLPMessage creator subAction vaultID
  | SubActionWithdrawLP => createWithdrawLPMessage creator subAction vaultID
  | _ => Err (ErrMsg "unknown SubAction type")
  end.

Definition SubActionsToMessages (creator : string) (subActions : list SubAction)
           (vaultID : N) : result (list Msg) :=
  _ <- guard (Nat.eqb (List.length subActions) 0)
         (ErrMsg "sub actions cannot be empty") ;;
  _ <- guard (vaultID =? 0)%N (ErrMsg "vault ID cannot be zero") ;;
  messages <- mapM (subActionToMessage creator vaultID) subActions ;;
  _ <- guard (Nat.eqb (List.length messages) 0)
         (ErrMsg "no valid messages were created") ;;
  Ok messages.

(** *** The specification's wording, to compare with the code

    "the executor embeds [min_out = floor(expected * (1 - slippage_tolerance))],
    with a floor of 1 unit when [expected > 0]". *)
Definition specMinOut (expected : Z) (slippageTolerance : Q) : Z :=
  let m := Qfloor (inject_Z expected * (1 - slippageTolerance)) in
  if expected >? 0 then Z.max 1 m else m.

(** What the code embeds: the tolerance factor is the float64 difference
    [1.0 - SlippageTolerancePct], printed with 18 decimals ([%.18f]) before
    it is multiplied. *)
Definition toleranceFactor18 (slippageTolerance : Q) : Q :=
  (inject_Z (round_half_even (Float64Sub 1 slippageTolerance * inject_Z (10 ^ 18)))
   / inject_Z (10 ^ 18))%Q.

Definition minOut18 (expected : Z) (slippageTolerance : Q) : Z :=
  Z.max 1 (Qfloor (inject_Z expected * toleranceFactor18 slippageTolerance)).

(** The minimum of a swap or deposit message: the default of 1 stands when
    there is no expected output or no tolerance. *)
Definition swapOrDepositMinimum (expected : Z) (slippageTolerance : Q) : Z :=
  if (expected =? 0) || (slippageTolerance <=? 0)%f64 then 1
  else minOut18 expected slippageTolerance.

End Wallet.

(** ** internal/types: tokens, pools, positions, parameters

    The records are parametric in the type [F] standing for [float64]: [Q]
    for the planner, selector and allocator, [R] for the volatility
    calculator, an abstract type for the scorer. *)

Set Implicit Arguments.
Section Types.
Variable F : Type.

Record PriceData : Type := mkPriceData {
  Timestamp : Z;       (* time.Time, as an instant on the time line *)
  Price : F
}.

Record Token : Type := mkToken {
  Symbol : string;
  TokenDenom : string;
  IBCDenom : string;
  TokenPrecision : Z;
  PriceUSD : F;
  OracleSourced : bool;
  TokenPriceData : list PriceData;
  Volatility : F
}.

Record ScoreComponents : Type := mkScoreComponents {
  WeightedAPR : F;
  ILRisk : F;
  AnnualizedVolatility : F;
  RewardScoreComponent : F;
  RiskScoreComponent : F;
  TvlScoreComponent : F;
  BonusScoreComponent : F;
  SentimentAdjustment : F
}.

Record PoolScoreResult : Type := mkPoolScoreResult {
  ScorePoolID : PoolID;
  Score : F;
  Components : ScoreComponents
}.

Record Pool : Type := mkPool {
  ID : PoolID;
  TokenA : Token;
  TokenB : Token;
  BalanceA : Z;
  BalanceB : Z;
  WeightA : F;
  WeightB : F;
  TvlUSD : F;
  Volume7dUSD : F;
  EdenRewardsAPR : F;
  UsdcFeesAPR : F;
  PriceImpactAPR : F;
  IsSmartShielded : bool;
  AgeInDays : Z;
  SwapFee : F;
  SentimentScore : F;
  TotalShares : Z;
  PoolScore : PoolScoreResult;
  HasCurrentPosition : bool;
  CurrentPositionAgeDays : Z;
  EstimatedPositionValue : F
}.

Record Position : Type := mkPosition {
  PosPoolID : PoolID;
  LPShares : Z;
  AgeDays : Z;
  EstimatedValue : F
}.

Record ScoringParameters : Type := mkScoringParameters {
  MaxPools : Z;
  MinAllocation : F;
  MaxAllocation : F;
  RebalanceThresholdAmount : F;
  MaxRebalancePercentPerCycle : F;
  MinLiquidUSDCBuffer : F;
  SmartShieldSlippagePercent : F;
  NormalPoolSlippagePercent : F;
  ViableSwapReductionFactor : F;
  ViableDepositReductionFactor : F;
  AprCoefficient : F;
  TradingVolumeCoefficient : F;
  EdenWeight : F;
  UsdcFeeWeight : F;
  PriceImpactWeight : F;
  IlRiskCoefficient : F;
  VolatilityCoefficient : F;
  NewPoolCoefficient : F;
  PoolMaturityDays : Z;
  IlHoldingPeriodYears : F;
  IlConfidenceFactor : F;
  SmartShieldReductionFactor : F;
  TvlCoefficient : F;
  MinTVLThreshold : F;
  SmartShieldBonus : F;
  ContinuityCoefficient : F;
  ContinuityLookbackDays : Z;
  SentimentImpactFactor : F;
  OptimizationIntervalCycles : Z;
  LearningRate : F;
  MaxParameterChange : F;
  ElysForcedAllocationMinimum : F
}.

End Types.
Unset Implicit Arguments.

(** ** Go maps and slices *)

Section GoMap.
Context {K V : Type} (eqb : K -> K -> bool).

(** [v, ok := m[k]] *)
Fixpoint map_get (m : list (K * V)) (k : K) : option V :=
  match m with
  | [] => None
  | (k', v) :: rest => if eqb k' k then Some v else map_get rest k
  end.

(** [m[k] = v] *)
Fixpoint map_set (m : list (K * V)) (k : K) (v : V) : list (K * V) :=
  match m with
  | [] => [(k, v)]
  | (k', v') :: rest =>
      if eqb k' k then (k, v) :: rest else (k', v') :: map_set rest k v
  end.

(** [delete(m, k)] *)
Fixpoint map_delete (m : list (K * V)) (k : K) : list (K * V) :=
  match m with
  | [] => []
  | (k', v') :: rest =>
      if eqb k' k then map_delete rest k else (k', v') :: map_delete rest k
  end.

Definition map_has (m : list (K * V)) (k : K) : bool :=
  match map_get m k with Some _ => true | None => false end.

End GoMap.

Definition PoolMap (V : Type) : Type := list (PoolID * V).
Definition pool_get {V : Type} (m : PoolMap V) (k : PoolID) : option V :=
  map_get N.eqb m k.
Definition pool_set {V : Type} (m : PoolMap V) (k : PoolID) (v : V) : PoolMap V :=
  map_set N.eqb m k v.
Definition pool_delete {V : Type} (m : PoolMap V) (k : PoolID) : PoolMap V :=
  map_delete N.eqb m k.

Definition StringMap (V : Type) : Type := list (string * V).
Definition str_get {V : Type} (m : StringMap V) (k : string) : option V :=
  map_get String.eqb m k.
Definition str_set {V : Type} (m : StringMap V) (k : string) (v : V)
  : StringMap V := map_set String.eqb m k v.

(** [sort.Slice(xs, less)], as a stable insertion sort. *)
Fixpoint sort_insert {A : Type} (less : A -> A -> bool) (x : A) (l : list A)
  : list A :=
  match l with
  | [] => [x]
  | y :: rest =>
      if less y x then y :: sort_insert less x rest else x :: y :: rest
  end.

Definition sort_Slice {A : Type} (less : A -> A -> bool) (l : list A) : list A :=
  fold_right (sort_insert less) [] l.

(** Descending order of a key, and the [less] function that sorts into it
    ([func(i, j int) bool { return key(xs[i]) > key(xs[j]) }]). *)
Definition descending {A : Type} (key : A -> Q) (a b : A) : Prop :=
  (key b <= key a)%Q.

Definition byKeyDesc {A : Type} (key : A -> Q) (a b : A) : bool :=
  Qltb (key b) (key a).

(** A [for ... range] loop over a slice whose body may [return] an error:
    the state after the last element, or the first error. *)
Fixpoint foldM {A S : Type} (body : S -> A -> result S) (l : list A) (s : S)
  : result S :=
  match l with
  | [] => Ok s
  | x :: rest => s' <- body s x ;; foldM body rest s'
  end.

Definition sumQ (l : list Q) : Q := fold_left Qplus l 0%Q.

(** [int64(x)] on a float: truncation toward zero. *)
Definition Qtruncate (x : Q) : Z :=
  if (x <? 0)%f64 then Qceiling x else Qfloor x.

(** ** internal/simulations (the simulator client, at its boundary) *)

Record SwapEstimationResult : Type := mkSwapEst {
  TokenOutAmount : Z;
  SwapSlippage : Q
}.

Record JoinPoolEstimationResult : Type := mkJoinEst {
  ShareAmountOut : Coin;
  JoinAmountsIn : list Coin;
  JoinSlippage : Q
}.

Record ExitPoolEstimationResult : Type := mkExitEst {
  AmountsOut : list Coin;
  ExitSlippage : Q
}.

(** The three RPC simulations; each takes the endpoint first. *)
Record Simulator : Type := mkSimulator {
  SimulateSwap : string -> Z -> string -> string -> result SwapEstimationResult;
  SimulateJoinPool : string -> N -> list Coin -> result JoinPoolEstimationResult;
  SimulateLeavePool : string -> N -> Z -> string -> result ExitPoolEstimationResult
}.

(** ** internal/planner/planner.go *)

Module Planner.

Record ExtendedAction : Type := mkExtendedAction {
  ActionPoolID : PoolID;
  DeltaUSD : Q;
  TargetLPShares : Z
}.

Definition validateScoringParams (params : ScoringParameters Q) : result unit :=
  _ <- guard (IsNaN (RebalanceThresholdAmount params)
              || IsInf (RebalanceThresholdAmount params))
         (ErrMsg "rebalance threshold is not finite") ;;
  _ <- guard (RebalanceThresholdAmount params <? 0)%f64
         (ErrMsg "rebalance threshold cannot be negative") ;;
  _ <- guard (RebalanceThresholdAmount params >? 100)%f64
         (ErrMsg "rebalance threshold cannot exceed 100%") ;;
  _ <- guard (IsNaN (MaxRebalancePercentPerCycle params)
              || IsInf (MaxRebalancePercentPerCycle params))
         (ErrMsg "max rebalance percent per cycle is not finite") ;;
  _ <- guard (MaxRebalancePercentPerCycle params <? 0)%f64
         (ErrMsg "max rebalance percent per cycle cannot be negative") ;;
  _ <- guard (MaxRebalancePercentPerCycle params >? 100)%f64
         (ErrMsg "max rebalance percent per cycle cannot exceed 100%") ;;
  _ <- guard (IsNaN (SmartShieldSlippagePercent params)
              || IsInf (SmartShieldSlippagePercent params))
         (ErrMsg "smart shield slippage percent is not finite") ;;
  _ <- guard ((SmartShieldSlippagePercent params <? 0)%f64
              || (SmartShieldSlippagePercent params >? 100)%f64)
         (ErrMsg "smart shield slippage percent must be between 0 and 100") ;;
  _ <- guard (IsNaN (NormalPoolSlippagePercent params)
              || IsInf (NormalPoolSlippagePercent params))
         (ErrMsg "normal pool slippage percent is not finite") ;;
  _ <- guard ((NormalPoolSlippagePercent params <? 0)%f64
              || (NormalPoolSlippagePercent params >? 100)%f64)
         (ErrMsg "normal pool slippage percent must be between 0 and 100") ;;
  _ <- guard (IsNaN (ViableSwapReductionFactor params)
              || IsInf (ViableSwapReductionFactor params))
         (ErrMsg "viable swap reduction factor is not finite") ;;
  _ <- guard ((ViableSwapReductionFactor params <=? 0)%f64
              || (ViableSwapReductionFactor params >? 1)%f64)
         (ErrMsg "viable swap reduction factor must be between 0 and 1") ;;
  _ <- guard (IsNaN (ViableDepositReductionFactor params)
              || IsInf (ViableDepositReductionFactor params))
         (ErrMsg "viable deposit reduction factor is not finite") ;;
  guard ((ViableDepositReductionFactor params <=? 0)%f64
         || (ViableDepositReductionFactor params >? 1)%f64)
        (ErrMsg "viable deposit reduction factor must be between 0 and 1").

Definition validateAllocation (total : Q) (entry : PoolID * Q) : result Q :=
  let allocation := snd entry in
  _ <- guard (IsNaN allocation || IsInf allocation)
         (ErrMsg "allocation is not finite") ;;
  _ <- guard (allocation <? 0)%f64 (ErrMsg "allocation is negative") ;;
  _ <- guard (allocation >? 1)%f64 (ErrMsg "allocation exceeds 100%") ;;
  Ok (total + allocation)%Q.

Definition validatePosition (pos : Position Q) : result unit :=
  _ <- guard (PosPoolID pos =? 0)%N (ErrMsg "position has invalid pool ID") ;;
  _ <- guard (LPShares pos <? 0) (ErrMsg "position has invalid LP shares") ;;
  _ <- guard (IsNaN (EstimatedValue pos) || IsInf (EstimatedValue pos))
         (ErrMsg "position has invalid estimated value") ;;
  guard (EstimatedValue pos <? 0)%f64
        (ErrMsg "position has negative estimated value").

Definition validateInputs
           (currentPositions : list (Position Q))
           (initialLiquidUSDC : Q)
           (targetAllocations : PoolMap Q)
           (totalVaultValueUSD : Q)
           (poolsData : PoolMap (Pool Q))
           (tokenDataMap : StringMap (Token Q))
           (scoringParams : ScoringParameters Q)
           (tendermintRPCEndpoint : string) : result unit :=
  _ <- guard (IsNaN initialLiquidUSDC || IsInf initialLiquidUSDC)
         (ErrMsg "initial liquid USDC is not finite") ;;
  _ <- guard (initialLiquidUSDC <? 0)%f64
         (ErrMsg "initial liquid USDC cannot be negative") ;;
  _ <- guard (IsNaN totalVaultValueUSD || IsInf totalVaultValueUSD)
         (ErrMsg "total vault value is not finite") ;;
  totalAllocation <- foldM validateAllocation targetAllocations 0%Q ;;
  _ <- guard (Abs (totalAllocation - 1) >? 1 # 100)%f64
         (ErrMsg "total allocations do not sum to 1.0") ;;
  _ <- Wallet.forM_ validatePosition currentPositions ;;
  _ <- guard (Nat.eqb (List.length tokenDataMap) 0)
         (ErrMsg "token data map is empty") ;;
  _ <- match validateScoringParams scoringParams with
       | Ok _ => Ok tt
       | Err e => Err (ErrInvalidScoringParameters e)
       end ;;
  guard (Wallet.is_empty tendermintRPCEndpoint)
        (ErrMsg "tendermint RPC endpoint cannot be empty").

Fixpoint findUSDC (tokens : StringMap (Token Q)) : option (Token Q) :=
  match tokens with
  | [] => None
  | (_, token) :: rest =>
      if String.eqb (Symbol token) "USDC" then Some token else findUSDC rest
  end.

Definition validateAndGetUSDCToken (tokenDataMap : StringMap (Token Q))
  : result (Token Q) :=
  match findUSDC tokenDataMap with
  | None => Err (ErrMsg "USDC token not found in token data map")
  | Some usdcToken =>
      _ <- guard (Wallet.is_empty (IBCDenom usdcToken))
             (ErrMsg "USDC IBCDenom is empty") ;;
      _ <- guard ((TokenPrecision usdcToken <? 0)
                  || (TokenPrecision usdcToken >? 18))
             (ErrMsg "USDC precision is invalid") ;;
      _ <- guard (IsNaN (PriceUSD usdcToken) || IsInf (PriceUSD usdcToken))
             (ErrMsg "USDC price is not finite") ;;
      _ <- guard (Abs (PriceUSD usdcToken - 1) >? 1 # 10)%f64
             (ErrMsg "USDC price is too far from $1") ;;
      Ok usdcToken
  end.

Fixpoint findPosition (positions : list (Position Q)) (poolID : PoolID)
  : option (Position Q) :=
  match positions with
  | [] => None
  | pos :: rest =>
      if (PosPoolID pos =? poolID)%N then Some pos else findPosition rest poolID
  end.

Definition getSlippageLimit (pool : Pool Q) (scoringParams : ScoringParameters Q)
  : Q :=
  if IsSmartShielded pool then (SmartShieldSlippagePercent scoringParams / 100)%Q
  else (NormalPoolSlippagePercent scoringParams / 100)%Q.

Definition calculateTargetShares (targetUSD : Q) (poolID : PoolID)
           (poolsData : PoolMap (Pool Q)) : result Z :=
  if (targetUSD <=? 0)%f64 then Ok 0
  else
    match pool_get poolsData poolID with
    | None => Err (ErrMsg "pool data not found")
    | Some poolInfo =>
        _ <- guard (TotalShares poolInfo =? 0)
               (ErrMsg "pool has zero total shares") ;;
        _ <- guard (TvlUSD poolInfo <=? 0)%f64 (ErrMsg "pool has invalid TVL") ;;
        let shareRatio := (targetUSD / TvlUSD poolInfo)%Q in
        _ <- guard (IsNaN shareRatio || IsInf shareRatio)
               (ErrMsg "share ratio calculation failed") ;;
        match LegacyDec.LegacyNewDecFromStr (LegacyDec.Sprintf_f 6 shareRatio) with
        | Err _ => Err (Panic "LegacyMustNewDecFromStr")
        | Ok ratioDec =>
            Ok (LegacyDec.TruncateInt
                  (LegacyDec.Mul ratioDec
                     (LegacyDec.LegacyNewDecFromInt (TotalShares poolInfo))))
        end
    end.

(** The set [allPoolIDs]: the pools of the current positions, then the
    pools of the target allocations. *)
Fixpoint add_id (ids : list PoolID) (id : PoolID) : list PoolID :=
  match ids with
  | [] => [id]
  | x :: rest => if (x =? id)%N then ids else x :: add_id rest id
  end.

Definition allPoolIDs (currentPositions : list (Position Q))
           (targetAllocations : PoolMap Q) : list PoolID :=
  fold_left add_id (map fst targetAllocations)
            (fold_left add_id (map (@PosPoolID Q) currentPositions) []).

Definition analyzePool
           (currentPositions : list (Position Q))
           (targetAllocations : PoolMap Q)
           (totalVaultValueUSD : Q)
           (poolsData : PoolMap (Pool Q))
           (scoringParams : ScoringParameters Q)
           (acc : list ExtendedAction * list ExtendedAction)
           (poolID : PoolID)
  : result (list ExtendedAction * list ExtendedAction) :=
  let '(withdrawals, deposits) := acc in
  let currentUSD :=
    match findPosition currentPositions poolID with
    | Some currentPos => EstimatedValue currentPos
    | None => 0%Q
    end in
  let targetAllocation :=
    match pool_get targetAllocations poolID with
    | Some a => a
    | None => 0%Q
    end in
  let targetUSD := (totalVaultValueUSD * targetAllocation)%Q in
  _ <- guard (IsNaN currentUSD || IsInf currentUSD)
         (ErrMsg "current USD value is not finite") ;;
  _ <- guard (IsNaN targetUSD || IsInf targetUSD)
         (ErrMsg "target USD value is not finite") ;;
  let deltaUSD := (targetUSD - currentUSD)%Q in
  let deltaPercentage :=
    if (targetUSD >? 0)%f64 then (deltaUSD / targetUSD * 100)%Q
    else if (currentUSD >? 0)%f64 then (- (100))%Q
    else 0%Q in
  _ <- guard (IsNaN deltaPercentage || IsInf deltaPercentage)
         (ErrMsg "delta percentage calculation failed") ;;
  if (deltaPercentage <? - RebalanceThresholdAmount scoringParams)%f64 then
    targetShares <- calculateTargetShares targetUSD poolID poolsData ;;
    Ok (withdrawals ++ [mkExtendedAction poolID deltaUSD targetShares], deposits)
  else if (deltaPercentage >? RebalanceThresholdAmount scoringParams)%f64 then
    targetShares <- calculateTargetShares targetUSD poolID poolsData ;;
    Ok (withdrawals, deposits ++ [mkExtendedAction poolID deltaUSD targetShares])
  else Ok (withdrawals, deposits).

Definition analyzeRequiredChanges
           (currentPositions : list (Position Q))
           (targetAllocations : PoolMap Q)
           (totalVaultValueUSD : Q)
           (poolsData : PoolMap (Pool Q))
           (scoringParams : ScoringParameters Q)
  : result (list ExtendedAction * list ExtendedAction) :=
  foldM (analyzePool currentPositions targetAllocations totalVaultValueUSD
                     poolsData scoringParams)
        (allPoolIDs currentPositions targetAllocations) ([], []).

(** [applyRebalancingLimits] caps the withdrawals only. *)
Definition maxWithdrawalUSD (totalVaultValueUSD : Q)
           (scoringParams : ScoringParameters Q) : Q :=
  (totalVaultValueUSD * (MaxRebalancePercentPerCycle scoringParams / 100))%Q.

Definition totalWithdrawalUSD (withdrawals : list ExtendedAction) : Q :=
  fold_left (fun total w => (total + Abs (DeltaUSD w))%Q) withdrawals 0%Q.

Definition applyRebalancingLimits
           (withdrawals deposits : list ExtendedAction)
           (totalVaultValueUSD : Q)
           (scoringParams : ScoringParameters Q)
  : list ExtendedAction * list ExtendedAction :=
  let maxWithdrawalUSD := maxWithdrawalUSD totalVaultValueUSD scoringParams in
  let totalWithdrawalUSD := totalWithdrawalUSD withdrawals in
  if (totalWithdrawalUSD <=? maxWithdrawalUSD)%f64 then (withdrawals, deposits)
  else
    let scalingFactor := (maxWithdrawalUSD / totalWithdrawalUSD)%Q in
    let cappedWithdrawals :=
      map (fun w => mkExtendedAction (ActionPoolID w)
                                     (DeltaUSD w * scalingFactor)%Q
                                     (TargetLPShares w))
          withdrawals in
    (cappedWithdrawals, deposits).

Definition validateExitEstimation (exitEst : ExitPoolEstimationResult)
  : result unit :=
  _ <- guard (IsNaN (ExitSlippage exitEst) || IsInf (ExitSlippage exitEst))
         (ErrMsg "exit estimation slippage is not finite") ;;
  _ <- guard (ExitSlippage exitEst <? 0)%f64
         (ErrMsg "exit estimation slippage is negative") ;;
  guard (Nat.eqb (List.length (AmountsOut exitEst)) 0)
        (ErrMsg "exit estimation returned no amounts").

Section WithSimulator.
Variable sim : Simulator.
Variable rpcEndpoint : string.

(** State of the withdrawal loop: the actions so far, the simulated liquid
    USDC and the non-USDC assets to consolidate. *)
Definition WithdrawState : Type := (list SubAction * Q * StringMap Z)%type.

Definition trackCoin (usdcToken : Token Q) (st : Q * StringMap Z) (coinOut : Coin)
  : result (Q * StringMap Z) :=
  let '(simulatedLiquidUSDC, tempNonUSDCAssets) := st in
  if String.eqb (Denom coinOut) (IBCDenom usdcToken) then
    match SDKIntToFloat64 (Amount coinOut) (TokenPrecision usdcToken) with
    | Err e => Err e
    | Ok usdcReceived => Ok ((simulatedLiquidUSDC + usdcReceived)%Q, tempNonUSDCAssets)
    end
  else
    match str_get tempNonUSDCAssets (Denom coinOut) with
    | Some existing =>
        Ok (simulatedLiquidUSDC,
            str_set tempNonUSDCAssets (Denom coinOut) (existing + Amount coinOut))
    | None =>
        Ok (simulatedLiquidUSDC,
            str_set tempNonUSDCAssets (Denom coinOut) (Amount coinOut))
    end.

Definition withdrawStep
           (currentPositions : list (Position Q))
           (poolsData : PoolMap (Pool Q))
           (usdcToken : Token Q)
           (scoringParams : ScoringParameters Q)
           (st : WithdrawState) (withdrawal : ExtendedAction)
  : result WithdrawState :=
  let '(actions, simulatedLiquidUSDC, tempNonUSDCAssets) := st in
  match findPosition currentPositions (ActionPoolID withdrawal) with
  | None => Ok st                                           (* continue *)
  | Some currentPos =>
      let sharesToWithdraw := LPShares currentPos - TargetLPShares withdrawal in
      if (sharesToWithdraw =? 0) || (sharesToWithdraw <? 0) then Ok st
      else
        match pool_get poolsData (ActionPoolID withdrawal) with
        | None => Err (ErrMsg "pool data missing for withdrawal")
        | Some poolInfo =>
            match SimulateLeavePool sim rpcEndpoint (ActionPoolID withdrawal)
                                    sharesToWithdraw (IBCDenom usdcToken) with
            | Err _ => Err ErrSimulationFailed
            | Ok exitEst =>
                _ <- validateExitEstimation exitEst ;;
                let maxSlippage := getSlippageLimit poolInfo scoringParams in
                let action :=
                  mkSubAction SubActionWithdrawLP emptyCoin EmptyString 0%N
                    0%N []
                    (ActionPoolID withdrawal) sharesToWithdraw (IBCDenom usdcToken)
                    0 (AmountsOut exitEst) (ExitSlippage exitEst) 0 maxSlippage in
                '(liquid', assets') <-
                  foldM (trackCoin usdcToken) (AmountsOut exitEst)
                        (simulatedLiquidUSDC, tempNonUSDCAssets) ;;
                Ok (actions ++ [action], liquid', assets')
            end
        end
  end.

Definition processWithdrawals
           (withdrawals : list ExtendedAction)
           (currentPositions : list (Position Q))
           (poolsData : PoolMap (Pool Q))
           (simulatedLiquidUSDC : Q)
           (usdcToken : Token Q)
           (scoringParams : ScoringParameters Q)
  : result WithdrawState :=
  let sorted :=
    sort_Slice (fun wi wj => (DeltaUSD wi <? DeltaUSD wj)%f64) withdrawals in
  foldM (withdrawStep currentPositions poolsData usdcToken scoringParams)
        sorted ([], simulatedLiquidUSDC, []).

(** [findViableSwapAmount]: at most [maxRetries] simulations, the amount
    scaled by [reductionFactor] after each failure. *)
Fixpoint findViableSwapAmount_loop (retries : nat) (currentAmount : Z)
         (fromDenom toDenom : string) (maxSlippage reductionFactor : Q)
  : result (SwapEstimationResult * Z) :=
  let notFound :=
    Err (ErrMsg "no viable swap amount found within slippage tolerance") in
  match retries with
  | O => notFound
  | S retries' =>
      if currentAmount =? 0 then notFound
      else
        let viable :=
          match SimulateSwap sim rpcEndpoint currentAmount fromDenom toDenom with
          | Ok swapEst =>
              if (SwapSlippage swapEst <=? maxSlippage)%f64
              then Some swapEst else None
          | Err _ => None
          end in
        match viable with
        | Some swapEst => Ok (swapEst, currentAmount)
        | None =>
            match SDKIntToFloat64 currentAmount 18 with
            | Err _ => notFound                             (* break *)
            | Ok currentAmountFloat =>
                match Float64ToSDKInt (currentAmountFloat * reductionFactor)%Q 18 with
                | Err (Panic msg) => Err (Panic msg)
                | Err _ => notFound                         (* break *)
                | Ok reduced =>
                    findViableSwapAmount_loop retries' reduced fromDenom toDenom
                                              maxSlippage reductionFactor
                end
            end
        end
  end.

Definition findViableSwapAmount (maxAmount : Z) (fromDenom toDenom : string)
           (maxSlippage reductionFactor : Q)
  : result (SwapEstimationResult * Z) :=
  findViableSwapAmount_loop 20 maxAmount fromDenom toDenom maxSlippage
                            reductionFactor.

Definition consolidateStep (usdcToken : Token Q)
           (scoringParams : ScoringParameters Q)
           (st : list SubAction * Q) (entry : string * Z)
  : result (list SubAction * Q) :=
  let '(actions, simulatedLiquidUSDC) := st in
  let '(denom, amount) := entry in
  let maxSlippage := (NormalPoolSlippagePercent scoringParams / 100)%Q in
  if amount =? 0 then Ok st
  else if String.eqb denom (IBCDenom usdcToken) then
    Err (ErrMsg "found USDC in non-USDC assets map")
  else
    match findViableSwapAmount amount denom (IBCDenom usdcToken) maxSlippage
                               (ViableSwapReductionFactor scoringParams) with
    | Err (Panic msg) => Err (Panic msg)
    | Err _ => Ok st                                        (* continue *)
    | Ok (swapEst, finalAmount) =>
        if finalAmount =? 0 then Ok st
        else
          let action :=
            mkSubAction SubActionSwap (mkCoin denom finalAmount)
              (IBCDenom usdcToken) 0%N 0%N [] 0%N 0 EmptyString
              (TokenOutAmount swapEst) [] (SwapSlippage swapEst) 0 maxSlippage in
          usdcReceived <-
            SDKIntToFloat64 (TokenOutAmount swapEst) (TokenPrecision usdcToken) ;;
          Ok (actions ++ [action], (simulatedLiquidUSDC + usdcReceived)%Q)
    end.

Definition processConsolidation
           (tempNonUSDCAssets : StringMap Z)
           (simulatedLiquidUSDC : Q)
           (usdcToken : Token Q)
           (scoringParams : ScoringParameters Q)
  : result (list SubAction * Q) :=
  foldM (consolidateStep usdcToken scoringParams) tempNonUSDCAssets
        ([], simulatedLiquidUSDC).

Definition findViableDepositAmount (poolID : N) (amountsIn : Coin)
           (poolInfo : Pool Q) (scoringParams : ScoringParameters Q)
  : result (JoinPoolEstimationResult * Z) :=
  let maxSlippage := getSlippageLimit poolInfo scoringParams in
  let viable (r : result JoinPoolEstimationResult) :=
    match r with
    | Ok joinEst =>
        if (JoinSlippage joinEst <=? maxSlippage)%f64 then Some joinEst else None
    | Err _ => None
    end in
  match viable (SimulateJoinPool sim rpcEndpoint poolID [amountsIn]) with
  | Some joinEst => Ok (joinEst, Amount amountsIn)
  | None =>
      let reductionFactorInt :=
        Qtruncate (ViableDepositReductionFactor scoringParams * 100)%Q in
      let reducedAmount := Z.quot (Amount amountsIn * reductionFactorInt) 100 in
      let reducedAmountsIn := mkCoin (Denom amountsIn) reducedAmount in
      match viable (SimulateJoinPool sim rpcEndpoint poolID [reducedAmountsIn]) with
      | Some joinEst => Ok (joinEst, reducedAmount)
      | None =>
          Err (ErrMsg "no viable deposit amount found within slippage tolerance")
      end
  end.

(** State of the deposit loop: the actions so far and the simulated liquid
    USDC. *)
Definition DepositState : Type := (list SubAction * Q)%type.

Definition depositStep
           (poolsData : PoolMap (Pool Q))
           (usdcToken : Token Q)
           (scoringParams : ScoringParameters Q)
           (st : DepositState) (deposit : ExtendedAction)
  : result DepositState :=
  let '(actions, simulatedLiquidUSDC) := st in
  match pool_get poolsData (ActionPoolID deposit) with
  | None => Err (ErrMsg "pool data missing for deposit")
  | Some poolInfo =>
      let targetUSDCAmount := DeltaUSD deposit in
      if (targetUSDCAmount <=? 0)%f64 then Ok st            (* continue *)
      else
        let maxAvailableForDeposit :=
          (simulatedLiquidUSDC - MinLiquidUSDCBuffer scoringParams)%Q in
        let maxAvailableForDeposit :=
          if (maxAvailableForDeposit <? 0)%f64 then 0%Q
          else maxAvailableForDeposit in
        let targetUSDCAmount :=
          if (targetUSDCAmount >? maxAvailableForDeposit)%f64
          then maxAvailableForDeposit else targetUSDCAmount in
        if (targetUSDCAmount <? 1)%f64 then Ok st           (* dust *)
        else
          usdcAmount <- Float64ToSDKInt targetUSDCAmount (TokenPrecision usdcToken) ;;
          let amountsIn := mkCoin (IBCDenom usdcToken) usdcAmount in
          match findViableDepositAmount (ActionPoolID deposit) amountsIn
                                        poolInfo scoringParams with
          | Err _ => Ok st                                  (* continue *)
          | Ok (joinEst, finalAmount) =>
              if finalAmount =? 0 then Ok st
              else
                let maxSlippage := getSlippageLimit poolInfo scoringParams in
                let action :=
                  mkSubAction SubActionDepositLP emptyCoin EmptyString 0%N
                    (ActionPoolID deposit)
                    [mkCoin (IBCDenom usdcToken) finalAmount]
                    0%N 0 EmptyString 0 []
                    (JoinSlippage joinEst) (Amount (ShareAmountOut joinEst))
                    maxSlippage in
                usedUSDC <- SDKIntToFloat64 finalAmount (TokenPrecision usdcToken) ;;
                Ok (actions ++ [action], (simulatedLiquidUSDC - usedUSDC)%Q)
          end
  end.

Definition sortDeposits (deposits : list ExtendedAction) : list ExtendedAction :=
  sort_Slice (fun di dj => (DeltaUSD di >? DeltaUSD dj)%f64) deposits.

Definition processDeposits
           (deposits : list ExtendedAction)
           (poolsData : PoolMap (Pool Q))
           (simulatedLiquidUSDC : Q)
           (usdcToken : Token Q)
           (scoringParams : ScoringParameters Q)
  : result (list SubAction) :=
  '(actions, _) <-
    foldM (depositStep poolsData usdcToken scoringParams)
          (sortDeposits deposits) ([], simulatedLiquidUSDC) ;;
  Ok actions.

(** The states of the deposit loop after each deposit considered, in the
    order of the loop (up to the first error, if any). *)
Fixpoint depositTrace
         (poolsData : PoolMap (Pool Q))
         (usdcToken : Token Q)
         (scoringParams : ScoringParameters Q)
         (deposits : list ExtendedAction) (st : DepositState)
  : list DepositState :=
  match deposits with
  | [] => []
  | deposit :: rest =>
      match depositStep poolsData usdcToken scoringParams st deposit with
      | Ok st' => st' :: depositTrace poolsData usdcToken scoringParams rest st'
      | Err _ => []
      end
  end.

(** Half a base unit of USDC, in USDC: what rounding the amount to the
    token's precision can add to a deposit. *)
Definition halfBaseUnit (usdcToken : Token Q) : Q :=
  ((1 # 2) / inject_Z (10 ^ TokenPrecision usdcToken))%Q.

Definition GenerateActionPlan
           (currentPositions : list (Position Q))
           (initialLiquidUSDC : Q)
           (targetAllocations : PoolMap Q)
           (totalVaultValueUSD : Q)
           (poolsData : PoolMap (Pool Q))
           (tokenDataMap : StringMap (Token Q))
           (scoringParams : ScoringParameters Q)
  : result (list SubAction * list SubAction) :=
  _ <- validateInputs currentPositions initialLiquidUSDC targetAllocations
         totalVaultValueUSD poolsData tokenDataMap scoringParams rpcEndpoint ;;
  if (totalVaultValueUSD <=? 0)%f64 && (initialLiquidUSDC <=? 0)%f64 then
    Ok ([], [])
  else
    let totalVaultValueUSD :=
      if (totalVaultValueUSD <=? 0)%f64 && (initialLiquidUSDC >? 0)%f64
      then initialLiquidUSDC else totalVaultValueUSD in
    usdcToken <- validateAndGetUSDCToken tokenDataMap ;;
    let simulatedLiquidUSDC := initialLiquidUSDC in
    '(highLevelWithdrawals, highLevelDeposits) <-
      analyzeRequiredChanges currentPositions targetAllocations
        totalVaultValueUSD poolsData scoringParams ;;
    let '(highLevelWithdrawals, highLevelDeposits) :=
      applyRebalancingLimits highLevelWithdrawals highLevelDeposits
        totalVaultValueUSD scoringParams in
    '(withdrawalActions, newLiquidUSDC, tempNonUSDCAssets) <-
      processWithdrawals highLevelWithdrawals currentPositions poolsData
        simulatedLiquidUSDC usdcToken scoringParams ;;
    let simulatedLiquidUSDC := newLiquidUSDC in
    '(consolidationActions, finalLiquidUSDC) <-
      processConsolidation tempNonUSDCAssets simulatedLiquidUSDC usdcToken
        scoringParams ;;
    let simulatedLiquidUSDC := finalLiquidUSDC in
    let withdrawalActions := withdrawalActions ++ consolidationActions in
    depositActions <-
      processDeposits highLevelDeposits poolsData simulatedLiquidUSDC usdcToken
        scoringParams ;;
    Ok (withdrawalActions, depositActions).

End WithSimulator.


(** The USD value a plan withdraws: the USDC its [WithdrawLP] actions expect
    out (every exit of the planner targets USDC, priced at 1 USD). *)
Definition expectedUSDC (usdcToken : Token Q) (action : SubAction) : Q :=
  fold_left
    (fun total coinOut =>
       if String.eqb (Denom coinOut) (IBCDenom usdcToken) then
         (total + inject_Z (Amount coinOut)
                  / inject_Z (10 ^ TokenPrecision usdcToken))%Q
       else total)
    (ExpectedAmountsOut action) 0%Q.

Definition isWithdrawLP (action : SubAction) : bool :=
  match Type_ action with SubActionWithdrawLP => true | _ => false end.

Definition totalWithdrawnUSD (usdcToken : Token Q) (actions : list SubAction) : Q :=
  fold_left (fun total action => (total + expectedUSDC usdcToken action)%Q)
            (filter isWithdrawLP actions) 0%Q.

(** A withdrawal with its delta scaled, as [applyRebalancingLimits] builds it. *)
Definition scaleDelta (scalingFactor : Q) (w : ExtendedAction) : ExtendedAction :=
  mkExtendedAction (ActionPoolID w) (DeltaUSD w * scalingFactor)%Q (TargetLPShares w).

End Planner.

(** ** Example data *)

Module Examples.

Local Open Scope Q_scope.

Definition noComponents : ScoreComponents Q := mkScoreComponents 0 0 0 0 0 0 0 0.

Definition scored (id : PoolID) (score : Q) : PoolScoreResult Q :=
  mkPoolScoreResult id score noComponents.

Definition token (symbol denom ibcDenom : string) (precision : Z) : Token Q :=
  mkToken symbol denom ibcDenom precision 1 true [] (1 # 2).

Definition usdc : Token Q := token "USDC" "uusdc" "ibc/usdc" 6.
Definition atom : Token Q := token "ATOM" "uatom" "ibc/atom" 6.
Definition elys : Token Q := token "ELYS" "uelys" "uelys" 6.

(** A pool of [tokenA] against USDC worth one USD per share. *)
Definition pool (id : PoolID) (tokenA : Token Q) (totalShares : Z) : Pool Q :=
  mkPool id tokenA usdc 1000000 1000000 (1 # 2) (1 # 2)
         (inject_Z totalShares) 50000 (1 # 10) (1 # 20) (1 # 100)
         false 400 (3 # 1000) 0 totalShares (scored id 0) false 0 0.

Definition parameters : ScoringParameters Q :=
  mkScoringParameters
    2 (1 # 10) (7 # 10)       (* MaxPools, MinAllocation, MaxAllocation *)
    5 10 50                   (* threshold %, max withdrawal % per cycle, buffer *)
    1 3 (9 # 10) (9 # 10)     (* slippage limits %, reduction factors *)
    1 1 1 1 1 (- (1)) (- (1)) (- (1)) 30
    1 1 (1 # 2) 1 1000 1 1 30 1 0 0 0
    (2 # 10).                 (* ElysForcedAllocationMinimum *)

Definition withMaxPools (params : ScoringParameters Q) (maxPools : Z)
           (minAlloc maxAlloc : Q) : ScoringParameters Q :=
  mkScoringParameters maxPools minAlloc maxAlloc
    (RebalanceThresholdAmount params) (MaxRebalancePercentPerCycle params)
    (MinLiquidUSDCBuffer params) (SmartShieldSlippagePercent params)
    (NormalPoolSlippagePercent params) (ViableSwapReductionFactor params)
    (ViableDepositReductionFactor params) (AprCoefficient params)
    (TradingVolumeCoefficient params) (EdenWeight params) (UsdcFeeWeight params)
    (PriceImpactWeight params) (IlRiskCoefficient params)
    (VolatilityCoefficient params) (NewPoolCoefficient params)
    (PoolMaturityDays params) (IlHoldingPeriodYears params)
    (IlConfidenceFactor params) (SmartShieldReductionFactor params)
    (TvlCoefficient params) (MinTVLThreshold params) (SmartShieldBonus params)
    (ContinuityCoefficient params) (ContinuityLookbackDays params)
    (SentimentImpactFactor params) (OptimizationIntervalCycles params)
    (LearningRate params) (MaxParameterChange params)
    (ElysForcedAllocationMinimum params).

(** A simulator without slippage: an exit pays one USDC per share, a join
    gives one share per USDC, a swap pays one for one. *)
Definition flatSimulator : Simulator :=
  mkSimulator
    (fun _ amount _ _ => Ok (mkSwapEst amount 0))
    (fun _ _ amountsIn =>
       Ok (mkJoinEst (mkCoin "shares"
                             (fold_left (fun t c => t + Amount c / 1000000)%Z amountsIn 0%Z))
                     amountsIn 0))
    (fun _ _ shares denom => Ok (mkExitEst [mkCoin denom (shares * 1000000)%Z] 0)).

(** A swap of ATOM to USDC, for the message builder. *)
Definition usdcSwap (expected : Z) (tolerance : Q) : SubAction :=
  mkSubAction SubActionSwap (mkCoin "uatom" 1000) "uusdc" 0%N 0%N [] 0%N 0
              EmptyString expected [] 0%Q 0 tolerance.

(** A deposit of 1000 USDC into pool 2 and a withdrawal of 1000 shares of
    pool 1 into USDC, for the message builder. *)
Definition usdcDeposit (expectedShares : Z) (tolerance : Q) : SubAction :=
  mkSubAction SubActionDepositLP emptyCoin EmptyString 0%N 2%N
              [mkCoin "uusdc" 1000] 0%N 0 EmptyString 0 [] 0%Q expectedShares
              tolerance.

Definition usdcWithdrawal (expected : Z) (tolerance : Q) : SubAction :=
  mkSubAction SubActionWithdrawLP emptyCoin EmptyString 0%N 0%N [] 1%N 1000
              "uusdc" 0 [mkCoin "uusdc" expected] 0%Q 0 tolerance.

(** The vault holds 1000 shares of pool 1, worth 1000 USD, and no liquid
    USDC; the target puts everything into pool 2; at most 10 percent of the
    vault may be withdrawn per cycle. *)
Definition positionsInPool1 : list (Position Q) := [mkPosition 1%N 1000 10 1000%Q].
Definition allIntoPool2 : PoolMap Q := [(2%N, 1%Q)].
Definition twoPools : PoolMap (Pool Q) :=
  [(1%N, pool 1%N atom 1000000); (2%N, pool 2%N atom 1000000)].
Definition tokens : StringMap (Token Q) := [("uusdc"%string, usdc); ("uatom"%string, atom)].

(** Three pools, the third one with ELYS, scored 4, 1 and 5 (in the order
    the scorer returned them). *)
Definition threePools : PoolMap (Pool Q) :=
  [(1%N, pool 1%N atom 1000000); (2%N, pool 2%N atom 1000000);
   (3%N, pool 3%N elys 1000000)].
Definition scoredThree : list (PoolScoreResult Q) :=
  [scored 2%N 4; scored 3%N 1; scored 1%N 5].

(** Two selected pools scored 3 and 1. *)
Definition scoredTwo : PoolMap (PoolScoreResult Q) :=
  [(1%N, scored 1%N 3); (2%N, scored 2%N 1)].

(** Bounds that leave the allocator next to no room: at least 0.499995 and
    at most 0.5 per pool. *)
Definition tightParameters : ScoringParameters Q :=
  withMaxPools parameters 2 (99999 # 200000) (1 # 2).


End Examples.

(** ** internal/analyzer/SelectTopPools.go: selector and allocator *)

Module Analyzer.

Definition maxAllocationIterations : nat := 20.

(** [poolData.TokenA.Denom == "uelys" || poolData.TokenB.Denom == "uelys"],
    for a pool present in [poolsDataMap]. *)
Definition containsElys (poolsDataMap : PoolMap (Pool Q)) (poolID : PoolID)
  : bool :=
  match pool_get poolsDataMap poolID with
  | Some poolData =>
      String.eqb (TokenDenom (TokenA poolData)) "uelys"
      || String.eqb (TokenDenom (TokenB poolData)) "uelys"
  | None => false
  end.

(** The inner loop that compares a further ELYS pool with the current best:
    [for _, existing := range scoredPools
       { if existing.PoolID == elysPoolID && poolScore.Score > existing.Score
           { elysPoolID = poolScore.PoolID; break } }] *)
Fixpoint compareWithBestElys (scoredPools : list (PoolScoreResult Q))
         (elysPoolID : PoolID) (poolScore : PoolScoreResult Q) : PoolID :=
  match scoredPools with
  | [] => elysPoolID
  | existingPoolScore :: rest =>
      if (ScorePoolID existingPoolScore =? elysPoolID)%N
         && (Score poolScore >? Score existingPoolScore)%f64
      then ScorePoolID poolScore
      else compareWithBestElys rest elysPoolID poolScore
  end.

(** State of the filtering loop: [validScoredPools], [elysPoolID],
    [elysPoolFound]. *)
Definition FilterState : Type := (list (PoolScoreResult Q) * PoolID * bool)%type.

Definition filterStep (scoredPools : list (PoolScoreResult Q))
           (poolsDataMap : PoolMap (Pool Q))
           (st : FilterState) (poolScore : PoolScoreResult Q)
  : result FilterState :=
  let '(validScoredPools, elysPoolID, elysPoolFound) := st in
  if IsNaN (Score poolScore) || IsInf (Score poolScore) then
    Err (ErrMsg "pool has invalid score")
  else
    let validScoredPools := validScoredPools ++ [poolScore] in
    if containsElys poolsDataMap (ScorePoolID poolScore) then
      if negb elysPoolFound then
        Ok (validScoredPools, ScorePoolID poolScore, true)
      else
        Ok (validScoredPools,
            compareWithBestElys scoredPools elysPoolID poolScore, elysPoolFound)
    else Ok (validScoredPools, elysPoolID, elysPoolFound).

Definition sortByScoreDesc (pools : list (PoolScoreResult Q))
  : list (PoolScoreResult Q) :=
  sort_Slice (fun pi pj => (Score pi >? Score pj)%f64) pools.

Definition SelectTopPools
           (scoredPools : list (PoolScoreResult Q))
           (params : ScoringParameters Q)
           (poolsDataMap : PoolMap (Pool Q))
  : result (list PoolID * PoolID) :=
  if Nat.eqb (List.length scoredPools) 0 then
    Err (ErrMsg "no pools provided for selection")
  else if MaxPools params <=? 0 then
    Err (ErrMsg "MaxPools parameter must be positive")
  else
    '(validScoredPools, elysPoolID, elysPoolFound) <-
      foldM (filterStep scoredPools poolsDataMap) scoredPools ([], 0%N, false) ;;
    if Nat.eqb (List.length validScoredPools) 0 then Err ErrNoValidPools
    else
      let validScoredPools := sortByScoreDesc validScoredPools in
      let numberOfPoolsToSelect :=
        if MaxPools params >? Z.of_nat (List.length validScoredPools)
        then List.length validScoredPools
        else Z.to_nat (MaxPools params) in
      let selectedPoolsList :=
        map (@ScorePoolID Q) (firstn numberOfPoolsToSelect validScoredPools) in
      let selectedPoolsMap (id : PoolID) :=
        existsb (N.eqb id) selectedPoolsList in
      let selectedPoolsList :=
        if elysPoolFound && negb (selectedPoolsMap elysPoolID) then
          let withoutLowest :=
            if Nat.ltb 0 (List.length selectedPoolsList)
            then removelast selectedPoolsList else selectedPoolsList in
          withoutLowest ++ [elysPoolID]
        else selectedPoolsList in
      Ok (selectedPoolsList, elysPoolID).

(** The scored pools whose token set holds the forced asset, and the IDs of
    the top [MaxPools] pools by score: the terms the selector's claim is
    stated in. *)
Definition elysPools (poolsDataMap : PoolMap (Pool Q))
           (scoredPools : list (PoolScoreResult Q)) : list (PoolScoreResult Q) :=
  filter (fun p => containsElys poolsDataMap (ScorePoolID p)) scoredPools.

Definition topPools (params : ScoringParameters Q)
           (scoredPools : list (PoolScoreResult Q)) : list PoolID :=
  map (@ScorePoolID Q)
      (firstn (Z.to_nat (MaxPools params)) (sortByScoreDesc scoredPools)).

(** *** DetermineTargetAllocations *)

(** [allocations], [lockedAllocations], [unlockedPoolScores] *)
Record AllocState : Type := mkAllocState {
  allocations : PoolMap Q;
  lockedAllocations : PoolMap Q;
  unlockedPoolScores : PoolMap Q
}.

Definition collectScore (scoredPoolsMap : PoolMap (PoolScoreResult Q))
           (st : list (PoolID * Q) * Q) (id : PoolID)
  : result (list (PoolID * Q) * Q) :=
  let '(validPools, totalScore) := st in
  match pool_get scoredPoolsMap id with
  | None => Err (ErrMsg "score result not found for selected pool ID")
  | Some scoreResult =>
      if IsNaN (Score scoreResult) || IsInf (Score scoreResult) then
        Err (ErrMsg "pool has invalid score")
      else if (Score scoreResult <=? 0)%f64 then
        Err (ErrMsg "pool has non-positive score")
      else Ok (validPools ++ [(id, Score scoreResult)],
               (totalScore + Score scoreResult)%Q)
  end.

(** The minimum that applies to pool [id]. *)
Definition effectiveMin (params : ScoringParameters Q) (elysPoolID id : PoolID)
  : Q :=
  if (id =? elysPoolID)%N && negb (elysPoolID =? 0)%N
  then ElysForcedAllocationMinimum params
  else MinAllocation params.

(** The loop over [unlockedPoolScores] inside one iteration: state is
    [allocations], [lockedAllocations], [poolsToLock], [madeChanges]. *)
Definition constrainPool (params : ScoringParameters Q) (elysPoolID : PoolID)
           (totalUnlockedScore remainingPercent : Q)
           (st : PoolMap Q * PoolMap Q * list PoolID * bool)
           (entry : PoolID * Q)
  : PoolMap Q * PoolMap Q * list PoolID * bool :=
  let '(allocs, locked, poolsToLock, madeChanges) := st in
  let '(id, score) := entry in
  let currentAlloc := (score / totalUnlockedScore * remainingPercent)%Q in
  let allocs := pool_set allocs id currentAlloc in
  let minAlloc := effectiveMin params elysPoolID id in
  if (currentAlloc <? minAlloc)%f64 then
    (allocs, pool_set locked id minAlloc, poolsToLock ++ [id], true)
  else if (currentAlloc >? MaxAllocation params)%f64 then
    (allocs, pool_set locked id (MaxAllocation params), poolsToLock ++ [id], true)
  else (allocs, locked, poolsToLock, madeChanges).

(** [for madeChanges && iteration < maxAllocationIterations { ... }]; the
    boolean returned is [madeChanges] when the loop is left. *)
Fixpoint enforceConstraints (fuel : nat) (params : ScoringParameters Q)
         (elysPoolID : PoolID) (st : AllocState) : result (AllocState * bool) :=
  match fuel with
  | O => Ok (st, true)
  | S fuel' =>
      let remainingPercent :=
        fold_left (fun r entry => (r - snd entry)%Q) (lockedAllocations st) 1%Q in
      if (remainingPercent <? - (1 # 100000))%f64 then
        Err (ErrMsg "allocation constraint enforcement resulted in over-allocation")
      else
        let remainingPercent :=
          if (remainingPercent <? 0)%f64 then 0%Q else remainingPercent in
        let totalUnlockedScore :=
          fold_left (fun t entry => (t + snd entry)%Q) (unlockedPoolScores st) 0%Q in
        if Nat.eqb (List.length (unlockedPoolScores st)) 0 then Ok (st, false)
        else if (totalUnlockedScore <=? 0)%f64 then
          Err (ErrMsg "total unlocked score is non-positive during constraint enforcement")
        else
          let '(allocs, locked, poolsToLock, madeChanges) :=
            fold_left (constrainPool params elysPoolID totalUnlockedScore
                                     remainingPercent)
                      (unlockedPoolScores st)
                      (allocations st, lockedAllocations st, [], false) in
          let unlocked := fold_left pool_delete poolsToLock (unlockedPoolScores st) in
          let st' := mkAllocState allocs locked unlocked in
          if madeChanges then enforceConstraints fuel' params elysPoolID st'
          else Ok (st', false)
  end.

(** The final assignment loop: [targetAllocations] and [finalSum]. *)
Definition assignFinal (st : AllocState) (acc : PoolMap Q * Q) (id : PoolID)
  : result (PoolMap Q * Q) :=
  let '(targetAllocations, finalSum) := acc in
  match pool_get (lockedAllocations st) id with
  | Some lockedVal =>
      Ok (pool_set targetAllocations id lockedVal, (finalSum + lockedVal)%Q)
  | None =>
      match pool_get (allocations st) id with
      | Some unlocked =>
          Ok (pool_set targetAllocations id unlocked, (finalSum + unlocked)%Q)
      | None => Err (ErrMsg "allocation not found for pool")
      end
  end.

(** The final validation of one entry of [targetAllocations]. *)
Definition violatesConstraints (params : ScoringParameters Q)
           (elysPoolID : PoolID) (entry : PoolID * Q) : bool :=
  let '(id, alloc) := entry in
  let minRequired := effectiveMin params elysPoolID id in
  (alloc <? minRequired - (1 # 100000))%f64
  || (alloc >? MaxAllocation params + (1 # 100000))%f64.

Definition DetermineTargetAllocations
           (selectedPoolIDs : list PoolID)
           (scoredPoolsMap : PoolMap (PoolScoreResult Q))
           (params : ScoringParameters Q)
           (elysPoolID : PoolID)
  : result (PoolMap Q) :=
  let numSelected := List.length selectedPoolIDs in
  if Nat.eqb numSelected 0 then Ok []
  else
    _ <- guard (IsNaN (MinAllocation params) || IsInf (MinAllocation params))
           (ErrMsg "MinAllocation is not finite") ;;
    _ <- guard (IsNaN (MaxAllocation params) || IsInf (MaxAllocation params))
           (ErrMsg "MaxAllocation is not finite") ;;
    _ <- guard (MinAllocation params <? 0)%f64
           (ErrMsg "MinAllocation cannot be negative") ;;
    _ <- guard (MaxAllocation params <=? 0)%f64
           (ErrMsg "MaxAllocation must be positive") ;;
    _ <- guard (MinAllocation params >? MaxAllocation params)%f64
           (ErrMsg "MinAllocation cannot be greater than MaxAllocation") ;;
    _ <- guard (IsNaN (ElysForcedAllocationMinimum params)
                || IsInf (ElysForcedAllocationMinimum params))
           (ErrMsg "ElysForcedAllocationMinimum is not finite") ;;
    _ <- guard ((ElysForcedAllocationMinimum params <? 0)%f64
                || (ElysForcedAllocationMinimum params >? 1)%f64)
           (ErrMsg "ElysForcedAllocationMinimum must be between 0 and 1") ;;
    let elysPoolInSelection := existsb (fun poolID => (poolID =? elysPoolID)%N)
                                       selectedPoolIDs in
    let n := inject_Z (Z.of_nat numSelected) in
    let minTotalRequired :=
      if elysPoolInSelection && negb (elysPoolID =? 0)%N then
        (0 + ElysForcedAllocationMinimum params
         + inject_Z (Z.of_nat numSelected - 1) * MinAllocation params)%Q
      else (n * MinAllocation params)%Q in
    _ <- guard (minTotalRequired >? 100001 # 100000)%f64
           (ErrMsg "minimum allocation constraints cannot be satisfied") ;;
    let equalShare := (1 / n)%Q in
    _ <- guard (equalShare >? MaxAllocation params)%f64
           (ErrMsg "equal distribution violates MaxAllocation constraint") ;;
    '(validPools, totalScore) <-
      foldM (collectScore scoredPoolsMap) selectedPoolIDs ([], 0%Q) ;;
    _ <- guard (totalScore <=? 0)%f64
           (ErrMsg "total score of selected pools is non-positive") ;;
    let allocs0 :=
      fold_left (fun m p => pool_set m (fst p) (snd p / totalScore)%Q)
                validPools [] in
    let unlocked0 :=
      fold_left (fun m p => pool_set m (fst p) (snd p)) validPools [] in
    '(st, madeChanges) <-
      enforceConstraints maxAllocationIterations params elysPoolID
                         (mkAllocState allocs0 [] unlocked0) ;;
    _ <- guard madeChanges
           (ErrMsg "allocation constraint enforcement failed to converge") ;;
    '(targetAllocations, finalSum) <-
      foldM (assignFinal st) selectedPoolIDs ([], 0%Q) ;;
    _ <- guard (Abs (finalSum - 1) >? 1 # 1000)%f64
           (ErrMsg "final allocation sum deviates significantly from 1.0") ;;
    if (finalSum >? 0)%f64 then
      let scaleFactor := (1 / finalSum)%Q in
      let targetAllocations :=
        map (fun entry => (fst entry, (snd entry * scaleFactor)%Q))
            targetAllocations in
      _ <- guard (existsb (violatesConstraints params elysPoolID) targetAllocations)
             (ErrMsg "final allocation violates constraints") ;;
      Ok targetAllocations
    else Err (ErrMsg "final allocation sum is zero").

(** The sum of the allocations of a map. *)
Definition allocationSum (A : PoolMap Q) : Q := sumQ (map snd A).

(** What the filtering loop of [SelectTopPools] holds after the pools
    [seen]: the best pool with the forced asset so far, if [found]. *)
Definition bestElysOf (poolsDataMap : PoolMap (Pool Q))
           (seen : list (PoolScoreResult Q)) (elysPoolID : PoolID) (found : bool)
  : Prop :=
  if found then
    exists best,
      In best seen /\ containsElys poolsDataMap (ScorePoolID best) = true
      /\ ScorePoolID best = elysPoolID
      /\ forall other, In other seen ->
                       containsElys poolsDataMap (ScorePoolID other) = true ->
                       (Score other <= Score best)%Q
  else
    elysPoolID = 0%N
    /\ forall other, In other seen ->
                     containsElys poolsDataMap (ScorePoolID other) = false.

End Analyzer.

(** ** The volatility calculator ([CalculateVolatility]), over the reals *)

Module Volatility.

Definition Rleb (x y : R) : bool := if Rle_dec x y then true else false.

(** [math.Pow(x, 2)] *)
Definition Pow2 (x : R) : R := (x * x)%R.

(** The loop [for i := 1; i < n; i++] over consecutive prices:
    [previous] is [prices[i-1].Price], the list holds [prices[i:]]. *)
Fixpoint logReturnsFrom (previousPrice : R) (rest : list (PriceData R)) : list R :=
  match rest with
  | [] => []
  | p :: rest' =>
      let currentPrice := Price p in
      if Rleb previousPrice 0 || Rleb currentPrice 0 then
        logReturnsFrom currentPrice rest'                   (* continue *)
      else ln (currentPrice / previousPrice) :: logReturnsFrom currentPrice rest'
  end.

Definition logReturnsOf (prices : list (PriceData R)) : list R :=
  match prices with
  | [] => []
  | p :: rest => logReturnsFrom (Price p) rest
  end.

Definition sortByTimestamp (prices : list (PriceData R)) : list (PriceData R) :=
  sort_Slice (fun pi pj => Timestamp pi <? Timestamp pj) prices.

Definition CalculateVolatility (prices : list (PriceData R))
           (annualizationFactor : R) : result R :=
  let n := List.length prices in
  if Nat.ltb n 2 then Err ErrInsufficientData
  else
    let prices := sortByTimestamp prices in
    let logReturns := logReturnsOf prices in
    let numReturns := List.length logReturns in
    if Nat.eqb numReturns 0 then Err ErrInsufficientData
    else
      let sum := fold_left Rplus logReturns 0%R in
      let mean := (sum / INR numReturns)%R in
      let sumSqDiff :=
        fold_left (fun acc r => (acc + Pow2 (r - mean))%R) logReturns 0%R in
      let variance := (sumSqDiff / INR numReturns)%R in
      let stdDev := sqrt variance in
      let annualizedVolatility := (stdDev * sqrt annualizationFactor)%R in
      Ok annualizedVolatility.

(** *** The specification's wording, to compare with the code

    "Drop pairs where either price <= 0.  Compute log-returns, population
    standard deviation (divide by N, not N-1), multiply by
    sqrt(annualization)." *)

Definition consecutivePairs {A : Type} (l : list A) : list (A * A) :=
  combine l (tl l).

Definition usablePair (pair : PriceData R * PriceData R) : bool :=
  negb (Rleb (Price (fst pair)) 0) && negb (Rleb (Price (snd pair)) 0).

Definition usableReturns (prices : list (PriceData R)) : list R :=
  map (fun pair => ln (Price (snd pair) / Price (fst pair)))
      (filter usablePair (consecutivePairs (sortByTimestamp prices))).

Definition Rsum (l : list R) : R := fold_right Rplus 0%R l.

Definition populationMean (l : list R) : R := (Rsum l / INR (List.length l))%R.

Definition populationStdDev (l : list R) : R :=
  sqrt (Rsum (map (fun x => ((x - populationMean l) ^ 2)%R) l)
        / INR (List.length l)).

(** Two hourly prices, 1 then 2: one usable return. *)
Definition twoPrices : list (PriceData R) :=
  [mkPriceData 0 1%R; mkPriceData 3600 2%R].

End Volatility.

(** ** The pool scorer ([CalculatePoolScore]), over an abstract float64 *)

Module Scorer.

(** What the scorer uses of [float64] and of package [math].  Nothing is
    assumed about these operations. *)
Class Float64Ops (F : Type) : Type := {
  lit : Q -> F;                    (* a literal: 0, 1.0, 0.01, 100.0 ... *)
  ofInt : Z -> F;                  (* float64(n) *)
  add : F -> F -> F;
  sub : F -> F -> F;
  mul : F -> F -> F;
  div : F -> F -> F;
  ltb : F -> F -> bool;            (* x < y *)
  leb : F -> F -> bool;            (* x <= y *)
  eqb : F -> F -> bool;            (* x == y *)
  isNaN : F -> bool;               (* math.IsNaN(x) *)
  isInf : F -> bool;               (* math.IsInf(x, 0) *)
  fabs : F -> F;                   (* math.Abs *)
  fmin : F -> F -> F;              (* math.Min *)
  fmax : F -> F -> F;              (* math.Max *)
  log10 : F -> F;                  (* math.Log10 *)
  pow : F -> F -> F                (* math.Pow *)
}.

Section Scoring.
Context {F : Type} {ops : Float64Ops F}.

Local Notation "x + y" := (add x y).
Local Notation "x - y" := (sub x y).
Local Notation "x * y" := (mul x y).
Local Notation "x / y" := (div x y).
Local Notation "x <? y" := (ltb x y).
Local Notation "x <=? y" := (leb x y).
Local Notation "x >? y" := (ltb y x).
Local Notation "x >=? y" := (leb y x).
Local Notation "x ==? y" := (eqb x y) (at level 70).
Local Notation "0" := (lit 0%Q).
Local Notation "1" := (lit 1%Q).

(** [math.IsNaN(x) || math.IsInf(x, 0)] *)
Definition notFinite (x : F) : bool := isNaN x || isInf x.

Definition ValidatePoolData (pool : Pool F) : result unit :=
  _ <- guard (ID pool =? 0)%N (ErrMsg "pool ID cannot be zero") ;;
  _ <- guard (Wallet.is_empty (Symbol (TokenA pool)))
         (ErrMsg "TokenA symbol cannot be empty") ;;
  _ <- guard (Wallet.is_empty (Symbol (TokenB pool)))
         (ErrMsg "TokenB symbol cannot be empty") ;;
  _ <- guard (TvlUSD pool <? 0) (ErrMsg "TVL cannot be negative") ;;
  _ <- guard (Volume7dUSD pool <? 0) (ErrMsg "7-day volume cannot be negative") ;;
  _ <- guard (notFinite (EdenRewardsAPR pool))
         (ErrMsg "eden rewards apr must be finite") ;;
  _ <- guard (notFinite (UsdcFeesAPR pool))
         (ErrMsg "usdc fees apr must be finite") ;;
  _ <- guard (notFinite (PriceImpactAPR pool))
         (ErrMsg "price impact apr must be finite") ;;
  _ <- guard (Volatility (TokenA pool) <? 0)
         (ErrMsg "TokenA volatility cannot be negative") ;;
  _ <- guard (notFinite (Volatility (TokenA pool)))
         (ErrMsg "TokenA volatility must be finite") ;;
  _ <- guard (AgeInDays pool <? 0)%Z (ErrMsg "pool age cannot be negative") ;;
  let totalWeight := WeightA pool + WeightB pool in
  _ <- guard ((totalWeight <=? 0)
              || (fabs (totalWeight - 1) >? lit (1 # 100)))
         (ErrMsg "pool weights must be positive and sum to approximately 1.0") ;;
  _ <- guard (negb (SentimentScore pool ==? 0)
              && ((SentimentScore pool <? lit (- (1)))
                  || (SentimentScore pool >? 1)))
         (ErrMsg "sentiment score must be between -1.0 and 1.0") ;;
  guard (HasCurrentPosition pool && (CurrentPositionAgeDays pool <? 0)%Z)
        (ErrMsg "current position age cannot be negative when position exists").

Definition ValidateScoringParameters (params : ScoringParameters F)
  : result unit :=
  _ <- guard ((EdenWeight params <? 0) || (UsdcFeeWeight params <? 0)
              || (PriceImpactWeight params <? 0))
         (ErrMsg "APR weights cannot be negative") ;;
  let totalAprWeight :=
    EdenWeight params + UsdcFeeWeight params + PriceImpactWeight params in
  _ <- guard (totalAprWeight <=? 0) (ErrMsg "total APR weights must be positive") ;;
  _ <- Wallet.forM_ (fun coeff => guard (notFinite coeff)
                                        (ErrMsg "coefficient must be finite"))
         [AprCoefficient params; TradingVolumeCoefficient params;
          IlRiskCoefficient params; VolatilityCoefficient params;
          TvlCoefficient params; NewPoolCoefficient params;
          ContinuityCoefficient params; SmartShieldBonus params;
          SentimentImpactFactor params] ;;
  _ <- guard (MinTVLThreshold params <? 0)
         (ErrMsg "MinTVLThreshold cannot be negative") ;;
  _ <- guard (PoolMaturityDays params <? 0)%Z
         (ErrMsg "PoolMaturityDays cannot be negative") ;;
  _ <- guard (ContinuityLookbackDays params <? 0)%Z
         (ErrMsg "ContinuityLookbackDays cannot be negative") ;;
  _ <- guard (IlHoldingPeriodYears params <=? 0)
         (ErrMsg "IlHoldingPeriodYears must be positive") ;;
  _ <- guard (IlConfidenceFactor params <=? 0)
         (ErrMsg "IlConfidenceFactor must be positive") ;;
  guard ((SmartShieldReductionFactor params <? 0)
         || (SmartShieldReductionFactor params >? 1))
        (ErrMsg "SmartShieldReductionFactor must be between 0 and 1").

Definition CalculateWeightedAPR (pool : Pool F) (params : ScoringParameters F)
  : result F :=
  _ <- guard (notFinite (EdenRewardsAPR pool))
         (ErrMsg "EdenRewardsAPR is not finite") ;;
  _ <- guard (notFinite (UsdcFeesAPR pool)) (ErrMsg "UsdcFeesAPR is not finite") ;;
  _ <- guard (notFinite (PriceImpactAPR pool))
         (ErrMsg "PriceImpactAPR is not finite") ;;
  _ <- guard (notFinite (EdenWeight params)) (ErrMsg "EdenWeight is not finite") ;;
  _ <- guard (notFinite (UsdcFeeWeight params))
         (ErrMsg "UsdcFeeWeight is not finite") ;;
  _ <- guard (notFinite (PriceImpactWeight params))
         (ErrMsg "PriceImpactWeight is not finite") ;;
  let edenComponent := EdenRewardsAPR pool * EdenWeight params in
  _ <- guard (notFinite edenComponent)
         (ErrMsg "eden component calculation resulted in non-finite value") ;;
  let usdcComponent := UsdcFeesAPR pool * UsdcFeeWeight params in
  _ <- guard (notFinite usdcComponent)
         (ErrMsg "usdc component calculation resulted in non-finite value") ;;
  let impactComponent := PriceImpactAPR pool * PriceImpactWeight params in
  _ <- guard (notFinite impactComponent)
         (ErrMsg "price impact component calculation resulted in non-finite value") ;;
  let totalWeight :=
    EdenWeight params + UsdcFeeWeight params + PriceImpactWeight params in
  _ <- guard (totalWeight <=? 0)
         (ErrMsg "total APR weight is non-positive, cannot calculate weighted average") ;;
  _ <- guard (notFinite totalWeight)
         (ErrMsg "total weight calculation resulted in non-finite value") ;;
  let weightedAPR := (edenComponent + usdcComponent + impactComponent) / totalWeight in
  _ <- guard (notFinite weightedAPR)
         (ErrMsg "weighted APR calculation resulted in non-finite value") ;;
  Ok weightedAPR.

Definition CalculateRewardScore (weightedAPR : F) (pool : Pool F)
           (params : ScoringParameters F) : result F :=
  _ <- guard (notFinite weightedAPR) (ErrMsg "weighted APR is not finite") ;;
  let aprScorePart := AprCoefficient params * weightedAPR in
  _ <- guard (notFinite aprScorePart)
         (ErrMsg "APR score component calculation resulted in non-finite value") ;;
  _ <- guard (Volume7dUSD pool <? 0) (ErrMsg "volume cannot be negative") ;;
  volumeScorePart <-
    (if Volume7dUSD pool ==? 0 then Ok 0
     else
       let logVolume := log10 (Volume7dUSD pool) in
       _ <- guard (notFinite logVolume)
              (ErrMsg "log volume calculation resulted in non-finite value") ;;
       let volumeScorePart := TradingVolumeCoefficient params * logVolume in
       _ <- guard (notFinite volumeScorePart)
              (ErrMsg "volume score component calculation resulted in non-finite value") ;;
       Ok volumeScorePart) ;;
  let totalRewardScore := aprScorePart + volumeScorePart in
  _ <- guard (notFinite totalRewardScore)
         (ErrMsg "total reward score calculation resulted in non-finite value") ;;
  Ok totalRewardScore.

Definition CalculateAgePenalty (pool : Pool F) (params : ScoringParameters F)
  : result F :=
  _ <- guard (notFinite (NewPoolCoefficient params))
         (ErrMsg "NewPoolCoefficient is not finite") ;;
  _ <- guard (PoolMaturityDays params <? 0)%Z
         (ErrMsg "PoolMaturityDays cannot be negative") ;;
  if (PoolMaturityDays params =? 0)%Z then Ok 0
  else
    _ <- guard (AgeInDays pool <? 0)%Z (ErrMsg "pool age cannot be negative") ;;
    if (AgeInDays pool >=? PoolMaturityDays params)%Z then Ok 0
    else
      let maturityScale := ofInt (AgeInDays pool) / ofInt (PoolMaturityDays params) in
      _ <- guard (notFinite maturityScale)
             (ErrMsg "maturity scale calculation resulted in non-finite value") ;;
      let penaltyScale := 1 - maturityScale in
      _ <- guard (notFinite penaltyScale)
             (ErrMsg "penalty scale calculation resulted in non-finite value") ;;
      let agePenalty := NewPoolCoefficient params * penaltyScale in
      _ <- guard (notFinite agePenalty)
             (ErrMsg "age penalty calculation resulted in non-finite value") ;;
      Ok agePenalty.

Definition CalculateSentimentAdjustment (pool : Pool F)
           (params : ScoringParameters F) : result F :=
  _ <- guard (notFinite (SentimentScore pool))
         (ErrMsg "sentiment score is not finite") ;;
  _ <- guard (notFinite (SentimentImpactFactor params))
         (ErrMsg "sentiment impact factor is not finite") ;;
  if (SentimentScore pool ==? 0) || (SentimentImpactFactor params ==? 0) then Ok 0
  else
    let sentimentAdjustment := SentimentScore pool * SentimentImpactFactor params in
    _ <- guard (notFinite sentimentAdjustment)
           (ErrMsg "sentiment adjustment calculation resulted in non-finite value") ;;
    Ok sentimentAdjustment.

Definition CalculateILRisk (annualizedVolatility : F) (isSmartShielded : bool)
           (params : ScoringParameters F) : result F :=
  _ <- guard (notFinite annualizedVolatility)
         (ErrMsg "annualized volatility is not finite") ;;
  _ <- guard (annualizedVolatility <? 0)
         (ErrMsg "annualized volatility cannot be negative") ;;
  _ <- guard (notFinite (IlHoldingPeriodYears params))
         (ErrMsg "IlHoldingPeriodYears is not finite") ;;
  _ <- guard (notFinite (IlConfidenceFactor params))
         (ErrMsg "IlConfidenceFactor is not finite") ;;
  _ <- guard (notFinite (SmartShieldReductionFactor params))
         (ErrMsg "SmartShieldReductionFactor is not finite") ;;
  if annualizedVolatility ==? 0 then Ok 0
  else
    let variance := pow annualizedVolatility (lit 2%Q) in
    _ <- guard (notFinite variance)
           (ErrMsg "variance calculation resulted in non-finite value") ;;
    let timeScaledVariance := variance * IlHoldingPeriodYears params in
    _ <- guard (notFinite timeScaledVariance)
           (ErrMsg "time-scaled variance calculation resulted in non-finite value") ;;
    let ilRiskBase := IlConfidenceFactor params * timeScaledVariance in
    _ <- guard (notFinite ilRiskBase)
           (ErrMsg "base IL risk calculation resulted in non-finite value") ;;
    if isSmartShielded && (SmartShieldReductionFactor params >? 0) then
      let reductionMultiplier := 1 - SmartShieldReductionFactor params in
      _ <- guard (reductionMultiplier <? 0)
             (ErrMsg "smart shield reduction factor results in negative multiplier") ;;
      let ilRiskFinal := ilRiskBase * reductionMultiplier in
      _ <- guard (notFinite ilRiskFinal)
             (ErrMsg "smart shield reduction calculation resulted in non-finite value") ;;
      Ok ilRiskFinal
    else Ok ilRiskBase.

Definition CalculateRiskScore (ilRisk agePenalty sentimentAdjustment : F)
           (pool : Pool F) (params : ScoringParameters F) : result F :=
  _ <- Wallet.forM_ (fun input => guard (notFinite input)
                                        (ErrMsg "input is not finite"))
         [ilRisk; agePenalty; sentimentAdjustment] ;;
  _ <- guard (notFinite (IlRiskCoefficient params))
         (ErrMsg "IlRiskCoefficient is not finite") ;;
  _ <- guard (notFinite (VolatilityCoefficient params))
         (ErrMsg "VolatilityCoefficient is not finite") ;;
  let ilPenalty := IlRiskCoefficient params * ilRisk in
  _ <- guard (notFinite ilPenalty)
         (ErrMsg "IL penalty calculation resulted in non-finite value") ;;
  let volatilityPenalty := VolatilityCoefficient params * Volatility (TokenA pool) in
  _ <- guard (notFinite volatilityPenalty)
         (ErrMsg "volatility penalty calculation resulted in non-finite value") ;;
  let totalRiskScore :=
    ilPenalty + volatilityPenalty + agePenalty + sentimentAdjustment in
  _ <- guard (notFinite totalRiskScore)
         (ErrMsg "total risk score calculation resulted in non-finite value") ;;
  Ok totalRiskScore.

Definition CalculateLiquidityScore (pool : Pool F) (params : ScoringParameters F)
  : result F :=
  _ <- guard (notFinite (MinTVLThreshold params))
         (ErrMsg "MinTVLThreshold is not finite") ;;
  _ <- guard (notFinite (TvlCoefficient params))
         (ErrMsg "TvlCoefficient is not finite") ;;
  _ <- guard (notFinite (TvlUSD pool)) (ErrMsg "pool TVL is not finite") ;;
  _ <- guard (MinTVLThreshold params <=? 0)
         (ErrMsg "MinTVLThreshold must be positive") ;;
  _ <- guard (TvlUSD pool <=? 0) (ErrMsg "pool TVL must be positive") ;;
  let logInput := fmax (MinTVLThreshold params) (TvlUSD pool) in
  _ <- guard (logInput <=? 0) (ErrMsg "log input must be positive") ;;
  let logTvl := log10 logInput in
  _ <- guard (notFinite logTvl)
         (ErrMsg "log TVL calculation resulted in non-finite value") ;;
  let liquidityScore := TvlCoefficient params * logTvl in
  _ <- guard (notFinite liquidityScore)
         (ErrMsg "liquidity score calculation resulted in non-finite value") ;;
  Ok liquidityScore.

Definition CalculateSmartShieldBonus (pool : Pool F)
           (params : ScoringParameters F) : result F :=
  _ <- guard (notFinite (SmartShieldBonus params))
         (ErrMsg "SmartShieldBonus parameter is not finite") ;;
  if IsSmartShielded pool then Ok (SmartShieldBonus params) else Ok 0.

Definition CalculateContinuityBonus (pool : Pool F)
           (params : ScoringParameters F) : result F :=
  if negb (HasCurrentPosition pool) then Ok 0
  else
    _ <- guard (ContinuityLookbackDays params <=? 0)%Z
           (ErrMsg "ContinuityLookbackDays must be positive") ;;
    _ <- guard (CurrentPositionAgeDays pool <? 0)%Z
           (ErrMsg "CurrentPositionAgeDays cannot be negative when position exists") ;;
    _ <- guard (notFinite (ContinuityCoefficient params))
           (ErrMsg "ContinuityCoefficient is not finite") ;;
    let scale :=
      fmin 1 (ofInt (CurrentPositionAgeDays pool)
              / ofInt (ContinuityLookbackDays params)) in
    _ <- guard (notFinite scale)
           (ErrMsg "scale calculation resulted in non-finite value") ;;
    let continuityBonus := ContinuityCoefficient params * scale in
    _ <- guard (notFinite continuityBonus)
           (ErrMsg "continuity bonus calculation resulted in non-finite value") ;;
    Ok continuityBonus.

Definition CalculateTotalBonusScore (shieldBonus continuityBonus : F) : result F :=
  _ <- guard (notFinite shieldBonus) (ErrMsg "shield bonus is not finite") ;;
  _ <- guard (notFinite continuityBonus)
         (ErrMsg "continuity bonus is not finite") ;;
  let totalBonus := shieldBonus + continuityBonus in
  _ <- guard (notFinite totalBonus)
         (ErrMsg "total bonus calculation resulted in non-finite value") ;;
  Ok totalBonus.

Definition CalculatePoolScore (pool : Pool F) (params : ScoringParameters F)
  : result (PoolScoreResult F) :=
  _ <- match ValidatePoolData pool with
       | Ok _ => Ok tt
       | Err e => Err (ErrInvalidPoolData e)
       end ;;
  _ <- match ValidateScoringParameters params with
       | Ok _ => Ok tt
       | Err e => Err (ErrInvalidScoringParameters e)
       end ;;
  weightedAPR <- CalculateWeightedAPR pool params ;;
  rewardScoreComponent <- CalculateRewardScore weightedAPR pool params ;;
  agePenalty <- CalculateAgePenalty pool params ;;
  sentimentAdjustment <- CalculateSentimentAdjustment pool params ;;
  ilRisk <- CalculateILRisk (Volatility (TokenA pool)) (IsSmartShielded pool) params ;;
  riskScoreComponent <-
    CalculateRiskScore ilRisk agePenalty sentimentAdjustment pool params ;;
  liquidityScoreComponent <- CalculateLiquidityScore pool params ;;
  shieldBonus <- CalculateSmartShieldBonus pool params ;;
  continuityBonus <- CalculateContinuityBonus pool params ;;
  bonusScoreComponent <- CalculateTotalBonusScore shieldBonus continuityBonus ;;
  let finalScore :=
    rewardScoreComponent + riskScoreComponent + liquidityScoreComponent
    + bonusScoreComponent in
  _ <- guard (notFinite finalScore)
         (ErrMsg "final score calculation resulted in NaN or Inf") ;;
  _ <- Wallet.forM_ (fun comp => guard (notFinite comp)
                                       (ErrMsg "component calculation resulted in NaN or Inf"))
         [rewardScoreComponent; riskScoreComponent; liquidityScoreComponent;
          bonusScoreComponent] ;;
  Ok (mkPoolScoreResult (ID pool) finalScore
        (mkScoreComponents weightedAPR ilRisk (Volatility (TokenA pool))
           rewardScoreComponent riskScoreComponent liquidityScoreComponent
           bonusScoreComponent sentimentAdjustment)).

Definition CalculatePoolScores (pools : list (Pool F))
           (params : ScoringParameters F) : result (list (PoolScoreResult F)) :=
  if Nat.eqb (List.length pools) 0 then
    Err (ErrMsg "no pools provided for scoring")
  else
    _ <- match ValidateScoringParameters params with
         | Ok _ => Ok tt
         | Err e => Err (ErrInvalidScoringParameters e)
         end ;;
    Wallet.mapM (fun pool => CalculatePoolScore pool params) pools.

(** A result all of whose numbers are finite: the score and the eight
    components. *)
Definition finiteComponents (c : ScoreComponents F) : bool :=
  forallb (fun x => negb (notFinite x))
          [WeightedAPR c; ILRisk c; AnnualizedVolatility c;
           RewardScoreComponent c; RiskScoreComponent c; TvlScoreComponent c;
           BonusScoreComponent c; SentimentAdjustment c].

Definition finiteResult (r : PoolScoreResult F) : bool :=
  negb (notFinite (Score r)) && finiteComponents (Components r).

End Scoring.

(** *** Two instances of the interface *)

(** Exact arithmetic on finite values, as in the rest of the development;
    the two transcendental functions are given. *)
Definition exactOps (Log10 : Q -> Q) (Pow : Q -> Q -> Q) : Float64Ops Q :=
  {| lit := fun q => q;
     ofInt := inject_Z;
     add := Qplus; sub := Qminus; mul := Qmult; div := Qdiv;
     ltb := Qltb; leb := Qleb; eqb := Qeqb;
     isNaN := IsNaN; isInf := IsInf;
     fabs := Qabs;
     fmin := fun x y => if Qleb x y then x else y;
     fmax := fun x y => if Qleb x y then y else x;
     log10 := Log10;
     pow := Pow |}.

(** IEEE 754 binary64, the kernel's primitive floats. *)
Definition floatOfZ (z : Z) : PrimFloat.float :=
  if (z <? 0)%Z then PrimFloat.opp (PrimFloat.of_uint63 (Uint63.of_Z (- z)))
  else PrimFloat.of_uint63 (Uint63.of_Z z).

Definition binary64Ops (Log10 : PrimFloat.float -> PrimFloat.float)
           (Pow : PrimFloat.float -> PrimFloat.float -> PrimFloat.float)
  : Float64Ops PrimFloat.float :=
  {| lit := fun q => PrimFloat.div (floatOfZ (Qnum q)) (floatOfZ (Zpos (Qden q)));
     ofInt := floatOfZ;
     add := PrimFloat.add; sub := PrimFloat.sub;
     mul := PrimFloat.mul; div := PrimFloat.div;
     ltb := PrimFloat.ltb; leb := PrimFloat.leb; eqb := PrimFloat.eqb;
     isNaN := PrimFloat.is_nan; isInf := PrimFloat.is_infinity;
     fabs := PrimFloat.abs;
     fmin := fun x y =>
               if PrimFloat.is_nan x || PrimFloat.is_nan y then PrimFloat.nan
               else if PrimFloat.ltb y x then y else x;
     fmax := fun x y =>
               if PrimFloat.is_nan x || PrimFloat.is_nan y then PrimFloat.nan
               else if PrimFloat.ltb x y then y else x;
     log10 := Log10;
     pow := Pow |}.

(** An ATOM/USDC pool and a parameter set in binary64, to run the scorer.
    [log10Approx] interpolates the binary logarithm linearly between powers
    of two; [powSquare] is [math.Pow] at the exponent 2, the only one the
    scorer uses. *)
Definition f64 (q : Q) : PrimFloat.float :=
  PrimFloat.div (floatOfZ (Qnum q)) (floatOfZ (Zpos (Qden q))).

Definition log10Approx (x : PrimFloat.float) : PrimFloat.float :=
  let '(m, e) := FloatOps.Z.frexp x in
  PrimFloat.mul
    (PrimFloat.add (floatOfZ (e - 1))
                   (PrimFloat.sub (PrimFloat.mul (f64 2) m) (f64 1)))
    (f64 (30103 # 100000)).

Definition powSquare (x y : PrimFloat.float) : PrimFloat.float :=
  if PrimFloat.eqb y (f64 2) then PrimFloat.mul x x else PrimFloat.nan.

Definition binary64 : Float64Ops PrimFloat.float := binary64Ops log10Approx powSquare.

Definition atomToken : Token PrimFloat.float :=
  mkToken "ATOM" "uatom" "ibc/atom" 6 (f64 (9 # 2)) true [] (f64 (1 # 2)).

Definition usdcToken : Token PrimFloat.float :=
  mkToken "USDC" "uusdc" "ibc/usdc" 6 (f64 1) true [] (f64 (1 # 100)).

Definition atomPool : Pool PrimFloat.float :=
  mkPool 1%N atomToken usdcToken 1000000 1000000 (f64 (1 # 2)) (f64 (1 # 2))
         (f64 250000) (f64 50000) (f64 (1 # 10)) (f64 (1 # 20)) (f64 (1 # 100))
         false 400 (f64 (3 # 1000)) (f64 (1 # 4)) 1000000
         (mkPoolScoreResult 1%N (f64 0)
            (mkScoreComponents (f64 0) (f64 0) (f64 0) (f64 0) (f64 0) (f64 0)
                               (f64 0) (f64 0)))
         true 12 (f64 1000).

Definition atomParameters : ScoringParameters PrimFloat.float :=
  mkScoringParameters
    2 (f64 (1 # 10)) (f64 (7 # 10)) (f64 5) (f64 10) (f64 50)
    (f64 1) (f64 3) (f64 (9 # 10)) (f64 (9 # 10))
    (f64 1) (f64 1) (f64 1) (f64 1) (f64 1) (f64 (- (1))) (f64 (- (1)))
    (f64 (- (1))) 30
    (f64 1) (f64 1) (f64 (1 # 2)) (f64 1) (f64 1000) (f64 1) (f64 1) 30 (f64 1)
    0 (f64 0) (f64 0) (f64 (2 # 10)).

End Scorer.

(** ** internal/avm/avm.go: the cycle orchestrator *)

Module AVM.

Record PositionSnapshot : Type := mkPositionSnapshot {
  SnapPoolID : PoolID;
  SnapLPShares : Z;
  EstimatedValueUSD : Q;
  AllocationPercent : Q;
  SnapAgeDays : Z;
  PoolTokenA : string;
  PoolTokenB : string;
  PoolTVL : Q;
  SnapPoolScore : Q
}.

Record ActionPlan : Type := mkActionPlan {
  GoalDescription : string;
  SubActions : list SubAction;
  EstimatedNetUSDChange : Q
}.

Record ActionReceipt : Type := mkActionReceipt {
  OriginalSubAction : SubAction;
  Success : bool;
  Message : string;
  ReceiptTimestamp : Z;
  ActualAmountUSD : Q
}.

Record TransactionResult : Type := mkTransactionResult {
  TxHash : string;
  GasUsed : Z;
  GasWanted : Z;
  GasFeeUSD : Q;
  TxSuccess : bool;
  ErrorMessage : string
}.

Record CycleSnapshot : Type := mkCycleSnapshot {
  CycleNumber : Z;
  SnapshotTimestamp : Z;
  ScoringParamsID : option Z;
  InitialVaultValueUSD : Q;
  InitialLiquidUSDC : Q;
  InitialPositions : list PositionSnapshot;
  TargetAllocations : PoolMap Q;
  CycleActionPlan : ActionPlan;
  FinalVaultValueUSD : Q;
  FinalLiquidUSDC : Q;
  FinalPositions : list PositionSnapshot;
  TransactionHashes : list string;
  ActionReceipts : list ActionReceipt;
  AllocationEfficiencyPercent : Q;
  NetReturnUSD : Q;
  TotalSlippageUSD : Q;
  TotalGasFeeUSD : Q
}.

(** The database of package [state]: the handle ([DB != nil] and usable),
    the single-row cycle counter, the append-only snapshot table and the
    active parameters row. *)
Record Database : Type := mkDatabase {
  dbOpen : bool;
  currentCycle : Z;
  cycleSnapshots : list CycleSnapshot;
  activeParamsID : option Z
}.

(** [state.SaveCycleSnapshot]: one INSERT into [cycle_snapshots]. *)
Definition SaveCycleSnapshot (snapshot : CycleSnapshot) (db : Database)
  : Database * result Z :=
  if dbOpen db then
    (mkDatabase (dbOpen db) (currentCycle db)
                (cycleSnapshots db ++ [snapshot]) (activeParamsID db),
     Ok (Z.of_nat (List.length (cycleSnapshots db)) + 1))
  else (db, Err (ErrMsg "database not initialized")).

(** [state.IncrementCycleNumber]: [UPDATE ... RETURNING current_cycle]. *)
Definition IncrementCycleNumber (db : Database) : Database * result Z :=
  if dbOpen db then
    (mkDatabase (dbOpen db) (currentCycle db + 1) (cycleSnapshots db)
                (activeParamsID db),
     Ok (currentCycle db + 1))
  else (db, Err (ErrMsg "database not initialized")).

Definition GetActiveScoringParametersID (configName : string) (db : Database)
  : result (option Z) :=
  if dbOpen db then Ok (activeParamsID db)
  else Err (ErrMsg "database not initialized").

(** What one cycle may do to the snapshot table: nothing, or one append. *)
Definition atMostOneMore (before after : list CycleSnapshot) : Prop :=
  after = before \/ exists s, after = before ++ [s].

Section Orchestrator.

(** The state of everything outside the process (chain, vault, price and
    volume APIs, clock); every call may change it. *)
Variable X : Type.

(** [vault.VaultManager], the data fetcher and the simulator client, as the
    orchestrator consumes them. *)
Record Env : Type := mkEnv {
  GetTradableDenoms : X -> X * result (list string);
  GetPoolPositions : X -> X * result (list (Position Q));
  GetLiquidUSDC : X -> X * result Q;
  GetTotalVaultValue : X -> X * result Q;
  ExecuteActionPlan : list SubAction -> X -> X * result TransactionResult;
  GetPools : list string -> X -> X * result (list (Pool Q));
  GetTokens : X -> X * result (StringMap (Token Q));
  simulator : X -> Simulator;
  NodeRPC : string;
  timeNow : X -> X * Z;
  float64 : Scorer.Float64Ops Q
}.

Record World : Type := mkWorld { outside : X; database : Database }.

Record AVM : Type := mkAVM {
  scoringParams : ScoringParameters Q;
  configName : string;
  configVersion : Z;
  cycleCount : Z
}.

Variable env : Env.

(** A call to the outside. *)
Definition call {A : Type} (op : X -> X * A) (w : World) : World * A :=
  let '(x, a) := op (outside w) in (mkWorld x (database w), a).

Definition getCycleNumber (w : World) : World * Z :=
  let '(db, r) := IncrementCycleNumber (database w) in
  let w := mkWorld (outside w) db in
  match r with
  | Ok cycleNumber => (w, cycleNumber)
  | Err _ =>
      let '(w, t) := call (timeNow env) w in (w, t mod 1000000)
  end.

Definition getScoringParamsID (a : AVM) (w : World) : option Z :=
  match GetActiveScoringParametersID (configName a) (database w) with
  | Ok paramsID => paramsID
  | Err _ => None
  end.

Definition captureVaultState (w : World)
  : World * result (list (Position Q) * Q) :=
  let '(w, r) := call (GetPoolPositions env) w in
  match r with
  | Err e => (w, Err e)
  | Ok positions =>
      let '(w, r) := call (GetLiquidUSDC env) w in
      match r with
      | Err e => (w, Err e)
      | Ok liquidUSDC => (w, Ok (positions, liquidUSDC))
      end
  end.

Definition convertToPositionSnapshots (positions : list (Position Q))
           (poolsDataMap : PoolMap (Pool Q)) (totalVaultValue : Q)
  : list PositionSnapshot :=
  map (fun pos =>
         let '(tokenA, tokenB, poolTVL, poolScore) :=
           match pool_get poolsDataMap (PosPoolID pos) with
           | Some pool =>
               (Symbol (TokenA pool), Symbol (TokenB pool), TvlUSD pool,
                Score (PoolScore pool))
           | None => (EmptyString, EmptyString, 0%Q, 0%Q)
           end in
         let allocationPercent :=
           if (totalVaultValue >? 0)%f64
           then (EstimatedValue pos / totalVaultValue * 100)%Q else 0%Q in
         mkPositionSnapshot (PosPoolID pos) (LPShares pos) (EstimatedValue pos)
           allocationPercent (AgeDays pos) tokenA tokenB poolTVL poolScore)
      positions.

Definition calculateAllocationEfficiency (finalPositions : list PositionSnapshot)
           (targetAllocations : PoolMap Q) : Q :=
  if Nat.eqb (List.length targetAllocations) 0 then 100%Q
  else
    let actualAllocations :=
      fold_left (fun m pos => pool_set m (SnapPoolID pos)
                                       (AllocationPercent pos / 100)%Q)
                finalPositions [] in
    let totalDifference :=
      fold_left (fun total entry =>
                   let actualPercent :=
                     match pool_get actualAllocations (fst entry) with
                     | Some v => v
                     | None => 0%Q
                     end in
                   let difference := (snd entry - actualPercent)%Q in
                   let difference :=
                     if (difference <? 0)%f64 then (- difference)%Q
                     else difference in
                   (total + difference)%Q)
                targetAllocations 0%Q in
    let efficiency := (100 - totalDifference * 100)%Q in
    if (efficiency <? 0)%f64 then 0%Q else efficiency.

Fixpoint findPositionByPool (positions : list (Position Q)) (poolID : PoolID)
  : option (Position Q) :=
  match positions with
  | [] => None
  | pos :: rest =>
      if (PosPoolID pos =? poolID)%N then Some pos
      else findPositionByPool rest poolID
  end.

Definition calculateWithdrawActualUSD (action : SubAction)
           (initialPositions finalPositions : list (Position Q))
           (initialLiquidUSDC finalLiquidUSDC : Q) : Q :=
  match Type_ action with
  | SubActionWithdrawLP =>
      let initialPos := findPositionByPool initialPositions (PoolIDToWithdraw action) in
      let finalPos := findPositionByPool finalPositions (PoolIDToWithdraw action) in
      let poolValueReduction :=
        match initialPos, finalPos with
        | Some i, Some f => (EstimatedValue i - EstimatedValue f)%Q
        | Some i, None => EstimatedValue i
        | _, _ => 0%Q
        end in
      let usdcIncrease := (finalLiquidUSDC - initialLiquidUSDC)%Q in
      if (poolValueReduction >? 0)%f64 then
        if IsNaN poolValueReduction || IsInf poolValueReduction then 0%Q
        else poolValueReduction
      else if (usdcIncrease >? 0)%f64 then
        if IsNaN usdcIncrease || IsInf usdcIncrease then 0%Q else usdcIncrease
      else 0%Q
  | _ => 0%Q
  end.

Definition calculateDepositActualUSD (action : SubAction)
           (initialPositions finalPositions : list (Position Q))
           (initialLiquidUSDC finalLiquidUSDC : Q) : Q :=
  match Type_ action with
  | SubActionDepositLP =>
      let initialPos := findPositionByPool initialPositions (PoolIDToDeposit action) in
      let finalPos := findPositionByPool finalPositions (PoolIDToDeposit action) in
      let poolValueIncrease :=
        match initialPos, finalPos with
        | Some i, Some f => (EstimatedValue f - EstimatedValue i)%Q
        | None, Some f => EstimatedValue f
        | _, _ => 0%Q
        end in
      let usdcDecrease := (initialLiquidUSDC - finalLiquidUSDC)%Q in
      if (poolValueIncrease >? 0)%f64 then
        if IsNaN poolValueIncrease || IsInf poolValueIncrease then 0%Q
        else poolValueIncrease
      else if (usdcDecrease >? 0)%f64 then
        if IsNaN usdcDecrease || IsInf usdcDecrease then 0%Q else usdcDecrease
      else 0%Q
  | _ => 0%Q
  end.

Definition calculateSwapActualUSD (action : SubAction)
           (initialLiquidUSDC finalLiquidUSDC : Q) : Q :=
  match Type_ action with
  | SubActionSwap =>
      let usdcChange := (finalLiquidUSDC - initialLiquidUSDC)%Q in
      if (usdcChange <? 0)%f64 then
        let actualAmount := (- usdcChange)%Q in
        if IsNaN actualAmount || IsInf actualAmount || (actualAmount <? 0)%f64
        then 0%Q else actualAmount
      else
        if IsNaN usdcChange || IsInf usdcChange || (usdcChange <? 0)%f64
        then 0%Q else usdcChange
  | _ => 0%Q
  end.

Definition calculateActualAmountUSD (action : SubAction)
           (initialPositions finalPositions : list (Position Q))
           (initialLiquidUSDC finalLiquidUSDC : Q) : Q :=
  if IsNaN initialLiquidUSDC || IsNaN finalLiquidUSDC
     || IsInf initialLiquidUSDC || IsInf finalLiquidUSDC then 0%Q
  else
    match Type_ action with
    | SubActionWithdrawLP =>
        calculateWithdrawActualUSD action initialPositions finalPositions
                                   initialLiquidUSDC finalLiquidUSDC
    | SubActionDepositLP =>
        calculateDepositActualUSD action initialPositions finalPositions
                                  initialLiquidUSDC finalLiquidUSDC
    | SubActionSwap =>
        calculateSwapActualUSD action initialLiquidUSDC finalLiquidUSDC
    | _ => 0%Q
    end.

(** [finalizeFailedSnapshot]: the final state is the initial one. *)
Definition finalizeFailedSnapshot (snapshot : CycleSnapshot)
           (totalVaultValue liquidUSDC : Q) (positions : list (Position Q))
           (poolsDataMap : PoolMap (Pool Q)) : CycleSnapshot :=
  mkCycleSnapshot (CycleNumber snapshot) (SnapshotTimestamp snapshot)
    (ScoringParamsID snapshot) (InitialVaultValueUSD snapshot)
    (InitialLiquidUSDC snapshot) (InitialPositions snapshot)
    (TargetAllocations snapshot) (CycleActionPlan snapshot)
    totalVaultValue liquidUSDC
    (convertToPositionSnapshots positions poolsDataMap totalVaultValue)
    (TransactionHashes snapshot) (ActionReceipts snapshot)
    0%Q 0%Q 0%Q 0%Q.

(** [saveCycleSnapshot]: a failure to save is logged, nothing else. *)
Definition saveCycleSnapshot (snapshot : CycleSnapshot) (w : World) : World :=
  let '(db, _) := SaveCycleSnapshot snapshot (database w) in
  mkWorld (outside w) db.

(** [logEndOfCycleState]: three reads of the vault, for the log. *)
Definition logEndOfCycleState (w : World) : World :=
  let '(w, _) := call (GetLiquidUSDC env) w in
  let '(w, _) := call (GetPoolPositions env) w in
  let '(w, _) := call (GetTotalVaultValue env) w in
  let '(w, _) := call (timeNow env) w in
  w.

(** The receipts of one executed phase, one [time.Now()] each. *)
Fixpoint makeReceipts (message : string) (actions : list SubAction)
         (prePositions postPositions : list (Position Q)) (preUSDC postUSDC : Q)
         (w : World) : World * list ActionReceipt :=
  match actions with
  | [] => (w, [])
  | action :: rest =>
      let actualAmountUSD :=
        calculateActualAmountUSD action prePositions postPositions
                                 preUSDC postUSDC in
      let '(w, t) := call (timeNow env) w in
      let '(w, receipts) :=
        makeReceipts message rest prePositions postPositions preUSDC postUSDC w in
      (w, mkActionReceipt action true message t actualAmountUSD :: receipts)
  end.

(** The outcome of one execution phase: the cycle goes on with an updated
    snapshot and gas total, or it has ended (failure snapshot saved). *)
Inductive PhaseOutcome : Type :=
| PhaseDone (snapshot : CycleSnapshot) (totalGasFeeUSD : Q)
| PhaseFailed.

Definition withSnapshotUpdate (s : CycleSnapshot)
           (hashes : list string) (receipts : list ActionReceipt)
  : CycleSnapshot :=
  mkCycleSnapshot (CycleNumber s) (SnapshotTimestamp s) (ScoringParamsID s)
    (InitialVaultValueUSD s) (InitialLiquidUSDC s) (InitialPositions s)
    (TargetAllocations s) (CycleActionPlan s)
    (FinalVaultValueUSD s) (FinalLiquidUSDC s) (FinalPositions s)
    hashes receipts
    (AllocationEfficiencyPercent s) (NetReturnUSD s) (TotalSlippageUSD s)
    (TotalGasFeeUSD s).

(** One phase of step 5 ([if len(actions) > 0 { ... }]), the same text for
    withdrawals and for deposits. *)
Definition executePhase (message : string) (actions : list SubAction)
           (cycleSnapshot : CycleSnapshot) (totalGasFeeUSD : Q)
           (totalVaultValue liquidUSDC : Q)
           (currentPositions : list (Position Q))
           (poolsDataMap : PoolMap (Pool Q))
           (w : World) : World * PhaseOutcome :=
  if Nat.ltb 0 (List.length actions) then
    let '(w, pre) := captureVaultState w in
    let '(prePositions, preUSDC) :=
      match pre with
      | Ok state => state
      | Err _ => (currentPositions, liquidUSDC)
      end in
    let '(w, r) := call (ExecuteActionPlan env actions) w in
    match r with
    | Err _ =>
        let failed :=
          finalizeFailedSnapshot cycleSnapshot totalVaultValue liquidUSDC
                                 currentPositions poolsDataMap in
        let w := saveCycleSnapshot failed w in
        let w := logEndOfCycleState w in
        (w, PhaseFailed)
    | Ok txResult =>
        let hashes := TransactionHashes cycleSnapshot ++ [TxHash txResult] in
        let totalGasFeeUSD := (totalGasFeeUSD + GasFeeUSD txResult)%Q in
        let '(w, post) := captureVaultState w in
        let '(postPositions, postUSDC) :=
          match post with
          | Ok state => state
          | Err _ => (currentPositions, liquidUSDC)
          end in
        let '(w, receipts) :=
          makeReceipts message actions prePositions postPositions
                       preUSDC postUSDC w in
        (w, PhaseDone (withSnapshotUpdate cycleSnapshot hashes
                         (ActionReceipts cycleSnapshot ++ receipts))
                      totalGasFeeUSD)
    end
  else (w, PhaseDone cycleSnapshot totalGasFeeUSD).

Definition emptySnapshot (cycleNumber timestamp : Z) (paramsID : option Z)
  : CycleSnapshot :=
  mkCycleSnapshot cycleNumber timestamp paramsID 0%Q 0%Q [] []
    (mkActionPlan EmptyString [] 0%Q) 0%Q 0%Q [] [] [] 0%Q 0%Q 0%Q 0%Q.

(** [RunCycle]: every [return] of the Go function is a world handed back. *)
Definition RunCycle (a : AVM) (w : World) : World :=
  let '(w, cycleStartTime) := call (timeNow env) w in
  let '(w, cycleNumber) := getCycleNumber w in
  let cycleSnapshot :=
    emptySnapshot cycleNumber cycleStartTime (getScoringParamsID a w) in
  (* Step 1: data fetching *)
  let '(w, r) := call (GetTradableDenoms env) w in
  match r with Err _ => w | Ok supportedTokens =>
  let '(w, r) := call (GetPools env supportedTokens) w in
  match r with Err _ => w | Ok pools =>
  let poolsDataMap := fold_left (fun m p => pool_set m (ID p) p) pools [] in
  let '(w, r) := call (GetTokens env) w in
  match r with Err _ => w | Ok tokenDataMap =>
  (* Step 2: vault state *)
  let '(w, r) := call (GetPoolPositions env) w in
  match r with Err _ => w | Ok currentPositions =>
  let '(w, r) := call (GetLiquidUSDC env) w in
  match r with Err _ => w | Ok liquidUSDC =>
  let '(w, r) := call (GetTotalVaultValue env) w in
  match r with Err _ => w | Ok totalVaultValue =>
  let initialPositions :=
    convertToPositionSnapshots currentPositions poolsDataMap totalVaultValue in
  let withInitial (targets : PoolMap Q) (plan : ActionPlan)
                  (efficiency : Q) : CycleSnapshot :=
    mkCycleSnapshot cycleNumber cycleStartTime (ScoringParamsID cycleSnapshot)
      totalVaultValue liquidUSDC initialPositions targets plan
      totalVaultValue liquidUSDC initialPositions [] [] efficiency 0%Q 0%Q 0%Q in
  (* Step 3: analysis and scoring *)
  match Scorer.CalculatePoolScores (ops := float64 env) pools (scoringParams a) with
  | Err _ => w | Ok scoredPools =>
  match Analyzer.SelectTopPools scoredPools (scoringParams a) poolsDataMap with
  | Err _ => w | Ok (selectedPoolIDs, elysPoolID) =>
  if Nat.eqb (List.length selectedPoolIDs) 0 then
    let snapshot :=
      withInitial []
        (mkActionPlan "No rebalancing needed - no pools selected" [] 0%Q)
        100%Q in
    logEndOfCycleState (saveCycleSnapshot snapshot w)
  else
  let scoredPoolsMap :=
    fold_left (fun m sp => pool_set m (ScorePoolID sp) sp) scoredPools [] in
  match Analyzer.DetermineTargetAllocations selectedPoolIDs scoredPoolsMap
                                           (scoringParams a) elysPoolID with
  | Err _ => w | Ok targetAllocations =>
  (* Step 4: action planning *)
  match Planner.GenerateActionPlan (simulator env (outside w)) (NodeRPC env)
          currentPositions liquidUSDC targetAllocations totalVaultValue
          poolsDataMap tokenDataMap (scoringParams a) with
  | Err _ => w | Ok (withdrawalActions, depositActions) =>
  let plan :=
    mkActionPlan "Rebalancing to target allocations"
                 (withdrawalActions ++ depositActions) 0%Q in
  if Nat.eqb (List.length withdrawalActions) 0
     && Nat.eqb (List.length depositActions) 0 then
    let snapshot :=
      withInitial targetAllocations plan
        (calculateAllocationEfficiency initialPositions targetAllocations) in
    logEndOfCycleState (saveCycleSnapshot snapshot w)
  else
  (* Step 5: two-phase execution *)
  let cycleSnapshot :=
    mkCycleSnapshot cycleNumber cycleStartTime (ScoringParamsID cycleSnapshot)
      totalVaultValue liquidUSDC initialPositions targetAllocations plan
      0%Q 0%Q [] [] [] 0%Q 0%Q 0%Q 0%Q in
  let '(w, phase1) :=
    executePhase "Withdrawal executed successfully" withdrawalActions
      cycleSnapshot 0%Q totalVaultValue liquidUSDC currentPositions
      poolsDataMap w in
  match phase1 with PhaseFailed => w | PhaseDone cycleSnapshot totalGasFeeUSD =>
  let '(w, phase2) :=
    executePhase "Deposit executed successfully" depositActions
      cycleSnapshot totalGasFeeUSD totalVaultValue liquidUSDC currentPositions
      poolsDataMap w in
  match phase2 with PhaseFailed => w | PhaseDone cycleSnapshot totalGasFeeUSD =>
  (* Step 6: final state and metrics *)
  let '(w, r) := call (GetLiquidUSDC env) w in
  let finalLiquidUSDC := match r with Ok v => v | Err _ => liquidUSDC end in
  let '(w, r) := call (GetPoolPositions env) w in
  let finalPositions := match r with Ok v => v | Err _ => currentPositions end in
  let '(w, r) := call (GetTotalVaultValue env) w in
  let finalTotalValue := match r with Ok v => v | Err _ => totalVaultValue end in
  let netValueChange := (finalTotalValue - totalVaultValue)%Q in
  let valueChangeExcludingGas := (netValueChange + totalGasFeeUSD)%Q in
  let actualSlippageUSD :=
    if (valueChangeExcludingGas <? 0)%f64 then (- valueChangeExcludingGas)%Q
    else 0%Q in
  let finalSnapshots :=
    convertToPositionSnapshots finalPositions poolsDataMap finalTotalValue in
  let snapshot :=
    mkCycleSnapshot cycleNumber cycleStartTime (ScoringParamsID cycleSnapshot)
      totalVaultValue liquidUSDC initialPositions targetAllocations plan
      finalTotalValue finalLiquidUSDC finalSnapshots
      (TransactionHashes cycleSnapshot) (ActionReceipts cycleSnapshot)
      (calculateAllocationEfficiency finalSnapshots targetAllocations)
      netValueChange actualSlippageUSD totalGasFeeUSD in
  let w := saveCycleSnapshot snapshot w in
  let '(w, _) := call (timeNow env) w in
  w
  end end end end end end end end end end end end.

End Orchestrator.

Arguments mkEnv {X}.
Arguments GetTradableDenoms {X}.
Arguments GetPoolPositions {X}.
Arguments GetLiquidUSDC {X}.
Arguments GetTotalVaultValue {X}.
Arguments ExecuteActionPlan {X}.
Arguments GetPools {X}.
Arguments GetTokens {X}.
Arguments simulator {X}.
Arguments NodeRPC {X}.
Arguments timeNow {X}.
Arguments float64 {X}.
Arguments call {X A}.
Arguments getCycleNumber {X}.
Arguments captureVaultState {X}.
Arguments makeReceipts {X}.
Arguments mkWorld {X}.
Arguments outside {X}.
Arguments database {X}.
Arguments executePhase {X}.
Arguments saveCycleSnapshot {X}.
Arguments logEndOfCycleState {X}.
Arguments RunCycle {X}.

End AVM.

(** ** Cycles to run the orchestrator on *)

Module Cycles.
Import AVM.

Local Open Scope Q_scope.

(** [math.Log10] and [math.Pow] on exact values, as far as an example needs
    them: the binary logarithm of the integer part scaled by log10(2), and
    integer powers. *)
Definition log10Q (q : Q) : Q := inject_Z (Z.log2 (Qfloor q)) * (30103 # 100000).
Definition powQ (x y : Q) : Q := Qpower x (Qfloor y).

(** A simulator whose node does not answer. *)
Definition downSimulator : Simulator :=
  mkSimulator (fun _ _ _ _ => Err ErrSimulationFailed)
              (fun _ _ _ => Err ErrSimulationFailed)
              (fun _ _ _ _ => Err ErrSimulationFailed).

(** The vault of [Examples]: 1000 USD in pool 1, no liquid USDC, two
    ATOM/USDC pools on chain.  The outside state is the clock.  The answer
    of [GetTradableDenoms], the simulator and the outcome of a broadcast
    vary. *)
Definition vaultEnv (tradableDenoms : result (list string)) (sim : Simulator)
           (execution : result TransactionResult) : Env Z :=
  mkEnv
    (fun x => (x, tradableDenoms))
    (fun x => (x, Ok Examples.positionsInPool1))
    (fun x => (x, Ok 0))
    (fun x => (x, Ok 1000))
    (fun _ x => (x, execution))
    (fun _ x => (x, Ok (map snd Examples.twoPools)))
    (fun x => (x, Ok Examples.tokens))
    (fun _ => sim)
    "http://node"
    (fun x => ((x + 1)%Z, x))
    (Scorer.exactOps log10Q powQ).

Definition avm : AVM := mkAVM Examples.parameters "default" 1 0.

(** Before the cycle: an open database without snapshots. *)
Definition world : World Z :=
  mkWorld 1700000000%Z (mkDatabase true 0 [] (Some 1%Z)).

Definition denoms : result (list string) := Ok ["uatom"%string; "uusdc"%string].

Definition txOk : result TransactionResult :=
  Ok (mkTransactionResult "ABCD" 100 200 (1 # 100) true EmptyString).

Definition txFailed : result TransactionResult := Err (ErrMsg "broadcast failed").

(** The snapshots in the database after one cycle. *)
Definition snapshotsAfter (env : Env Z) : list CycleSnapshot :=
  cycleSnapshots (database (RunCycle env avm world)).

(** A snapshot of an aborted cycle: final state equal to the initial one and
    allocation efficiency 0. *)
Definition abortedSnapshot (s : CycleSnapshot) : Prop :=
  FinalVaultValueUSD s = InitialVaultValueUSD s
  /\ FinalLiquidUSDC s = InitialLiquidUSDC s
  /\ FinalPositions s = InitialPositions s
  /\ AllocationEfficiencyPercent s = 0.

End Cycles.

(** ** Ascending order of an integer key

    The order [sort.Slice] puts a slice into when [less] compares a key
    with [<] (timestamps: [prices[i].Timestamp.Before(prices[j].Timestamp)]). *)
Definition ascending {A : Type} (key : A -> Z) (a b : A) : Prop :=
  key a <= key b.

Definition byKeyAsc {A : Type} (key : A -> Z) (a b : A) : bool :=
  key a <? key b.

(** ** internal/vault/live.go: pool denominations and the checks of a plan *)

Module Vault.

(** [strings.Split(s, sep)] for a separator of one byte: the substrings
    between the separators, one more than there are separators. *)
Fixpoint Split (s : string) (sep : ascii) : list string :=
  match s with
  | EmptyString => [EmptyString]
  | String c rest =>
      if Ascii.eqb c sep then EmptyString :: Split rest sep
      else match Split rest sep with
           | first :: others => String c first :: others
           | [] => [String c EmptyString]
           end
  end.

(** [strconv.ParseUint(s, 10, 64)]: decimal digits only, at least one, and
    a value below 2^64. *)
Definition ParseUint (s : string) : result N :=
  if Wallet.is_empty s then Err (ErrMsg "invalid syntax")
  else
    match NilEmpty.uint_of_string s with
    | None => Err (ErrMsg "invalid syntax")
    | Some digits =>
        if (N.of_uint digits <? 2 ^ 64)%N then Ok (N.of_uint digits)
        else Err (ErrMsg "value out of range")
    end.

(** [extractPoolID]: the pool ID of a share denomination "amm/pool/<id>". *)
Definition extractPoolID (denom : string) : result N :=
  if Wallet.is_empty denom then Err (ErrMsg "denom is empty")
  else if negb (String.prefix "amm/pool/" denom) then
    Err (ErrMsg "invalid pool denom format")
  else
    let parts := Split denom "/" in
    if negb (Nat.eqb (List.length parts) 3) then
      Err (ErrMsg "invalid pool denom structure")
    else
      match ParseUint (nth 2 parts EmptyString) with
      | Err _ => Err (ErrMsg "failed to parse pool ID from denom")
      | Ok poolId =>
          if (poolId =? 0)%N then Err (ErrMsg "pool ID cannot be zero")
          else Ok poolId
      end.

(** [validateSubAction]: the basic check of one action. *)
Definition validateSubAction (action : SubAction) : result unit :=
  match Type_ action with
  | SubActionEmpty => Err (ErrMsg "action has empty type")
  | SubActionSwap =>
      guard (Wallet.is_empty (Denom (TokenIn action))
             || Wallet.is_empty (TokenOutDenom action))
            (ErrMsg "swap action has empty denominations")
  | SubActionDepositLP =>
      guard (PoolIDToDeposit action =? 0)%N
            (ErrMsg "deposit action has zero pool ID")
  | SubActionWithdrawLP =>
      guard (PoolIDToWithdraw action =? 0)%N
            (ErrMsg "withdraw action has zero pool ID")
  | SubActionNoOp | SubActionUnknown _ => Err (ErrMsg "action has unknown type")
  end.

(** [validateActionPlanInputs], given the outcome of [validateClientState]
    (the state of the gRPC client); a nil slice and an empty one are both
    refused. *)
Definition validateActionPlanInputs (clientState : result unit)
           (subActions : list SubAction) : result unit :=
  _ <- clientState ;;
  _ <- guard (Nat.eqb (List.length subActions) 0)
         (ErrMsg "no sub-actions provided for execution") ;;
  Wallet.forM_ validateSubAction subActions.

End Vault.

(** ** internal/datafetcher: the denomination of a pool's shares *)

Module Datafetcher.

(** [fmt.Sprintf("amm/pool/%d", pool.PoolId)], the key under which
    [filterSupportedPools] looks a pool up among the tradable denominations. *)
Definition poolDenom (poolId : N) : string :=
  "amm/pool/" ++ NilEmpty.string_of_uint (N.to_uint poolId).

End Datafetcher.

(** ** The actions of a plan

    What the three loops of the planner put into a plan: the shape of a
    withdrawal ([processWithdrawals]), of a consolidation swap
    ([processConsolidation]) and of a deposit ([processDeposits]). *)

Module PlanShape.

Definition withdrawalAction (usdcToken : Token Q)
           (currentPositions : list (Position Q)) (action : SubAction) : Prop :=
  Type_ action = SubActionWithdrawLP
  /\ PoolIDToWithdraw action <> 0%N
  /\ In (PoolIDToWithdraw action) (map (@PosPoolID Q) currentPositions)
  /\ 0 < LPSharesToWithdraw action
  /\ TargetDenomOnExit action = IBCDenom usdcToken
  /\ ExpectedAmountsOut action <> []
  /\ (0 <= ExpectedSlippage action)%Q
  /\ (0 <= SlippageTolerancePct action)%Q
  /\ (SlippageTolerancePct action <= 1)%Q.

Definition consolidationAction (usdcToken : Token Q)
           (scoringParams : ScoringParameters Q) (action : SubAction) : Prop :=
  Type_ action = SubActionSwap
  /\ Amount (TokenIn action) <> 0
  /\ Denom (TokenIn action) <> IBCDenom usdcToken
  /\ TokenOutDenom action = IBCDenom usdcToken
  /\ SlippageTolerancePct action
     = (NormalPoolSlippagePercent scoringParams / 100)%Q
  /\ (ExpectedSlippage action <= SlippageTolerancePct action)%Q
  /\ (0 <= SlippageTolerancePct action)%Q
  /\ (SlippageTolerancePct action <= 1)%Q.

Definition depositAction (usdcToken : Token Q) (poolsData : PoolMap (Pool Q))
           (action : SubAction) : Prop :=
  Type_ action = SubActionDepositLP
  /\ In (PoolIDToDeposit action) (map fst poolsData)
  /\ (exists amount,
         AmountsToDeposit action = [mkCoin (IBCDenom usdcToken) amount]
         /\ 0 < amount)
  /\ (ExpectedSlippage action <= SlippageTolerancePct action)%Q
  /\ (0 <= SlippageTolerancePct action)%Q
  /\ (SlippageTolerancePct action <= 1)%Q.

End PlanShape.

(** ** internal/analyzer/SelectTopPools.go: the selector and the allocator
    without a forced pool

    The file holds two versions of [SelectTopPools] and
    [DetermineTargetAllocations]; this is the first one, which knows nothing
    of the ELYS pool: two arguments for the selector, three for the
    allocator, [MinAllocation] the only minimum. *)

Module AnalyzerV1.
Import Analyzer.

(** The filtering loop: [validScoredPools]. *)
Definition filterStep (validScoredPools : list (PoolScoreResult Q))
           (poolScore : PoolScoreResult Q) : result (list (PoolScoreResult Q)) :=
  if IsNaN (Score poolScore) || IsInf (Score poolScore) then
    Err (ErrMsg "pool has invalid score")
  else Ok (validScoredPools ++ [poolScore]).

Definition SelectTopPools
           (scoredPools : list (PoolScoreResult Q))
           (params : ScoringParameters Q)
  : result (list PoolID) :=
  if Nat.eqb (List.length scoredPools) 0 then
    Err (ErrMsg "no pools provided for selection")
  else if MaxPools params <=? 0 then
    Err (ErrMsg "MaxPools parameter must be positive")
  else
    validScoredPools <- foldM filterStep scoredPools [] ;;
    if Nat.eqb (List.length validScoredPools) 0 then Err ErrNoValidPools
    else
      let validScoredPools := sortByScoreDesc validScoredPools in
      let numberOfPoolsToSelect :=
        if MaxPools params >? Z.of_nat (List.length validScoredPools)
        then List.length validScoredPools
        else Z.to_nat (MaxPools params) in
      Ok (map (@ScorePoolID Q) (firstn numberOfPoolsToSelect validScoredPools)).

Definition constrainPool (params : ScoringParameters Q)
           (totalUnlockedScore remainingPercent : Q)
           (st : PoolMap Q * PoolMap Q * list PoolID * bool)
           (entry : PoolID * Q)
  : PoolMap Q * PoolMap Q * list PoolID * bool :=
  let '(allocs, locked, poolsToLock, madeChanges) := st in
  let '(id, score) := entry in
  let currentAlloc := (score / totalUnlockedScore * remainingPercent)%Q in
  let allocs := pool_set allocs id currentAlloc in
  if (currentAlloc <? MinAllocation params)%f64 then
    (allocs, pool_set locked id (MinAllocation params), poolsToLock ++ [id], true)
  else if (currentAlloc >? MaxAllocation params)%f64 then
    (allocs, pool_set locked id (MaxAllocation params), poolsToLock ++ [id], true)
  else (allocs, locked, poolsToLock, madeChanges).

Fixpoint enforceConstraints (fuel : nat) (params : ScoringParameters Q)
         (st : AllocState) : result (AllocState * bool) :=
  match fuel with
  | O => Ok (st, true)
  | S fuel' =>
      let remainingPercent :=
        fold_left (fun r entry => (r - snd entry)%Q) (lockedAllocations st) 1%Q in
      if (remainingPercent <? - (1 # 100000))%f64 then
        Err (ErrMsg "allocation constraint enforcement resulted in over-allocation")
      else
        let remainingPercent :=
          if (remainingPercent <? 0)%f64 then 0%Q else remainingPercent in
        let totalUnlockedScore :=
          fold_left (fun t entry => (t + snd entry)%Q) (unlockedPoolScores st) 0%Q in
        if Nat.eqb (List.length (unlockedPoolScores st)) 0 then Ok (st, false)
        else if (totalUnlockedScore <=? 0)%f64 then
          Err (ErrMsg "total unlocked score is non-positive during constraint enforcement")
        else
          let '(allocs, locked, poolsToLock, madeChanges) :=
            fold_left (constrainPool params totalUnlockedScore remainingPercent)
                      (unlockedPoolScores st)
                      (allocations st, lockedAllocations st, [], false) in
          let unlocked := fold_left pool_delete poolsToLock (unlockedPoolScores st) in
          let st' := mkAllocState allocs locked unlocked in
          if madeChanges then enforceConstraints fuel' params st'
          else Ok (st', false)
  end.

Definition violatesConstraints (params : ScoringParameters Q)
           (entry : PoolID * Q) : bool :=
  let '(id, alloc) := entry in
  (alloc <? MinAllocation params - (1 # 100000))%f64
  || (alloc >? MaxAllocation params + (1 # 100000))%f64.

Definition DetermineTargetAllocations
           (selectedPoolIDs : list PoolID)
           (scoredPoolsMap : PoolMap (PoolScoreResult Q))
           (params : ScoringParameters Q)
  : result (PoolMap Q) :=
  let numSelected := List.length selectedPoolIDs in
  if Nat.eqb numSelected 0 then Ok []
  else
    _ <- guard (IsNaN (MinAllocation params) || IsInf (MinAllocation params))
           (ErrMsg "MinAllocation is not finite") ;;
    _ <- guard (IsNaN (MaxAllocation params) || IsInf (MaxAllocation params))
           (ErrMsg "MaxAllocation is not finite") ;;
    _ <- guard (MinAllocation params <? 0)%f64
           (ErrMsg "MinAllocation cannot be negative") ;;
    _ <- guard (MaxAllocation params <=? 0)%f64
           (ErrMsg "MaxAllocation must be positive") ;;
    _ <- guard (MinAllocation params >? MaxAllocation params)%f64
           (ErrMsg "MinAllocation cannot be greater than MaxAllocation") ;;
    let n := inject_Z (Z.of_nat numSelected) in
    let minTotalRequired := (n * MinAllocation params)%Q in
    _ <- guard (minTotalRequired >? 100001 # 100000)%f64
           (ErrMsg "minimum allocation constraints cannot be satisfied") ;;
    let equalShare := (1 / n)%Q in
    _ <- guard (equalShare >? MaxAllocation params)%f64
           (ErrMsg "equal distribution violates MaxAllocation constraint") ;;
    '(validPools, totalScore) <-
      foldM (collectScore scoredPoolsMap) selectedPoolIDs ([], 0%Q) ;;
    _ <- guard (totalScore <=? 0)%f64
           (ErrMsg "total score of selected pools is non-positive") ;;
    let allocs0 :=
      fold_left (fun m p => pool_set m (fst p) (snd p / totalScore)%Q)
                validPools [] in
    let unlocked0 :=
      fold_left (fun m p => pool_set m (fst p) (snd p)) validPools [] in
    '(st, madeChanges) <-
      enforceConstraints maxAllocationIterations params
                         (mkAllocState allocs0 [] unlocked0) ;;
    _ <- guard madeChanges
           (ErrMsg "allocation constraint enforcement failed to converge") ;;
    '(targetAllocations, finalSum) <-
      foldM (assignFinal st) selectedPoolIDs ([], 0%Q) ;;
    _ <- guard (Abs (finalSum - 1) >? 1 # 1000)%f64
           (ErrMsg "final allocation sum deviates significantly from 1.0") ;;
    if (finalSum >? 0)%f64 then
      let scaleFactor := (1 / finalSum)%Q in
      let targetAllocations :=
        map (fun entry => (fst entry, (snd entry * scaleFactor)%Q))
            targetAllocations in
      _ <- guard (existsb (violatesConstraints params) targetAllocations)
             (ErrMsg "final allocation violates constraints") ;;
      Ok targetAllocations
    else Err (ErrMsg "final allocation sum is zero").

End AnalyzerV1.

(** ** The database after a cycle *)

Module Ledger.
Import AVM.

(** The database at the end of a cycle numbered [n] that found [db] after
    its number was taken: [db] itself, or [db] after one snapshot numbered
    [n] was handed to [SaveCycleSnapshot]. *)
Definition counted (db : Database) (n : Z) (db' : Database) : Prop :=
  db' = db
  \/ exists s, CycleNumber s = n /\ db' = fst (SaveCycleSnapshot s db).

End Ledger.

(** * Facts *)

(** ** Results *)

Lemma bind_Ok {A B : Type} (r : result A) (k : A -> result B) (b : B) :
  bind r k = Ok b -> exists a, r = Ok a /\ k a = Ok b.
Proof. destruct r as [a|e]; simpl; intros H; [eauto | discriminate]. Qed.

Lemma guard_Ok (c : bool) (e : error) (u : unit) : guard c e = Ok u -> c = false.
Proof. destruct c; simpl; [discriminate | reflexivity]. Qed.

(** ** Comparisons on rationals *)

Lemma Qleb_true (x y : Q) : Qleb x y = true <-> (x <= y)%Q.
Proof. unfold Qleb. apply Qle_bool_iff. Qed.

Lemma Qleb_false (x y : Q) : Qleb x y = false <-> (y < x)%Q.
Proof.
  unfold Qleb. destruct (Qle_bool x y) eqn:E.
  - apply Qle_bool_iff in E. split; [discriminate | intros; exfalso; lra].
  - split; intros _; [| reflexivity].
    apply Qnot_le_lt. intro H. apply Qle_bool_iff in H. congruence.
Qed.

Lemma Qltb_true (x y : Q) : Qltb x y = true <-> (x < y)%Q.
Proof.
  unfold Qltb. rewrite negb_true_iff. apply Qleb_false.
Qed.

Lemma Qltb_false (x y : Q) : Qltb x y = false <-> (y <= x)%Q.
Proof.
  unfold Qltb. rewrite negb_false_iff. apply Qleb_true.
Qed.

Lemma Qeqb_true (x y : Q) : Qeqb x y = true <-> (x == y)%Q.
Proof. unfold Qeqb. apply Qeq_bool_iff. Qed.

(** ** Rounding *)

Lemma round_half_even_close (q : Q) :
  (Qabs (inject_Z (round_half_even q) - q) <= 1 # 2)%Q.
Proof.
  unfold round_half_even.
  pose proof (Qfloor_le q) as Hlo. pose proof (Qlt_floor q) as Hhi.
  rewrite inject_Z_plus in Hhi. change (inject_Z 1) with 1%Q in Hhi.
  set (f := Qfloor q) in *.
  destruct (Qcompare_spec (q - inject_Z f) (1 # 2)) as [He|Hl|Hg].
  - destruct (Z.even f); [| rewrite inject_Z_plus; change (inject_Z 1) with 1%Q];
      apply Qabs_case; intros; lra.
  - apply Qabs_case; intros; lra.
  - rewrite inject_Z_plus. change (inject_Z 1) with 1%Q.
    apply Qabs_case; intros; lra.
Qed.

Lemma round_half_even_nonneg (q : Q) : (0 <= q)%Q -> 0 <= round_half_even q.
Proof.
  intros Hq. unfold round_half_even.
  assert (Hf : 0 <= Qfloor q).
  { change 0 with (Qfloor 0). apply Qfloor_resp_le. exact Hq. }
  destruct (q - inject_Z (Qfloor q) ?= 1 # 2)%Q; [destruct (Z.even _) | |]; lia.
Qed.

Lemma round_half_even_comp (x y : Q) :
  (x == y)%Q -> round_half_even x = round_half_even y.
Proof.
  intros H. unfold round_half_even. rewrite (Qfloor_comp x y H).
  rewrite H. reflexivity.
Qed.

Lemma round_half_even_inject (z : Z) : round_half_even (inject_Z z) = z.
Proof.
  unfold round_half_even. rewrite Qfloor_Z.
  destruct (Qcompare_spec (inject_Z z - inject_Z z) (1 # 2)) as [He|Hl|Hg].
  - exfalso. lra.
  - reflexivity.
  - exfalso. lra.
Qed.

(** ** LegacyDec *)

Lemma precisionReuse_pos : 0 < LegacyDec.precisionReuse.
Proof. reflexivity. Qed.

Lemma chopPrecisionAndRound_exact (a : Z) :
  0 <= a -> LegacyDec.chopPrecisionAndRound (a * LegacyDec.precisionReuse) = a.
Proof.
  intros Ha. unfold LegacyDec.chopPrecisionAndRound.
  pose proof precisionReuse_pos as Hp.
  destruct (Z.ltb_spec (a * LegacyDec.precisionReuse) 0) as [Hneg|_]; [nia|].
  unfold LegacyDec.chopPrecisionAndRoundNonNeg.
  rewrite Z.mod_mul by lia. simpl. apply Z.div_mul. lia.
Qed.

Lemma TruncateInt_exact (a : Z) :
  LegacyDec.TruncateInt (a * LegacyDec.precisionReuse) = a.
Proof.
  unfold LegacyDec.TruncateInt. apply Z.quot_mul. discriminate.
Qed.

Lemma power_of_ten_dec_eq (n : nat) :
  power_of_ten_dec n = 10 ^ Z.of_nat n * LegacyDec.precisionReuse.
Proof.
  induction n as [|n IH].
  - reflexivity.
  - cbn [power_of_ten_dec]. rewrite IH. unfold LegacyDec.Mul, LegacyDec.LegacyNewDec.
    rewrite Nat2Z.inj_succ, Z.pow_succ_r by lia.
    replace (10 ^ Z.of_nat n * LegacyDec.precisionReuse * (10 * LegacyDec.precisionReuse))
      with (10 * 10 ^ Z.of_nat n * LegacyDec.precisionReuse * LegacyDec.precisionReuse)
      by ring.
    apply chopPrecisionAndRound_exact.
    pose proof (Z.pow_nonneg 10 (Z.of_nat n)). pose proof precisionReuse_pos. nia.
Qed.

Lemma pow10_split (p : Z) :
  0 <= p <= 18 -> 10 ^ (18 - p) * 10 ^ p = LegacyDec.precisionReuse.
Proof.
  intros Hp. rewrite <- Z.pow_add_r by lia.
  replace (18 - p + p) with 18 by lia. reflexivity.
Qed.

(** ** internal/utils/conversion.go *)

(** Within [k] bits. *)
Lemma BitLen_le (n k : Z) : 0 <= n < 2 ^ k -> 0 <= k -> LegacyDec.BitLen n <= k.
Proof.
  intros Hn Hk. unfold LegacyDec.BitLen. rewrite Z.abs_eq by lia.
  apply Z.log2_up_le_pow2; lia.
Qed.

(** [Float64ToSDKInt] step by step, on a non-negative amount other than 0:
    with [n] the amount scaled by [10^precision] and rounded to the nearest
    integer, the parsed decimal is [n * 10^(18-precision)], the product
    [n * 10^18] and the result [n], each if in range. *)
Lemma Float64ToSDKInt_steps (x : Q) (p : Z) :
  (0 <= x)%Q -> 0 <= p <= 18 -> Qeqb x 0 = false ->
  Float64ToSDKInt x p
  = let n := round_half_even (x * inject_Z (10 ^ p)) in
    if LegacyDec.BitLen (n * 10 ^ (18 - p)) >? LegacyDec.maxDecBitLen then
      Err ErrConversionFailed
    else if LegacyDec.BitLen (n * LegacyDec.precisionReuse)
            >? LegacyDec.maxDecBitLen then
      Err (Panic "Int overflow")
    else if LegacyDec.BitLen n >? LegacyDec.MaxBitLen then
      Err (Panic "NewIntFromBigInt() out of bound")
    else Ok n.
Proof.
  intros Hx Hp Hz. unfold Float64ToSDKInt.
  destruct (Z.ltb_spec p 0) as [?|_]; [lia|].
  destruct (Z.gtb_spec p 18) as [?|_]; [lia|]. simpl orb. cbv iota.
  destruct (Qltb x 0) eqn:Hneg; [apply Qltb_true in Hneg; lra|].
  rewrite Hz.
  unfold LegacyDec.LegacyNewDecFromStr, LegacyDec.Sprintf_f.
  cbn [LegacyDec.decs LegacyDec.digits]. unfold LegacyDec.Precision.
  destruct (Z.gtb_spec p 18) as [?|_]; [lia|].
  destruct (Z.ltb_spec p 0) as [?|_]; [lia|]. simpl orb. cbv iota zeta.
  set (d := round_half_even (x * inject_Z (10 ^ p))).
  assert (Hd : 0 <= d).
  { apply round_half_even_nonneg. apply Qmult_le_0_compat; [exact Hx|].
    change 0%Q with (inject_Z 0). rewrite <- Zle_Qle. apply Z.pow_nonneg. lia. }
  destruct (LegacyDec.BitLen (d * 10 ^ (18 - p)) >? LegacyDec.maxDecBitLen);
    [reflexivity|].
  rewrite power_of_ten_dec_eq, Z2Nat.id by lia.
  unfold LegacyDec.Mul.
  replace (d * 10 ^ (18 - p) * (10 ^ p * LegacyDec.precisionReuse))
    with (d * (10 ^ (18 - p) * 10 ^ p) * LegacyDec.precisionReuse) by ring.
  rewrite pow10_split by lia.
  rewrite chopPrecisionAndRound_exact by (pose proof precisionReuse_pos; nia).
  destruct (LegacyDec.BitLen (d * LegacyDec.precisionReuse)
            >? LegacyDec.maxDecBitLen); [reflexivity|].
  rewrite TruncateInt_exact.
  destruct (LegacyDec.BitLen d >? LegacyDec.MaxBitLen); [reflexivity|].
  destruct (Z.ltb_spec d 0); [lia | reflexivity].
Qed.

(** On a precision in range and a non-negative amount that fits a
    [LegacyDec] once scaled and rounded ([n * 10^18] within 315 bits),
    [Float64ToSDKInt] returns the amount scaled by [10^precision] and
    rounded to the nearest integer. *)
Lemma Float64ToSDKInt_value (x : Q) (p : Z) :
  (0 <= x)%Q -> 0 <= p <= 18 ->
  round_half_even (x * inject_Z (10 ^ p)) * 10 ^ 18 < 2 ^ LegacyDec.maxDecBitLen ->
  Float64ToSDKInt x p = Ok (round_half_even (x * inject_Z (10 ^ p))).
Proof.
  intros Hx Hp Hfit.
  destruct (Qeqb x 0) eqn:Hz.
  - unfold Float64ToSDKInt.
    destruct (Z.ltb_spec p 0) as [?|_]; [lia|].
    destruct (Z.gtb_spec p 18) as [?|_]; [lia|]. simpl orb. cbv iota.
    destruct (Qltb x 0) eqn:Hneg; [apply Qltb_true in Hneg; lra|].
    rewrite Hz. apply Qeqb_true in Hz. f_equal.
    assert (E : (x * inject_Z (10 ^ p) == inject_Z 0)%Q) by (rewrite Hz; ring).
    rewrite (round_half_even_comp _ _ E). reflexivity.
  - rewrite Float64ToSDKInt_steps by assumption. cbv zeta.
    set (n := round_half_even (x * inject_Z (10 ^ p))) in *.
    assert (Hn : 0 <= n).
    { apply round_half_even_nonneg. apply Qmult_le_0_compat; [exact Hx|].
      change 0%Q with (inject_Z 0). rewrite <- Zle_Qle. apply Z.pow_nonneg. lia. }
    assert (H18 : 2 ^ 59 < 10 ^ 18) by (vm_compute; reflexivity).
    assert (Hsplit : 2 ^ LegacyDec.maxDecBitLen = 2 ^ LegacyDec.MaxBitLen * 2 ^ 59).
    { unfold LegacyDec.maxDecBitLen. apply Z.pow_add_r; vm_compute; discriminate. }
    assert (H256 : 0 < 2 ^ LegacyDec.MaxBitLen) by (vm_compute; reflexivity).
    assert (H59 : 0 < 2 ^ 59) by (vm_compute; reflexivity).
    assert (Hlow : 0 < 10 ^ (18 - p) <= 10 ^ 18).
    { split; [apply Z.pow_pos_nonneg; lia | apply Z.pow_le_mono_r; lia]. }
    assert (B1 : LegacyDec.BitLen (n * 10 ^ (18 - p)) <= LegacyDec.maxDecBitLen).
    { apply BitLen_le; [|vm_compute; discriminate]. nia. }
    assert (B2 : LegacyDec.BitLen (n * LegacyDec.precisionReuse)
                 <= LegacyDec.maxDecBitLen).
    { apply BitLen_le; [|vm_compute; discriminate].
      change LegacyDec.precisionReuse with (10 ^ 18). lia. }
    assert (B3 : LegacyDec.BitLen n <= LegacyDec.MaxBitLen).
    { apply BitLen_le; [|vm_compute; discriminate]. rewrite Hsplit in Hfit.
      split; [exact Hn|].
      destruct (Z_lt_le_dec n (2 ^ LegacyDec.MaxBitLen)) as [L|L]; [exact L|].
      exfalso. nia. }
    destruct (Z.gtb_spec (LegacyDec.BitLen (n * 10 ^ (18 - p)))
                         LegacyDec.maxDecBitLen); [lia|].
    destruct (Z.gtb_spec (LegacyDec.BitLen (n * LegacyDec.precisionReuse))
                         LegacyDec.maxDecBitLen); [lia|].
    destruct (Z.gtb_spec (LegacyDec.BitLen n) LegacyDec.MaxBitLen); [lia|].
    reflexivity.
Qed.

(** Whenever [Float64ToSDKInt] returns an integer, it is the amount scaled by
    [10^precision] and rounded to the nearest integer. *)
Lemma Float64ToSDKInt_inv (x : Q) (p n : Z) :
  Float64ToSDKInt x p = Ok n ->
  0 <= p <= 18 /\ (0 <= x)%Q /\ round_half_even (x * inject_Z (10 ^ p)) = n.
Proof.
  intros H.
  assert (Hp : 0 <= p <= 18).
  { unfold Float64ToSDKInt in H.
    destruct (Z.ltb_spec p 0); [discriminate|].
    destruct (Z.gtb_spec p 18); [discriminate|]. lia. }
  assert (Hx : (0 <= x)%Q).
  { unfold Float64ToSDKInt in H.
    destruct (Z.ltb_spec p 0) as [?|_]; [lia|].
    destruct (Z.gtb_spec p 18) as [?|_]; [lia|]. simpl orb in H. cbv iota in H.
    destruct (Qltb x 0) eqn:Hneg; [discriminate|].
    apply Qltb_false in Hneg. exact Hneg. }
  split; [exact Hp|]. split; [exact Hx|].
  destruct (Qeqb x 0) eqn:Hz.
  - unfold Float64ToSDKInt in H.
    destruct (Z.ltb_spec p 0) as [?|_]; [lia|].
    destruct (Z.gtb_spec p 18) as [?|_]; [lia|]. simpl orb in H. cbv iota in H.
    destruct (Qltb x 0); [discriminate|]. rewrite Hz in H. injection H as <-.
    apply Qeqb_true in Hz.
    assert (E : (x * inject_Z (10 ^ p) == inject_Z 0)%Q) by (rewrite Hz; ring).
    rewrite (round_half_even_comp _ _ E). reflexivity.
  - rewrite Float64ToSDKInt_steps in H by assumption. cbv zeta in H.
    repeat match type of H with
           | (if ?c then _ else _) = _ => destruct c; [discriminate|]
           end.
    injection H as <-. reflexivity.
Qed.

(** On a precision in range and a non-negative amount, [SDKIntToFloat64]
    returns the amount divided by [10^precision]. *)
Lemma SDKIntToFloat64_value (n p : Z) :
  0 <= n -> 0 <= p <= 18 ->
  exists y, SDKIntToFloat64 n p = Ok y /\ (y == inject_Z n / inject_Z (10 ^ p))%Q.
Proof.
  intros Hn Hp. unfold SDKIntToFloat64.
  destruct (Z.ltb_spec p 0) as [?|_]; [lia|].
  destruct (Z.gtb_spec p 18) as [?|_]; [lia|]. simpl orb. cbv iota.
  destruct (Z.ltb_spec n 0) as [?|_]; [lia|].
  eexists. split; [reflexivity|].
  rewrite power_of_ten_dec_eq, Z2Nat.id by lia.
  unfold LegacyDec.Quo, LegacyDec.LegacyNewDecFromInt.
  pose proof precisionReuse_pos as HP.
  assert (H10 : 0 < 10 ^ p) by (apply Z.pow_pos_nonneg; lia).
  assert (H10' : 0 < 10 ^ (18 - p)) by (apply Z.pow_pos_nonneg; lia).
  replace (n * LegacyDec.precisionReuse * LegacyDec.precisionReuse * LegacyDec.precisionReuse)
    with (n * 10 ^ (18 - p) * LegacyDec.precisionReuse * (10 ^ p * LegacyDec.precisionReuse))
    by (rewrite <- (pow10_split p Hp) at 3; ring).
  rewrite Z.quot_mul by nia.
  rewrite chopPrecisionAndRound_exact by nia.
  unfold LegacyDec.Float64, Qeq, Qdiv, Qmult, Qinv. cbn [Qnum Qden].
  destruct (10 ^ p) as [|q|q] eqn:E; try lia.
  cbn [inject_Z Qnum Qden]. rewrite Z2Pos.id by exact HP.
  rewrite <- (pow10_split p Hp), E. rewrite Pos2Z.inj_mul. lia.
Qed.

Lemma pow10_Qpos (p : Z) : 0 <= p -> (0 < inject_Z (10 ^ p))%Q.
Proof.
  intros Hp. change 0%Q with (inject_Z 0). rewrite <- Zlt_Qlt.
  apply Z.pow_pos_nonneg; lia.
Qed.

(** Rounding does not pass an integer bound. *)
Lemma round_half_even_le (q : Q) (m : Z) :
  (q <= inject_Z m)%Q -> round_half_even q <= m.
Proof.
  intros Hq. pose proof (round_half_even_close q) as Hc.
  apply Qabs_Qle_condition in Hc. destruct Hc as [_ Hhi].
  assert (H : (inject_Z (round_half_even q) < inject_Z (m + 1))%Q).
  { rewrite inject_Z_plus. change (inject_Z 1) with 1%Q. lra. }
  rewrite <- Zlt_Qlt in H. lia.
Qed.

(** Whatever comes back from the round trip is within half a unit of the
    last decimal. *)
Lemma roundtrip_distance (x : Q) (p n : Z) (y : Q) :
  Float64ToSDKInt x p = Ok n -> SDKIntToFloat64 n p = Ok y ->
  (Qabs (y - x) <= (1 # 2) / inject_Z (10 ^ p))%Q.
Proof.
  intros H1 H2.
  apply Float64ToSDKInt_inv in H1. destruct H1 as [Hp [Hx Hn]].
  pose proof (pow10_Qpos p ltac:(lia)) as HP.
  set (P := inject_Z (10 ^ p)) in *.
  assert (Hn0 : 0 <= n).
  { subst n. apply round_half_even_nonneg. apply Qmult_le_0_compat; lra. }
  destruct (SDKIntToFloat64_value n p Hn0 Hp) as [y0 [Hy Ey]].
  rewrite H2 in Hy. injection Hy as <-. fold P in Ey.
  pose proof (round_half_even_close (x * P)) as Hc. rewrite Hn in Hc.
  apply Qabs_Qle_condition in Hc. destruct Hc as [Hlo Hhi].
  assert (E : ((y - x) * P == inject_Z n - x * P)%Q).
  { rewrite Ey. field. lra. }
  apply Qabs_Qle_condition. split.
  - setoid_replace (- ((1 # 2) / P))%Q with ((- (1 # 2)) / P)%Q by (field; lra).
    apply Qle_shift_div_r; [exact HP|]. rewrite E. lra.
  - apply Qle_shift_div_l; [exact HP|]. rewrite E. lra.
Qed.

Lemma conversion_roundtrip_half_unit (x : Q) (p : Z) :
  (0 <= x)%Q -> 0 <= p <= 18 ->
  (x * inject_Z (10 ^ p) <= inject_Z ((2 ^ 315 - 1) / 10 ^ 18))%Q ->
  exists n y,
    Float64ToSDKInt x p = Ok n /\ SDKIntToFloat64 n p = Ok y /\
    (Qabs (y - x) <= (1 # 2) / inject_Z (10 ^ p))%Q.
Proof.
  intros Hx Hp Hfit.
  pose proof (pow10_Qpos p ltac:(lia)) as HP.
  apply round_half_even_le in Hfit.
  set (n := round_half_even (x * inject_Z (10 ^ p))) in *.
  assert (Hn : 0 <= n).
  { apply round_half_even_nonneg. apply Qmult_le_0_compat; lra. }
  destruct (SDKIntToFloat64_value n p Hn Hp) as [y [Hy Ey]].
  assert (H1 : Float64ToSDKInt x p = Ok n).
  { apply Float64ToSDKInt_value; try assumption.
    fold n. change LegacyDec.maxDecBitLen with 315.
    pose proof (Z.mul_div_le (2 ^ 315 - 1) (10 ^ 18) ltac:(reflexivity)) as Hm.
    assert (0 < 10 ^ 18) by reflexivity. nia. }
  exists n, y. split; [exact H1|]. split; [exact Hy|].
  exact (roundtrip_distance x p n y H1 Hy).
Qed.

(** C8 (as the code has it).  For every non-negative value [x] and every
    precision [p] in [0, 18] such that [x * 10^p] does not exceed
    [(2^315 - 1) / 10^18] (the largest integer [n] whose decimal [n * 10^18]
    fits the 315 bits of a [LegacyDec], about [6.67 * 10^76]):
    [Float64ToSDKInt x p] succeeds with some integer [n],
    [SDKIntToFloat64 n p] succeeds with some [y], and [y] is equal to [x]
    within [10^(-p)]. *)
Theorem conversion_roundtrip (x : Q) (p : Z) :
  (0 <= x)%Q -> 0 <= p <= 18 ->
  (x * inject_Z (10 ^ p) <= inject_Z ((2 ^ 315 - 1) / 10 ^ 18))%Q ->
  exists n y,
    Float64ToSDKInt x p = Ok n /\ SDKIntToFloat64 n p = Ok y /\
    (Qabs (y - x) <= 1 / inject_Z (10 ^ p))%Q.
Proof.
  intros Hx Hp Hfit.
  destruct (conversion_roundtrip_half_unit x p Hx Hp Hfit) as [n [y [H1 [H2 H3]]]].
  exists n, y. repeat split; try assumption.
  pose proof (pow10_Qpos p ltac:(lia)) as HP.
  eapply Qle_trans; [exact H3|].
  apply Qle_shift_div_l; [exact HP|].
  setoid_replace ((1 # 2) / inject_Z (10 ^ p) * inject_Z (10 ^ p))%Q with (1 # 2)%Q
    by (field; lra).
  lra.
Qed.

(** The round trip of 1.234567 at precision 3. *)
Lemma conversion_roundtrip_witness :
  exists n y,
    Float64ToSDKInt (1234567 # 1000000) 3 = Ok n /\ SDKIntToFloat64 n 3 = Ok y /\
    (Qabs (y - (1234567 # 1000000)) <= 1 / inject_Z (10 ^ 3))%Q.
Proof.
  apply (conversion_roundtrip (1234567 # 1000000) 3).
  - unfold Qle; simpl; lia.
  - lia.
  - vm_compute. discriminate.
Defined.

(** C8, where the statement fails without the bound: [2^1000] is a finite
    float64, and no [Int] comes back for it; the decimal is out of range. *)
Lemma conversion_roundtrip_counterexample :
  Float64ToSDKInt (inject_Z (2 ^ 1000)) 0 = Err ErrConversionFailed
  /\ ~ (exists n y,
          Float64ToSDKInt (inject_Z (2 ^ 1000)) 0 = Ok n
          /\ SDKIntToFloat64 n 0 = Ok y
          /\ (Qabs (y - inject_Z (2 ^ 1000)) <= 1 / inject_Z (10 ^ 0))%Q).
Proof.
  assert (H : Float64ToSDKInt (inject_Z (2 ^ 1000)) 0 = Err ErrConversionFailed)
    by (vm_compute; reflexivity).
  split; [exact H|].
  intros [n [y [Hn _]]]. rewrite H in Hn. discriminate.
Qed.

(** Beyond [n * 10^18 < 2^315], with [n] the amount scaled and rounded, no
    integer comes back: the decimal is refused by [LegacyNewDecFromStr], or
    [Mul] panics. *)
Lemma BitLen_gt (n k : Z) : 0 <= k -> 2 ^ k <= n -> k < LegacyDec.BitLen n.
Proof.
  intros Hk Hn. unfold LegacyDec.BitLen.
  assert (H2 : 0 < 2 ^ k) by (apply Z.pow_pos_nonneg; lia).
  rewrite Z.abs_eq by lia. apply Z.log2_up_lt_pow2; lia.
Qed.

Lemma Float64ToSDKInt_out_of_range (x : Q) (p : Z) :
  (0 <= x)%Q -> 0 <= p <= 18 ->
  2 ^ 315 <= round_half_even (x * inject_Z (10 ^ p)) * 10 ^ 18 ->
  is_ok (Float64ToSDKInt x p) = false.
Proof.
  intros Hx Hp Hbig.
  assert (H315 : 0 < 2 ^ 315) by reflexivity.
  destruct (Qeqb x 0) eqn:Hz.
  - exfalso. apply Qeqb_true in Hz.
    assert (E : (x * inject_Z (10 ^ p) == inject_Z 0)%Q) by (rewrite Hz; ring).
    rewrite (round_half_even_comp _ _ E), round_half_even_inject in Hbig. lia.
  - rewrite Float64ToSDKInt_steps by assumption. cbv zeta.
    set (n := round_half_even (x * inject_Z (10 ^ p))) in *.
    destruct (LegacyDec.BitLen (n * 10 ^ (18 - p)) >? LegacyDec.maxDecBitLen);
      [reflexivity|].
    destruct (Z.gtb_spec (LegacyDec.BitLen (n * LegacyDec.precisionReuse))
                         LegacyDec.maxDecBitLen) as [_|Hle]; [reflexivity|].
    exfalso. change LegacyDec.precisionReuse with (10 ^ 18) in Hle.
    change LegacyDec.maxDecBitLen with 315 in Hle.
    pose proof (BitLen_gt (n * 10 ^ 18) 315 ltac:(lia) Hbig). lia.
Qed.

(** [3 * 2^254] is a float64 below the largest [Int], [2^256 - 1], and no
    [Int] comes back for it: its decimal needs 316 bits. *)
Lemma Float64ToSDKInt_below_MaxInt :
  (inject_Z (3 * 2 ^ 254) <= inject_Z (2 ^ 256 - 1))%Q
  /\ LegacyDec.BitLen (3 * 2 ^ 254 * 10 ^ 18) = 316
  /\ Float64ToSDKInt (inject_Z (3 * 2 ^ 254)) 0 = Err ErrConversionFailed.
Proof.
  split; [vm_compute; discriminate | split; vm_compute; reflexivity].
Qed.

(** The bound of the round trip does not rest on [Float64()] being
    exact: any value [y'] at least as close to the decimal [y] as [x] is
    (as the binary64 value nearest to [y] is, [x] being one) is within
    [10^(-p)] of [x] too. *)
Lemma conversion_roundtrip_nearest (x y' : Q) (p : Z) :
  (0 <= x)%Q -> 0 <= p <= 18 ->
  forall n y,
    Float64ToSDKInt x p = Ok n -> SDKIntToFloat64 n p = Ok y ->
    (Qabs (y' - y) <= Qabs (x - y))%Q ->
    (Qabs (y' - x) <= 1 / inject_Z (10 ^ p))%Q.
Proof.
  intros Hx Hp n y H1 H2 Hnear.
  pose proof (roundtrip_distance x p n y H1 H2) as H3.
  pose proof (pow10_Qpos p ltac:(lia)) as HP.
  assert (Hu : ((1 # 2) / inject_Z (10 ^ p) + (1 # 2) / inject_Z (10 ^ p)
                == 1 / inject_Z (10 ^ p))%Q) by (field; lra).
  rewrite <- Hu.
  set (u := ((1 # 2) / inject_Z (10 ^ p))%Q) in *.
  revert Hnear H3. 
  apply (Qabs_case (y' - y)); apply (Qabs_case (x - y)); apply (Qabs_case (y - x));
    apply (Qabs_case (y' - x)); intros; lra.
Qed.

(** ** Rounding to binary64 *)

Lemma pow2_Qpos (e : Z) : (0 < 2 ^ e)%Q.
Proof. apply Qpower_0_lt. reflexivity. Qed.

Lemma roundBinary64_nonneg (x : Q) : (0 <= x)%Q -> (0 <= roundBinary64 x)%Q.
Proof.
  intros Hx. unfold roundBinary64. destruct (Qeqb x 0); [lra|]. cbv zeta.
  pose proof (pow2_Qpos (ulpExponent x)) as He.
  apply Qmult_le_0_compat; [|lra].
  change 0%Q with (inject_Z 0). rewrite <- Zle_Qle. apply round_half_even_nonneg.
  apply Qle_shift_div_l; [exact He | lra].
Qed.

(** Up to 1 the last significant bit is a bit of the fraction. *)
Lemma ulpExponent_le_0 (x : Q) : (Qabs x <= 1)%Q -> ulpExponent x <= 0.
Proof.
  intros H. unfold ulpExponent, floorLog2.
  destruct x as [n d]. cbn [Qabs Qnum Qden] in *.
  assert (Hn : Z.abs n <= Zpos d) by (unfold Qle in H; simpl in H; lia).
  pose proof (Z.log2_le_mono _ _ Hn) as Hlog.
  destruct (Qltb _ _); lia.
Qed.

(** Rounding does not pass 1, which is a binary64 value. *)
Lemma roundBinary64_le_1 (x : Q) : (x <= 1)%Q -> (roundBinary64 x <= 1)%Q.
Proof.
  intros Hx. unfold roundBinary64. destruct (Qeqb x 0); [lra|]. cbv zeta.
  set (e := ulpExponent x).
  pose proof (pow2_Qpos e) as He.
  destruct (Qlt_le_dec x 0) as [Hneg | Hpos].
  - assert (Hr : round_half_even (x / 2 ^ e) <= 0).
    { apply round_half_even_le. apply Qle_shift_div_r; [exact He|].
      change (inject_Z 0) with 0%Q. lra. }
    rewrite Zle_Qle in Hr. change (inject_Z 0) with 0%Q in Hr. nra.
  - assert (Hle : e <= 0).
    { apply ulpExponent_le_0. rewrite Qabs_pos; assumption. }
    assert (E : (2 ^ (- e) * 2 ^ e == 1)%Q).
    { rewrite Qpower_opp. field. lra. }
    assert (Hz : (inject_Z (2 ^ (- e)) == 2 ^ (- e))%Q)
      by (apply Zpower_Qpower; lia).
    assert (Hr : round_half_even (x / 2 ^ e) <= 2 ^ (- e)).
    { apply round_half_even_le. rewrite Hz.
      apply Qle_shift_div_r; [exact He|]. rewrite E. exact Hx. }
    rewrite Zle_Qle, Hz in Hr. rewrite <- E.
    apply Qmult_le_compat_r; [exact Hr | lra].
Qed.

(** The tolerance factor [1.0 - tolerance] of a tolerance between 0 and 1
    lies between 0 and 1. *)
Lemma Float64Sub_1_range (tol : Q) :
  (0 <= tol)%Q -> (tol <= 1)%Q ->
  (0 <= Float64Sub 1 tol)%Q /\ (Float64Sub 1 tol <= 1)%Q.
Proof.
  intros H0 H1. unfold Float64Sub. split.
  - apply roundBinary64_nonneg. lra.
  - apply roundBinary64_le_1. lra.
Qed.

(** The rounding agrees with the kernel's binary64 subtraction on the
    tolerances the vault is run with (0.5, 1, 3, 5 and 10 percent) and on
    an operand below [2^-1022]. *)
Lemma Float64Sub_binary64 :
  Forall (fun tolerance =>
            (Float64Sub 1 (Float64Value tolerance)
             == Float64Value (PrimFloat.sub (Scorer.f64 1) tolerance))%Q)
         [Scorer.f64 (5 # 1000); Scorer.f64 (1 # 100); Scorer.f64 (3 # 100);
          Scorer.f64 (5 # 100); Scorer.f64 (1 # 10);
          FloatOps.Z.ldexp (Scorer.f64 1) (- 1060)].
Proof. repeat constructor; vm_compute; reflexivity. Qed.

(** ** internal/wallet/transactions.go *)

Lemma toleranceDigits_nonneg (q : Q) :
  (0 <= q)%Q -> 0 <= round_half_even (q * inject_Z (10 ^ 18)).
Proof.
  intros H. apply round_half_even_nonneg.
  apply Qmult_le_0_compat; [exact H|]. apply Qlt_le_weak, pow10_Qpos. lia.
Qed.

(** A factor between 0 and 1 printed with 18 decimals parses to its 18
    digits; the decimal is in range. *)
Lemma LegacyNewDecFromStr_18 (q : Q) :
  (0 <= q)%Q -> (q <= 1)%Q ->
  LegacyDec.LegacyNewDecFromStr (LegacyDec.Sprintf_f 18 q)
  = Ok (round_half_even (q * inject_Z (10 ^ 18))).
Proof.
  intros H0 H1.
  unfold LegacyDec.LegacyNewDecFromStr, LegacyDec.Sprintf_f.
  cbn [LegacyDec.decs LegacyDec.digits].
  change (18 >? LegacyDec.Precision) with false.
  change (18 <? 0) with false. cbv beta iota zeta delta [orb].
  change (10 ^ (LegacyDec.Precision - 18)) with 1. rewrite Z.mul_1_r.
  set (d := round_half_even (q * inject_Z (10 ^ 18))).
  assert (Hd : 0 <= d <= 10 ^ 18).
  { pose proof (pow10_Qpos 18 ltac:(lia)) as HP. split.
    - apply round_half_even_nonneg. apply Qmult_le_0_compat; lra.
    - apply round_half_even_le. nra. }
  assert (B : LegacyDec.BitLen d <= 60).
  { apply BitLen_le; [|lia]. assert (10 ^ 18 < 2 ^ 60) by (vm_compute; reflexivity).
    lia. }
  destruct (Z.gtb_spec (LegacyDec.BitLen d) LegacyDec.maxDecBitLen) as [G|_].
  - change LegacyDec.maxDecBitLen with 315 in G. lia.
  - reflexivity.
Qed.

(** [expectedDec.Mul(toleranceFactorDec).TruncateInt()] is the floor of the
    product of the expected amount and the 18-decimal factor. *)
Lemma truncated_product (expected : Z) (tol : Q) :
  0 <= expected -> (0 <= Float64Sub 1 tol)%Q ->
  LegacyDec.TruncateInt
    (LegacyDec.Mul (LegacyDec.LegacyNewDecFromInt expected)
                   (round_half_even (Float64Sub 1 tol * inject_Z (10 ^ 18))))
  = Qfloor (inject_Z expected * Wallet.toleranceFactor18 tol).
Proof.
  intros He Ht. pose proof (toleranceDigits_nonneg _ Ht) as Hd.
  unfold Wallet.toleranceFactor18.
  set (t := round_half_even (Float64Sub 1 tol * inject_Z (10 ^ 18))) in *.
  unfold LegacyDec.Mul, LegacyDec.LegacyNewDecFromInt.
  replace (expected * LegacyDec.precisionReuse * t)
    with (expected * t * LegacyDec.precisionReuse) by ring.
  rewrite chopPrecisionAndRound_exact by nia.
  unfold LegacyDec.TruncateInt.
  rewrite Z.quot_div_nonneg by (try nia; reflexivity).
  change LegacyDec.precisionReuse with (10 ^ 18).
  rewrite Zdiv_Qdiv. apply Qfloor_comp.
  rewrite inject_Z_mult. field.
  pose proof (pow10_Qpos 18 ltac:(lia)). lra.
Qed.

Lemma toleranceFactor18_nonneg (tol : Q) :
  (0 <= Float64Sub 1 tol)%Q -> (0 <= Wallet.toleranceFactor18 tol)%Q.
Proof.
  intros Ht. unfold Wallet.toleranceFactor18. apply Qle_shift_div_l.
  - apply pow10_Qpos. lia.
  - rewrite Qmult_0_l. change 0%Q with (inject_Z 0). rewrite <- Zle_Qle.
    apply toleranceDigits_nonneg. exact Ht.
Qed.

Lemma calculateMinimum_default (expected : Z) (tol : Q) :
  expected = 0 \/ (tol <= 0)%Q -> Wallet.calculateMinimum expected tol = Ok 1.
Proof.
  intros H. unfold Wallet.calculateMinimum.
  destruct H as [-> | H]; [reflexivity|].
  apply Qltb_false in H. rewrite H, andb_false_r. reflexivity.
Qed.

Lemma calculateMinimum_computed (expected : Z) (tol : Q) :
  0 < expected -> (0 < tol)%Q -> (tol < 1)%Q -> (0 < Float64Sub 1 tol)%Q ->
  Wallet.calculateMinimum expected tol = Ok (Wallet.minOut18 expected tol).
Proof.
  intros He H0 H1 Hf. unfold Wallet.calculateMinimum.
  destruct (Z.eqb_spec expected 0) as [?|_]; [lia|].
  assert (G0 : Qltb 0 tol = true) by (apply Qltb_true; exact H0).
  rewrite G0. simpl andb. cbv iota.
  destruct (Z.ltb_spec expected 0) as [?|_]; [lia|]. cbn [guard bind].
  assert (G1 : Qleb 1 tol = false) by (apply Qleb_false; exact H1).
  rewrite G1. cbn [guard bind].
  assert (G2 : Qleb (Float64Sub 1 tol) 0 = false) by (apply Qleb_false; exact Hf).
  rewrite G2. cbn [guard bind].
  destruct (Float64Sub_1_range tol) as [_ Hle]; [lra | lra |].
  rewrite LegacyNewDecFromStr_18 by lra. cbn [bind].
  rewrite truncated_product by (try lia; lra).
  unfold Wallet.minOut18.
  set (m := Qfloor (inject_Z expected * Wallet.toleranceFactor18 tol)).
  assert (Hm : 0 <= m).
  { subst m. change 0 with (Qfloor 0). apply Qfloor_resp_le.
    apply Qmult_le_0_compat.
    - change 0%Q with (inject_Z 0). rewrite <- Zle_Qle. lia.
    - apply toleranceFactor18_nonneg. lra. }
  destruct (Z.eqb_spec m 0) as [E|E].
  - rewrite E. reflexivity.
  - destruct (Z.ltb_spec m 0); [lia|]. simpl. f_equal. lia.
Qed.

Lemma calculateMinimum_Ok (expected : Z) (tol : Q) (m : Z) :
  0 <= expected ->
  Wallet.calculateMinimum expected tol = Ok m ->
  m = Wallet.swapOrDepositMinimum expected tol.
Proof.
  intros He H. unfold Wallet.swapOrDepositMinimum.
  destruct (Z.eqb_spec expected 0) as [E|E].
  - rewrite calculateMinimum_default in H by (left; exact E). simpl. congruence.
  - destruct (Qleb tol 0) eqn:Ht; simpl.
    + apply Qleb_true in Ht.
      rewrite calculateMinimum_default in H by (right; exact Ht). congruence.
    + apply Qleb_false in Ht.
      destruct (Qlt_le_dec tol 1) as [H1|H1].
      * destruct (Qlt_le_dec 0 (Float64Sub 1 tol)) as [Hf|Hf].
        -- rewrite calculateMinimum_computed in H by (try lia; assumption).
           congruence.
        -- exfalso. unfold Wallet.calculateMinimum in H.
           destruct (Z.eqb_spec expected 0) as [?|_]; [lia|].
           apply Qltb_true in Ht. rewrite Ht in H. simpl andb in H. cbv iota in H.
           destruct (Z.ltb_spec expected 0) as [?|_]; [lia|]. cbn [guard bind] in H.
           apply Qleb_false in H1. rewrite H1 in H. cbn [guard bind] in H.
           apply Qleb_true in Hf. rewrite Hf in H. discriminate.
      * exfalso. unfold Wallet.calculateMinimum in H.
        destruct (Z.eqb_spec expected 0) as [?|_]; [lia|].
        apply Qltb_true in Ht. rewrite Ht in H. simpl andb in H. cbv iota in H.
        destruct (Z.ltb_spec expected 0) as [?|_]; [lia|]. cbn [guard bind] in H.
        apply Qleb_true in H1. rewrite H1 in H. discriminate.
Qed.

Lemma minimumWithdrawCoin_value (tol : Q) (c : Coin) :
  0 < Amount c -> Wallet.is_empty (Denom c) = false ->
  (0 <= tol)%Q -> (tol <= 1)%Q ->
  Wallet.minimumWithdrawCoin (Float64Sub 1 tol) c
  = Ok (mkCoin (Denom c) (Wallet.minOut18 (Amount c) tol)).
Proof.
  intros Ha Hd Ht0 Ht. unfold Wallet.minimumWithdrawCoin, Wallet.validateCoin.
  destruct (Z.eqb_spec (Amount c) 0) as [?|_]; [lia|].
  destruct (Z.ltb_spec (Amount c) 0) as [?|_]; [lia|].
  rewrite Hd. cbn [guard bind].
  destruct (Float64Sub_1_range tol Ht0 Ht) as [Hf0 Hf1].
  rewrite LegacyNewDecFromStr_18 by assumption. cbn [bind].
  rewrite truncated_product by (try lia; assumption).
  unfold Wallet.minOut18.
  set (m := Qfloor (inject_Z (Amount c) * Wallet.toleranceFactor18 tol)).
  assert (Hm : 0 <= m).
  { subst m. change 0 with (Qfloor 0). apply Qfloor_resp_le.
    apply Qmult_le_0_compat.
    - change 0%Q with (inject_Z 0). rewrite <- Zle_Qle. lia.
    - apply toleranceFactor18_nonneg. exact Hf0. }
  destruct (Z.gtb_spec (Amount c) 0) as [_|?]; [|lia].
  destruct (Z.eqb_spec m 0) as [E|E]; simpl; f_equal; f_equal; lia.
Qed.

Lemma validateCoin_Ok (c : Coin) (u : unit) :
  Wallet.validateCoin c = Ok u ->
  0 < Amount c /\ Wallet.is_empty (Denom c) = false.
Proof.
  unfold Wallet.validateCoin. intros H.
  apply bind_Ok in H. destruct H as [? [G1 H]]. apply guard_Ok in G1.
  apply bind_Ok in H. destruct H as [? [G2 H]]. apply guard_Ok in G2.
  apply guard_Ok in H. split; [lia | exact H].
Qed.

Lemma mapM_minimumWithdrawCoin (tol : Q) (coins out : list Coin) :
  (0 <= tol)%Q -> (tol <= 1)%Q ->
  Wallet.mapM (Wallet.minimumWithdrawCoin (Float64Sub 1 tol)) coins = Ok out ->
  out = map (fun c => mkCoin (Denom c) (Wallet.minOut18 (Amount c) tol)) coins.
Proof.
  intros Ht0 Ht. revert out. induction coins as [|c rest IH]; intros out H.
  - simpl in H. injection H as <-. reflexivity.
  - simpl in H. apply bind_Ok in H. destruct H as [y [Hy H]].
    apply bind_Ok in H. destruct H as [ys [Hys H]]. injection H as <-.
    assert (Hv : exists u, Wallet.validateCoin c = Ok u).
    { unfold Wallet.minimumWithdrawCoin in Hy. apply bind_Ok in Hy.
      destruct Hy as [u [Hu _]]. eauto. }
    destruct Hv as [u Hu]. apply validateCoin_Ok in Hu. destruct Hu as [Ha Hd].
    rewrite minimumWithdrawCoin_value in Hy by assumption. injection Hy as <-.
    simpl. f_equal. apply IH. exact Hys.
Qed.

(** Splits a successful sequence of binds into its successful steps. *)
Ltac peel H :=
  repeat (let x := fresh "x" in
          let G := fresh "G" in
          apply bind_Ok in H; destruct H as [x [G H]];
          repeat match goal with
                 | p : (_ * _)%type |- _ => destruct p
                 end;
          cbv beta iota in H).

(** What the executor embeds.  Whenever it turns a SubAction into a chain
    message, the minimum it embeds is, with the tolerance factor the float64
    difference [1.0 - slippage_tolerance] rounded to 18 decimals:
    - swap and deposit: [max 1 (floor (expected * factor))] when there is an
      expected output and a positive tolerance, and [1] when the expected
      output is 0 or the tolerance is 0;
    - withdraw: [max 1 (floor (expected * factor))] for every expected coin. *)
Lemma embedded_minimum_output
      (creator : string) (vaultID : N) (subAction : SubAction) (msg : Wallet.Msg) :
  Wallet.subActionToMessage creator vaultID subAction = Ok msg ->
  match msg with
  | Wallet.MsgPerformActionSwapByDenom _ _ _ _ _ minAmount _ =>
      Amount minAmount
      = Wallet.swapOrDepositMinimum (ExpectedTokenOut subAction)
                                    (SlippageTolerancePct subAction)
  | Wallet.MsgPerformActionJoinPool _ _ _ _ shareAmountOut =>
      shareAmountOut
      = Wallet.swapOrDepositMinimum (ExpectedSharesOut subAction)
                                    (SlippageTolerancePct subAction)
  | Wallet.MsgPerformActionExitPool _ _ _ minAmountsOut _ _ =>
      ExpectedAmountsOut subAction <> [] ->
      minAmountsOut
      = map (fun c => mkCoin (Denom c)
                             (Wallet.minOut18 (Amount c)
                                              (SlippageTolerancePct subAction)))
            (ExpectedAmountsOut subAction)
  end.
Proof.
  unfold Wallet.subActionToMessage. intros H.
  apply bind_Ok in H. destruct H as [u [Hv H]].
  unfold Wallet.validateSubAction in Hv.
  destruct (Type_ subAction); try discriminate.
  - (* SWAP *)
    unfold Wallet.validateSwapAction in Hv. peel Hv.
    match goal with
    | G : guard (ExpectedTokenOut _ <? 0) _ = Ok _ |- _ => apply guard_Ok in G; rename G into Hexp
    end.
    unfold Wallet.createSwapMessage in H. peel H. injection H as <-.
    match goal with
    | G : Wallet.calculateMinimumSwapAmount _ = Ok _ |- _ =>
        apply calculateMinimum_Ok in G; [exact G | lia]
    end.
  - (* DEPOSIT_LP *)
    unfold Wallet.validateDepositAction in Hv. peel Hv.
    match goal with
    | G : guard (ExpectedSharesOut _ <? 0) _ = Ok _ |- _ => apply guard_Ok in G; rename G into Hexp
    end.
    unfold Wallet.createDepositLPMessage in H. peel H. injection H as <-.
    match goal with
    | G : Wallet.calculateMinimumShares _ = Ok _ |- _ =>
        apply calculateMinimum_Ok in G; [exact G | lia]
    end.
  - (* WITHDRAW_LP *)
    unfold Wallet.createWithdrawLPMessage in H. peel H. injection H as <-.
    intros Hne.
    match goal with
    | G : Wallet.calculateMinimumWithdrawAmounts _ = Ok _ |- _ => rename G into Hmin
    end.
    unfold Wallet.calculateMinimumWithdrawAmounts in Hmin.
    destruct (ExpectedAmountsOut subAction) as [|c rest] eqn:E; [congruence|].
    cbn [List.length Nat.eqb] in Hmin.
    apply bind_Ok in Hmin. destruct Hmin as [? [Gt Hmin]]. apply guard_Ok in Gt.
    apply orb_false_iff in Gt. destruct Gt as [Gt0 Gt].
    apply Qltb_false in Gt0. apply Qltb_false in Gt.
    apply bind_Ok in Hmin. destruct Hmin as [? [_ Hmin]].
    apply mapM_minimumWithdrawCoin in Hmin; assumption.
Qed.

(** When the float64 difference [1.0 - slippage_tolerance] is exact and has
    at most 18 decimals, the embedded minimum of an expected output above 0
    is the specification's. *)
Lemma minOut18_specMinOut (expected : Z) (tol : Q) (k : Z) :
  0 < expected ->
  (Float64Sub 1 tol == 1 - tol)%Q ->
  ((1 - tol) * inject_Z (10 ^ 18) == inject_Z k)%Q ->
  Wallet.minOut18 expected tol = Wallet.specMinOut expected tol.
Proof.
  intros He Hexact Hk.
  unfold Wallet.minOut18, Wallet.specMinOut, Wallet.toleranceFactor18.
  destruct (Z.gtb_spec expected 0) as [_|?]; [|lia].
  cbv zeta. f_equal. apply Qfloor_comp.
  assert (Hk' : (Float64Sub 1 tol * inject_Z (10 ^ 18) == inject_Z k)%Q)
    by (rewrite Hexact; exact Hk).
  rewrite (round_half_even_comp _ _ Hk'), round_half_even_inject, <- Hk.
  field. pose proof (pow10_Qpos 18 ltac:(lia)). lra.
Qed.

(** C6, at the failing inputs.  The expected output is 100.

    With a tolerance of 0 the claimed minimum is [floor (100 * (1 - 0)) = 100].
    The swap message embeds 1 and the deposit message embeds 1 share: the
    two functions compute the formula only under [SlippageTolerancePct > 0]
    and leave the default of 1 otherwise.  The withdraw message, built by
    the function next to them, embeds 100 for the same numbers.

    With a tolerance of 3 percent (the float64 nearest to 0.03) the claimed
    minimum is [floor (100 * (1 - 0.03)) = 97].  The swap message embeds 96:
    the float64 difference [1.0 - 0.03] lies below 0.97 and is printed as
    0.969999999999999973.

    With an expected output of 0 the swap message embeds 1, where the
    claimed formula gives 0. *)
Theorem embedded_minimum_below_formula :
  (Wallet.specMinOut 100 0 = 100
   /\ Wallet.subActionToMessage "elys1vault" 1%N (Examples.usdcSwap 100 0)
      = Ok (Wallet.MsgPerformActionSwapByDenom "elys1vault" 1%N
              (mkCoin "uatom" 1000) "uatom" "uusdc" (mkCoin "uusdc" 1)
              (mkCoin "uusdc" 1000000000000000000))
   /\ Wallet.subActionToMessage "elys1vault" 1%N (Examples.usdcDeposit 100 0)
      = Ok (Wallet.MsgPerformActionJoinPool "elys1vault" 1%N 2%N
              [mkCoin "uusdc" 1000] 1)
   /\ Wallet.subActionToMessage "elys1vault" 1%N (Examples.usdcWithdrawal 100 0)
      = Ok (Wallet.MsgPerformActionExitPool "elys1vault" 1%N 1%N
              [mkCoin "uusdc" 100] 1000 "uusdc"))
  /\ (let tolerance := Float64Value (Scorer.f64 (3 # 100)) in
      (Float64Sub 1 tolerance
       == Float64Value (PrimFloat.sub (Scorer.f64 1) (Scorer.f64 (3 # 100))))%Q
      /\ LegacyDec.Sprintf_f 18 (Float64Sub 1 tolerance)
         = LegacyDec.mkDecimal 969999999999999973 18
      /\ Wallet.specMinOut 100 tolerance = 97
      /\ Wallet.subActionToMessage "elys1vault" 1%N
           (Examples.usdcSwap 100 tolerance)
         = Ok (Wallet.MsgPerformActionSwapByDenom "elys1vault" 1%N
                 (mkCoin "uatom" 1000) "uatom" "uusdc" (mkCoin "uusdc" 96)
                 (mkCoin "uusdc" 1000000000000000000)))
  /\ (Wallet.specMinOut 0 (1 # 2) = 0
      /\ Wallet.subActionToMessage "elys1vault" 1%N (Examples.usdcSwap 0 (1 # 2))
         = Ok (Wallet.MsgPerformActionSwapByDenom "elys1vault" 1%N
                 (mkCoin "uatom" 1000) "uatom" "uusdc" (mkCoin "uusdc" 1)
                 (mkCoin "uusdc" 1000000000000000000))).
Proof.
  split; [ | split].
  - repeat split; vm_compute; reflexivity.
  - cbv zeta. repeat split; vm_compute; reflexivity.
  - split; vm_compute; reflexivity.
Qed.

(** ** Go maps *)

Lemma pool_set_absent {V : Type} (m : PoolMap V) (k : PoolID) (v : V) :
  pool_get m k = None -> pool_set m k v = m ++ [(k, v)].
Proof.
  unfold pool_get, pool_set. induction m as [|[k' v'] m IH]; simpl; intros H.
  - reflexivity.
  - destruct (N.eqb k' k); [discriminate|]. rewrite IH by exact H. reflexivity.
Qed.

Lemma pool_get_app_other {V : Type} (m : PoolMap V) (k k' : PoolID) (v : V) :
  k <> k' -> pool_get (m ++ [(k, v)]) k' = pool_get m k'.
Proof.
  intros Hne. unfold pool_get. induction m as [|[k0 v0] m IH]; simpl.
  - destruct (N.eqb_spec k k'); [contradiction | reflexivity].
  - destruct (N.eqb k0 k'); [reflexivity | exact IH].
Qed.

Lemma pool_get_In {V : Type} (m : PoolMap V) (k : PoolID) :
  In k (map fst m) -> exists v, pool_get m k = Some v /\ In (k, v) m.
Proof.
  unfold pool_get. induction m as [|[k0 v0] m IH]; simpl; intros H; [contradiction|].
  destruct (N.eqb_spec k0 k) as [->|Hne].
  - eauto.
  - destruct H as [H|H]; [contradiction|].
    destruct (IH H) as [v [Hv Hin]]. eauto.
Qed.

(** ** Sums of rationals *)

Lemma fold_left_Qplus (l : list Q) (a : Q) :
  (fold_left Qplus l a == a + sumQ l)%Q.
Proof.
  unfold sumQ. revert a. induction l as [|x l IH]; intros a; simpl.
  - ring.
  - rewrite IH, (IH (0 + x)%Q). ring.
Qed.

Lemma sumQ_app (l1 l2 : list Q) : (sumQ (l1 ++ l2) == sumQ l1 + sumQ l2)%Q.
Proof.
  unfold sumQ at 1. rewrite fold_left_app, fold_left_Qplus.
  fold (sumQ l1). ring.
Qed.

Lemma sumQ_cons (x : Q) (l : list Q) : (sumQ (x :: l) == x + sumQ l)%Q.
Proof. change (x :: l) with ([x] ++ l). rewrite sumQ_app. unfold sumQ at 1. simpl. ring. Qed.

Lemma sumQ_scale (c : Q) (l : list Q) :
  (sumQ (map (fun x => x * c) l) == sumQ l * c)%Q.
Proof.
  induction l as [|x l IH]; simpl.
  - unfold sumQ. simpl. ring.
  - rewrite !sumQ_cons, IH. ring.
Qed.

(** ** sort.Slice *)

Lemma sort_insert_perm {A : Type} (less : A -> A -> bool) (x : A) (l : list A) :
  Permutation (sort_insert less x l) (x :: l).
Proof.
  induction l as [|y l IH]; simpl.
  - apply Permutation_refl.
  - destruct (less y x).
    + eapply Permutation_trans; [apply perm_skip, IH | apply perm_swap].
    + apply Permutation_refl.
Qed.

Lemma sort_Slice_perm {A : Type} (less : A -> A -> bool) (l : list A) :
  Permutation (sort_Slice less l) l.
Proof.
  unfold sort_Slice. induction l as [|x l IH]; simpl.
  - apply perm_nil.
  - eapply Permutation_trans; [apply sort_insert_perm | apply perm_skip, IH].
Qed.

Section SortedByKey.
Context {A : Type} (key : A -> Q).

Lemma sort_insert_descending (x : A) (l : list A) :
  StronglySorted (descending key) l ->
  StronglySorted (descending key) (sort_insert (byKeyDesc key) x l).
Proof.
  induction l as [|y l IH]; intros Hs; simpl.
  - constructor; constructor.
  - inversion Hs as [|? ? Hs' Hall]; subst.
    destruct (byKeyDesc key y x) eqn:E; unfold byKeyDesc in E.
    + apply Qltb_true in E. constructor; [apply IH; exact Hs'|].
      apply Forall_forall. intros z Hz.
      apply (Permutation_in _ (sort_insert_perm (byKeyDesc key) x l)) in Hz.
      destruct Hz as [<-|Hz].
      * unfold descending. lra.
      * rewrite Forall_forall in Hall. apply Hall. exact Hz.
    + apply Qltb_false in E. constructor; [exact Hs|].
      constructor; [exact E|].
      rewrite Forall_forall in Hall |- *. intros z Hz.
      specialize (Hall z Hz). unfold descending in *. lra.
Qed.

Lemma sort_Slice_descending (l : list A) :
  StronglySorted (descending key) (sort_Slice (byKeyDesc key) l).
Proof.
  unfold sort_Slice. induction l as [|x l IH]; simpl.
  - constructor.
  - apply sort_insert_descending. exact IH.
Qed.

End SortedByKey.

(** ** The selector and the allocator *)

Module AnalyzerFacts.
Import Analyzer Examples.

(** The assignment loop, over pool IDs not yet in the map, appends one
    entry per ID and adds its value to the running sum. *)
Lemma assignFinal_sum (st : AllocState) (ids : list PoolID) :
  forall (T0 : PoolMap Q) (s0 : Q) (T : PoolMap Q) (s : Q),
    NoDup ids ->
    (forall id, In id ids -> pool_get T0 id = None) ->
    foldM (assignFinal st) ids (T0, s0) = Ok (T, s) ->
    map fst T = map fst T0 ++ ids
    /\ (s - s0 == sumQ (map snd T) - sumQ (map snd T0))%Q.
Proof.
  induction ids as [|id ids IH]; intros T0 s0 T s Hnd Hfresh H.
  - simpl in H. injection H as <- <-. rewrite app_nil_r. split; [reflexivity | ring].
  - cbn [foldM] in H. apply bind_Ok in H. destruct H as [[T1 s1] [Hstep H]].
    inversion Hnd as [|? ? Hnotin Hnd']; subst.
    assert (Hstep' : exists v, T1 = T0 ++ [(id, v)] /\ s1 = (s0 + v)%Q).
    { unfold assignFinal in Hstep.
      destruct (pool_get (lockedAllocations st) id) as [v|].
      - injection Hstep as <- <-. exists v.
        rewrite pool_set_absent by (apply Hfresh; left; reflexivity). auto.
      - destruct (pool_get (allocations st) id) as [v|]; [|discriminate].
        injection Hstep as <- <-. exists v.
        rewrite pool_set_absent by (apply Hfresh; left; reflexivity). auto. }
    destruct Hstep' as [v [-> ->]].
    apply IH in H; [| exact Hnd' |].
    + destruct H as [Hk Hs]. split.
      * rewrite Hk, map_app, <- app_assoc. reflexivity.
      * rewrite map_app, sumQ_app in Hs. simpl map in Hs.
        assert (E : (sumQ [v] == v)%Q) by (unfold sumQ; simpl; ring).
        rewrite E in Hs. lra.
    + intros id' Hin. rewrite pool_get_app_other.
      * apply Hfresh. right. exact Hin.
      * intros ->. contradiction.
Qed.

(** The final validation holds of every entry of the map returned. *)
Lemma violatesConstraints_false (params : ScoringParameters Q)
      (elysPoolID id : PoolID) (alloc : Q) :
  violatesConstraints params elysPoolID (id, alloc) = false ->
  (effectiveMin params elysPoolID id - (1 # 100000) <= alloc)%Q
  /\ (alloc <= MaxAllocation params + (1 # 100000))%Q.
Proof.
  unfold violatesConstraints. intros H. apply orb_false_iff in H.
  destruct H as [H1 H2]. apply Qltb_false in H1, H2. split; assumption.
Qed.

(** What the code returns for a selection that is not empty: the assigned
    values, normalised by their sum, each one validated. *)
Lemma DetermineTargetAllocations_Ok
      (selectedPoolIDs : list PoolID)
      (scoredPoolsMap : PoolMap (PoolScoreResult Q))
      (params : ScoringParameters Q) (elysPoolID : PoolID) (A : PoolMap Q) :
  selectedPoolIDs <> [] ->
  DetermineTargetAllocations selectedPoolIDs scoredPoolsMap params elysPoolID = Ok A ->
  exists (st : AllocState) (T : PoolMap Q) (finalSum : Q),
    foldM (assignFinal st) selectedPoolIDs ([], 0%Q) = Ok (T, finalSum)
    /\ (0 < finalSum)%Q
    /\ A = map (fun entry => (fst entry, (snd entry * (1 / finalSum))%Q)) T
    /\ existsb (violatesConstraints params elysPoolID) A = false.
Proof.
  intros Hne H. unfold DetermineTargetAllocations in H.
  destruct selectedPoolIDs as [|id0 ids]; [congruence|].
  cbn [List.length Nat.eqb] in H.
  peel H.
  match type of H with
  | (if Qltb 0 ?s then _ else _) = _ => destruct (Qltb 0 s) eqn:Hpos; [|discriminate]
  end.
  apply bind_Ok in H. destruct H as [? [Gv H]]. injection H as <-.
  apply guard_Ok in Gv. apply Qltb_true in Hpos.
  eauto 10.
Qed.

Lemma pool_set_keys {V : Type} (m : PoolMap V) (k : PoolID) (v : V) (k' : PoolID) :
  In k' (map fst (pool_set m k v)) <-> In k' (map fst m) \/ k' = k.
Proof.
  unfold pool_set. induction m as [|[k0 v0] m IH]; simpl.
  - intuition.
  - destruct (N.eqb_spec k0 k) as [->|Hne]; simpl.
    + intuition.
    + rewrite IH. intuition.
Qed.

Lemma assignFinal_keys (st : AllocState) (ids : list PoolID) :
  forall (T0 : PoolMap Q) (s0 : Q) (T : PoolMap Q) (s : Q),
    foldM (assignFinal st) ids (T0, s0) = Ok (T, s) ->
    forall id, In id ids -> In id (map fst T).
Proof.
  induction ids as [|id0 ids IH]; intros T0 s0 T s H id Hin; [contradiction|].
  cbn [foldM] in H. apply bind_Ok in H. destruct H as [[T1 s1] [Hstep H]].
  assert (Hkeys : forall T2 s2 T3 s3,
             foldM (assignFinal st) ids (T2, s2) = Ok (T3, s3) ->
             forall k, In k (map fst T2) -> In k (map fst T3)).
  { clear. induction ids as [|i ids IH]; intros T2 s2 T3 s3 H k Hk.
    - simpl in H. injection H as <- <-. exact Hk.
    - cbn [foldM] in H. apply bind_Ok in H. destruct H as [[T4 s4] [Hstep H]].
      eapply IH; [exact H|]. unfold assignFinal in Hstep.
      destruct (pool_get (lockedAllocations st) i).
      + injection Hstep as <- <-. apply pool_set_keys. left. exact Hk.
      + destruct (pool_get (allocations st) i); [|discriminate].
        injection Hstep as <- <-. apply pool_set_keys. left. exact Hk. }
  destruct Hin as [<-|Hin].
  - eapply Hkeys; [exact H|]. unfold assignFinal in Hstep.
    destruct (pool_get (lockedAllocations st) id0).
    + injection Hstep as <- <-. apply pool_set_keys. right. reflexivity.
    + destruct (pool_get (allocations st) id0); [|discriminate].
      injection Hstep as <- <-. apply pool_set_keys. right. reflexivity.
  - eapply IH; eassumption.
Qed.

Lemma effectiveMin_forced (params : ScoringParameters Q) (elysPoolID : PoolID) :
  elysPoolID <> 0%N ->
  effectiveMin params elysPoolID elysPoolID = ElysForcedAllocationMinimum params.
Proof.
  intros H. unfold effectiveMin. rewrite N.eqb_refl.
  destruct (N.eqb_spec elysPoolID 0); [contradiction | reflexivity].
Qed.

(** For a selection with no repeated ID the allocations returned sum to
    exactly 1. *)
Lemma allocationSum_one
      (selectedPoolIDs : list PoolID)
      (scoredPoolsMap : PoolMap (PoolScoreResult Q))
      (params : ScoringParameters Q) (elysPoolID : PoolID) (A : PoolMap Q) :
  selectedPoolIDs <> [] -> NoDup selectedPoolIDs ->
  DetermineTargetAllocations selectedPoolIDs scoredPoolsMap params elysPoolID = Ok A ->
  (allocationSum A == 1)%Q.
Proof.
  intros Hne Hnd H.
  destruct (DetermineTargetAllocations_Ok _ _ _ _ _ Hne H)
    as [st [T [finalSum [Hassign [Hpos [-> _]]]]]].
  apply assignFinal_sum in Hassign; [| exact Hnd | reflexivity].
  destruct Hassign as [_ Hs]. unfold allocationSum.
  rewrite map_map. cbn [snd].
  rewrite <- (map_map snd (fun x => (x * (1 / finalSum))%Q)), sumQ_scale.
  assert (E : (sumQ (map snd T) == finalSum)%Q).
  { simpl map in Hs. unfold sumQ at 2 in Hs. simpl in Hs. lra. }
  rewrite E. field. lra.
Qed.

(** C3 (as the code has it).  For every allocation map returned without error by
    [DetermineTargetAllocations]:
    - when the selection is not empty and repeats no ID, the allocations sum
      to 1 within [10^-6] (they sum to exactly 1);
    - each pool's allocation lies in
      [[effective_min_i - 10^-5, max_alloc + 10^-5]], where [effective_min_i]
      is the forced minimum for the forced pool and [min_alloc] otherwise;
    - the forced pool, when present in the selection, has an allocation of
      at least [forced_min - 10^-5]. *)
Theorem allocations_within_tolerance
        (selectedPoolIDs : list PoolID)
        (scoredPoolsMap : PoolMap (PoolScoreResult Q))
        (params : ScoringParameters Q) (elysPoolID : PoolID) (A : PoolMap Q) :
  DetermineTargetAllocations selectedPoolIDs scoredPoolsMap params elysPoolID = Ok A ->
  (selectedPoolIDs <> [] -> NoDup selectedPoolIDs ->
   (Qabs (allocationSum A - 1) <= 1 # 1000000)%Q)
  /\ (forall id alloc, In (id, alloc) A ->
        (effectiveMin params elysPoolID id - (1 # 100000) <= alloc)%Q
        /\ (alloc <= MaxAllocation params + (1 # 100000))%Q)
  /\ (elysPoolID <> 0%N -> In elysPoolID selectedPoolIDs ->
      exists alloc, pool_get A elysPoolID = Some alloc
                    /\ (ElysForcedAllocationMinimum params - (1 # 100000) <= alloc)%Q).
Proof.
  intros H. split; [|].
  - intros Hne Hnd. pose proof (allocationSum_one _ _ _ _ _ Hne Hnd H) as E.
    rewrite E. vm_compute. discriminate.
  - destruct selectedPoolIDs as [|id0 ids].
    + injection H as <-. split; [intros ? ? []|intros _ []].
    + assert (Hne : id0 :: ids <> []) by discriminate.
      destruct (DetermineTargetAllocations_Ok _ _ _ _ _ Hne H)
        as [st [T [finalSum [Hassign [Hpos [HA Hcheck]]]]]].
      assert (Hbounds : forall id alloc, In (id, alloc) A ->
                (effectiveMin params elysPoolID id - (1 # 100000) <= alloc)%Q
                /\ (alloc <= MaxAllocation params + (1 # 100000))%Q).
      { intros id alloc Hin. apply violatesConstraints_false.
        destruct (violatesConstraints params elysPoolID (id, alloc)) eqn:Ev;
          [|reflexivity].
        assert (Hex : existsb (violatesConstraints params elysPoolID) A = true).
        { apply existsb_exists. eauto. }
        congruence. }
      split; [exact Hbounds|].
      intros Hnz Hin.
      pose proof (assignFinal_keys _ _ _ _ _ _ Hassign _ Hin) as Hkey.
      assert (HkeyA : In elysPoolID (map fst A)).
      { rewrite HA, map_map. cbn [fst]. exact Hkey. }
      destruct (pool_get_In A elysPoolID HkeyA) as [alloc [Hget HinA]].
      exists alloc. split; [exact Hget|].
      rewrite <- (effectiveMin_forced params elysPoolID Hnz).
      apply (Hbounds _ _ HinA).
Qed.

(** Scores 3 and 1 with pool 2 forced: 0.7 and 0.3. *)
Lemma allocations_within_tolerance_witness :
  exists A,
    DetermineTargetAllocations [1%N; 2%N] scoredTwo parameters 2%N = Ok A
    /\ (Qabs (allocationSum A - 1) <= 1 # 1000000)%Q
    /\ (forall id alloc, In (id, alloc) A ->
          (effectiveMin parameters 2%N id - (1 # 100000) <= alloc)%Q
          /\ (alloc <= MaxAllocation parameters + (1 # 100000))%Q)
    /\ (exists alloc, pool_get A 2%N = Some alloc
                      /\ (ElysForcedAllocationMinimum parameters - (1 # 100000)
                          <= alloc)%Q).
Proof.
  eexists. split; [vm_compute; reflexivity|].
  edestruct (allocations_within_tolerance [1%N; 2%N] scoredTwo parameters 2%N)
    as [Hsum [Hbounds Hforced]]; [vm_compute; reflexivity|].
  split; [apply Hsum; [discriminate | repeat constructor; simpl; intuition discriminate]|].
  split; [exact Hbounds|].
  apply Hforced; [discriminate | simpl; auto].
Defined.

(** C3, counterexamples to the claim as written.  With bounds
    [0.499995 .. 0.5] and scores 3 and 1, pool 1 is allocated more than
    [max_alloc] (within the code's tolerance of [10^-5]); a selection that
    repeats an ID gives a map that sums to 1/2; the empty selection gives
    the empty map, which sums to 0. *)
Lemma allocations_within_tolerance_counterexample :
  (exists A alloc,
      DetermineTargetAllocations [1%N; 2%N] scoredTwo tightParameters 0%N = Ok A
      /\ In (1%N, alloc) A
      /\ ~ (alloc <= MaxAllocation tightParameters)%Q)
  /\ (exists A,
         DetermineTargetAllocations [1%N; 1%N] scoredTwo tightParameters 0%N = Ok A
         /\ ~ (Qabs (allocationSum A - 1) <= 1 # 1000000)%Q)
  /\ (exists A,
         DetermineTargetAllocations [] scoredTwo parameters 0%N = Ok A
         /\ ~ (Qabs (allocationSum A - 1) <= 1 # 1000000)%Q).
Proof.
  split; [|split].
  - eexists _, _. split; [vm_compute; reflexivity|].
    split; [left; reflexivity|]. vm_compute. intros H. apply H. reflexivity.
  - eexists. split; [vm_compute; reflexivity|].
    vm_compute. intros H. apply H. reflexivity.
  - eexists. split; [reflexivity|].
    vm_compute. intros H. apply H. reflexivity.
Qed.

(** C10.  On an empty selection [DetermineTargetAllocations] returns the
    empty map and no error, whatever the scored pools, the parameters and
    the forced pool ID: the early return precedes every validation. *)
Theorem DetermineTargetAllocations_empty
        (scoredPoolsMap : PoolMap (PoolScoreResult Q))
        (params : ScoringParameters Q) (elysPoolID : PoolID) :
  DetermineTargetAllocations [] scoredPoolsMap params elysPoolID = Ok [].
Proof. reflexivity. Qed.

(** The validation that the empty selection skips: a negative
    [MinAllocation] is an error as soon as one pool is selected. *)
Lemma DetermineTargetAllocations_validates_nonempty
      (id : PoolID) (ids : list PoolID)
      (scoredPoolsMap : PoolMap (PoolScoreResult Q))
      (params : ScoringParameters Q) (elysPoolID : PoolID) :
  (MinAllocation params < 0)%Q ->
  DetermineTargetAllocations (id :: ids) scoredPoolsMap params elysPoolID
  = Err (ErrMsg "MinAllocation cannot be negative").
Proof.
  intros Hneg. unfold DetermineTargetAllocations. cbn [List.length Nat.eqb].
  cbv zeta. unfold IsNaN, IsInf. cbn [orb guard bind].
  apply Qltb_true in Hneg. rewrite Hneg. reflexivity.
Qed.

Lemma sortByScoreDesc_perm (pools : list (PoolScoreResult Q)) :
  Permutation (sortByScoreDesc pools) pools.
Proof. apply sort_Slice_perm. Qed.

Lemma sortByScoreDesc_sorted (pools : list (PoolScoreResult Q)) :
  StronglySorted (descending (@Score Q)) (sortByScoreDesc pools).
Proof. apply (sort_Slice_descending (@Score Q)). Qed.

Lemma existsb_eqb_In (id : PoolID) (l : list PoolID) :
  existsb (N.eqb id) l = true <-> In id l.
Proof.
  rewrite existsb_exists. split.
  - intros [x [Hin E]]. apply N.eqb_eq in E. subst. exact Hin.
  - intros Hin. exists id. split; [exact Hin | apply N.eqb_refl].
Qed.

(** With one score per pool, the comparison loop compares with the score of
    the current best ELYS pool. *)
Lemma compareWithBestElys_unique (scoredPools : list (PoolScoreResult Q))
      (best poolScore : PoolScoreResult Q) :
  NoDup (map (@ScorePoolID Q) scoredPools) ->
  In best scoredPools ->
  compareWithBestElys scoredPools (ScorePoolID best) poolScore
  = if Qltb (Score best) (Score poolScore) then ScorePoolID poolScore
    else ScorePoolID best.
Proof.
  induction scoredPools as [|x rest IH]; intros Hnd Hin; [contradiction|].
  simpl. inversion Hnd as [|? ? Hnotin Hnd']; subst.
  destruct (N.eqb_spec (ScorePoolID x) (ScorePoolID best)) as [E|E].
  - assert (x = best) as ->.
    { destruct Hin as [Hin|Hin]; [exact Hin|]. exfalso. apply Hnotin.
      rewrite E. apply in_map. exact Hin. }
    simpl. destruct (Qltb (Score best) (Score poolScore)); [reflexivity|].
    destruct Hin as [_|Hin].
    + (* the rest has no entry with this ID *)
      clear IH Hnd. induction rest as [|y rest IHr]; [reflexivity|].
      simpl. destruct (N.eqb_spec (ScorePoolID y) (ScorePoolID best)) as [Ey|Ey].
      * exfalso. apply Hnotin. left. exact Ey.
      * simpl. apply IHr.
        -- intros Hc. apply Hnotin. right. exact Hc.
        -- inversion Hnd'; assumption.
    + exfalso. apply Hnotin. apply in_map. exact Hin.
  - simpl. apply IH; [exact Hnd'|].
    destruct Hin as [->|Hin]; [contradiction | exact Hin].
Qed.

Lemma filter_loop (poolsDataMap : PoolMap (Pool Q))
      (scoredPools : list (PoolScoreResult Q)) :
  NoDup (map (@ScorePoolID Q) scoredPools) ->
  forall (todo seen valid : list (PoolScoreResult Q)) (e : PoolID) (f : bool)
         (valid' : list (PoolScoreResult Q)) (e' : PoolID) (f' : bool),
    scoredPools = seen ++ todo ->
    bestElysOf poolsDataMap seen e f ->
    foldM (filterStep scoredPools poolsDataMap) todo (valid, e, f)
    = Ok (valid', e', f') ->
    valid' = valid ++ todo /\ bestElysOf poolsDataMap scoredPools e' f'.
Proof.
  intros Hnd todo. induction todo as [|p todo IH];
    intros seen valid e f valid' e' f' Hsplit Hinv H.
  - simpl in H. injection H as <- <- <-. rewrite app_nil_r in *. subst. auto.
  - cbn [foldM] in H. apply bind_Ok in H. destruct H as [[[v1 e1] f1] [Hstep H]].
    assert (Hsplit' : scoredPools = (seen ++ [p]) ++ todo).
    { rewrite <- app_assoc. exact Hsplit. }
    unfold filterStep in Hstep. cbn [IsNaN IsInf orb] in Hstep.
    destruct (containsElys poolsDataMap (ScorePoolID p)) eqn:Ec.
    + destruct f; cbn [negb] in Hstep.
      * (* a further ELYS pool *)
        injection Hstep as <- <- <-.
        destruct Hinv as [best [Hin [Hc [Hid Hmax]]]].
        assert (Hbest : In best scoredPools).
        { rewrite Hsplit. apply in_or_app. left. exact Hin. }
        subst e.
        rewrite (compareWithBestElys_unique _ _ p Hnd Hbest) in H.
        specialize (IH (seen ++ [p]) (valid ++ [p])
                       (if Qltb (Score best) (Score p) then ScorePoolID p
                        else ScorePoolID best)
                       true valid' e' f' Hsplit').
        destruct IH as [Hv Hb]; [| exact H | split; [rewrite Hv, <- app_assoc; reflexivity | exact Hb]].
        destruct (Qltb (Score best) (Score p)) eqn:Elt.
        -- apply Qltb_true in Elt. exists p. repeat split.
           ++ apply in_or_app. right. left. reflexivity.
           ++ exact Ec.
           ++ intros other Ho Hco. apply in_app_or in Ho. destruct Ho as [Ho|[<-|[]]].
              ** specialize (Hmax other Ho Hco). lra.
              ** lra.
        -- apply Qltb_false in Elt. exists best. repeat split.
           ++ apply in_or_app. left. exact Hin.
           ++ exact Hc.
           ++ intros other Ho Hco. apply in_app_or in Ho. destruct Ho as [Ho|[<-|[]]].
              ** exact (Hmax other Ho Hco).
              ** exact Elt.
      * (* the first ELYS pool *)
        injection Hstep as <- <- <-.
        destruct Hinv as [_ Hnone].
        specialize (IH (seen ++ [p]) (valid ++ [p]) (ScorePoolID p) true valid' e' f' Hsplit').
        destruct IH as [Hv Hb]; [| exact H | split; [rewrite Hv, <- app_assoc; reflexivity | exact Hb]].
        exists p. repeat split.
        -- apply in_or_app. right. left. reflexivity.
        -- exact Ec.
        -- intros other Ho Hco. apply in_app_or in Ho. destruct Ho as [Ho|[<-|[]]].
           ++ rewrite (Hnone other Ho) in Hco. discriminate.
           ++ lra.
    + injection Hstep as <- <- <-.
      specialize (IH (seen ++ [p]) (valid ++ [p]) e f valid' e' f' Hsplit').
      destruct IH as [Hv Hb]; [| exact H | split; [rewrite Hv, <- app_assoc; reflexivity | exact Hb]].
      unfold bestElysOf in *. destruct f.
      * destruct Hinv as [best [Hin [Hc [Hid Hmax]]]]. exists best. repeat split; auto.
        -- apply in_or_app. left. exact Hin.
        -- intros other Ho Hco. apply in_app_or in Ho. destruct Ho as [Ho|[<-|[]]].
           ++ exact (Hmax other Ho Hco).
           ++ congruence.
      * destruct Hinv as [He Hnone]. split; [exact He|].
        intros other Ho. apply in_app_or in Ho. destruct Ho as [Ho|[<-|[]]]; auto.
Qed.

Lemma firstn_selected {A : Type} (maxPools : Z) (l : list A) :
  firstn (if maxPools >? Z.of_nat (List.length l) then List.length l
          else Z.to_nat maxPools) l
  = firstn (Z.to_nat maxPools) l.
Proof.
  destruct (Z.gtb_spec maxPools (Z.of_nat (List.length l))) as [H|H]; [|reflexivity].
  rewrite firstn_all, firstn_all2 by lia. reflexivity.
Qed.

Lemma removelast_if {A : Type} (l : list A) :
  (if Nat.ltb 0 (List.length l) then removelast l else l) = removelast l.
Proof. destruct l; reflexivity. Qed.

(** C4.  On scored pools with one score per pool, [SelectTopPools] returns
    as forced pool a highest-scoring pool among those whose token set
    contains "uelys"; when that pool is not among the top [MaxPools] by
    score, the last (lowest-scoring) member of that selection is removed and
    the forced pool appended; when no pool contains "uelys", the forced pool
    ID is 0 and the selection is the top [MaxPools]. *)
Theorem SelectTopPools_forced_pool
        (scoredPools : list (PoolScoreResult Q)) (params : ScoringParameters Q)
        (poolsDataMap : PoolMap (Pool Q))
        (selected : list PoolID) (elysPoolID : PoolID) :
  NoDup (map (@ScorePoolID Q) scoredPools) ->
  SelectTopPools scoredPools params poolsDataMap = Ok (selected, elysPoolID) ->
  (elysPools poolsDataMap scoredPools = [] ->
   elysPoolID = 0%N /\ selected = topPools params scoredPools)
  /\ (elysPools poolsDataMap scoredPools <> [] ->
      (exists best,
          In best (elysPools poolsDataMap scoredPools)
          /\ ScorePoolID best = elysPoolID
          /\ forall other, In other (elysPools poolsDataMap scoredPools) ->
                           (Score other <= Score best)%Q)
      /\ (In elysPoolID (topPools params scoredPools) ->
          selected = topPools params scoredPools)
      /\ (~ In elysPoolID (topPools params scoredPools) ->
          selected = removelast (topPools params scoredPools) ++ [elysPoolID])).
Proof.
  intros Hnd H. unfold SelectTopPools in H.
  destruct (Nat.eqb (List.length scoredPools) 0); [discriminate|].
  destruct (MaxPools params <=? 0); [discriminate|].
  apply bind_Ok in H. destruct H as [[[valid e] f] [Hloop H]].
  apply (filter_loop poolsDataMap scoredPools Hnd scoredPools [] [] 0%N false)
    in Hloop; [| reflexivity | split; [reflexivity | intros ? []]].
  destruct Hloop as [Hvalid Hbest]. simpl in Hvalid. subst valid.
  destruct (Nat.eqb (List.length scoredPools) 0); [discriminate|].
  rewrite firstn_selected, removelast_if in H.
  fold (topPools params scoredPools) in H.
  injection H as Hsel <-.
  unfold bestElysOf in Hbest. destruct f.
  - (* a pool with the forced asset exists *)
    destruct Hbest as [best [Hin [Hc [Hid Hmax]]]].
    assert (HinE : In best (elysPools poolsDataMap scoredPools)).
    { apply filter_In. split; assumption. }
    split; [intros Hnone; rewrite Hnone in HinE; contradiction|].
    intros _. split; [|split].
    + exists best. repeat split; [exact HinE | exact Hid |].
      intros other Ho. apply filter_In in Ho. destruct Ho as [Ho Hco].
      exact (Hmax other Ho Hco).
    + intros Htop. apply existsb_eqb_In in Htop.
      cbn [andb] in Hsel. rewrite Htop in Hsel. cbn [negb] in Hsel. congruence.
    + intros Htop.
      assert (E : existsb (N.eqb e) (topPools params scoredPools) = false).
      { destruct (existsb (N.eqb e) (topPools params scoredPools)) eqn:E';
          [|reflexivity].
        apply existsb_eqb_In in E'. contradiction. }
      cbn [andb] in Hsel. rewrite E in Hsel. cbn [negb] in Hsel. congruence.
  - destruct Hbest as [He Hnone]. cbn [andb] in Hsel.
    split; [intros _; split; congruence|].
    intros Hne. exfalso. apply Hne. unfold elysPools.
    clear - Hnone. induction scoredPools as [|p rest IH]; [reflexivity|].
    simpl. rewrite (Hnone p) by (left; reflexivity).
    apply IH. intros other Ho. apply Hnone. right. exact Ho.
Qed.

(** Of three pools scored 5, 4 and 1, the last one with ELYS, two are
    selected: the best one and the ELYS pool, which evicts the second. *)
Lemma SelectTopPools_forced_pool_witness :
  SelectTopPools scoredThree parameters threePools = Ok ([1%N; 3%N], 3%N)
  /\ (exists best,
         In best (elysPools threePools scoredThree)
         /\ ScorePoolID best = 3%N
         /\ forall other, In other (elysPools threePools scoredThree) ->
                          (Score other <= Score best)%Q)
  /\ [1%N; 3%N] = removelast (topPools parameters scoredThree) ++ [3%N].
Proof.
  assert (H : SelectTopPools scoredThree parameters threePools
              = Ok ([1%N; 3%N], 3%N)) by (vm_compute; reflexivity).
  split; [exact H|].
  assert (Hnd : NoDup (map (@ScorePoolID Q) scoredThree))
    by (repeat constructor; simpl; intuition discriminate).
  destruct (SelectTopPools_forced_pool scoredThree parameters threePools
              [1%N; 3%N] 3%N Hnd H) as [_ Hsome].
  destruct Hsome as [Hbest [_ Hevict]]; [vm_compute; discriminate|].
  split; [exact Hbest|].
  apply Hevict. vm_compute. intuition discriminate.
Defined.

End AnalyzerFacts.

(** ** The planner *)

Module PlannerFacts.
Import Planner Examples.

(** *** The deposit phase *)

Lemma Qtruncate_percent (factor : Q) :
  (0 < factor)%Q -> (factor <= 1)%Q -> 0 <= Qtruncate (factor * 100) <= 100.
Proof.
  intros H0 H1. unfold Qtruncate.
  assert (E : Qltb (factor * 100) 0 = false) by (apply Qltb_false; lra).
  rewrite E. split.
  - change 0 with (Qfloor 0). apply Qfloor_resp_le. lra.
  - apply Z.le_trans with (Qfloor (inject_Z 100)); [| rewrite Qfloor_Z; lia].
    apply Qfloor_resp_le. change (inject_Z 100) with 100%Q. lra.
Qed.

Section DepositPhase.
Variable sim : Simulator.
Variable rpcEndpoint : string.
Variable poolsData : PoolMap (Pool Q).
Variable usdcToken : Token Q.
Variable scoringParams : ScoringParameters Q.

Hypothesis params_valid : validateScoringParams scoringParams = Ok tt.

Lemma reduction_factor_range :
  (0 < ViableDepositReductionFactor scoringParams)%Q
  /\ (ViableDepositReductionFactor scoringParams <= 1)%Q.
Proof.
  pose proof params_valid as H. unfold validateScoringParams in H.
  peel H. apply guard_Ok in H. apply orb_false_iff in H. destruct H as [H1 H2].
  apply Qleb_false in H1. apply Qltb_false in H2. split; assumption.
Qed.

(** The amount accepted by [findViableDepositAmount] is the amount asked
    for or less. *)
Lemma findViableDepositAmount_le (poolID : N) (amountsIn : Coin) (poolInfo : Pool Q)
      (joinEst : JoinPoolEstimationResult) (finalAmount : Z) :
  0 <= Amount amountsIn ->
  findViableDepositAmount sim rpcEndpoint poolID amountsIn poolInfo scoringParams
  = Ok (joinEst, finalAmount) ->
  0 <= finalAmount <= Amount amountsIn.
Proof.
  intros Ha H. unfold findViableDepositAmount in H.
  destruct reduction_factor_range as [F0 F1].
  pose proof (Qtruncate_percent _ F0 F1) as Hk.
  set (k := Qtruncate (ViableDepositReductionFactor scoringParams * 100)) in *.
  match type of H with
  | match ?v with _ => _ end = _ => destruct v
  end.
  - injection H as _ <-. lia.
  - match type of H with
    | match ?v with _ => _ end = _ => destruct v; [|discriminate]
    end.
    injection H as _ <-.
    rewrite Z.quot_div_nonneg by nia. split.
    + apply Z.div_pos; nia.
    + apply Z.div_le_upper_bound; nia.
Qed.

(** One turn of the deposit loop either leaves the state as it is, or emits
    one deposit whose amount, in USDC, is at most the allowable amount
    [max 0 (liquid - buffer)] plus half a base unit, and subtracts it. *)
Lemma depositStep_clamped (actions actions' : list SubAction) (liquid liquid' : Q)
      (deposit : ExtendedAction) :
  depositStep sim rpcEndpoint poolsData usdcToken scoringParams
              (actions, liquid) deposit = Ok (actions', liquid') ->
  (actions' = actions /\ liquid' = liquid)
  \/ (exists action amount used,
         actions' = actions ++ [action]
         /\ Type_ action = SubActionDepositLP
         /\ AmountsToDeposit action = [mkCoin (IBCDenom usdcToken) amount]
         /\ SDKIntToFloat64 amount (TokenPrecision usdcToken) = Ok used
         /\ (MinLiquidUSDCBuffer scoringParams <= liquid)%Q
         /\ (used <= liquid - MinLiquidUSDCBuffer scoringParams
                     + halfBaseUnit usdcToken)%Q
         /\ liquid' = (liquid - used)%Q).
Proof.
  intros H. unfold depositStep in H. cbv zeta in H.
  destruct (pool_get poolsData (ActionPoolID deposit)) as [poolInfo|]; [|discriminate].
  destruct (Qleb (DeltaUSD deposit) 0) eqn:Hpos.
  { injection H as <- <-. left. auto. }
  apply Qleb_false in Hpos.
  set (B := MinLiquidUSDCBuffer scoringParams) in *.
  remember (if Qltb (liquid - B) 0 then 0%Q else (liquid - B)%Q) as avail eqn:Eav.
  remember (if Qltb avail (DeltaUSD deposit) then avail else DeltaUSD deposit)
    as target eqn:Etarget.
  destruct (Qltb target 1) eqn:Hdust.
  { injection H as <- <-. left. auto. }
  apply Qltb_false in Hdust.
  apply bind_Ok in H. destruct H as [usdcAmount [Hconv H]].
  apply Float64ToSDKInt_inv in Hconv. destruct Hconv as [Hp [_ Hamt]].
  match type of H with
  | match ?v with _ => _ end = _ => destruct v as [[joinEst finalAmount]|] eqn:Hfind
  end.
  2:{ injection H as <- <-. left. auto. }
  destruct (Z.eqb_spec finalAmount 0) as [Hz|Hnz].
  { injection H as <- <-. left. auto. }
  apply bind_Ok in H. destruct H as [used [Hused H]]. injection H as <- <-.
  right. eexists _, finalAmount, used.
  split; [reflexivity|]. split; [reflexivity|]. split; [reflexivity|].
  split; [exact Hused|].
  assert (Havail : (target <= avail)%Q).
  { rewrite Etarget. destruct (Qltb avail (DeltaUSD deposit)) eqn:E; [lra|].
    apply Qltb_false in E. exact E. }
  assert (Hliquid : (avail == liquid - B)%Q /\ (B <= liquid)%Q).
  { destruct (Qltb (liquid - B) 0) eqn:E.
    - exfalso. rewrite Eav in Havail. lra.
    - apply Qltb_false in E. rewrite Eav. split; [reflexivity | lra]. }
  destruct Hliquid as [Eavail HB].
  split; [exact HB|]. split; [|reflexivity].
  (* the accepted amount is at most the rounded target *)
  assert (Hamt0 : 0 <= usdcAmount).
  { subst usdcAmount. apply round_half_even_nonneg.
    apply Qmult_le_0_compat; [lra|]. apply Qlt_le_weak, pow10_Qpos. lia. }
  apply findViableDepositAmount_le in Hfind; [| exact Hamt0].
  cbn [Amount] in Hfind.
  destruct (SDKIntToFloat64_value finalAmount (TokenPrecision usdcToken)
              ltac:(lia) Hp) as [y [Hy Ey]].
  rewrite Hy in Hused. injection Hused as <-.
  pose proof (pow10_Qpos (TokenPrecision usdcToken) ltac:(lia)) as HP.
  unfold halfBaseUnit.
  set (P := inject_Z (10 ^ TokenPrecision usdcToken)) in *.
  pose proof (round_half_even_close (target * P)) as Hc.
  rewrite Hamt in Hc. apply Qabs_Qle_condition in Hc. destruct Hc as [_ Hhi].
  assert (Hfin : (inject_Z finalAmount <= inject_Z usdcAmount)%Q)
    by (rewrite <- Zle_Qle; lia).
  rewrite Ey.
  apply Qle_shift_div_r; [exact HP|].
  setoid_replace ((liquid - B + (1 # 2) / P) * P)%Q
    with ((liquid - B) * P + (1 # 2))%Q by (field; lra).
  assert (Hmul : (target * P <= (liquid - B) * P)%Q).
  { apply Qmult_le_compat_r; lra. }
  lra.
Qed.


(** Below the buffer nothing is deposited: the state stays as it is. *)
Lemma depositStep_below_buffer (st st' : DepositState) (deposit : ExtendedAction) :
  depositStep sim rpcEndpoint poolsData usdcToken scoringParams st deposit = Ok st' ->
  (snd st < MinLiquidUSDCBuffer scoringParams)%Q ->
  st' = st.
Proof.
  intros H Hlow. destruct st as [actions liquid], st' as [actions' liquid'].
  apply depositStep_clamped in H. cbn [snd] in *.
  destruct H as [[-> ->] | [action [amount [used [_ [_ [_ [_ [HB _]]]]]]]]].
  - reflexivity.
  - lra.
Qed.


(** When the phase starts below the buffer, it deposits nothing: every
    state of the loop is the initial one. *)
Lemma deposit_phase_below_buffer (ds : list ExtendedAction) (st : DepositState) :
  (snd st < MinLiquidUSDCBuffer scoringParams)%Q ->
  Forall (fun st' => st' = st)
         (depositTrace sim rpcEndpoint poolsData usdcToken scoringParams ds st).
Proof.
  intros Hlow. induction ds as [|d ds IH]; cbn [depositTrace]; [constructor|].
  destruct (depositStep sim rpcEndpoint poolsData usdcToken scoringParams st d)
    as [st1|] eqn:Hstep; [|constructor].
  apply depositStep_below_buffer in Hstep; [|exact Hlow]. subst st1.
  constructor; [reflexivity | exact IH].
Qed.

(** The loop of [processDeposits] and its trace are the same computation:
    when the loop succeeds, its result is the last state of the trace. *)
Lemma processDeposits_trace (ds : list ExtendedAction) (st st' : DepositState) :
  foldM (depositStep sim rpcEndpoint poolsData usdcToken scoringParams) ds st = Ok st' ->
  last (depositTrace sim rpcEndpoint poolsData usdcToken scoringParams ds st) st = st'
  /\ List.length (depositTrace sim rpcEndpoint poolsData usdcToken scoringParams ds st)
     = List.length ds.
Proof.
  revert st. induction ds as [|d ds IH]; intros st H.
  - simpl in H. injection H as <-. split; reflexivity.
  - cbn [foldM] in H. apply bind_Ok in H. destruct H as [st1 [Hstep H]].
    cbn [depositTrace]. rewrite Hstep. destruct (IH _ H) as [Hlast Hlen].
    split; [| simpl; rewrite Hlen; reflexivity].
    destruct (depositTrace sim rpcEndpoint poolsData usdcToken scoringParams ds st1)
      as [|s rest] eqn:E.
    + simpl in Hlast |- *. exact Hlast.
    + cbn [last]. rewrite <- Hlast. cbn [last]. 
      clear. generalize s. induction rest as [|r rest IHr]; intros s0; [reflexivity|].
      cbn [last]. apply IHr.
Qed.

End DepositPhase.


(** *** The withdrawal cap *)

Lemma totalWithdrawalUSD_acc (ws : list ExtendedAction) (a : Q) :
  (fold_left (fun total w => total + Abs (DeltaUSD w)) ws a
   == a + totalWithdrawalUSD ws)%Q.
Proof.
  unfold totalWithdrawalUSD. revert a. induction ws as [|w ws IH]; intros a; simpl.
  - ring.
  - rewrite IH, (IH (0 + Abs (DeltaUSD w))%Q). ring.
Qed.

Lemma totalWithdrawalUSD_cons (w : ExtendedAction) (ws : list ExtendedAction) :
  (totalWithdrawalUSD (w :: ws) == Qabs (DeltaUSD w) + totalWithdrawalUSD ws)%Q.
Proof.
  unfold totalWithdrawalUSD at 1. cbn [fold_left].
  rewrite totalWithdrawalUSD_acc. unfold Abs. ring.
Qed.

Lemma totalWithdrawalUSD_scaled (k : Q) (ws : list ExtendedAction) :
  (0 <= k)%Q ->
  (totalWithdrawalUSD (map (scaleDelta k) ws) == totalWithdrawalUSD ws * k)%Q.
Proof.
  intros Hk. induction ws as [|w ws IH].
  - unfold totalWithdrawalUSD. simpl. ring.
  - cbn [map]. rewrite !totalWithdrawalUSD_cons, IH.
    unfold scaleDelta. cbn [DeltaUSD].
    rewrite Qabs_Qmult, (Qabs_pos k Hk). ring.
Qed.

(** The first half of C1: when the withdrawals exceed the cap, each delta is
    scaled by [cap / total], the deposits are untouched, and the scaled
    deltas add up to the cap. *)
Lemma applyRebalancingLimits_scales
      (withdrawals deposits : list ExtendedAction) (totalVaultValueUSD : Q)
      (scoringParams : ScoringParameters Q) :
  (0 <= maxWithdrawalUSD totalVaultValueUSD scoringParams)%Q ->
  (maxWithdrawalUSD totalVaultValueUSD scoringParams
   < totalWithdrawalUSD withdrawals)%Q ->
  applyRebalancingLimits withdrawals deposits totalVaultValueUSD scoringParams
  = (map (scaleDelta (maxWithdrawalUSD totalVaultValueUSD scoringParams
                      / totalWithdrawalUSD withdrawals)) withdrawals,
     deposits)
  /\ (totalWithdrawalUSD
        (fst (applyRebalancingLimits withdrawals deposits totalVaultValueUSD
                                     scoringParams))
      == maxWithdrawalUSD totalVaultValueUSD scoringParams)%Q.
Proof.
  intros Hcap Hover. unfold applyRebalancingLimits.
  apply Qleb_false in Hover. rewrite Hover. apply Qleb_false in Hover.
  split; [reflexivity|]. cbn [fst].
  change (map (fun w => mkExtendedAction (ActionPoolID w) (DeltaUSD w * ?k)%Q
                                         (TargetLPShares w)) withdrawals)
    with (map (scaleDelta k) withdrawals).
  fold (scaleDelta (maxWithdrawalUSD totalVaultValueUSD scoringParams
                    / totalWithdrawalUSD withdrawals)).
  rewrite totalWithdrawalUSD_scaled.
  - field. lra.
  - apply Qle_shift_div_l; lra.
Qed.

(** The withdrawal loop reads the pool ID and the target shares of a
    withdrawal, never its delta. *)
Lemma withdrawStep_scaleDelta (sim : Simulator) (rpcEndpoint : string)
      (currentPositions : list (Position Q)) (poolsData : PoolMap (Pool Q))
      (usdcToken : Token Q) (scoringParams : ScoringParameters Q)
      (k : Q) (st : WithdrawState) (w : ExtendedAction) :
  withdrawStep sim rpcEndpoint currentPositions poolsData usdcToken scoringParams
               st (scaleDelta k w)
  = withdrawStep sim rpcEndpoint currentPositions poolsData usdcToken scoringParams
                 st w.
Proof. reflexivity. Qed.

Lemma sort_insert_map {A : Type} (less less' : A -> A -> bool) (f : A -> A)
      (x : A) (l : list A) :
  (forall a b, less' (f a) (f b) = less a b) ->
  sort_insert less' (f x) (map f l) = map f (sort_insert less x l).
Proof.
  intros Hless. induction l as [|y l IH]; simpl.
  - reflexivity.
  - rewrite Hless. destruct (less y x); simpl; [rewrite IH|]; reflexivity.
Qed.

Lemma sort_Slice_map {A : Type} (less less' : A -> A -> bool) (f : A -> A)
      (l : list A) :
  (forall a b, less' (f a) (f b) = less a b) ->
  sort_Slice less' (map f l) = map f (sort_Slice less l).
Proof.
  intros Hless. unfold sort_Slice. induction l as [|x l IH]; simpl.
  - reflexivity.
  - rewrite IH. apply sort_insert_map. exact Hless.
Qed.

Lemma foldM_map {A S : Type} (body : S -> A -> result S) (f : A -> A)
      (l : list A) (s : S) :
  (forall s x, body s (f x) = body s x) ->
  foldM body (map f l) s = foldM body l s.
Proof.
  intros Hbody. revert s. induction l as [|x l IH]; intros s; simpl.
  - reflexivity.
  - rewrite Hbody. destruct (body s x); simpl; [apply IH | reflexivity].
Qed.

(** The defect behind C1: scaling the deltas by a positive factor, which is
    all the cap does, leaves the emitted withdrawals unchanged. *)
Lemma processWithdrawals_ignores_cap (sim : Simulator) (rpcEndpoint : string)
      (withdrawals : list ExtendedAction)
      (currentPositions : list (Position Q)) (poolsData : PoolMap (Pool Q))
      (simulatedLiquidUSDC : Q) (usdcToken : Token Q)
      (scoringParams : ScoringParameters Q) (k : Q) :
  (0 < k)%Q ->
  processWithdrawals sim rpcEndpoint (map (scaleDelta k) withdrawals)
                     currentPositions poolsData simulatedLiquidUSDC usdcToken
                     scoringParams
  = processWithdrawals sim rpcEndpoint withdrawals currentPositions poolsData
                       simulatedLiquidUSDC usdcToken scoringParams.
Proof.
  intros Hk. unfold processWithdrawals.
  rewrite (sort_Slice_map (fun wi wj => Qltb (DeltaUSD wi) (DeltaUSD wj))).
  - apply foldM_map. intros s x. apply withdrawStep_scaleDelta.
  - intros a b. unfold scaleDelta. cbn [DeltaUSD].
    destruct (Qltb (DeltaUSD a) (DeltaUSD b)) eqn:E.
    + apply Qltb_true in E. apply Qltb_true. nra.
    + apply Qltb_false in E. apply Qltb_false. nra.
Qed.


(** C1, at the failing input.  The vault holds 1000 USD in pool 1 and the
    target moves everything to pool 2; the cap is 10 percent of 1000 USD.
    The planner scales the withdrawal's delta from -1000 to -100, and still
    emits a withdrawal of all 1000 shares, expecting 1000 USDC out: ten
    times the cap. *)
Theorem withdrawal_cap_not_enforced :
  (maxWithdrawalUSD 1000 parameters == 100)%Q
  /\ (exists withdrawals deposits,
         analyzeRequiredChanges positionsInPool1 allIntoPool2 1000 twoPools parameters
         = Ok (withdrawals, deposits)
         /\ map DeltaUSD withdrawals = [(- (1000))%Q]
         /\ Forall2 Qeq
              (map DeltaUSD
                   (fst (applyRebalancingLimits withdrawals deposits 1000 parameters)))
              [(- (100))%Q])
  /\ (exists withdrawalActions depositActions action,
         GenerateActionPlan flatSimulator "http://node" positionsInPool1 0
                            allIntoPool2 1000 twoPools tokens parameters
         = Ok (withdrawalActions, depositActions)
         /\ withdrawalActions = [action]
         /\ Type_ action = SubActionWithdrawLP
         /\ LPSharesToWithdraw action = 1000
         /\ ExpectedAmountsOut action = [mkCoin "ibc/usdc" 1000000000]
         /\ (totalWithdrawnUSD usdc withdrawalActions == 1000)%Q
         /\ ~ (totalWithdrawnUSD usdc withdrawalActions
               <= maxWithdrawalUSD 1000 parameters + 1)%Q).
Proof.
  split; [vm_compute; reflexivity|]. split.
  - eexists _, _. split; [vm_compute; reflexivity|].
    split; [vm_compute; reflexivity|].
    vm_compute. constructor; [reflexivity | constructor].
  - eexists _, _, _. split; [vm_compute; reflexivity|].
    split; [reflexivity|]. split; [reflexivity|]. split; [reflexivity|].
    split; [reflexivity|]. split; [vm_compute; reflexivity|].
    vm_compute. intros H. apply H. reflexivity.
Qed.

End PlannerFacts.

(** ** The volatility calculator *)

Module VolatilityFacts.
Import Volatility.

Lemma Rleb_true (x y : R) : Rleb x y = true <-> (x <= y)%R.
Proof. unfold Rleb. destruct (Rle_dec x y); split; intros; congruence || lra. Qed.

Lemma Rleb_false (x y : R) : Rleb x y = false <-> (y < x)%R.
Proof. unfold Rleb. destruct (Rle_dec x y); split; intros; congruence || lra. Qed.

(** The loop over indices 1..n-1 visits exactly the consecutive pairs and
    keeps the return of a pair iff both of its prices are positive. *)
Lemma logReturnsFrom_pairs (p : PriceData R) (rest : list (PriceData R)) :
  logReturnsFrom (Price p) rest
  = map (fun pair => ln (Price (snd pair) / Price (fst pair)))
        (filter usablePair (combine (p :: rest) rest)).
Proof.
  revert p. induction rest as [|q rest IH]; intros p.
  - reflexivity.
  - change (combine (p :: q :: rest) (q :: rest))
      with ((p, q) :: combine (q :: rest) rest).
    cbn [logReturnsFrom filter]. unfold usablePair at 1. cbn [fst snd].
    rewrite IH.
    destruct (Rleb (Price p) 0), (Rleb (Price q) 0); reflexivity.
Qed.

Lemma logReturnsOf_usable (prices : list (PriceData R)) :
  logReturnsOf (sortByTimestamp prices) = usableReturns prices.
Proof.
  unfold usableReturns, consecutivePairs, logReturnsOf.
  destruct (sortByTimestamp prices) as [|p rest].
  - reflexivity.
  - apply logReturnsFrom_pairs.
Qed.

Lemma fold_left_Rplus (f : R -> R) (l : list R) (acc : R) :
  fold_left (fun a r => (a + f r)%R) l acc = (acc + Rsum (map f l))%R.
Proof.
  revert acc. induction l as [|x l IH]; intros acc; simpl.
  - lra.
  - rewrite IH. lra.
Qed.

Lemma sum_loop (l : list R) : fold_left Rplus l 0%R = Rsum l.
Proof.
  change (fold_left Rplus l 0%R)
    with (fold_left (fun a r => (a + (fun x => x) r)%R) l 0%R).
  rewrite fold_left_Rplus, map_id. lra.
Qed.

Lemma sumSqDiff_loop (mean : R) (l : list R) :
  fold_left (fun acc r => (acc + Pow2 (r - mean))%R) l 0%R
  = Rsum (map (fun x => ((x - mean) ^ 2)%R) l).
Proof.
  rewrite (fold_left_Rplus (fun r => Pow2 (r - mean)) l 0%R).
  rewrite Rplus_0_l. f_equal. apply map_ext. intros x. unfold Pow2. simpl. lra.
Qed.

Lemma stdDev_loop (l : list R) :
  sqrt (fold_left (fun acc r =>
                     (acc + Pow2 (r - fold_left Rplus l 0 / INR (List.length l)))%R)
                  l 0%R / INR (List.length l))
  = populationStdDev l.
Proof.
  unfold populationStdDev, populationMean.
  rewrite sumSqDiff_loop, sum_loop. reflexivity.
Qed.

Lemma sortByTimestamp_length (prices : list (PriceData R)) :
  List.length (sortByTimestamp prices) = List.length prices.
Proof. apply Permutation_length, sort_Slice_perm. Qed.

(** With fewer than two prices there is no consecutive pair. *)
Lemma usableReturns_short (prices : list (PriceData R)) :
  (List.length prices < 2)%nat -> usableReturns prices = [].
Proof.
  intros Hn. unfold usableReturns, consecutivePairs.
  pose proof (sortByTimestamp_length prices) as Hlen.
  destruct (sortByTimestamp prices) as [|p [|q rest]]; simpl in *;
    try reflexivity; lia.
Qed.

(** C7 (as the code has it).  [CalculateVolatility] fails with
    [ErrInsufficientData] exactly when no usable return remains after the
    pairs with a non-positive price are dropped (fewer than two prices leave
    none); with one usable return or more it returns the population
    standard deviation of the log-returns times the square root of the
    annualization factor. *)
Theorem CalculateVolatility_population_stddev
        (prices : list (PriceData R)) (annualizationFactor : R) :
  CalculateVolatility prices annualizationFactor
  = match usableReturns prices with
    | [] => Err ErrInsufficientData
    | _ :: _ =>
        Ok (populationStdDev (usableReturns prices) * sqrt annualizationFactor)%R
    end.
Proof.
  unfold CalculateVolatility. cbv zeta.
  destruct (Nat.ltb (List.length prices) 2) eqn:En.
  - apply Nat.ltb_lt in En. rewrite usableReturns_short by exact En. reflexivity.
  - rewrite logReturnsOf_usable.
    destruct (usableReturns prices) as [|r rs] eqn:Er.
    + reflexivity.
    + cbn [List.length Nat.eqb]. rewrite stdDev_loop. reflexivity.
Qed.

Lemma usableReturns_twoPrices : usableReturns twoPrices = [ln (2 / 1)].
Proof.
  unfold usableReturns, consecutivePairs, twoPrices. cbn.
  unfold usablePair. cbn [fst snd Price].
  assert (H1 : Rleb 1 0 = false) by (apply Rleb_false; lra).
  assert (H2 : Rleb 2 0 = false) by (apply Rleb_false; lra).
  rewrite H1, H2. reflexivity.
Qed.

(** C7, counterexample to the claim as written: a series with exactly one
    usable return (fewer than 2) does not fail; the volatility returned is 0. *)
Lemma CalculateVolatility_one_return :
  (List.length (usableReturns twoPrices) < 2)%nat
  /\ CalculateVolatility twoPrices 365 = Ok 0%R
  /\ CalculateVolatility twoPrices 365 <> Err ErrInsufficientData.
Proof.
  assert (Hv : CalculateVolatility twoPrices 365 = Ok 0%R).
  { unfold CalculateVolatility. cbv zeta.
    change (Nat.ltb (List.length twoPrices) 2) with false. cbv iota.
    rewrite logReturnsOf_usable, usableReturns_twoPrices.
    cbn [List.length Nat.eqb fold_left]. f_equal.
    replace ((0 + Pow2 (ln (2 / 1) - (0 + ln (2 / 1)) / INR 1)) / INR 1)%R
      with 0%R by (unfold Pow2; simpl; field).
    rewrite sqrt_0. lra. }
  split; [rewrite usableReturns_twoPrices; simpl; lia|].
  split; [exact Hv|]. rewrite Hv. discriminate.
Qed.

End VolatilityFacts.

(** ** The scorer *)

Module ScorerFacts.
Import Scorer.

Section Scoring.
Context {F : Type} {ops : Float64Ops F}.

Lemma forM_guard_Ok (bad : F -> bool) (e : error) (l : list F) (u : unit) :
  Wallet.forM_ (fun x => guard (bad x) e) l = Ok u ->
  forallb (fun x => negb (bad x)) l = true.
Proof.
  induction l as [|x l IH]; simpl; intros H.
  - reflexivity.
  - apply bind_Ok in H. destruct H as [v [G H]].
    apply guard_Ok in G. rewrite G. simpl. apply IH. exact H.
Qed.

(** Turns the guards that passed into facts. *)
Ltac guards :=
  repeat match goal with
         | G : guard _ _ = Ok _ |- _ => apply guard_Ok in G
         | G : Wallet.forM_ _ _ = Ok _ |- _ =>
             apply forM_guard_Ok in G; cbn [forallb] in G
         end.

Lemma CalculateWeightedAPR_finite (pool : Pool F) (params : ScoringParameters F)
      (weightedAPR : F) :
  CalculateWeightedAPR pool params = Ok weightedAPR ->
  notFinite weightedAPR = false.
Proof.
  unfold CalculateWeightedAPR. intros H. peel H. guards.
  injection H as <-. assumption.
Qed.

Lemma CalculateRiskScore_inputs_finite
      (ilRisk agePenalty sentimentAdjustment : F) (pool : Pool F)
      (params : ScoringParameters F) (riskScore : F) :
  CalculateRiskScore ilRisk agePenalty sentimentAdjustment pool params
  = Ok riskScore ->
  notFinite ilRisk = false /\ notFinite agePenalty = false
  /\ notFinite sentimentAdjustment = false.
Proof.
  unfold CalculateRiskScore. intros H.
  apply bind_Ok in H. destruct H as [u [G _]].
  apply forM_guard_Ok in G. cbn [forallb] in G.
  repeat (apply andb_prop in G; destruct G as [?H G]).
  repeat split; apply negb_true_iff; assumption.
Qed.

Lemma ValidatePoolData_volatility_finite (pool : Pool F) (u : unit) :
  ValidatePoolData pool = Ok u -> notFinite (Volatility (TokenA pool)) = false.
Proof.
  unfold ValidatePoolData. intros H. peel H. guards. assumption.
Qed.

Lemma CalculatePoolScore_inv (pool : Pool F) (params : ScoringParameters F)
      (r : PoolScoreResult F) :
  CalculatePoolScore pool params = Ok r ->
  ScorePoolID r = ID pool
  /\ notFinite (Score r) = false
  /\ finiteComponents (Components r) = true.
Proof.
  unfold CalculatePoolScore. intros H.
  apply bind_Ok in H. destruct H as [u1 [Hpool H]].
  apply bind_Ok in H. destruct H as [u2 [Hparams H]].
  apply bind_Ok in H. destruct H as [weightedAPR [Hapr H]].
  apply bind_Ok in H. destruct H as [reward [Hreward H]].
  apply bind_Ok in H. destruct H as [agePenalty [Hage H]].
  apply bind_Ok in H. destruct H as [sentiment [Hsent H]].
  apply bind_Ok in H. destruct H as [ilRisk [Hil H]].
  apply bind_Ok in H. destruct H as [risk [Hrisk H]].
  apply bind_Ok in H. destruct H as [liquidity [Hliq H]].
  apply bind_Ok in H. destruct H as [shield [Hshield H]].
  apply bind_Ok in H. destruct H as [continuity [Hcont H]].
  apply bind_Ok in H. destruct H as [bonus [Hbonus H]].
  cbv zeta in H.
  apply bind_Ok in H. destruct H as [u3 [Hfinal H]].
  apply bind_Ok in H. destruct H as [u4 [Hcomps H]].
  injection H as <-. cbn [ScorePoolID Score Components].
  apply guard_Ok in Hfinal.
  apply forM_guard_Ok in Hcomps. cbn [forallb] in Hcomps.
  apply CalculateWeightedAPR_finite in Hapr.
  apply CalculateRiskScore_inputs_finite in Hrisk.
  destruct Hrisk as [Hil' [_ Hsent']].
  assert (Hvol : notFinite (Volatility (TokenA pool)) = false).
  { destruct (ValidatePoolData pool) as [u|e] eqn:Ev; [|discriminate].
    eapply ValidatePoolData_volatility_finite. exact Ev. }
  split; [reflexivity|]. split; [exact Hfinal|].
  unfold finiteComponents.
  cbn [forallb WeightedAPR ILRisk AnnualizedVolatility RewardScoreComponent
       RiskScoreComponent TvlScoreComponent BonusScoreComponent
       SentimentAdjustment].
  rewrite Hapr, Hil', Hvol, Hsent'. cbn [negb andb].
  repeat (apply andb_prop in Hcomps; destruct Hcomps as [?Hc Hcomps]).
  rewrite Hc, Hc0, Hc1, Hc2. reflexivity.
Qed.

(** C9.  Whatever the float64 operations do, a result returned without
    error by [CalculatePoolScore] has a finite score and eight finite
    components; and the result depends on the values of [pool] and [params]
    only: a second call on equal values returns the same result. *)
Theorem CalculatePoolScore_finite_deterministic
        (pool : Pool F) (params : ScoringParameters F) (r : PoolScoreResult F) :
  CalculatePoolScore pool params = Ok r ->
  finiteResult r = true
  /\ (forall (pool' : Pool F) (params' : ScoringParameters F),
         pool' = pool -> params' = params ->
         CalculatePoolScore pool' params' = Ok r).
Proof.
  intros H. split.
  - apply CalculatePoolScore_inv in H. destruct H as [_ [Hs Hc]].
    unfold finiteResult. rewrite Hs, Hc. reflexivity.
  - intros pool' params' -> ->. exact H.
Qed.

End Scoring.

(** The ATOM/USDC pool is scored in binary64, and its result is finite. *)
Lemma CalculatePoolScore_finite_deterministic_witness :
  exists r,
    CalculatePoolScore (ops := binary64) atomPool atomParameters = Ok r
    /\ finiteResult (ops := binary64) r = true.
Proof.
  eexists. split.
  - vm_compute. reflexivity.
  - eapply (CalculatePoolScore_finite_deterministic (ops := binary64)
              atomPool atomParameters).
    vm_compute. reflexivity.
Defined.

End ScorerFacts.

(** ** The orchestrator: snapshots per cycle *)

Module CycleFacts.
Import AVM.

Section Orchestrator.
Context {X : Type} (env : Env X).

Lemma call_database {A : Type} (op : X -> X * A) (w : World X) :
  database (fst (call op w)) = database w.
Proof. unfold call. destruct (op (outside w)). reflexivity. Qed.

Lemma saveCycleSnapshot_appends (s : CycleSnapshot) (w : World X) :
  cycleSnapshots (database (saveCycleSnapshot s w))
  = if dbOpen (database w) then cycleSnapshots (database w) ++ [s]
    else cycleSnapshots (database w).
Proof.
  unfold saveCycleSnapshot, SaveCycleSnapshot.
  destruct (dbOpen (database w)); reflexivity.
Qed.

Lemma logEndOfCycleState_database (w : World X) :
  database (logEndOfCycleState env w) = database w.
Proof.
  unfold logEndOfCycleState.
  destruct (call (GetLiquidUSDC env) w) as [w1 r1] eqn:E1.
  destruct (call (GetPoolPositions env) w1) as [w2 r2] eqn:E2.
  destruct (call (GetTotalVaultValue env) w2) as [w3 r3] eqn:E3.
  destruct (call (timeNow env) w3) as [w4 r4] eqn:E4.
  pose proof (call_database (GetLiquidUSDC env) w) as H1.
  pose proof (call_database (GetPoolPositions env) w1) as H2.
  pose proof (call_database (GetTotalVaultValue env) w2) as H3.
  pose proof (call_database (timeNow env) w3) as H4.
  rewrite E1 in H1. rewrite E2 in H2. rewrite E3 in H3. rewrite E4 in H4.
  simpl in *. congruence.
Qed.

Lemma getCycleNumber_snapshots (w : World X) :
  cycleSnapshots (database (fst (getCycleNumber env w)))
  = cycleSnapshots (database w).
Proof.
  unfold getCycleNumber, IncrementCycleNumber.
  destruct (dbOpen (database w)); cbn.
  - reflexivity.
  - pose proof (call_database (timeNow env) (mkWorld (outside w) (database w)))
      as H.
    destruct (call (timeNow env) _); cbn in *. congruence.
Qed.

Lemma captureVaultState_database (w : World X) :
  database (fst (captureVaultState env w)) = database w.
Proof.
  unfold captureVaultState.
  pose proof (call_database (GetPoolPositions env) w) as H1.
  destruct (call (GetPoolPositions env) w) as [w1 [positions|e]]; cbn in *;
    [|exact H1].
  pose proof (call_database (GetLiquidUSDC env) w1) as H2.
  destruct (call (GetLiquidUSDC env) w1) as [w2 [liquid|e]]; cbn in *; congruence.
Qed.

Lemma makeReceipts_database (message : string) (actions : list SubAction)
      (prePositions postPositions : list (Position Q)) (preUSDC postUSDC : Q)
      (w : World X) :
  database (fst (makeReceipts env message actions prePositions postPositions
                              preUSDC postUSDC w))
  = database w.
Proof.
  revert w. induction actions as [|action rest IH]; intros w; cbn.
  - reflexivity.
  - pose proof (call_database (timeNow env) w) as H1.
    destruct (call (timeNow env) w) as [w1 t]. cbn in H1.
    specialize (IH w1).
    destruct (makeReceipts env message rest prePositions postPositions
                           preUSDC postUSDC w1) as [w2 receipts].
    cbn in *. congruence.
Qed.

(** A phase that goes on leaves the table alone; a phase that fails saves
    one snapshot, the failed one. *)
Lemma executePhase_snapshots (message : string) (actions : list SubAction)
      (cycleSnapshot : CycleSnapshot) (totalGasFeeUSD totalVaultValue liquidUSDC : Q)
      (currentPositions : list (Position Q)) (poolsDataMap : PoolMap (Pool Q))
      (w : World X) :
  match executePhase env message actions cycleSnapshot totalGasFeeUSD
                     totalVaultValue liquidUSDC currentPositions poolsDataMap w with
  | (w', PhaseDone _ _) => database w' = database w
  | (w', PhaseFailed) =>
      cycleSnapshots (database w')
      = (if dbOpen (database w)
         then cycleSnapshots (database w)
              ++ [finalizeFailedSnapshot cycleSnapshot totalVaultValue liquidUSDC
                                         currentPositions poolsDataMap]
         else cycleSnapshots (database w))
  end.
Proof.
  unfold executePhase.
  destruct (Nat.ltb 0 (List.length actions)); [|reflexivity].
  pose proof (captureVaultState_database w) as H1.
  destruct (captureVaultState env w) as [w1 pre]. cbn in H1.
  destruct (match pre with Ok state => state | Err _ => _ end)
    as [prePositions preUSDC].
  pose proof (call_database (ExecuteActionPlan env actions) w1) as H2.
  destruct (call (ExecuteActionPlan env actions) w1) as [w2 [txResult|e]];
    cbn in H2.
  - pose proof (captureVaultState_database w2) as H3.
    destruct (captureVaultState env w2) as [w3 post]. cbn in H3.
    destruct (match post with Ok state => state | Err _ => _ end)
      as [postPositions postUSDC].
    pose proof (makeReceipts_database message actions prePositions postPositions
                                      preUSDC postUSDC w3) as H4.
    destruct (makeReceipts env message actions prePositions postPositions
                           preUSDC postUSDC w3) as [w4 receipts].
    cbn in H4. congruence.
  - rewrite logEndOfCycleState_database, saveCycleSnapshot_appends.
    rewrite H2, H1. reflexivity.
Qed.

Lemma saved_atMostOneMore (s : CycleSnapshot) (w0 w : World X) :
  cycleSnapshots (database w) = cycleSnapshots (database w0) ->
  atMostOneMore (cycleSnapshots (database w0))
                (cycleSnapshots (database (saveCycleSnapshot s w))).
Proof.
  intros H. rewrite saveCycleSnapshot_appends, H.
  destruct (dbOpen (database w)); [right; eexists; reflexivity | left; reflexivity].
Qed.

(** One external call of the cycle: the database is not touched. *)
Ltac outside_call w' r :=
  match goal with
  | |- context [call ?op ?w] =>
      let H := fresh "Hdb" in
      pose proof (call_database op w) as H;
      destruct (call op w) as [w' r]; cbn [fst] in H
  end.

(** The part of C2 that holds on every path: a cycle never writes a second
    snapshot. *)
Lemma RunCycle_at_most_one_snapshot (a : AVM) (w : World X) :
  atMostOneMore (cycleSnapshots (database w))
                (cycleSnapshots (database (RunCycle env a w))).
Proof.
  unfold RunCycle.
  outside_call w1 cycleStartTime.
  match goal with
  | |- context [getCycleNumber env ?w0] =>
      pose proof (getCycleNumber_snapshots w0) as Hcycle;
      destruct (getCycleNumber env w0) as [w2 cycleNumber]; cbn [fst] in Hcycle
  end.
  assert (Hkeep : forall w' : World X,
             database w' = database w2 ->
             cycleSnapshots (database w') = cycleSnapshots (database w))
    by (intros w' Hw'; congruence).
  clear Hcycle Hdb.
  outside_call w3 r3. destruct r3 as [supportedTokens|?];
    [|left; apply Hkeep; assumption].
  outside_call w4 r4. destruct r4 as [pools|?];
    [|left; apply Hkeep; congruence].
  outside_call w5 r5. destruct r5 as [tokenDataMap|?];
    [|left; apply Hkeep; congruence].
  outside_call w6 r6. destruct r6 as [currentPositions|?];
    [|left; apply Hkeep; congruence].
  outside_call w7 r7. destruct r7 as [liquidUSDC|?];
    [|left; apply Hkeep; congruence].
  outside_call w8 r8. destruct r8 as [totalVaultValue|?];
    [|left; apply Hkeep; congruence].
  match goal with
  | |- context [database (match ?scored with Ok _ => _ | Err _ => _ end)] =>
      assert (Hhere : cycleSnapshots (database w8) = cycleSnapshots (database w))
        by (apply Hkeep; congruence);
      destruct scored as [scoredPools|?]; [|left; exact Hhere]
  end.
  destruct (Analyzer.SelectTopPools _ _ _) as [[selectedPoolIDs elysPoolID]|?];
    [|left; exact Hhere].
  destruct (Nat.eqb (List.length selectedPoolIDs) 0).
  { rewrite logEndOfCycleState_database. apply saved_atMostOneMore. exact Hhere. }
  destruct (Analyzer.DetermineTargetAllocations _ _ _ _) as [targetAllocations|?];
    [|left; exact Hhere].
  destruct (Planner.GenerateActionPlan _ _ _ _ _ _ _ _ _)
    as [[withdrawalActions depositActions]|?]; [|left; exact Hhere].
  destruct (Nat.eqb (List.length withdrawalActions) 0
            && Nat.eqb (List.length depositActions) 0).
  { rewrite logEndOfCycleState_database. apply saved_atMostOneMore. exact Hhere. }
  match goal with
  | |- context [executePhase env ?m ?acts ?s ?g ?tv ?l ?cp ?pm ?w0] =>
      pose proof (executePhase_snapshots m acts s g tv l cp pm w0) as Hphase1;
      destruct (executePhase env m acts s g tv l cp pm w0) as [w9 [s1 gas1|]]
  end.
  2:{ rewrite Hphase1, Hhere.
      destruct (dbOpen (database w8));
        [right; eexists; reflexivity | left; reflexivity]. }
  match goal with
  | |- context [executePhase env ?m ?acts ?s ?g ?tv ?l ?cp ?pm ?w0] =>
      pose proof (executePhase_snapshots m acts s g tv l cp pm w0) as Hphase2;
      destruct (executePhase env m acts s g tv l cp pm w0) as [w10 [s2 gas2|]]
  end.
  2:{ rewrite Hphase2, Hphase1, Hhere.
      destruct (dbOpen (database w8));
        [right; eexists; reflexivity | left; reflexivity]. }
  outside_call w11 r11. outside_call w12 r12. outside_call w13 r13.
  match goal with
  | |- context [call (timeNow env) (saveCycleSnapshot ?s ?w0)] =>
      pose proof (call_database (timeNow env) (saveCycleSnapshot s w0)) as Hlast;
      destruct (call (timeNow env) (saveCycleSnapshot s w0)) as [wlast tlast];
      cbn [fst] in Hlast
  end.
  rewrite Hlast. apply saved_atMostOneMore. rewrite <- Hhere. congruence.
Qed.

(** The defect behind C2, on the first of the early returns: whenever the
    fetch of the tradable denominations fails, the cycle ends with the
    snapshot table as it found it. *)
Lemma RunCycle_fetch_failure_no_snapshot (a : AVM) (w : World X) :
  (forall x, exists e, snd (GetTradableDenoms env x) = Err e) ->
  cycleSnapshots (database (RunCycle env a w)) = cycleSnapshots (database w).
Proof.
  intros Hfail. unfold RunCycle.
  outside_call w1 cycleStartTime.
  match goal with
  | |- context [getCycleNumber env ?w0] =>
      pose proof (getCycleNumber_snapshots w0) as Hcycle;
      destruct (getCycleNumber env w0) as [w2 cycleNumber]; cbn [fst] in Hcycle
  end.
  unfold call at 1. destruct (Hfail (outside w2)) as [e He].
  destruct (GetTradableDenoms env (outside w2)) as [x r]. cbn in He. subst r.
  cbn. congruence.
Qed.

End Orchestrator.

Import Cycles.

(** C2, at the failing inputs.  When the first fetch of the cycle fails,
    and when the planner fails because the simulator does not answer (the
    vault state is known by then), the cycle is counted and ends without
    any snapshot in the database.  Only a failure of the execution itself
    leaves the snapshot the specification asks for. *)
Theorem RunCycle_aborts_without_snapshot :
  (snapshotsAfter (vaultEnv (Err (ErrMsg "rpc unavailable"))
                            Examples.flatSimulator txOk) = []
   /\ currentCycle (database
        (RunCycle (vaultEnv (Err (ErrMsg "rpc unavailable"))
                            Examples.flatSimulator txOk) avm world)) = 1)
  /\ (snapshotsAfter (vaultEnv denoms downSimulator txOk) = []
      /\ currentCycle (database
           (RunCycle (vaultEnv denoms downSimulator txOk) avm world)) = 1)
  /\ (exists s, snapshotsAfter (vaultEnv denoms Examples.flatSimulator txFailed) = [s]
                /\ abortedSnapshot s)
  /\ (exists s, snapshotsAfter (vaultEnv denoms Examples.flatSimulator txOk) = [s]).
Proof.
  split; [split; vm_compute; reflexivity|].
  split; [split; vm_compute; reflexivity|].
  split.
  - eexists. split; [vm_compute; reflexivity|].
    repeat split; vm_compute; reflexivity.
  - eexists. vm_compute. reflexivity.
Qed.

End CycleFacts.

(** ** The conversions, as their callers rely on them *)

Module ConversionFacts.

Lemma round_half_even_monotone (q q' : Q) :
  (q <= q')%Q -> round_half_even q <= round_half_even q'.
Proof.
  intros Hle.
  destruct (Z_le_gt_dec (round_half_even q) (round_half_even q')) as [H | H];
    [exact H | exfalso].
  pose proof (round_half_even_close q) as C.
  pose proof (round_half_even_close q') as C'.
  apply Qabs_Qle_condition in C. apply Qabs_Qle_condition in C'.
  destruct C as [C1 C2]. destruct C' as [C1' C2'].
  assert (G : (inject_Z (round_half_even q') + 1 <= inject_Z (round_half_even q))%Q).
  { rewrite <- (inject_Z_plus _ 1). rewrite <- Zle_Qle. lia. }
  assert (E : (q == q')%Q) by (apply Qle_antisym; [exact Hle | lra]).
  apply round_half_even_comp in E. lia.
Qed.

Lemma BitLen_bound (n k : Z) :
  0 <= n -> 0 <= k -> LegacyDec.BitLen n <= k -> n < 2 ^ k.
Proof.
  intros Hn Hk H. unfold LegacyDec.BitLen in H.
  rewrite Z.abs_eq in H by exact Hn.
  apply Z.log2_up_le_pow2 in H; lia.
Qed.

(** X2.  [Float64ToSDKInt] rounds to the nearest base unit: a result [n] is
    an [Int] in range (0 <= n < 2^256) at most half a base unit away from
    [amount * 10^precision]; the amount was not negative and the precision
    lies between 0 and 18. *)
Theorem Float64ToSDKInt_rounds_to_nearest (x : Q) (p n : Z) :
  Float64ToSDKInt x p = Ok n ->
  0 <= p <= 18 /\ (0 <= x)%Q
  /\ 0 <= n < 2 ^ 256
  /\ (Qabs (inject_Z n - x * inject_Z (10 ^ p)) <= 1 # 2)%Q.
Proof.
  intros H. pose proof (Float64ToSDKInt_inv x p n H) as [Hp [Hx Hn]].
  split; [exact Hp | split; [exact Hx | ]].
  assert (Hn0 : 0 <= n).
  { rewrite <- Hn. apply round_half_even_nonneg.
    apply Qmult_le_0_compat; [exact Hx | ].
    apply Qlt_le_weak, pow10_Qpos; lia. }
  split.
  - split; [exact Hn0 | ].
    destruct (Qeqb x 0) eqn:Hz.
    + apply Qeqb_true in Hz.
      assert (E : (x * inject_Z (10 ^ p) == inject_Z 0)%Q) by (rewrite Hz; ring).
      apply round_half_even_comp in E. rewrite round_half_even_inject in E.
      rewrite <- Hn, E. reflexivity.
    + rewrite (Float64ToSDKInt_steps x p Hx Hp Hz) in H. cbv zeta in H.
      rewrite Hn in H.
      destruct (LegacyDec.BitLen (n * 10 ^ (18 - p)) >? LegacyDec.maxDecBitLen);
        [discriminate | ].
      destruct (LegacyDec.BitLen (n * LegacyDec.precisionReuse)
                >? LegacyDec.maxDecBitLen); [discriminate | ].
      destruct (LegacyDec.BitLen n >? LegacyDec.MaxBitLen) eqn:Hb; [discriminate | ].
      apply (BitLen_bound n 256); [exact Hn0 | lia | ].
      unfold LegacyDec.MaxBitLen in Hb. lia.
  - rewrite <- Hn. apply round_half_even_close.
Qed.

Lemma Float64ToSDKInt_rounds_to_nearest_witness :
  Float64ToSDKInt (1234567 # 1000000) 3 = Ok 1235
  /\ (Qabs (inject_Z 1235 - (1234567 # 1000000) * inject_Z (10 ^ 3)) <= 1 # 2)%Q.
Proof.
  assert (H : Float64ToSDKInt (1234567 # 1000000) 3 = Ok 1235)
    by (vm_compute; reflexivity).
  split; [exact H | ].
  exact (proj2 (proj2 (proj2
           (Float64ToSDKInt_rounds_to_nearest (1234567 # 1000000) 3 1235 H)))).
Defined.

(** X3.  [Float64ToSDKInt] is monotone: at one precision a larger amount
    never converts to a smaller integer. *)
Theorem Float64ToSDKInt_monotone (x y : Q) (p n m : Z) :
  (x <= y)%Q ->
  Float64ToSDKInt x p = Ok n -> Float64ToSDKInt y p = Ok m ->
  n <= m.
Proof.
  intros Hxy Hx Hy.
  apply Float64ToSDKInt_inv in Hx. destruct Hx as [Hp [_ Hn]].
  apply Float64ToSDKInt_inv in Hy. destruct Hy as [_ [_ Hm]].
  rewrite <- Hn, <- Hm. apply round_half_even_monotone.
  apply Qmult_le_compat_r; [exact Hxy | ].
  apply Qlt_le_weak, pow10_Qpos; lia.
Qed.

Lemma Float64ToSDKInt_monotone_witness :
  Float64ToSDKInt (12344 # 10000) 3 = Ok 1234
  /\ Float64ToSDKInt (1234567 # 1000000) 3 = Ok 1235
  /\ 1234 <= 1235.
Proof.
  assert (Hx : Float64ToSDKInt (12344 # 10000) 3 = Ok 1234)
    by (vm_compute; reflexivity).
  assert (Hy : Float64ToSDKInt (1234567 # 1000000) 3 = Ok 1235)
    by (vm_compute; reflexivity).
  split; [exact Hx | split; [exact Hy | ]].
  apply (Float64ToSDKInt_monotone (12344 # 10000) (1234567 # 1000000) 3 1234 1235);
    [vm_compute; discriminate | exact Hx | exact Hy].
Defined.

End ConversionFacts.

(** ** The message builder *)

Module WalletFacts.
Import Wallet.

Lemma mapM_Forall2 {A B : Type} (f : A -> result B) (l : list A) (out : list B) :
  mapM f l = Ok out -> Forall2 (fun a b => f a = Ok b) l out.
Proof.
  revert out. induction l as [|a rest IH]; intros out H.
  - simpl in H. injection H as <-. constructor.
  - simpl in H. apply bind_Ok in H. destruct H as [y [Hy H]].
    apply bind_Ok in H. destruct H as [ys [Hys H]]. injection H as <-.
    constructor; [exact Hy | apply IH; exact Hys].
Qed.

Lemma mapM_fails {A B : Type} (f : A -> result B) (l : list A) (a : A) :
  In a l -> is_ok (f a) = false -> is_ok (mapM f l) = false.
Proof.
  intros Hin Ha. induction l as [|x rest IH]; [contradiction | ].
  simpl. destruct (f x) as [y | e] eqn:Hx; [ | reflexivity].
  destruct Hin as [-> | Hin].
  - rewrite Hx in Ha. discriminate.
  - specialize (IH Hin). cbn [bind].
    destruct (mapM f rest); [discriminate | reflexivity].
Qed.

Lemma forM_Forall {A : Type} (f : A -> result unit) (l : list A) (u : unit) :
  forM_ f l = Ok u -> Forall (fun a => f a = Ok tt) l.
Proof.
  induction l as [|a rest IH]; intros H; [constructor | ].
  simpl in H. apply bind_Ok in H. destruct H as [[] [Ha H]].
  constructor; [exact Ha | apply IH; exact H].
Qed.

Lemma Forall_forM {A : Type} (f : A -> result unit) (l : list A) :
  Forall (fun a => f a = Ok tt) l -> forM_ f l = Ok tt.
Proof.
  induction 1 as [|a rest Ha _ IH]; [reflexivity | ].
  simpl. rewrite Ha. exact IH.
Qed.

(** What a message carries of the action it was built from. *)
Lemma subActionToMessage_fields (creator : string) (vaultID : N)
      (subAction : SubAction) (msg : Msg) :
  subActionToMessage creator vaultID subAction = Ok msg ->
  match msg with
  | MsgPerformActionSwapByDenom c v amount denomIn denomOut minAmount maxAmount =>
      Type_ subAction = SubActionSwap /\ c = creator /\ v = vaultID
      /\ amount = TokenIn subAction /\ denomIn = Denom (TokenIn subAction)
      /\ denomOut = TokenOutDenom subAction
      /\ Denom minAmount = TokenOutDenom subAction
      /\ maxAmount = mkCoin (TokenOutDenom subAction) (10 ^ 18)
  | MsgPerformActionJoinPool c v poolId maxAmountsIn _ =>
      Type_ subAction = SubActionDepositLP /\ c = creator /\ v = vaultID
      /\ poolId = PoolIDToDeposit subAction
      /\ maxAmountsIn = AmountsToDeposit subAction
  | MsgPerformActionExitPool c v poolId _ shareAmountIn tokenOutDenom =>
      Type_ subAction = SubActionWithdrawLP /\ c = creator /\ v = vaultID
      /\ poolId = PoolIDToWithdraw subAction
      /\ shareAmountIn = LPSharesToWithdraw subAction
      /\ tokenOutDenom = TargetDenomOnExit subAction
  end.
Proof.
  unfold subActionToMessage. intros H.
  apply bind_Ok in H. destruct H as [u [_ H]].
  destruct (Type_ subAction) eqn:T; try discriminate.
  - unfold createSwapMessage in H. peel H. injection H as <-.
    repeat split; reflexivity.
  - unfold createDepositLPMessage in H. peel H. injection H as <-.
    repeat split; reflexivity.
  - unfold createWithdrawLPMessage in H. peel H. injection H as <-.
    repeat split; reflexivity.
Qed.

(** X4.  A successful conversion gives one message per action, in the order
    of the actions; each message has the kind of its action and carries the
    creator, the vault ID and the action's own amounts, denominations, pool
    ID and shares.  The list of actions was not empty and the vault ID not
    zero. *)
Theorem SubActionsToMessages_one_message_per_action
        (creator : string) (subActions : list SubAction) (vaultID : N)
        (messages : list Msg) :
  SubActionsToMessages creator subActions vaultID = Ok messages ->
  subActions <> [] /\ vaultID <> 0%N
  /\ Forall2
       (fun subAction msg =>
          match msg with
          | MsgPerformActionSwapByDenom c v amount denomIn denomOut
                                        minAmount maxAmount =>
              Type_ subAction = SubActionSwap /\ c = creator /\ v = vaultID
              /\ amount = TokenIn subAction
              /\ denomIn = Denom (TokenIn subAction)
              /\ denomOut = TokenOutDenom subAction
              /\ Denom minAmount = TokenOutDenom subAction
              /\ maxAmount = mkCoin (TokenOutDenom subAction) (10 ^ 18)
          | MsgPerformActionJoinPool c v poolId maxAmountsIn _ =>
              Type_ subAction = SubActionDepositLP /\ c = creator /\ v = vaultID
              /\ poolId = PoolIDToDeposit subAction
              /\ maxAmountsIn = AmountsToDeposit subAction
          | MsgPerformActionExitPool c v poolId _ shareAmountIn tokenOutDenom =>
              Type_ subAction = SubActionWithdrawLP /\ c = creator /\ v = vaultID
              /\ poolId = PoolIDToWithdraw subAction
              /\ shareAmountIn = LPSharesToWithdraw subAction
              /\ tokenOutDenom = TargetDenomOnExit subAction
          end)
       subActions messages.
Proof.
  unfold SubActionsToMessages. intros H.
  apply bind_Ok in H. destruct H as [? [G1 H]]. apply guard_Ok in G1.
  apply bind_Ok in H. destruct H as [? [G2 H]]. apply guard_Ok in G2.
  apply bind_Ok in H. destruct H as [msgs [Hm H]].
  apply bind_Ok in H. destruct H as [? [_ H]]. injection H as <-.
  split; [ | split].
  - intros ->. discriminate.
  - intros ->. discriminate.
  - apply mapM_Forall2 in Hm.
    eapply Forall2_impl; [ | exact Hm].
    intros a m Ham. exact (subActionToMessage_fields creator vaultID a m Ham).
Qed.

Lemma SubActionsToMessages_one_message_per_action_witness :
  SubActionsToMessages "elys1vault" [Examples.usdcSwap 100 (3 # 100)] 1%N
  = Ok [MsgPerformActionSwapByDenom "elys1vault" 1%N (mkCoin "uatom" 1000)
          "uatom" "uusdc" (mkCoin "uusdc" 96) (mkCoin "uusdc" (10 ^ 18))]
  /\ [Examples.usdcSwap 100 (3 # 100)] <> []
  /\ 1%N <> 0%N.
Proof.
  assert (H : SubActionsToMessages "elys1vault" [Examples.usdcSwap 100 (3 # 100)] 1%N
              = Ok [MsgPerformActionSwapByDenom "elys1vault" 1%N (mkCoin "uatom" 1000)
                      "uatom" "uusdc" (mkCoin "uusdc" 96) (mkCoin "uusdc" (10 ^ 18))])
    by (vm_compute; reflexivity).
  destruct (SubActionsToMessages_one_message_per_action _ _ _ _ H) as [H1 [H2 _]].
  split; [exact H | split; [exact H1 | exact H2]].
Defined.

(** The types the executor has no message for. *)
Lemma subActionToMessage_type (creator : string) (vaultID : N)
      (subAction : SubAction) :
  Type_ subAction <> SubActionSwap ->
  Type_ subAction <> SubActionDepositLP ->
  Type_ subAction <> SubActionWithdrawLP ->
  is_ok (subActionToMessage creator vaultID subAction) = false.
Proof.
  intros H1 H2 H3. unfold subActionToMessage, validateSubAction.
  destruct (Type_ subAction); try reflexivity; congruence.
Qed.

(** X5.  The conversion is all or nothing: if one action of the list cannot
    be turned into a message (it fails validation, or building its message
    fails), no message list is returned at all, whatever the other actions
    are.  An action of a type other than swap, deposit and withdraw (a no-op,
    an empty or an unknown type) is such an action. *)
Theorem SubActionsToMessages_all_or_nothing
        (creator : string) (subActions : list SubAction) (vaultID : N)
        (subAction : SubAction) :
  In subAction subActions ->
  is_ok (subActionToMessage creator vaultID subAction) = false
  \/ (Type_ subAction <> SubActionSwap /\ Type_ subAction <> SubActionDepositLP
      /\ Type_ subAction <> SubActionWithdrawLP) ->
  is_ok (SubActionsToMessages creator subActions vaultID) = false.
Proof.
  intros Hin Hbad.
  assert (Hf : is_ok (subActionToMessage creator vaultID subAction) = false).
  { destruct Hbad as [Hf | [H1 [H2 H3]]]; [exact Hf | ].
    apply subActionToMessage_type; assumption. }
  unfold SubActionsToMessages.
  destruct (guard (Nat.eqb (List.length subActions) 0) _); [ | reflexivity].
  cbn [bind].
  destruct (guard (vaultID =? 0)%N _); [ | reflexivity]. cbn [bind].
  pose proof (mapM_fails (subActionToMessage creator vaultID) subActions
                         subAction Hin Hf) as Hm.
  destruct (mapM (subActionToMessage creator vaultID) subActions);
    [discriminate | reflexivity].
Qed.

Lemma SubActionsToMessages_all_or_nothing_witness :
  is_ok (SubActionsToMessages "elys1vault"
           [Examples.usdcSwap 100 (3 # 100); zeroSubAction] 1%N) = false.
Proof.
  apply (SubActionsToMessages_all_or_nothing "elys1vault"
           [Examples.usdcSwap 100 (3 # 100); zeroSubAction] 1%N zeroSubAction).
  - simpl. right. left. reflexivity.
  - right. simpl. repeat split; discriminate.
Defined.

Lemma toleranceFactor18_le_1 (tol : Q) :
  (0 <= tol)%Q -> (toleranceFactor18 tol <= 1)%Q.
Proof.
  intros Ht. unfold toleranceFactor18.
  pose proof (pow10_Qpos 18 ltac:(lia)) as P.
  apply Qle_shift_div_r; [exact P | ]. rewrite Qmult_1_l.
  rewrite <- Zle_Qle. apply round_half_even_le.
  assert (Hf : (Float64Sub 1 tol <= 1)%Q)
    by (apply roundBinary64_le_1; lra).
  nra.
Qed.

Lemma minOut18_bounds (expected : Z) (tol : Q) :
  0 <= expected -> (0 <= tol)%Q ->
  1 <= minOut18 expected tol <= Z.max 1 expected.
Proof.
  intros He Ht. unfold minOut18. split; [lia | ].
  assert (Qfloor (inject_Z expected * toleranceFactor18 tol) <= expected); [ | lia].
  rewrite <- (Qfloor_Z expected) at 2. apply Qfloor_resp_le.
  pose proof (toleranceFactor18_le_1 tol Ht) as T.
  assert (0 <= inject_Z expected)%Q
    by (change 0%Q with (inject_Z 0); rewrite <- Zle_Qle; exact He).
  nra.
Qed.

Lemma swapOrDepositMinimum_bounds (expected : Z) (tol : Q) :
  0 <= expected ->
  1 <= swapOrDepositMinimum expected tol <= Z.max 1 expected.
Proof.
  intros He. unfold swapOrDepositMinimum.
  destruct (expected =? 0); simpl; [lia | ].
  destruct (Qleb tol 0) eqn:Ht; [lia | ].
  apply Qleb_false in Ht. apply minOut18_bounds; [exact He | lra].
Qed.

(** X6.  The minimum a message asks for is never zero and never more than
    the expected output: at least 1 and at most [max 1 expected] for a swap
    (minimum amount out) and for a deposit (minimum shares out); for a
    withdrawal one coin per expected coin, of the same denomination, between
    1 and the expected amount.  A withdrawal without expected amounts asks
    for 1 unit of the target denomination, or for nothing if there is none. *)
Theorem minimum_outputs_bounded
        (creator : string) (vaultID : N) (subAction : SubAction) (msg : Msg) :
  subActionToMessage creator vaultID subAction = Ok msg ->
  match msg with
  | MsgPerformActionSwapByDenom _ _ _ _ _ minAmount _ =>
      1 <= Amount minAmount <= Z.max 1 (ExpectedTokenOut subAction)
  | MsgPerformActionJoinPool _ _ _ _ shareAmountOut =>
      1 <= shareAmountOut <= Z.max 1 (ExpectedSharesOut subAction)
  | MsgPerformActionExitPool _ _ _ minAmountsOut _ _ =>
      match ExpectedAmountsOut subAction with
      | [] =>
          minAmountsOut
          = if is_empty (TargetDenomOnExit subAction) then []
            else [mkCoin (TargetDenomOnExit subAction) 1]
      | _ :: _ =>
          Forall2 (fun minCoin expectedCoin =>
                     Denom minCoin = Denom expectedCoin
                     /\ 1 <= Amount minCoin <= Amount expectedCoin)
                  minAmountsOut (ExpectedAmountsOut subAction)
      end
  end.
Proof.
  unfold subActionToMessage. intros H.
  apply bind_Ok in H. destruct H as [u [Hv H]].
  unfold validateSubAction in Hv.
  destruct (Type_ subAction); try discriminate.
  - unfold validateSwapAction in Hv. peel Hv.
    match goal with
    | G : guard (ExpectedTokenOut _ <? 0) _ = Ok _ |- _ =>
        apply guard_Ok in G; rename G into Hexp
    end.
    unfold createSwapMessage in H. peel H. injection H as <-.
    match goal with
    | G : calculateMinimumSwapAmount _ = Ok _ |- _ =>
        apply calculateMinimum_Ok in G; [ | lia]; cbn [Amount]; rewrite G
    end.
    apply swapOrDepositMinimum_bounds. lia.
  - unfold validateDepositAction in Hv. peel Hv.
    match goal with
    | G : guard (ExpectedSharesOut _ <? 0) _ = Ok _ |- _ =>
        apply guard_Ok in G; rename G into Hexp
    end.
    unfold createDepositLPMessage in H. peel H. injection H as <-.
    match goal with
    | G : calculateMinimumShares _ = Ok _ |- _ =>
        apply calculateMinimum_Ok in G; [ | lia]; rewrite G
    end.
    apply swapOrDepositMinimum_bounds. lia.
  - unfold createWithdrawLPMessage in H. peel H. injection H as <-.
    match goal with
    | G : calculateMinimumWithdrawAmounts _ = Ok _ |- _ => rename G into Hmin
    end.
    unfold calculateMinimumWithdrawAmounts in Hmin.
    destruct (ExpectedAmountsOut subAction) as [|c rest] eqn:E.
    + cbn [List.length Nat.eqb] in Hmin.
      destruct (is_empty (TargetDenomOnExit subAction)); simpl in Hmin;
        injection Hmin as <-; reflexivity.
    + cbn [List.length Nat.eqb] in Hmin.
      apply bind_Ok in Hmin. destruct Hmin as [? [Gt Hmin]]. apply guard_Ok in Gt.
      apply orb_false_iff in Gt. destruct Gt as [Gt0 Gt].
      apply Qltb_false in Gt0. apply Qltb_false in Gt.
      apply bind_Ok in Hmin. destruct Hmin as [? [_ Hmin]].
      apply mapM_minimumWithdrawCoin in Hmin; [ | assumption | assumption].
      rewrite Hmin.
      assert (Hall : Forall (fun coin => validateCoin coin = Ok tt) (c :: rest)).
      { unfold validateWithdrawAction in Hv. rewrite E in Hv.
        cbn [List.length Nat.ltb Nat.leb] in Hv. rewrite <- E in Hv. peel Hv.
        rewrite <- E. eapply forM_Forall. exact Hv. }
      clear - Hall Gt0.
      induction Hall as [|e es He _ IH]; [constructor | ].
      cbn [map]. constructor; [ | exact IH].
      cbn [Denom Amount]. split; [reflexivity | ].
      apply validateCoin_Ok in He. destruct He as [Ha _].
      pose proof (minOut18_bounds (Amount e) (SlippageTolerancePct subAction)
                                  ltac:(lia) Gt0). lia.
Qed.

Lemma minimum_outputs_bounded_witness :
  subActionToMessage "elys1vault" 1%N (Examples.usdcSwap 100 (3 # 100))
  = Ok (MsgPerformActionSwapByDenom "elys1vault" 1%N (mkCoin "uatom" 1000)
          "uatom" "uusdc" (mkCoin "uusdc" 96) (mkCoin "uusdc" 1000000000000000000))
  /\ 1 <= 96 <= Z.max 1 100.
Proof.
  assert (H : subActionToMessage "elys1vault" 1%N (Examples.usdcSwap 100 (3 # 100))
              = Ok (MsgPerformActionSwapByDenom "elys1vault" 1%N (mkCoin "uatom" 1000)
                      "uatom" "uusdc" (mkCoin "uusdc" 96)
                      (mkCoin "uusdc" 1000000000000000000)))
    by (vm_compute; reflexivity).
  split; [exact H | ].
  exact (minimum_outputs_bounded _ _ _ _ H).
Defined.

Lemma validateSubAction_vault (subAction : SubAction) (u : unit) :
  validateSubAction subAction = Ok u -> Vault.validateSubAction subAction = Ok tt.
Proof.
  unfold validateSubAction, Vault.validateSubAction. intros H.
  destruct (Type_ subAction); try discriminate.
  - unfold validateSwapAction in H. peel H.
    repeat match goal with
           | G : guard _ _ = Ok _ |- _ => apply guard_Ok in G
           end.
    match goal with
    | G1 : is_empty (Denom (TokenIn subAction)) = false,
      G2 : is_empty (TokenOutDenom subAction) = false |- _ => rewrite G1, G2
    end.
    reflexivity.
  - unfold validateDepositAction in H. apply bind_Ok in H.
    destruct H as [? [G _]]. apply guard_Ok in G. rewrite G. reflexivity.
  - unfold validateWithdrawAction in H. apply bind_Ok in H.
    destruct H as [? [G _]]. apply guard_Ok in G. rewrite G. reflexivity.
Qed.

(** X7.  The vault client's check of a plan is implied by the wallet's: with
    a usable client, every list of actions the wallet converts into messages
    passes [validateActionPlanInputs], so a plan refused by the vault client
    would have been refused by the wallet as well. *)
Theorem wallet_validation_implies_vault_check
        (creator : string) (subActions : list SubAction) (vaultID : N)
        (messages : list Msg) :
  SubActionsToMessages creator subActions vaultID = Ok messages ->
  Vault.validateActionPlanInputs (Ok tt) subActions = Ok tt.
Proof.
  unfold SubActionsToMessages, Vault.validateActionPlanInputs. intros H.
  apply bind_Ok in H. destruct H as [? [G1 H]]. apply guard_Ok in G1.
  apply bind_Ok in H. destruct H as [? [G2 H]].
  apply bind_Ok in H. destruct H as [msgs [Hm _]].
  rewrite G1. cbn [bind guard].
  apply Forall_forM. apply mapM_Forall2 in Hm.
  clear G1. induction Hm as [|a m rest ms Ham _ IH]; constructor; [ | exact IH].
  unfold subActionToMessage in Ham. apply bind_Ok in Ham.
  destruct Ham as [u [Hv _]]. exact (validateSubAction_vault a u Hv).
Qed.

Lemma wallet_validation_implies_vault_check_witness :
  Vault.validateActionPlanInputs (Ok tt) [Examples.usdcSwap 100 (3 # 100)] = Ok tt.
Proof.
  apply (wallet_validation_implies_vault_check "elys1vault"
           [Examples.usdcSwap 100 (3 # 100)] 1%N
           [MsgPerformActionSwapByDenom "elys1vault" 1%N (mkCoin "uatom" 1000)
              "uatom" "uusdc" (mkCoin "uusdc" 96)
              (mkCoin "uusdc" 1000000000000000000)]).
  vm_compute. reflexivity.
Defined.

End WalletFacts.

(** ** The plan *)

Module PlanFacts.
Import Planner PlanShape.

Lemma foldM_invariant {A S : Type} (body : S -> A -> result S) (I : S -> Prop)
      (l : list A) :
  (forall s a s', In a l -> I s -> body s a = Ok s' -> I s') ->
  forall s s', I s -> foldM body l s = Ok s' -> I s'.
Proof.
  induction l as [|a rest IH]; intros Hstep s s' Hs H.
  - simpl in H. injection H as <-. exact Hs.
  - simpl in H. apply bind_Ok in H. destruct H as [s1 [H1 H]].
    apply (IH (fun s a s' Hin => Hstep s a s' (or_intror Hin)) s1 s');
      [ | exact H].
    exact (Hstep s a s1 (or_introl eq_refl) Hs H1).
Qed.

Lemma add_id_In (ids : list PoolID) (id x : PoolID) :
  In x (add_id ids id) <-> In x ids \/ x = id.
Proof.
  induction ids as [|y rest IH]; simpl.
  - split; [intros [H | []]; right; congruence | intros [[] | H]; left; congruence].
  - destruct (N.eqb_spec y id) as [E | E]; simpl.
    + split; [tauto | ]. intros [H | H]; [exact H | left; congruence].
    + rewrite IH. tauto.
Qed.

Lemma add_id_NoDup (ids : list PoolID) (id : PoolID) :
  NoDup ids -> NoDup (add_id ids id).
Proof.
  induction ids as [|y rest IH]; intros H; simpl.
  - constructor; [intros [] | constructor].
  - destruct (N.eqb_spec y id) as [E | E]; [exact H | ].
    inversion H as [|? ? Hy Hrest]; subst. constructor; [ | apply IH; exact Hrest].
    rewrite add_id_In. intros [Hin | Heq]; [contradiction | congruence].
Qed.

Lemma fold_add_id (l init : list PoolID) :
  (NoDup init -> NoDup (fold_left add_id l init))
  /\ (forall x, In x (fold_left add_id l init) <-> In x init \/ In x l).
Proof.
  revert init. induction l as [|y rest IH]; intros init; simpl.
  - split; [tauto | ]. intros x. tauto.
  - destruct (IH (add_id init y)) as [IH1 IH2]. split.
    + intros H. apply IH1, add_id_NoDup, H.
    + intros x. rewrite IH2, add_id_In. intuition congruence.
Qed.

Lemma allPoolIDs_spec (currentPositions : list (Position Q))
      (targetAllocations : PoolMap Q) :
  NoDup (allPoolIDs currentPositions targetAllocations)
  /\ (forall x, In x (allPoolIDs currentPositions targetAllocations)
                <-> In x (map (@PosPoolID Q) currentPositions)
                    \/ In x (map fst targetAllocations)).
Proof.
  unfold allPoolIDs.
  destruct (fold_add_id (map (@PosPoolID Q) currentPositions) []) as [N1 I1].
  destruct (fold_add_id (map fst targetAllocations)
                        (fold_left add_id (map (@PosPoolID Q) currentPositions) []))
    as [N2 I2].
  split.
  - apply N2, N1. constructor.
  - intros x. rewrite I2, I1. simpl. tauto.
Qed.

(** One pool of [analyzeRequiredChanges]: nothing, a withdrawal with a
    negative delta, or a deposit with a positive one. *)
Lemma analyzePool_step
      (currentPositions : list (Position Q)) (targetAllocations : PoolMap Q)
      (totalVaultValueUSD : Q) (poolsData : PoolMap (Pool Q))
      (scoringParams : ScoringParameters Q)
      (ws ds ws' ds' : list ExtendedAction) (poolID : PoolID) :
  (0 <= RebalanceThresholdAmount scoringParams)%Q ->
  analyzePool currentPositions targetAllocations totalVaultValueUSD poolsData
              scoringParams (ws, ds) poolID = Ok (ws', ds') ->
  (ws' = ws /\ ds' = ds)
  \/ (exists a, ActionPoolID a = poolID /\ (DeltaUSD a < 0)%Q
                /\ ws' = ws ++ [a] /\ ds' = ds)
  \/ (exists a, ActionPoolID a = poolID /\ (0 < DeltaUSD a)%Q
                /\ ws' = ws /\ ds' = ds ++ [a]).
Proof.
  intros Hthr H. unfold analyzePool in H. cbv zeta in H.
  set (currentUSD := match findPosition currentPositions poolID with
                     | Some currentPos => EstimatedValue currentPos
                     | None => 0%Q
                     end) in *.
  set (targetUSD := (totalVaultValueUSD
                     * match pool_get targetAllocations poolID with
                       | Some a => a
                       | None => 0
                       end)%Q) in *.
  cbn [IsNaN IsInf orb guard bind] in H.
  set (pct := if Qltb 0 targetUSD then ((targetUSD - currentUSD) / targetUSD * 100)%Q
              else if Qltb 0 currentUSD then (- (100))%Q else 0%Q) in *.
  assert (Hneg : (pct < 0)%Q -> (targetUSD - currentUSD < 0)%Q).
  { subst pct. destruct (Qltb 0 targetUSD) eqn:Ht.
    - apply Qltb_true in Ht. intros Hp.
      destruct (Qlt_le_dec (targetUSD - currentUSD) 0) as [L | L]; [exact L | exfalso].
      assert (0 <= (targetUSD - currentUSD) / targetUSD)%Q.
      { apply Qle_shift_div_l; [exact Ht | ]. rewrite Qmult_0_l. exact L. }
      lra.
    - apply Qltb_false in Ht. destruct (Qltb 0 currentUSD) eqn:Hc.
      + apply Qltb_true in Hc. intros _. lra.
      + intros Hp. lra. }
  assert (Hpos : (0 < pct)%Q -> (0 < targetUSD - currentUSD)%Q).
  { subst pct. destruct (Qltb 0 targetUSD) eqn:Ht.
    - apply Qltb_true in Ht. intros Hp.
      destruct (Qlt_le_dec 0 (targetUSD - currentUSD)) as [L | L]; [exact L | exfalso].
      assert ((targetUSD - currentUSD) / targetUSD <= 0)%Q.
      { apply Qle_shift_div_r; [exact Ht | ]. rewrite Qmult_0_l. exact L. }
      lra.
    - destruct (Qltb 0 currentUSD); intros Hp; lra. }
  destruct (Qltb pct (- RebalanceThresholdAmount scoringParams)) eqn:Hw.
  - apply Qltb_true in Hw. apply bind_Ok in H. destruct H as [shares [_ H]].
    injection H as <- <-. right. left.
    exists (mkExtendedAction poolID (targetUSD - currentUSD)%Q shares).
    split; [reflexivity | split; [ | split; reflexivity]].
    cbn [DeltaUSD]. apply Hneg. lra.
  - destruct (Qltb (RebalanceThresholdAmount scoringParams) pct) eqn:Hd.
    + apply Qltb_true in Hd. apply bind_Ok in H. destruct H as [shares [_ H]].
      injection H as <- <-. right. right.
      exists (mkExtendedAction poolID (targetUSD - currentUSD)%Q shares).
    split; [reflexivity | split; [ | split; reflexivity]].
      cbn [DeltaUSD]. apply Hpos. lra.
    + injection H as <- <-. left. split; reflexivity.
Qed.

Lemma analyze_loop
      (currentPositions : list (Position Q)) (targetAllocations : PoolMap Q)
      (totalVaultValueUSD : Q) (poolsData : PoolMap (Pool Q))
      (scoringParams : ScoringParameters Q) :
  (0 <= RebalanceThresholdAmount scoringParams)%Q ->
  forall (ids : list PoolID) (ws ds ws' ds' : list ExtendedAction),
    NoDup ids ->
    (forall x, In x (map ActionPoolID (ws ++ ds)) -> ~ In x ids) ->
    NoDup (map ActionPoolID (ws ++ ds)) ->
    Forall (fun w => (DeltaUSD w < 0)%Q) ws ->
    Forall (fun d => (0 < DeltaUSD d)%Q) ds ->
    foldM (analyzePool currentPositions targetAllocations totalVaultValueUSD
                       poolsData scoringParams) ids (ws, ds) = Ok (ws', ds') ->
    NoDup (map ActionPoolID (ws' ++ ds'))
    /\ Forall (fun w => (DeltaUSD w < 0)%Q) ws'
    /\ Forall (fun d => (0 < DeltaUSD d)%Q) ds'
    /\ (forall x, In x (map ActionPoolID (ws' ++ ds')) ->
                  In x (map ActionPoolID (ws ++ ds)) \/ In x ids).
Proof.
  intros Hthr. induction ids as [|id rest IH];
    intros ws ds ws' ds' Hnd Hfresh Hids Hw Hd H.
  - simpl in H. injection H as <- <-. repeat split; try assumption.
    intros x Hx. left. exact Hx.
  - simpl in H. apply bind_Ok in H. destruct H as [[ws1 ds1] [H1 H]].
    inversion Hnd as [|? ? Hid Hrest]; subst.
    assert (Hidfresh : ~ In id (map ActionPoolID (ws ++ ds))).
    { intros Hin. apply (Hfresh id Hin). left. reflexivity. }
    apply (analyzePool_step _ _ _ _ _ _ _ _ _ _ Hthr) in H1.
    assert (Hperm : forall a, ActionPoolID a = id ->
                (ws1 = ws ++ [a] /\ ds1 = ds) \/ (ws1 = ws /\ ds1 = ds ++ [a]) ->
                Permutation (map ActionPoolID (ws1 ++ ds1))
                            (id :: map ActionPoolID (ws ++ ds))).
    { intros a Ha [[-> ->] | [-> ->]]; rewrite <- Ha.
      - rewrite <- app_assoc. simpl. rewrite !map_app. simpl.
        symmetry. apply Permutation_middle.
      - rewrite app_assoc. rewrite map_app. simpl.
        apply Permutation_sym, Permutation_cons_append. }
    assert (Hnext :
              NoDup (map ActionPoolID (ws1 ++ ds1))
              /\ Forall (fun w => (DeltaUSD w < 0)%Q) ws1
              /\ Forall (fun d => (0 < DeltaUSD d)%Q) ds1
              /\ (forall x, In x (map ActionPoolID (ws1 ++ ds1)) ->
                            In x (map ActionPoolID (ws ++ ds)) \/ x = id)).
    { destruct H1 as [[-> ->] | [[a [Ha [Hneg [-> ->]]]] | [a [Ha [Hpos [-> ->]]]]]].
      - repeat split; try assumption. intros x Hx. left. exact Hx.
      - pose proof (Hperm a Ha (or_introl (conj eq_refl eq_refl))) as P.
        repeat split.
        + eapply Permutation_NoDup; [apply Permutation_sym, P | ].
          constructor; assumption.
        + apply Forall_app. split; [exact Hw | constructor; [exact Hneg | constructor]].
        + exact Hd.
        + intros x Hx. apply (Permutation_in _ P) in Hx.
          destruct Hx as [<- | Hx]; [right; reflexivity | left; exact Hx].
      - pose proof (Hperm a Ha (or_intror (conj eq_refl eq_refl))) as P.
        repeat split.
        + eapply Permutation_NoDup; [apply Permutation_sym, P | ].
          constructor; assumption.
        + exact Hw.
        + apply Forall_app. split; [exact Hd | constructor; [exact Hpos | constructor]].
        + intros x Hx. apply (Permutation_in _ P) in Hx.
          destruct Hx as [<- | Hx]; [right; reflexivity | left; exact Hx]. }
    destruct Hnext as [N1 [W1 [D1 I1]]].
    destruct (IH ws1 ds1 ws' ds' Hrest) as [N' [W' [D' I']]]; try assumption.
    + intros x Hx Hin. destruct (I1 x Hx) as [Hold | ->].
      * apply (Hfresh x Hold). right. exact Hin.
      * contradiction.
    + repeat split; try assumption.
      intros x Hx. destruct (I' x Hx) as [Hx1 | Hx1].
      * destruct (I1 x Hx1) as [Hold | ->]; [left; exact Hold | right; left; reflexivity].
      * right. right. exact Hx1.
Qed.

(** X8.  What [analyzeRequiredChanges] returns, for a threshold that is not
    negative: every withdrawal has a negative delta and every deposit a
    positive one; no pool appears twice in the two lists together (so no pool
    is both withdrawn from and deposited into); and every pool named is one
    of the current positions or of the target allocations. *)
Theorem analyzeRequiredChanges_signs
        (currentPositions : list (Position Q)) (targetAllocations : PoolMap Q)
        (totalVaultValueUSD : Q) (poolsData : PoolMap (Pool Q))
        (scoringParams : ScoringParameters Q)
        (withdrawals deposits : list ExtendedAction) :
  (0 <= RebalanceThresholdAmount scoringParams)%Q ->
  analyzeRequiredChanges currentPositions targetAllocations totalVaultValueUSD
                         poolsData scoringParams = Ok (withdrawals, deposits) ->
  Forall (fun w => (DeltaUSD w < 0)%Q) withdrawals
  /\ Forall (fun d => (0 < DeltaUSD d)%Q) deposits
  /\ NoDup (map ActionPoolID (withdrawals ++ deposits))
  /\ (forall poolID, In poolID (map ActionPoolID (withdrawals ++ deposits)) ->
                     In poolID (map (@PosPoolID Q) currentPositions)
                     \/ In poolID (map fst targetAllocations)).
Proof.
  intros Hthr H. unfold analyzeRequiredChanges in H.
  destruct (allPoolIDs_spec currentPositions targetAllocations) as [Hnd Hin].
  destruct (analyze_loop currentPositions targetAllocations totalVaultValueUSD
                         poolsData scoringParams Hthr _ [] [] withdrawals deposits
                         Hnd) as [N [W [D I]]]; try exact H.
  - intros x [].
  - constructor.
  - constructor.
  - constructor.
  - repeat split; try assumption.
    intros poolID Hp. destruct (I poolID Hp) as [[] | Hp']. apply Hin, Hp'.
Qed.

Lemma analyzeRequiredChanges_signs_witness :
  exists withdrawals deposits,
    analyzeRequiredChanges Examples.positionsInPool1 Examples.allIntoPool2 1000
                           Examples.twoPools Examples.parameters
    = Ok (withdrawals, deposits)
    /\ Forall (fun w => (DeltaUSD w < 0)%Q) withdrawals
    /\ Forall (fun d => (0 < DeltaUSD d)%Q) deposits
    /\ NoDup (map ActionPoolID (withdrawals ++ deposits)).
Proof.
  destruct (analyzeRequiredChanges Examples.positionsInPool1 Examples.allIntoPool2
              1000 Examples.twoPools Examples.parameters)
    as [[withdrawals deposits] | e] eqn:H; [ | vm_compute in H; discriminate].
  exists withdrawals, deposits. split; [reflexivity | ].
  assert (Hthr : (0 <= RebalanceThresholdAmount Examples.parameters)%Q)
    by (vm_compute; discriminate).
  destruct (analyzeRequiredChanges_signs _ _ _ _ _ _ _ Hthr H) as [W [D [N _]]].
  repeat split; assumption.
Defined.


Lemma validateInputs_Ok
      (currentPositions : list (Position Q)) (initialLiquidUSDC : Q)
      (targetAllocations : PoolMap Q) (totalVaultValueUSD : Q)
      (poolsData : PoolMap (Pool Q)) (tokenDataMap : StringMap (Token Q))
      (scoringParams : ScoringParameters Q) (rpcEndpoint : string) (u : unit) :
  validateInputs currentPositions initialLiquidUSDC targetAllocations
                 totalVaultValueUSD poolsData tokenDataMap scoringParams
                 rpcEndpoint = Ok u ->
  (0 <= initialLiquidUSDC)%Q
  /\ Forall (fun pos => validatePosition pos = Ok tt) currentPositions
  /\ validateScoringParams scoringParams = Ok tt.
Proof.
  unfold validateInputs. intros H. peel H.
  repeat match goal with
         | G : guard _ _ = Ok _ |- _ => apply guard_Ok in G
         end.
  split; [ | split].
  - match goal with
    | G : Qltb initialLiquidUSDC 0 = false |- _ => apply Qltb_false in G; exact G
    end.
  - match goal with
    | G : Wallet.forM_ validatePosition _ = Ok _ |- _ =>
        exact (WalletFacts.forM_Forall _ _ _ G)
    end.
  - destruct (validateScoringParams scoringParams) as [[] | e];
      [reflexivity | discriminate].
Qed.

Lemma slippage_limits (scoringParams : ScoringParameters Q) :
  validateScoringParams scoringParams = Ok tt ->
  ((0 <= SmartShieldSlippagePercent scoringParams / 100)%Q
   /\ (SmartShieldSlippagePercent scoringParams / 100 <= 1)%Q)
  /\ ((0 <= NormalPoolSlippagePercent scoringParams / 100)%Q
      /\ (NormalPoolSlippagePercent scoringParams / 100 <= 1)%Q).
Proof.
  unfold validateScoringParams. intros H. peel H.
  repeat match goal with
         | G : guard _ _ = Ok _ |- _ => apply guard_Ok in G
         end.
  repeat match goal with
         | G : (_ || _) = false |- _ => apply orb_false_iff in G; destruct G
         end.
  repeat match goal with
         | G : Qltb _ _ = false |- _ => apply Qltb_false in G
         | G : Qleb _ _ = false |- _ => apply Qleb_false in G
         end.
  repeat split;
    (apply Qle_shift_div_l; [reflexivity | lra])
    || (apply Qle_shift_div_r; [reflexivity | lra]).
Qed.

Lemma getSlippageLimit_range (pool : Pool Q) (scoringParams : ScoringParameters Q) :
  validateScoringParams scoringParams = Ok tt ->
  (0 <= getSlippageLimit pool scoringParams)%Q
  /\ (getSlippageLimit pool scoringParams <= 1)%Q.
Proof.
  intros H. destruct (slippage_limits scoringParams H) as [S N].
  unfold getSlippageLimit. destruct (IsSmartShielded pool); assumption.
Qed.

Lemma findPosition_Some (positions : list (Position Q)) (poolID : PoolID)
      (pos : Position Q) :
  findPosition positions poolID = Some pos ->
  In pos positions /\ PosPoolID pos = poolID.
Proof.
  induction positions as [|p rest IH]; simpl; [discriminate | ].
  destruct (N.eqb_spec (PosPoolID p) poolID) as [E | E].
  - intros H. injection H as <-. split; [left; reflexivity | exact E].
  - intros H. destruct (IH H) as [Hin Hid]. split; [right; exact Hin | exact Hid].
Qed.

Lemma pool_get_Some_In {V : Type} (m : PoolMap V) (k : PoolID) (v : V) :
  pool_get m k = Some v -> In k (map fst m).
Proof.
  unfold pool_get. induction m as [|[k' v'] rest IH]; simpl; [discriminate | ].
  destruct (N.eqb_spec k' k) as [E | E].
  - intros _. left. exact E.
  - intros H. right. exact (IH H).
Qed.

Lemma SDKIntToFloat64_nonneg (n p : Z) (y : Q) :
  SDKIntToFloat64 n p = Ok y -> (0 <= y)%Q.
Proof.
  intros H.
  assert (Hr : 0 <= p <= 18 /\ 0 <= n).
  { unfold SDKIntToFloat64 in H.
    destruct ((p <? 0) || (p >? 18)) eqn:Hp; [discriminate | ].
    apply orb_false_iff in Hp. destruct Hp.
    destruct (n <? 0) eqn:Hn; [discriminate | ]. lia. }
  destruct Hr as [Hp Hn].
  destruct (SDKIntToFloat64_value n p Hn Hp) as [y' [Hy' E]].
  rewrite Hy' in H. injection H as <-. rewrite E.
  apply Qle_shift_div_l; [apply pow10_Qpos; lia | ].
  rewrite Qmult_0_l. change 0%Q with (inject_Z 0). rewrite <- Zle_Qle. exact Hn.
Qed.

Lemma trackCoin_liquid (sim : Simulator) (rpcEndpoint : string)
      (usdcToken : Token Q) (coins : list Coin)
      (liquid liquid' : Q) (assets assets' : StringMap Z) :
  foldM (trackCoin usdcToken) coins (liquid, assets) = Ok (liquid', assets') ->
  (liquid <= liquid')%Q.
Proof.
  intros H.
  apply (foldM_invariant (trackCoin usdcToken)
           (fun st => (liquid <= fst st)%Q) coins) in H;
    [exact H | | simpl; lra].
  intros [l a] c [l' a'] _ Hl Hs. simpl in *. unfold trackCoin in Hs.
  destruct (String.eqb (Denom c) (IBCDenom usdcToken)).
  - destruct (SDKIntToFloat64 (Amount c) (TokenPrecision usdcToken)) as [y | e] eqn:Hy;
      [ | discriminate].
    injection Hs as <- <-. apply SDKIntToFloat64_nonneg in Hy. lra.
  - destruct (str_get a (Denom c)); injection Hs as <- <-; exact Hl.
Qed.

Lemma withdrawStep_shape (sim : Simulator) (rpcEndpoint : string)
      (currentPositions : list (Position Q)) (poolsData : PoolMap (Pool Q))
      (usdcToken : Token Q) (scoringParams : ScoringParameters Q)
      (actions actions' : list SubAction) (liquid liquid' : Q)
      (assets assets' : StringMap Z) (withdrawal : ExtendedAction) :
  Forall (fun pos => validatePosition pos = Ok tt) currentPositions ->
  validateScoringParams scoringParams = Ok tt ->
  withdrawStep sim rpcEndpoint currentPositions poolsData usdcToken scoringParams
               (actions, liquid, assets) withdrawal
  = Ok (actions', liquid', assets') ->
  (liquid <= liquid')%Q
  /\ (actions' = actions
      \/ exists action, actions' = actions ++ [action]
                        /\ withdrawalAction usdcToken currentPositions action).
Proof.
  intros Hpos Hparams H. unfold withdrawStep in H.
  destruct (findPosition currentPositions (ActionPoolID withdrawal))
    as [currentPos | ] eqn:Hfind;
    [ | injection H as <- <- <-; split; [lra | left; reflexivity]].
  destruct ((LPShares currentPos - TargetLPShares withdrawal =? 0)
            || (LPShares currentPos - TargetLPShares withdrawal <? 0)) eqn:Hs;
    [injection H as <- <- <-; split; [lra | left; reflexivity] | ].
  apply orb_false_iff in Hs. destruct Hs as [Hs1 Hs2].
  destruct (pool_get poolsData (ActionPoolID withdrawal)) as [poolInfo | ];
    [ | discriminate].
  destruct (SimulateLeavePool sim rpcEndpoint (ActionPoolID withdrawal)
              (LPShares currentPos - TargetLPShares withdrawal)
              (IBCDenom usdcToken)) as [exitEst | e]; [ | discriminate].
  apply bind_Ok in H. destruct H as [u [Hv H]].
  apply bind_Ok in H. destruct H as [[l a] [Ht H]].
  injection H as <- <- <-.
  split; [exact (trackCoin_liquid sim rpcEndpoint _ _ _ _ _ _ Ht) | right].
  eexists. split; [reflexivity | ].
  unfold validateExitEstimation in Hv. peel Hv.
  repeat match goal with
         | G : guard _ _ = Ok _ |- _ => apply guard_Ok in G
         end.
  destruct (findPosition_Some _ _ _ Hfind) as [Hin Hid].
  destruct (getSlippageLimit_range poolInfo scoringParams Hparams) as [L0 L1].
  unfold withdrawalAction. cbn.
  repeat split.
  - rewrite <- Hid. rewrite Forall_forall in Hpos. specialize (Hpos _ Hin).
    unfold validatePosition in Hpos. apply bind_Ok in Hpos.
    destruct Hpos as [? [Gid _]]. apply guard_Ok in Gid.
    apply N.eqb_neq. exact Gid.
  - rewrite <- Hid. apply in_map. exact Hin.
  - lia.
  - destruct (AmountsOut exitEst); [discriminate | intros E; discriminate E].
  - match goal with
    | G : Qltb (ExitSlippage exitEst) 0 = false |- _ => apply Qltb_false in G; exact G
    end.
  - exact L0.
  - exact L1.
Qed.

Lemma findViableSwapAmount_loop_Ok (sim : Simulator) (rpcEndpoint : string)
      (fromDenom toDenom : string) (maxSlippage reductionFactor : Q)
      (swapEst : SwapEstimationResult) (finalAmount : Z) :
  forall (retries : nat) (currentAmount : Z),
    findViableSwapAmount_loop sim rpcEndpoint retries currentAmount fromDenom
                              toDenom maxSlippage reductionFactor
    = Ok (swapEst, finalAmount) ->
    finalAmount <> 0
    /\ SimulateSwap sim rpcEndpoint finalAmount fromDenom toDenom = Ok swapEst
    /\ (SwapSlippage swapEst <= maxSlippage)%Q.
Proof.
  induction retries as [|retries IH]; intros currentAmount H; simpl in H;
    [discriminate | ].
  destruct (Z.eqb_spec currentAmount 0) as [E | E]; [discriminate | ].
  destruct (SimulateSwap sim rpcEndpoint currentAmount fromDenom toDenom)
    as [est | e] eqn:Hsim.
  - destruct (Qleb (SwapSlippage est) maxSlippage) eqn:Hsl.
    + injection H as <- <-. apply Qleb_true in Hsl. repeat split; assumption.
    + destruct (SDKIntToFloat64 currentAmount 18) as [f | ]; [ | discriminate].
      destruct (Float64ToSDKInt (f * reductionFactor) 18) as [reduced | [ ]];
        try discriminate.
      exact (IH reduced H).
  - destruct (SDKIntToFloat64 currentAmount 18) as [f | ]; [ | discriminate].
    destruct (Float64ToSDKInt (f * reductionFactor) 18) as [reduced | [ ]];
      try discriminate.
    exact (IH reduced H).
Qed.

Lemma consolidateStep_shape (sim : Simulator) (rpcEndpoint : string)
      (usdcToken : Token Q) (scoringParams : ScoringParameters Q)
      (actions actions' : list SubAction) (liquid liquid' : Q)
      (entry : string * Z) :
  validateScoringParams scoringParams = Ok tt ->
  consolidateStep sim rpcEndpoint usdcToken scoringParams (actions, liquid) entry
  = Ok (actions', liquid') ->
  (liquid <= liquid')%Q
  /\ (actions' = actions
      \/ exists action, actions' = actions ++ [action]
                        /\ consolidationAction usdcToken scoringParams action).
Proof.
  intros Hparams H. unfold consolidateStep in H. destruct entry as [denom amount].
  destruct (amount =? 0);
    [injection H as <- <-; split; [lra | left; reflexivity] | ].
  destruct (String.eqb_spec denom (IBCDenom usdcToken)) as [E | E]; [discriminate | ].
  destruct (findViableSwapAmount sim rpcEndpoint amount denom (IBCDenom usdcToken)
              (NormalPoolSlippagePercent scoringParams / 100)
              (ViableSwapReductionFactor scoringParams))
    as [[swapEst finalAmount] | e] eqn:Hswap.
  - destruct (Z.eqb_spec finalAmount 0) as [Z0 | Z0];
      [injection H as <- <-; split; [lra | left; reflexivity] | ].
    apply bind_Ok in H. destruct H as [usdcReceived [Hy H]]. injection H as <- <-.
    apply SDKIntToFloat64_nonneg in Hy. split; [lra | right].
    eexists. split; [reflexivity | ].
    unfold findViableSwapAmount in Hswap.
    apply findViableSwapAmount_loop_Ok in Hswap. destruct Hswap as [_ [_ Hsl]].
    destruct (slippage_limits scoringParams Hparams) as [_ [N0 N1]].
    unfold consolidationAction. cbn. repeat split; assumption.
  - destruct e; try (injection H as <- <-; split; [lra | left; reflexivity]).
    discriminate.
Qed.

Lemma findViableDepositAmount_slippage (sim : Simulator) (rpcEndpoint : string)
      (poolID : N) (amountsIn : Coin) (poolInfo : Pool Q)
      (scoringParams : ScoringParameters Q)
      (joinEst : JoinPoolEstimationResult) (finalAmount : Z) :
  findViableDepositAmount sim rpcEndpoint poolID amountsIn poolInfo scoringParams
  = Ok (joinEst, finalAmount) ->
  (JoinSlippage joinEst <= getSlippageLimit poolInfo scoringParams)%Q.
Proof.
  unfold findViableDepositAmount. intros H.
  destruct (SimulateJoinPool sim rpcEndpoint poolID [amountsIn]) as [est1 | e1].
  - destruct (Qleb (JoinSlippage est1) (getSlippageLimit poolInfo scoringParams))
      eqn:H1.
    + injection H as <- <-. apply Qleb_true in H1. exact H1.
    + destruct (SimulateJoinPool sim rpcEndpoint poolID _) as [est2 | e2];
        [ | discriminate].
      destruct (Qleb (JoinSlippage est2) (getSlippageLimit poolInfo scoringParams))
        eqn:H2; [ | discriminate].
      injection H as <- <-. apply Qleb_true in H2. exact H2.
  - destruct (SimulateJoinPool sim rpcEndpoint poolID _) as [est2 | e2];
      [ | discriminate].
    destruct (Qleb (JoinSlippage est2) (getSlippageLimit poolInfo scoringParams))
      eqn:H2; [ | discriminate].
    injection H as <- <-. apply Qleb_true in H2. exact H2.
Qed.

Lemma depositStep_shape (sim : Simulator) (rpcEndpoint : string)
      (poolsData : PoolMap (Pool Q)) (usdcToken : Token Q)
      (scoringParams : ScoringParameters Q)
      (actions actions' : list SubAction) (liquid liquid' : Q)
      (deposit : ExtendedAction) :
  validateScoringParams scoringParams = Ok tt ->
  depositStep sim rpcEndpoint poolsData usdcToken scoringParams
              (actions, liquid) deposit = Ok (actions', liquid') ->
  actions' = actions
  \/ exists action, actions' = actions ++ [action]
                    /\ depositAction usdcToken poolsData action.
Proof.
  intros Hparams H. unfold depositStep in H.
  destruct (pool_get poolsData (ActionPoolID deposit)) as [poolInfo | ] eqn:Hpool;
    [ | discriminate].
  destruct (Qleb (DeltaUSD deposit) 0); [injection H as <- <-; left; reflexivity | ].
  cbv zeta in H.
  match type of H with
  | (if ?c then _ else _) = _ =>
      destruct c; [injection H as <- <-; left; reflexivity | ]
  end.
  apply bind_Ok in H. destruct H as [usdcAmount [Hconv H]].
  apply Float64ToSDKInt_inv in Hconv. destruct Hconv as [Hp [Hx Hamt]].
  assert (Hnn : 0 <= usdcAmount).
  { rewrite <- Hamt. apply round_half_even_nonneg.
    apply Qmult_le_0_compat; [exact Hx | ].
    apply Qlt_le_weak, pow10_Qpos; lia. }
  destruct (findViableDepositAmount sim rpcEndpoint (ActionPoolID deposit)
              (mkCoin (IBCDenom usdcToken) usdcAmount) poolInfo scoringParams)
    as [[joinEst finalAmount] | e] eqn:Hviable;
    [ | injection H as <- <-; left; reflexivity].
  destruct (Z.eqb_spec finalAmount 0) as [Z0 | Z0];
    [injection H as <- <-; left; reflexivity | ].
  apply bind_Ok in H. destruct H as [usedUSDC [_ H]]. injection H as <- <-.
  right. eexists. split; [reflexivity | ].
  pose proof (findViableDepositAmount_slippage _ _ _ _ _ _ _ _ Hviable) as Hsl.
  pose proof (PlannerFacts.findViableDepositAmount_le sim rpcEndpoint scoringParams
                Hparams (ActionPoolID deposit)
                (mkCoin (IBCDenom usdcToken) usdcAmount) poolInfo joinEst
                finalAmount Hnn Hviable) as Hle.
  destruct (getSlippageLimit_range poolInfo scoringParams Hparams) as [L0 L1].
  unfold depositAction. cbn.
  split; [reflexivity | ].
  split; [exact (pool_get_Some_In _ _ _ Hpool) | ].
  split; [exists finalAmount; split; [reflexivity | cbn in Hle; lia] | ].
  repeat split; assumption.
Qed.

Lemma actions_loop {A S : Type} (body : list SubAction * S -> A -> result (list SubAction * S))
      (P : SubAction -> Prop) (l : list A) :
  (forall actions s a actions' s',
      body (actions, s) a = Ok (actions', s') ->
      actions' = actions \/ exists action, actions' = actions ++ [action] /\ P action) ->
  forall actions s actions' s',
    Forall P actions ->
    foldM body l (actions, s) = Ok (actions', s') -> Forall P actions'.
Proof.
  intros Hstep actions s actions' s' Hinit H.
  apply (foldM_invariant body (fun st => Forall P (fst st)) l) in H;
    [exact H | | exact Hinit].
  intros [acts st] a [acts' st'] _ HP Hb. simpl in *.
  destruct (Hstep _ _ _ _ _ Hb) as [-> | [action [-> Ha]]]; [exact HP | ].
  apply Forall_app. split; [exact HP | constructor; [exact Ha | constructor]].
Qed.

(** X9.  The shape of a plan.  The first list of [GenerateActionPlan] holds
    withdrawals followed by consolidation swaps, the second list holds
    deposits only.  A withdrawal takes a positive number of shares out of a
    pool of a current position into USDC; a swap turns a non-USDC asset into
    USDC with an expected slippage within the normal-pool limit; a deposit
    puts a positive amount of USDC, and nothing else, into a known pool with
    an expected slippage within the pool's limit.  Every tolerance lies
    between 0 and 1. *)
Theorem GenerateActionPlan_shape
        (sim : Simulator) (rpcEndpoint : string)
        (currentPositions : list (Position Q)) (initialLiquidUSDC : Q)
        (targetAllocations : PoolMap Q) (totalVaultValueUSD : Q)
        (poolsData : PoolMap (Pool Q)) (tokenDataMap : StringMap (Token Q))
        (scoringParams : ScoringParameters Q)
        (withdrawalPhase depositPhase : list SubAction) (usdcToken : Token Q) :
  GenerateActionPlan sim rpcEndpoint currentPositions initialLiquidUSDC
                     targetAllocations totalVaultValueUSD poolsData tokenDataMap
                     scoringParams = Ok (withdrawalPhase, depositPhase) ->
  findUSDC tokenDataMap = Some usdcToken ->
  (exists withdrawals swaps,
      withdrawalPhase = withdrawals ++ swaps
      /\ Forall (withdrawalAction usdcToken currentPositions) withdrawals
      /\ Forall (consolidationAction usdcToken scoringParams) swaps)
  /\ Forall (depositAction usdcToken poolsData) depositPhase.
Proof.
  intros H Husdc. unfold GenerateActionPlan in H.
  apply bind_Ok in H. destruct H as [u [Hv H]].
  apply validateInputs_Ok in Hv. destruct Hv as [_ [Hpos Hparams]].
  match type of H with
  | (if ?c then _ else _) = _ => destruct c
  end.
  { injection H as <- <-. split; [ | constructor].
    exists [], []. repeat split; constructor. }
  apply bind_Ok in H. destruct H as [usdc' [Hu H]].
  assert (usdc' = usdcToken).
  { unfold validateAndGetUSDCToken in Hu. rewrite Husdc in Hu. peel Hu.
    injection Hu as <-. reflexivity. }
  subst usdc'.
  apply bind_Ok in H. destruct H as [[hw hd] [_ H]].
  cbv beta iota in H.
  destruct (applyRebalancingLimits hw hd _ scoringParams) as [hw' hd'].
  apply bind_Ok in H. destruct H as [[[wa liquid1] assets] [Hw H]].
  cbv beta iota in H.
  apply bind_Ok in H. destruct H as [[ca liquid2] [Hc H]].
  cbv beta iota in H.
  apply bind_Ok in H. destruct H as [da [Hd H]]. injection H as <- <-.
  split.
  - exists wa, ca. split; [reflexivity | split].
    + unfold processWithdrawals in Hw.
      apply (foldM_invariant _
               (fun st => Forall (withdrawalAction usdcToken currentPositions)
                                 (fst (fst st)))) in Hw;
        [exact Hw | | constructor].
      intros [[acts l] a] w [[acts' l'] a'] _ HP Hb. simpl in *.
      destruct (withdrawStep_shape _ _ _ _ _ _ _ _ _ _ _ _ _ Hpos Hparams Hb)
        as [_ [-> | [action [-> Ha]]]]; [exact HP | ].
      apply Forall_app. split; [exact HP | constructor; [exact Ha | constructor]].
    + unfold processConsolidation in Hc.
      apply (actions_loop _ (consolidationAction usdcToken scoringParams))
        in Hc; [exact Hc | | constructor].
      intros acts s a acts' s' Hb.
      exact (proj2 (consolidateStep_shape _ _ _ _ _ _ _ _ _ Hparams Hb)).
  - unfold processDeposits in Hd.
    apply bind_Ok in Hd. destruct Hd as [[acts l] [Hd E]]. injection E as <-.
    apply (actions_loop _ (depositAction usdcToken poolsData)) in Hd;
      [exact Hd | | constructor].
    intros acts0 s a acts' s' Hb.
    exact (depositStep_shape _ _ _ _ _ _ _ _ _ _ Hparams Hb).
Qed.

Lemma GenerateActionPlan_shape_witness :
  exists withdrawalPhase depositPhase,
    GenerateActionPlan Examples.flatSimulator "http://node"
                       Examples.positionsInPool1 0 Examples.allIntoPool2 1000
                       Examples.twoPools Examples.tokens Examples.parameters
    = Ok (withdrawalPhase, depositPhase)
    /\ (exists withdrawals swaps,
           withdrawalPhase = withdrawals ++ swaps
           /\ Forall (withdrawalAction Examples.usdc Examples.positionsInPool1)
                     withdrawals
           /\ Forall (consolidationAction Examples.usdc Examples.parameters) swaps)
    /\ Forall (depositAction Examples.usdc Examples.twoPools) depositPhase.
Proof.
  destruct (GenerateActionPlan Examples.flatSimulator "http://node"
              Examples.positionsInPool1 0 Examples.allIntoPool2 1000
              Examples.twoPools Examples.tokens Examples.parameters)
    as [[withdrawalPhase depositPhase] | e] eqn:H; [ | vm_compute in H; discriminate].
  exists withdrawalPhase, depositPhase. split; [reflexivity | ].
  apply (GenerateActionPlan_shape _ _ _ _ _ _ _ _ _ _ _ Examples.usdc H).
  reflexivity.
Defined.

(** X10.  During the withdrawal phase the simulated liquid USDC never goes
    down: neither the withdrawals nor the consolidation swaps that follow
    them lower it. *)
Theorem withdrawal_phase_liquid_never_decreases
        (sim : Simulator) (rpcEndpoint : string)
        (withdrawals : list ExtendedAction)
        (currentPositions : list (Position Q)) (poolsData : PoolMap (Pool Q))
        (simulatedLiquidUSDC : Q) (usdcToken : Token Q)
        (scoringParams : ScoringParameters Q)
        (withdrawalActions consolidationActions : list SubAction)
        (newLiquidUSDC finalLiquidUSDC : Q) (tempNonUSDCAssets : StringMap Z) :
  processWithdrawals sim rpcEndpoint withdrawals currentPositions poolsData
                     simulatedLiquidUSDC usdcToken scoringParams
  = Ok (withdrawalActions, newLiquidUSDC, tempNonUSDCAssets) ->
  processConsolidation sim rpcEndpoint tempNonUSDCAssets newLiquidUSDC usdcToken
                       scoringParams
  = Ok (consolidationActions, finalLiquidUSDC) ->
  (simulatedLiquidUSDC <= newLiquidUSDC)%Q
  /\ (newLiquidUSDC <= finalLiquidUSDC)%Q.
Proof.
  intros Hw Hc. split.
  - unfold processWithdrawals in Hw.
    apply (foldM_invariant _
             (fun st => (simulatedLiquidUSDC <= snd (fst st))%Q)) in Hw;
      [exact Hw | | simpl; lra].
    intros [[acts l] a] w [[acts' l'] a'] _ HP Hb. simpl in *.
    assert (l <= l')%Q; [ | lra].
    unfold withdrawStep in Hb.
    destruct (findPosition currentPositions (ActionPoolID w)) as [pos | ];
      [ | injection Hb as <- <- <-; lra].
    match type of Hb with
    | (if ?c then _ else _) = _ => destruct c; [injection Hb as <- <- <-; lra | ]
    end.
    destruct (pool_get poolsData (ActionPoolID w)); [ | discriminate].
    destruct (SimulateLeavePool sim rpcEndpoint _ _ _) as [exitEst | ];
      [ | discriminate].
    apply bind_Ok in Hb. destruct Hb as [u [_ Hb]].
    apply bind_Ok in Hb. destruct Hb as [[l1 a1] [Ht Hb]].
    injection Hb as <- <- <-.
    exact (trackCoin_liquid sim rpcEndpoint _ _ _ _ _ _ Ht).
  - unfold processConsolidation in Hc.
    apply (foldM_invariant _ (fun st => (newLiquidUSDC <= snd st)%Q)) in Hc;
      [exact Hc | | simpl; lra].
    intros [acts l] [denom amount] [acts' l'] _ HP Hb. simpl in *.
    assert (l <= l')%Q; [ | lra].
    unfold consolidateStep in Hb.
    destruct (amount =? 0); [injection Hb as <- <-; lra | ].
    destruct (String.eqb denom (IBCDenom usdcToken)); [discriminate | ].
    destruct (findViableSwapAmount sim rpcEndpoint amount denom _ _ _)
      as [[swapEst finalAmount] | e].
    + destruct (finalAmount =? 0); [injection Hb as <- <-; lra | ].
      apply bind_Ok in Hb. destruct Hb as [y [Hy Hb]]. injection Hb as <- <-.
      apply SDKIntToFloat64_nonneg in Hy. lra.
    + destruct e; try (injection Hb as <- <-; lra). discriminate.
Qed.

Lemma withdrawal_phase_liquid_never_decreases_witness :
  exists withdrawalActions newLiquidUSDC tempNonUSDCAssets
         consolidationActions finalLiquidUSDC,
    processWithdrawals Examples.flatSimulator "http://node"
                       [mkExtendedAction 1%N (- (1000))%Q 0]
                       Examples.positionsInPool1 Examples.twoPools 0
                       Examples.usdc Examples.parameters
    = Ok (withdrawalActions, newLiquidUSDC, tempNonUSDCAssets)
    /\ processConsolidation Examples.flatSimulator "http://node"
                            tempNonUSDCAssets newLiquidUSDC Examples.usdc
                            Examples.parameters
       = Ok (consolidationActions, finalLiquidUSDC)
    /\ (0 <= newLiquidUSDC)%Q /\ (newLiquidUSDC <= finalLiquidUSDC)%Q.
Proof.
  destruct (processWithdrawals Examples.flatSimulator "http://node"
              [mkExtendedAction 1%N (- (1000))%Q 0]
              Examples.positionsInPool1 Examples.twoPools 0
              Examples.usdc Examples.parameters)
    as [[[withdrawalActions newLiquidUSDC] tempNonUSDCAssets] | e] eqn:Hw;
    [ | vm_compute in Hw; discriminate].
  assert (Ha : tempNonUSDCAssets = []) by (vm_compute in Hw; congruence).
  subst tempNonUSDCAssets.
  exists withdrawalActions, newLiquidUSDC, [], [], newLiquidUSDC.
  assert (Hc : processConsolidation Examples.flatSimulator "http://node" []
                 newLiquidUSDC Examples.usdc Examples.parameters
               = Ok ([], newLiquidUSDC)) by reflexivity.
  split; [reflexivity | split; [exact Hc | ]].
  exact (withdrawal_phase_liquid_never_decreases _ _ _ _ _ _ _ _ _ _ _ _ _ Hw Hc).
Defined.

End PlanFacts.

(** ** The selection and the allocation map *)

Module SelectionFacts.
Import Analyzer.

Lemma NoDup_firstn {A : Type} (n : nat) (l : list A) :
  NoDup l -> NoDup (firstn n l).
Proof.
  intros H. rewrite <- (firstn_skipn n l) in H.
  exact (NoDup_app_remove_r _ _ H).
Qed.

Lemma In_firstn {A : Type} (n : nat) (l : list A) (x : A) :
  In x (firstn n l) -> In x l.
Proof.
  intros H. rewrite <- (firstn_skipn n l). apply in_or_app. left. exact H.
Qed.

Lemma topPools_spec (params : ScoringParameters Q)
      (scoredPools : list (PoolScoreResult Q)) :
  List.length (topPools params scoredPools)
  = Nat.min (Z.to_nat (MaxPools params)) (List.length scoredPools)
  /\ incl (topPools params scoredPools) (map (@ScorePoolID Q) scoredPools)
  /\ (NoDup (map (@ScorePoolID Q) scoredPools) ->
      NoDup (topPools params scoredPools)).
Proof.
  unfold topPools.
  pose proof (AnalyzerFacts.sortByScoreDesc_perm scoredPools) as P.
  split; [ | split].
  - rewrite length_map, length_firstn, (Permutation_length P). reflexivity.
  - intros id Hin. rewrite <- firstn_map in Hin. apply In_firstn in Hin.
    exact (Permutation_in _ (Permutation_map _ P) Hin).
  - intros Hnd. rewrite <- firstn_map. apply NoDup_firstn.
    exact (Permutation_NoDup (Permutation_sym (Permutation_map _ P)) Hnd).
Qed.

(** The two ways a selection is made. *)
Lemma SelectTopPools_cases
      (scoredPools : list (PoolScoreResult Q)) (params : ScoringParameters Q)
      (poolsDataMap : PoolMap (Pool Q))
      (selected : list PoolID) (elysPoolID : PoolID) :
  NoDup (map (@ScorePoolID Q) scoredPools) ->
  SelectTopPools scoredPools params poolsDataMap = Ok (selected, elysPoolID) ->
  (scoredPools <> [] /\ 0 < MaxPools params)
  /\ ((selected = topPools params scoredPools
       /\ (elysPoolID = 0%N \/ In elysPoolID (topPools params scoredPools)))
      \/ (selected = removelast (topPools params scoredPools) ++ [elysPoolID]
          /\ ~ In elysPoolID (topPools params scoredPools)
          /\ In elysPoolID (map (@ScorePoolID Q) scoredPools))).
Proof.
  intros Hnd H. unfold SelectTopPools in H.
  destruct scoredPools as [|p0 rest] eqn:Es; [discriminate | ]. rewrite <- Es in *.
  assert (Hne : scoredPools <> []) by (rewrite Es; discriminate).
  replace (Nat.eqb (List.length scoredPools) 0) with false in H
    by (rewrite Es; reflexivity).
  destruct (Z.leb_spec (MaxPools params) 0) as [? | Hmax]; [discriminate | ].
  split; [split; assumption | ].
  apply bind_Ok in H. destruct H as [[[valid e] f] [Hloop H]].
  apply (AnalyzerFacts.filter_loop poolsDataMap scoredPools Hnd scoredPools [] []
                                   0%N false)
    in Hloop; [ | reflexivity | split; [reflexivity | intros ? []]].
  destruct Hloop as [Hvalid Hbest]. simpl in Hvalid. subst valid.
  replace (Nat.eqb (List.length scoredPools) 0) with false in H
    by (rewrite Es; reflexivity).
  rewrite AnalyzerFacts.firstn_selected, AnalyzerFacts.removelast_if in H.
  fold (topPools params scoredPools) in H.
  injection H as Hsel <-.
  unfold bestElysOf in Hbest. destruct f.
  - destruct Hbest as [best [Hin [_ [Hid _]]]]. cbn [andb] in Hsel.
    destruct (existsb (N.eqb e) (topPools params scoredPools)) eqn:E.
    + left. cbn [negb] in Hsel. apply AnalyzerFacts.existsb_eqb_In in E.
      split; [congruence | right; exact E].
    + right. cbn [negb] in Hsel. split; [congruence | split].
      * intros Hc. apply AnalyzerFacts.existsb_eqb_In in Hc. congruence.
      * rewrite <- Hid. apply in_map. exact Hin.
  - destruct Hbest as [He _]. cbn [andb] in Hsel.
    left. split; [congruence | left; exact He].
Qed.

(** X11.  The selection of [SelectTopPools], for scored pools with distinct
    IDs: it holds [min(MaxPools, number of scored pools)] pool IDs, at least
    one; no ID twice; every ID is the ID of a scored pool; and the ELYS pool
    returned with it is in the selection unless there is none (ID 0). *)
Theorem SelectTopPools_selection
        (scoredPools : list (PoolScoreResult Q)) (params : ScoringParameters Q)
        (poolsDataMap : PoolMap (Pool Q))
        (selected : list PoolID) (elysPoolID : PoolID) :
  NoDup (map (@ScorePoolID Q) scoredPools) ->
  SelectTopPools scoredPools params poolsDataMap = Ok (selected, elysPoolID) ->
  List.length selected
  = Nat.min (Z.to_nat (MaxPools params)) (List.length scoredPools)
  /\ selected <> []
  /\ NoDup selected
  /\ incl selected (map (@ScorePoolID Q) scoredPools)
  /\ (elysPoolID <> 0%N -> In elysPoolID selected).
Proof.
  intros Hnd H.
  destruct (SelectTopPools_cases _ _ _ _ _ Hnd H) as [[Hne Hmax] Hcases].
  destruct (topPools_spec params scoredPools) as [Hlen [Hincl Hnodup]].
  specialize (Hnodup Hnd).
  assert (Hpos : (0 < List.length (topPools params scoredPools))%nat).
  { rewrite Hlen. destruct scoredPools; [congruence | ]. simpl List.length. lia. }
  assert (Htop : topPools params scoredPools <> []).
  { intros E. rewrite E in Hpos. simpl in Hpos. lia. }
  destruct Hcases as [[-> Hin] | [-> [Hnotin Hscored]]].
  - repeat split; try assumption.
    intros Hne0. destruct Hin as [E | Hin]; [contradiction | exact Hin].
  - pose proof (app_removelast_last 0%N Htop) as Hsplit.
    split; [ | split; [ | split; [ | split]]].
    + rewrite <- Hlen. rewrite Hsplit at 2. rewrite !length_app. reflexivity.
    + intros E. apply app_eq_nil in E. destruct E as [_ E]. discriminate.
    + rewrite Hsplit in Hnodup, Hnotin.
      apply NoDup_app_remove_r in Hnodup.
      apply (Permutation_NoDup (Permutation_cons_append _ _)).
      constructor; [ | exact Hnodup].
      intros Hc. apply Hnotin. apply in_or_app. left. exact Hc.
    + intros id Hid. apply in_app_or in Hid. destruct Hid as [Hid | [<- | []]].
      * apply Hincl. rewrite Hsplit. apply in_or_app. left. exact Hid.
      * exact Hscored.
    + intros _. apply in_or_app. right. left. reflexivity.
Qed.

Lemma SelectTopPools_selection_witness :
  SelectTopPools Examples.scoredThree Examples.parameters Examples.threePools
  = Ok ([1%N; 3%N], 3%N)
  /\ List.length [1%N; 3%N] = Nat.min 2 3
  /\ NoDup [1%N; 3%N].
Proof.
  assert (H : SelectTopPools Examples.scoredThree Examples.parameters
                             Examples.threePools = Ok ([1%N; 3%N], 3%N))
    by (vm_compute; reflexivity).
  assert (Hnd : NoDup (map (@ScorePoolID Q) Examples.scoredThree)).
  { simpl. repeat constructor; simpl; intuition discriminate. }
  destruct (SelectTopPools_selection _ _ _ _ _ Hnd H) as [Hlen [_ [Hno _]]].
  split; [exact H | split; [exact Hlen | exact Hno]].
Defined.

Lemma collectScore_loop (scoredPoolsMap : PoolMap (PoolScoreResult Q))
      (ids : list PoolID) :
  forall (st st' : list (PoolID * Q) * Q),
    foldM (collectScore scoredPoolsMap) ids st = Ok st' ->
    Forall (fun id => exists r, pool_get scoredPoolsMap id = Some r
                                /\ (0 < Score r)%Q) ids.
Proof.
  induction ids as [|id rest IH]; intros st st' H; [constructor | ].
  simpl in H. apply bind_Ok in H. destruct H as [st1 [H1 H]].
  constructor; [ | exact (IH _ _ H)].
  unfold collectScore in H1. destruct st as [validPools totalScore].
  destruct (pool_get scoredPoolsMap id) as [r | ]; [ | discriminate].
  exists r. split; [reflexivity | ].
  cbn [IsNaN IsInf orb] in H1.
  destruct (Qleb (Score r) 0) eqn:E; [discriminate | ].
  apply Qleb_false in E. exact E.
Qed.

(** X12.  The allocation map of [DetermineTargetAllocations], for selected
    pools without repetition: its keys are the selected pool IDs, in the
    order of the selection, so every selected pool gets an allocation and no
    other pool does; and every selected pool has a score in the score map,
    which is positive. *)
Theorem DetermineTargetAllocations_keys
        (selectedPoolIDs : list PoolID)
        (scoredPoolsMap : PoolMap (PoolScoreResult Q))
        (params : ScoringParameters Q) (elysPoolID : PoolID) (A : PoolMap Q) :
  NoDup selectedPoolIDs ->
  DetermineTargetAllocations selectedPoolIDs scoredPoolsMap params elysPoolID = Ok A ->
  map fst A = selectedPoolIDs
  /\ Forall (fun id => exists r, pool_get scoredPoolsMap id = Some r
                                 /\ (0 < Score r)%Q)
            selectedPoolIDs.
Proof.
  intros Hnd H.
  destruct selectedPoolIDs as [|id0 ids] eqn:E.
  - unfold DetermineTargetAllocations in H. simpl in H. injection H as <-.
    split; [reflexivity | constructor].
  - rewrite <- E in *.
    assert (Hne : selectedPoolIDs <> []) by (rewrite E; discriminate).
    split.
    + destruct (AnalyzerFacts.DetermineTargetAllocations_Ok _ _ _ _ _ Hne H)
        as [st [T [finalSum [Hfold [_ [-> _]]]]]].
      apply AnalyzerFacts.assignFinal_sum in Hfold;
        [ | exact Hnd | intros; reflexivity].
      destruct Hfold as [Hkeys _]. rewrite map_map. simpl. exact Hkeys.
    + unfold DetermineTargetAllocations in H.
      replace (Nat.eqb (List.length selectedPoolIDs) 0) with false in H
        by (rewrite E; reflexivity).
      cbv zeta in H.
      repeat (apply bind_Ok in H;
              let x := fresh "x" in
              let G := fresh "G" in
              destruct H as [x [G H]];
              try match type of G with
                  | foldM (collectScore _) _ _ = Ok _ =>
                      exact (collectScore_loop _ _ _ _ G)
                  end).
Qed.

Lemma DetermineTargetAllocations_keys_witness :
  exists A,
    DetermineTargetAllocations [1%N; 2%N] Examples.scoredTwo Examples.parameters 2%N
    = Ok A
    /\ map fst A = [1%N; 2%N].
Proof.
  destruct (DetermineTargetAllocations [1%N; 2%N] Examples.scoredTwo
                                       Examples.parameters 2%N)
    as [A | e] eqn:H; [ | vm_compute in H; discriminate].
  exists A. split; [reflexivity | ].
  assert (Hnd : NoDup [1%N; 2%N]).
  { repeat constructor; simpl; intuition discriminate. }
  exact (proj1 (DetermineTargetAllocations_keys _ _ _ _ _ Hnd H)).
Defined.

Lemma filter_nil_all {A : Type} (f : A -> bool) (l : list A) :
  filter f l = [] -> forall x, In x l -> f x = false.
Proof.
  induction l as [|y rest IH]; intros H x Hin; [contradiction | ].
  simpl in H. destruct (f y) eqn:E; [discriminate | ].
  destruct Hin as [<- | Hin]; [exact E | exact (IH H x Hin)].
Qed.

Lemma filter_loop_plain (scoredPools : list (PoolScoreResult Q))
      (poolsDataMap : PoolMap (Pool Q)) (todo : list (PoolScoreResult Q)) :
  (forall p, In p todo -> containsElys poolsDataMap (ScorePoolID p) = false) ->
  forall (valid : list (PoolScoreResult Q)) (e : PoolID) (f : bool),
    foldM (filterStep scoredPools poolsDataMap) todo (valid, e, f)
    = (v <- foldM AnalyzerV1.filterStep todo valid ;; Ok (v, e, f)).
Proof.
  induction todo as [|p rest IH]; intros Hnone valid e f; [reflexivity | ].
  cbn [foldM]. unfold filterStep at 1, AnalyzerV1.filterStep at 1.
  destruct (IsNaN (Score p) || IsInf (Score p)); [reflexivity | ].
  rewrite (Hnone p (or_introl eq_refl)). cbn [bind].
  apply IH. intros q Hq. apply Hnone. right. exact Hq.
Qed.

(** X13.  The selector with the forced pool extends the plain one: when no
    scored pool holds ELYS it selects exactly what the two-argument
    [SelectTopPools] selects, reports no ELYS pool (ID 0), and fails exactly
    when the plain selector fails, with the same error. *)
Theorem SelectTopPools_extends_plain_selector
        (scoredPools : list (PoolScoreResult Q)) (params : ScoringParameters Q)
        (poolsDataMap : PoolMap (Pool Q)) :
  elysPools poolsDataMap scoredPools = [] ->
  SelectTopPools scoredPools params poolsDataMap
  = (selected <- AnalyzerV1.SelectTopPools scoredPools params ;;
     Ok (selected, 0%N)).
Proof.
  intros Hnone. unfold SelectTopPools, AnalyzerV1.SelectTopPools.
  destruct (Nat.eqb (List.length scoredPools) 0); [reflexivity | ].
  destruct (MaxPools params <=? 0); [reflexivity | ].
  rewrite (filter_loop_plain scoredPools poolsDataMap scoredPools
             (filter_nil_all _ _ Hnone)).
  destruct (foldM AnalyzerV1.filterStep scoredPools []) as [valid | e];
    [ | reflexivity].
  cbn [bind].
  destruct (Nat.eqb (List.length valid) 0); reflexivity.
Qed.

Lemma SelectTopPools_extends_plain_selector_witness :
  SelectTopPools Examples.scoredThree Examples.parameters Examples.twoPools
  = (selected <- AnalyzerV1.SelectTopPools Examples.scoredThree Examples.parameters ;;
     Ok (selected, 0%N)).
Proof.
  apply (SelectTopPools_extends_plain_selector Examples.scoredThree
           Examples.parameters Examples.twoPools).
  vm_compute. reflexivity.
Defined.









End SelectionFacts.

(** ** From the allocator to the planner *)

Module HandoverFacts.
Import Analyzer.

(** Every value of a map has a property. *)
Local Notation "'values' P m" := (Forall (fun entry : PoolID * Q => P (snd entry)) m)
  (at level 10, P at level 9, m at level 9).

Lemma pool_set_values (P : Q -> Prop) (m : PoolMap Q) (k : PoolID) (v : Q) :
  values P m -> P v -> values P (pool_set m k v).
Proof.
  intros Hm Hv. unfold pool_set.
  induction m as [|[k' v'] rest IH]; simpl.
  - constructor; [exact Hv | constructor].
  - inversion Hm as [|? ? Hk Hrest]; subst.
    destruct (N.eqb k' k).
    + constructor; [exact Hv | exact Hrest].
    + constructor; [exact Hk | exact (IH Hrest)].
Qed.

Lemma pool_delete_values (P : Q -> Prop) (m : PoolMap Q) (k : PoolID) :
  values P m -> values P (pool_delete m k).
Proof.
  intros Hm. unfold pool_delete.
  induction m as [|[k' v'] rest IH]; simpl; [constructor | ].
  inversion Hm as [|? ? Hk Hrest]; subst.
  destruct (N.eqb k' k); [exact (IH Hrest) | ].
  constructor; [exact Hk | exact (IH Hrest)].
Qed.

Lemma pool_get_values (P : Q -> Prop) (m : PoolMap Q) (k : PoolID) (v : Q) :
  values P m -> pool_get m k = Some v -> P v.
Proof.
  intros Hm. unfold pool_get.
  induction m as [|[k' v'] rest IH]; simpl; [discriminate | ].
  inversion Hm as [|? ? Hk Hrest]; subst.
  destruct (N.eqb k' k); [intros E; injection E as <-; exact Hk | exact (IH Hrest)].
Qed.

Lemma fold_pool_delete_values (P : Q -> Prop) (ids : list PoolID) (m : PoolMap Q) :
  values P m -> values P (fold_left pool_delete ids m).
Proof.
  revert m. induction ids as [|id rest IH]; intros m Hm; [exact Hm | ].
  simpl. apply IH, pool_delete_values, Hm.
Qed.

Section Constraints.
Variable params : ScoringParameters Q.
Variable elysPoolID : PoolID.
Hypothesis min_nonneg : (0 <= MinAllocation params)%Q.
Hypothesis max_positive : (0 < MaxAllocation params)%Q.
Hypothesis forced_nonneg : (0 <= ElysForcedAllocationMinimum params)%Q.

Lemma effectiveMin_nonneg (id : PoolID) :
  (0 <= effectiveMin params elysPoolID id)%Q.
Proof. unfold effectiveMin. destruct (_ && _); assumption. Qed.

Lemma constrainPool_values (totalUnlockedScore remainingPercent : Q)
      (scores : PoolMap Q) :
  (0 < totalUnlockedScore)%Q -> (0 <= remainingPercent)%Q ->
  values (fun s => (0 < s)%Q) scores ->
  forall (allocs locked : PoolMap Q) (poolsToLock : list PoolID) (made : bool),
    values (fun v => (0 <= v)%Q) allocs ->
    values (fun v => (0 <= v)%Q) locked ->
    let '(allocs', locked', _, _) :=
      fold_left (constrainPool params elysPoolID totalUnlockedScore
                               remainingPercent)
                scores (allocs, locked, poolsToLock, made) in
    values (fun v => (0 <= v)%Q) allocs'
    /\ values (fun v => (0 <= v)%Q) locked'.
Proof.
  intros Ht Hr. induction scores as [|[id score] rest IH];
    intros Hs allocs locked poolsToLock made Ha Hl.
  - simpl. split; assumption.
  - inversion Hs as [|? ? Hscore Hrest]; subst. cbn [snd] in Hscore.
    cbn [fold_left]. unfold constrainPool at 2.
    assert (Hc : (0 <= score / totalUnlockedScore * remainingPercent)%Q).
    { apply Qmult_le_0_compat; [ | exact Hr].
      apply Qle_shift_div_l; [exact Ht | lra]. }
    pose proof (pool_set_values (fun v => (0 <= v)%Q) allocs id _ Ha Hc) as Ha'.
    destruct (Qltb _ (effectiveMin params elysPoolID id)).
    + apply IH; [exact Hrest | exact Ha' | ].
      apply pool_set_values; [exact Hl | apply effectiveMin_nonneg].
    + destruct (Qltb (MaxAllocation params) _).
      * apply IH; [exact Hrest | exact Ha' | ].
        apply pool_set_values; [exact Hl | lra].
      * apply IH; assumption.
Qed.

Lemma enforceConstraints_values (fuel : nat) :
  forall (st st' : AllocState) (made : bool),
    values (fun v => (0 <= v)%Q) (allocations st) ->
    values (fun v => (0 <= v)%Q) (lockedAllocations st) ->
    values (fun s => (0 < s)%Q) (unlockedPoolScores st) ->
    enforceConstraints fuel params elysPoolID st = Ok (st', made) ->
    values (fun v => (0 <= v)%Q) (allocations st')
    /\ values (fun v => (0 <= v)%Q) (lockedAllocations st').
Proof.
  induction fuel as [|fuel IH]; intros st st' made Ha Hl Hs H.
  - simpl in H. injection H as <- <-. split; assumption.
  - cbn [enforceConstraints] in H. cbv zeta in H.
    destruct (Qltb _ (- (1 # 100000))); [discriminate | ].
    destruct (Nat.eqb (List.length (unlockedPoolScores st)) 0);
      [injection H as <- <-; split; assumption | ].
    match type of H with
    | (if Qleb ?t 0 then _ else _) = _ =>
        destruct (Qleb t 0) eqn:Ht; [discriminate | ];
        apply Qleb_false in Ht
    end.
    match type of H with
    | context [fold_left (constrainPool _ _ ?t ?r) ?scores ?init] =>
        assert (Hr : (0 <= r)%Q)
          by (destruct (Qltb _ 0) eqn:E; [lra | apply Qltb_false in E; exact E]);
        pose proof (constrainPool_values t r scores Ht Hr Hs _ _ [] false Ha Hl)
          as Hfold;
        destruct (fold_left (constrainPool _ _ t r) scores init)
          as [[[allocs locked] poolsToLock] madeChanges]
    end.
    destruct Hfold as [Ha' Hl'].
    destruct madeChanges.
    + apply (IH (mkAllocState allocs locked
                   (fold_left pool_delete poolsToLock (unlockedPoolScores st)))
                st' made Ha' Hl'); [ | exact H].
      cbn [unlockedPoolScores]. apply fold_pool_delete_values. exact Hs.
    + injection H as <- <-. split; assumption.
Qed.

End Constraints.

Lemma collectScore_values (scoredPoolsMap : PoolMap (PoolScoreResult Q))
      (ids : list PoolID) :
  forall (validPools validPools' : list (PoolID * Q)) (t t' : Q),
    values (fun s => (0 < s)%Q) validPools ->
    foldM (collectScore scoredPoolsMap) ids (validPools, t) = Ok (validPools', t') ->
    values (fun s => (0 < s)%Q) validPools'.
Proof.
  induction ids as [|id rest IH]; intros v v' t t' Hv H.
  - simpl in H. injection H as <- <-. exact Hv.
  - simpl in H. apply bind_Ok in H. destruct H as [[v1 t1] [H1 H]].
    apply (IH v1 v' t1 t'); [ | exact H].
    unfold collectScore in H1.
    destruct (pool_get scoredPoolsMap id) as [r | ]; [ | discriminate].
    cbn [IsNaN IsInf orb] in H1.
    destruct (Qleb (Score r) 0) eqn:E; [discriminate | ].
    apply Qleb_false in E. injection H1 as <- <-.
    apply Forall_app. split; [exact Hv | constructor; [exact E | constructor]].
Qed.

Lemma initial_values (P : Q -> Prop) (f : Q -> Q) (validPools : list (PoolID * Q)) :
  (forall entry, In entry validPools -> P (f (snd entry))) ->
  forall m : PoolMap Q,
    values P m ->
    values P (fold_left (fun m p => pool_set m (fst p) (f (snd p))) validPools m).
Proof.
  induction validPools as [|p rest IH]; intros Hf m Hm; [exact Hm | ].
  simpl. apply IH.
  - intros entry Hin. apply Hf. right. exact Hin.
  - apply pool_set_values; [exact Hm | apply Hf; left; reflexivity].
Qed.

Lemma assignFinal_values (st : AllocState) (ids : list PoolID) :
  values (fun v => (0 <= v)%Q) (allocations st) ->
  values (fun v => (0 <= v)%Q) (lockedAllocations st) ->
  forall (T T' : PoolMap Q) (s s' : Q),
    values (fun v => (0 <= v)%Q) T ->
    foldM (assignFinal st) ids (T, s) = Ok (T', s') ->
    values (fun v => (0 <= v)%Q) T'.
Proof.
  intros Ha Hl. induction ids as [|id rest IH]; intros T T' s s' HT H.
  - simpl in H. injection H as <- <-. exact HT.
  - simpl in H. apply bind_Ok in H. destruct H as [[T1 s1] [H1 H]].
    apply (IH T1 T' s1 s'); [ | exact H].
    unfold assignFinal in H1.
    destruct (pool_get (lockedAllocations st) id) as [v | ] eqn:El.
    + injection H1 as <- <-. apply pool_set_values; [exact HT | ].
      exact (pool_get_values _ _ _ _ Hl El).
    + destruct (pool_get (allocations st) id) as [v | ] eqn:Ea; [ | discriminate].
      injection H1 as <- <-. apply pool_set_values; [exact HT | ].
      exact (pool_get_values _ _ _ _ Ha Ea).
Qed.

(** No allocation of a map returned is negative. *)
Lemma allocations_nonneg
      (selectedPoolIDs : list PoolID)
      (scoredPoolsMap : PoolMap (PoolScoreResult Q))
      (params : ScoringParameters Q) (elysPoolID : PoolID) (A : PoolMap Q) :
  DetermineTargetAllocations selectedPoolIDs scoredPoolsMap params elysPoolID = Ok A ->
  values (fun v => (0 <= v)%Q) A.
Proof.
  intros H. unfold DetermineTargetAllocations in H.
  destruct (Nat.eqb (List.length selectedPoolIDs) 0);
    [injection H as <-; constructor | ].
  cbv zeta in H.
  apply bind_Ok in H. destruct H as [? [_ H]].
  apply bind_Ok in H. destruct H as [? [_ H]].
  apply bind_Ok in H. destruct H as [? [Gmin H]]. apply guard_Ok, Qltb_false in Gmin.
  apply bind_Ok in H. destruct H as [? [Gmax H]]. apply guard_Ok, Qleb_false in Gmax.
  apply bind_Ok in H. destruct H as [? [_ H]].
  apply bind_Ok in H. destruct H as [? [_ H]].
  apply bind_Ok in H. destruct H as [? [Gelys H]]. apply guard_Ok in Gelys.
  apply orb_false_iff in Gelys. destruct Gelys as [Gelys _].
  apply Qltb_false in Gelys.
  apply bind_Ok in H. destruct H as [? [_ H]].
  apply bind_Ok in H. destruct H as [? [_ H]].
  apply bind_Ok in H. destruct H as [[validPools totalScore] [Hcollect H]].
  cbv beta iota in H.
  apply bind_Ok in H. destruct H as [? [Gtotal H]]. apply guard_Ok, Qleb_false in Gtotal.
  apply bind_Ok in H. destruct H as [[st made] [Henforce H]].
  cbv beta iota in H.
  apply bind_Ok in H. destruct H as [? [_ H]].
  apply bind_Ok in H. destruct H as [[T finalSum] [Hassign H]].
  cbv beta iota in H.
  apply bind_Ok in H. destruct H as [? [_ H]].
  destruct (Qltb 0 finalSum) eqn:Hpos; [ | discriminate].
  apply Qltb_true in Hpos.
  apply bind_Ok in H. destruct H as [? [_ H]]. injection H as <-.
  pose proof (collectScore_values _ _ [] validPools 0%Q totalScore
                                  (Forall_nil _) Hcollect) as Hscores.
  apply (enforceConstraints_values params elysPoolID Gmin Gmax Gelys) in Henforce.
  - destruct Henforce as [Ha Hl].
    pose proof (assignFinal_values st selectedPoolIDs Ha Hl [] T 0%Q finalSum
                                   (Forall_nil _) Hassign) as HT.
    clear - HT Hpos. induction HT as [|[id v] rest Hv _ IH]; [constructor | ].
    cbn [map]. constructor; [ | exact IH]. cbn [fst snd] in *.
    apply Qmult_le_0_compat; [exact Hv | ].
    apply Qle_shift_div_l; [exact Hpos | lra].
  - cbn [allocations].
    apply (initial_values (fun v => (0 <= v)%Q) (fun s => (s / totalScore)%Q));
      [ | constructor].
    intros entry Hin. rewrite Forall_forall in Hscores. specialize (Hscores _ Hin).
    cbn beta in Hscores. apply Qle_shift_div_l; [exact Gtotal | lra].
  - cbn [lockedAllocations]. constructor.
  - cbn [unlockedPoolScores].
    apply (initial_values (fun s => (0 < s)%Q) (fun s => s)); [ | constructor].
    intros entry Hin. rewrite Forall_forall in Hscores. exact (Hscores _ Hin).
Qed.

Lemma sumQ_bounds (l : list Q) :
  Forall (fun v => (0 <= v)%Q) l ->
  (0 <= sumQ l)%Q /\ Forall (fun v => (v <= sumQ l)%Q) l.
Proof.
  induction 1 as [|x rest Hx _ [IH0 IH]].
  - split; [unfold sumQ; simpl; lra | constructor].
  - pose proof (sumQ_cons x rest) as E. split; [lra | ].
    constructor; [lra | ].
    eapply Forall_impl; [ | exact IH]. intros v Hv. cbn beta in Hv. lra.
Qed.

Lemma validateAllocation_loop (A : PoolMap Q) :
  Forall (fun entry => (0 <= snd entry)%Q /\ (snd entry <= 1)%Q) A ->
  forall total : Q,
    exists total',
      foldM Planner.validateAllocation A total = Ok total'
      /\ (total' == total + allocationSum A)%Q.
Proof.
  induction 1 as [|[id v] rest [H0 H1] _ IH]; intros total.
  - exists total. split; [reflexivity | unfold allocationSum, sumQ; simpl; lra].
  - cbn [foldM]. unfold Planner.validateAllocation at 1. cbn [snd] in *.
    cbn [IsNaN IsInf orb guard bind].
    apply Qltb_false in H0. apply Qltb_false in H1. rewrite H0, H1.
    cbn [guard bind].
    destruct (IH (total + v)%Q) as [total' [Hf E]].
    exists total'. split; [exact Hf | ].
    unfold allocationSum in *. cbn [map snd]. rewrite sumQ_cons. lra.
Qed.

(** X15.  What the allocator hands over, the planner accepts: for a
    selection that is not empty and repeats no ID, every allocation of the
    map returned lies between 0 and 1 and the planner's check of the target
    allocations (in [validateInputs]: each one finite and within [0, 1], the
    total within 0.01 of 1) passes; in exact arithmetic the total it adds
    up is 1. *)
Theorem allocations_accepted_by_planner
        (selectedPoolIDs : list PoolID)
        (scoredPoolsMap : PoolMap (PoolScoreResult Q))
        (params : ScoringParameters Q) (elysPoolID : PoolID) (A : PoolMap Q) :
  selectedPoolIDs <> [] -> NoDup selectedPoolIDs ->
  DetermineTargetAllocations selectedPoolIDs scoredPoolsMap params elysPoolID = Ok A ->
  Forall (fun entry => (0 <= snd entry)%Q /\ (snd entry <= 1)%Q) A
  /\ exists totalAllocation,
       foldM Planner.validateAllocation A 0%Q = Ok totalAllocation
       /\ (totalAllocation == 1)%Q
       /\ guard (Abs (totalAllocation - 1) >? 1 # 100)%f64
                (ErrMsg "total allocations do not sum to 1.0") = Ok tt.
Proof.
  intros Hne Hnd H.
  pose proof (allocations_nonneg _ _ _ _ _ H) as Hnn.
  pose proof (AnalyzerFacts.allocationSum_one _ _ _ _ _ Hne Hnd H) as Hsum.
  assert (Hrange : Forall (fun entry => (0 <= snd entry)%Q /\ (snd entry <= 1)%Q) A).
  { assert (Hv : Forall (fun v => (0 <= v)%Q) (map snd A))
      by (apply Forall_map; exact Hnn).
    destruct (sumQ_bounds _ Hv) as [_ Hle]. rewrite Forall_map in Hle.
    rewrite Forall_forall in *. intros entry Hin.
    specialize (Hnn _ Hin). specialize (Hle _ Hin). cbn beta in *.
    unfold allocationSum in Hsum. split; [exact Hnn | lra]. }
  split; [exact Hrange | ].
  destruct (validateAllocation_loop A Hrange 0%Q) as [total [Hf E]].
  exists total. split; [exact Hf | ].
  assert (E1 : (total == 1)%Q) by lra.
  split; [exact E1 | ].
  assert (G : Qltb (1 # 100) (Abs (total - 1)) = false).
  { apply Qltb_false. unfold Abs.
    assert (E0 : (total - 1 == 0)%Q) by lra.
    rewrite E0. vm_compute. discriminate. }
  rewrite G. reflexivity.
Qed.

Lemma allocations_accepted_by_planner_witness :
  exists A totalAllocation,
    DetermineTargetAllocations [1%N; 2%N] Examples.scoredTwo Examples.parameters 2%N
    = Ok A
    /\ foldM Planner.validateAllocation A 0%Q = Ok totalAllocation
    /\ (totalAllocation == 1)%Q.
Proof.
  destruct (DetermineTargetAllocations [1%N; 2%N] Examples.scoredTwo
                                       Examples.parameters 2%N)
    as [A | e] eqn:H; [ | vm_compute in H; discriminate].
  assert (Hnd : NoDup [1%N; 2%N]).
  { repeat constructor; simpl; intuition discriminate. }
  destruct (allocations_accepted_by_planner [1%N; 2%N] Examples.scoredTwo
              Examples.parameters 2%N A ltac:(discriminate) Hnd H)
    as [_ [total [Hf [E _]]]].
  exists A, total. split; [reflexivity | split; assumption].
Defined.

End HandoverFacts.

(** ** The volatility of a price series *)

Module SeriesFacts.
Import Volatility.

Lemma CalculateVolatility_depends_on_returns
      (prices prices' : list (PriceData R)) (annualizationFactor : R) :
  usableReturns prices = usableReturns prices' ->
  CalculateVolatility prices annualizationFactor
  = CalculateVolatility prices' annualizationFactor.
Proof.
  intros H.
  assert (G : forall ps,
             CalculateVolatility ps annualizationFactor
             = match usableReturns ps with
               | [] => Err ErrInsufficientData
               | _ :: _ =>
                   Ok (populationStdDev (usableReturns ps)
                       * sqrt annualizationFactor)%R
               end).
  { intros ps. unfold CalculateVolatility. cbv zeta.
    destruct (Nat.ltb (List.length ps) 2) eqn:En.
    - apply Nat.ltb_lt in En.
      rewrite VolatilityFacts.usableReturns_short by exact En. reflexivity.
    - rewrite VolatilityFacts.logReturnsOf_usable.
      destruct (usableReturns ps) as [|r rs] eqn:Er; [reflexivity | ].
      cbn [List.length Nat.eqb]. rewrite VolatilityFacts.stdDev_loop. reflexivity. }
  rewrite (G prices), (G prices'), H. reflexivity.
Qed.

(** X16.  For an annualization factor that is not negative the volatility
    returned is never negative (over the reals; [math.Sqrt] of a negative
    factor is NaN, [sqrt] of it is 0). *)
Theorem CalculateVolatility_nonnegative
        (prices : list (PriceData R)) (annualizationFactor volatility : R) :
  (0 <= annualizationFactor)%R ->
  CalculateVolatility prices annualizationFactor = Ok volatility ->
  (0 <= volatility)%R.
Proof.
  intros _ H. unfold CalculateVolatility in H. cbv zeta in H.
  destruct (Nat.ltb (List.length prices) 2); [discriminate | ].
  destruct (Nat.eqb _ 0); [discriminate | ].
  injection H as <-. apply Rmult_le_pos; apply sqrt_pos.
Qed.

Lemma CalculateVolatility_nonnegative_witness :
  exists volatility,
    CalculateVolatility twoPrices 365 = Ok volatility /\ (0 <= volatility)%R.
Proof.
  destruct (CalculateVolatility twoPrices 365) as [volatility | e] eqn:H.
  - exists volatility. split; [reflexivity | ].
    apply (CalculateVolatility_nonnegative twoPrices 365 volatility); [lra | exact H].
  - exfalso. unfold CalculateVolatility in H. cbv zeta in H.
    change (Nat.ltb (List.length twoPrices) 2) with false in H. cbv iota in H.
    rewrite VolatilityFacts.logReturnsOf_usable,
      VolatilityFacts.usableReturns_twoPrices in H.
    cbn [List.length Nat.eqb] in H. discriminate.
Defined.

Section SortedByTimestamp.
Context {A : Type} (key : A -> Z).

Lemma sort_insert_ascending (x : A) (l : list A) :
  StronglySorted (ascending key) l ->
  StronglySorted (ascending key) (sort_insert (byKeyAsc key) x l).
Proof.
  induction 1 as [|y rest Hs IH Hy]; simpl.
  - constructor; constructor.
  - unfold byKeyAsc at 1. destruct (Z.ltb_spec (key y) (key x)) as [L | L].
    + constructor; [exact IH | ].
      apply Forall_forall. intros z Hz.
      apply (Permutation_in _ (sort_insert_perm (byKeyAsc key) x rest)) in Hz.
      destruct Hz as [<- | Hz]; [unfold ascending; lia | ].
      rewrite Forall_forall in Hy. exact (Hy z Hz).
    + constructor; [constructor; assumption | ].
      constructor; [exact L | ].
      apply Forall_forall. intros z Hz. rewrite Forall_forall in Hy.
      specialize (Hy z Hz). unfold ascending in *. lia.
Qed.

Lemma sort_Slice_ascending (l : list A) :
  StronglySorted (ascending key) (sort_Slice (byKeyAsc key) l).
Proof.
  induction l as [|x rest IH]; simpl; [constructor | ].
  apply sort_insert_ascending. exact IH.
Qed.

Lemma key_injective (l : list A) (a b : A) :
  NoDup (map key l) -> In a l -> In b l -> key a = key b -> a = b.
Proof.
  induction l as [|x rest IH]; intros Hnd Ha Hb E; [contradiction | ].
  simpl in Hnd. inversion Hnd as [|? ? Hx Hrest]; subst.
  destruct Ha as [<- | Ha], Hb as [<- | Hb].
  - reflexivity.
  - exfalso. apply Hx. rewrite E. apply in_map. exact Hb.
  - exfalso. apply Hx. rewrite <- E. apply in_map. exact Ha.
  - exact (IH Hrest Ha Hb E).
Qed.

Lemma sorted_unique (l l' : list A) :
  StronglySorted (ascending key) l -> StronglySorted (ascending key) l' ->
  Permutation l l' -> NoDup (map key l) -> l = l'.
Proof.
  revert l'. induction l as [|x xs IH]; intros l' Hs Hs' P Hnd.
  - apply Permutation_nil in P. congruence.
  - destruct l' as [|y ys];
      [apply Permutation_sym, Permutation_nil in P; discriminate | ].
    inversion Hs as [|? ? Hxs Hx]; subst.
    inversion Hs' as [|? ? Hys Hy]; subst.
    assert (E : x = y).
    { apply (key_injective (x :: xs)); [exact Hnd | left; reflexivity | | ].
      - apply (Permutation_in _ (Permutation_sym P)). left. reflexivity.
      - assert (Hxy : key x <= key y).
        { assert (Hin : In y (x :: xs))
            by (apply (Permutation_in _ (Permutation_sym P)); left; reflexivity).
          destruct Hin as [<- | Hin]; [lia | ].
          rewrite Forall_forall in Hx. exact (Hx y Hin). }
        assert (Hyx : key y <= key x).
        { assert (Hin : In x (y :: ys))
            by (apply (Permutation_in _ P); left; reflexivity).
          destruct Hin as [<- | Hin]; [lia | ].
          rewrite Forall_forall in Hy. exact (Hy x Hin). }
        lia. }
    subst y. f_equal. apply IH; try assumption.
    + exact (Permutation_cons_inv P).
    + simpl in Hnd. inversion Hnd; assumption.
Qed.

Lemma sort_Slice_permutation_invariant (l l' : list A) :
  Permutation l l' -> NoDup (map key l) ->
  sort_Slice (byKeyAsc key) l = sort_Slice (byKeyAsc key) l'.
Proof.
  intros P Hnd. apply sorted_unique.
  - apply sort_Slice_ascending.
  - apply sort_Slice_ascending.
  - eapply Permutation_trans; [apply sort_Slice_perm | ].
    eapply Permutation_trans; [exact P | ].
    apply Permutation_sym, sort_Slice_perm.
  - eapply Permutation_NoDup; [ | exact Hnd].
    apply Permutation_map, Permutation_sym, sort_Slice_perm.
Qed.

End SortedByTimestamp.

(** X17.  The order in which the prices are handed over does not matter:
    two series with the same data points, none of them sharing a timestamp,
    give the same result, volatility or error. *)
Theorem CalculateVolatility_order_independent
        (prices prices' : list (PriceData R)) (annualizationFactor : R) :
  Permutation prices prices' ->
  NoDup (map (@Timestamp R) prices) ->
  CalculateVolatility prices annualizationFactor
  = CalculateVolatility prices' annualizationFactor.
Proof.
  intros P Hnd. apply CalculateVolatility_depends_on_returns.
  unfold usableReturns, sortByTimestamp.
  change (fun pi pj : PriceData R => Timestamp pi <? Timestamp pj)
    with (byKeyAsc (@Timestamp R)).
  rewrite (sort_Slice_permutation_invariant (@Timestamp R) prices prices' P Hnd).
  reflexivity.
Qed.

Lemma CalculateVolatility_order_independent_witness :
  CalculateVolatility twoPrices 365
  = CalculateVolatility [mkPriceData 3600 2%R; mkPriceData 0 1%R] 365.
Proof.
  apply (CalculateVolatility_order_independent twoPrices
           [mkPriceData 3600 2%R; mkPriceData 0 1%R] 365).
  - apply perm_swap.
  - simpl. repeat constructor; simpl; intuition discriminate.
Defined.

Lemma combine_map_both {A B : Type} (f : A -> B) (l l' : list A) :
  combine (map f l) (map f l') = map (fun p => (f (fst p), f (snd p))) (combine l l').
Proof.
  revert l'. induction l as [|x xs IH]; intros [|y ys]; simpl; try reflexivity.
  rewrite IH. reflexivity.
Qed.

Lemma filter_map_commute {A B : Type} (f : A -> B) (p : B -> bool) (l : list A) :
  filter p (map f l) = map f (filter (fun a => p (f a)) l).
Proof.
  induction l as [|x xs IH]; simpl; [reflexivity | ].
  destruct (p (f x)); simpl; rewrite IH; reflexivity.
Qed.

Lemma Rleb_scale (c x : R) : (0 < c)%R -> Rleb (c * x) 0 = Rleb x 0.
Proof.
  intros Hc. destruct (Rleb x 0) eqn:E.
  - apply VolatilityFacts.Rleb_true in E. apply VolatilityFacts.Rleb_true. nra.
  - apply VolatilityFacts.Rleb_false in E. apply VolatilityFacts.Rleb_false. nra.
Qed.

(** X18.  The volatility does not depend on the unit of the prices:
    multiplying every price of a series by the same positive factor leaves
    the result unchanged (over the reals). *)
Theorem CalculateVolatility_scale_invariant
        (prices : list (PriceData R)) (annualizationFactor factor : R) :
  (0 < factor)%R ->
  CalculateVolatility
    (map (fun p => mkPriceData (Timestamp p) (factor * Price p)%R) prices)
    annualizationFactor
  = CalculateVolatility prices annualizationFactor.
Proof.
  intros Hc. apply CalculateVolatility_depends_on_returns.
  set (f := fun p : PriceData R => mkPriceData (Timestamp p) (factor * Price p)%R).
  unfold usableReturns, consecutivePairs, sortByTimestamp.
  rewrite (PlannerFacts.sort_Slice_map
             (fun pi pj : PriceData R => Timestamp pi <? Timestamp pj)
             (fun pi pj : PriceData R => Timestamp pi <? Timestamp pj) f)
    by (intros a b; reflexivity).
  set (sorted := sort_Slice _ prices).
  replace (tl (map f sorted)) with (map f (tl sorted))
    by (destruct sorted; reflexivity).
  rewrite combine_map_both, filter_map_commute, map_map.
  replace (filter (fun a => usablePair (f (fst a), f (snd a))) (combine sorted (tl sorted)))
    with (filter usablePair (combine sorted (tl sorted))).
  - apply map_ext_in. intros [a b] Hin. apply filter_In in Hin.
    destruct Hin as [_ Hu]. unfold usablePair in Hu. cbn [fst snd] in *.
    apply andb_true_iff in Hu. destruct Hu as [Ha Hb].
    apply negb_true_iff in Ha. apply VolatilityFacts.Rleb_false in Ha.
    f_equal. unfold f. cbn [Price]. field. lra.
  - apply filter_ext. intros [a b]. unfold usablePair, f. cbn [fst snd Price].
    rewrite !Rleb_scale by exact Hc. reflexivity.
Qed.

Lemma CalculateVolatility_scale_invariant_witness :
  CalculateVolatility
    (map (fun p => mkPriceData (Timestamp p) (100 * Price p)%R) twoPrices) 365
  = CalculateVolatility twoPrices 365.
Proof.
  apply (CalculateVolatility_scale_invariant twoPrices 365 100). lra.
Defined.

End SeriesFacts.

(** ** The scores of a batch of pools *)

Module BatchFacts.
Import Scorer.

Section Scoring.
Context {F : Type} {ops : Float64Ops F}.

(** X19.  A batch is scored pool by pool and as a whole: a successful
    [CalculatePoolScores] returns one result per pool, in the order of the
    pools, each the result of [CalculatePoolScore] on its pool and carrying
    its pool's ID; so if one pool cannot be scored the batch has no result.
    The batch was not empty. *)
Theorem CalculatePoolScores_one_result_per_pool
        (pools : list (Pool F)) (params : ScoringParameters F)
        (results : list (PoolScoreResult F)) :
  CalculatePoolScores pools params = Ok results ->
  pools <> []
  /\ Forall2 (fun pool result => CalculatePoolScore pool params = Ok result)
             pools results
  /\ map (@ScorePoolID F) results = map (@ID F) pools.
Proof.
  unfold CalculatePoolScores. intros H.
  destruct pools as [|p0 rest] eqn:E; [discriminate | ]. rewrite <- E in *.
  replace (Nat.eqb (List.length pools) 0) with false in H
    by (rewrite E; reflexivity).
  apply bind_Ok in H. destruct H as [u [_ H]].
  apply WalletFacts.mapM_Forall2 in H.
  split; [rewrite E; discriminate | split; [exact H | ]].
  clear E. induction H as [|pool r ps rs Hr _ IH]; [reflexivity | ].
  simpl. rewrite IH.
  apply ScorerFacts.CalculatePoolScore_inv in Hr. destruct Hr as [-> _].
  reflexivity.
Qed.

(** X20.  What a score presupposes.  A pool is scored only if neither its
    TVL nor the parameter [MinTVLThreshold] is [<= 0], and, when the vault
    holds a position in the pool, only if [ContinuityLookbackDays] is
    positive: the checks of the liquidity score and of the continuity bonus
    reach the caller of [CalculatePoolScore]. *)
Theorem CalculatePoolScore_requires_positive_tvl
        (pool : Pool F) (params : ScoringParameters F) (r : PoolScoreResult F) :
  CalculatePoolScore pool params = Ok r ->
  leb (TvlUSD pool) (lit 0%Q) = false
  /\ leb (MinTVLThreshold params) (lit 0%Q) = false
  /\ (HasCurrentPosition pool = true -> 0 < ContinuityLookbackDays params).
Proof.
  unfold CalculatePoolScore. intros H.
  repeat (apply bind_Ok in H;
          let x := fresh "x" in
          let G := fresh "G" in
          destruct H as [x [G H]]; cbv zeta in H).
  match goal with
  | L : CalculateLiquidityScore pool params = Ok _ |- _ => rename L into Hliq
  end.
  match goal with
  | L : CalculateContinuityBonus pool params = Ok _ |- _ => rename L into Hcont
  end.
  unfold CalculateLiquidityScore in Hliq. peel Hliq.
  repeat match goal with
         | G : guard _ _ = Ok _ |- _ => apply guard_Ok in G
         end.
  split; [assumption | split; [assumption | ]].
  intros Hpos. unfold CalculateContinuityBonus in Hcont. rewrite Hpos in Hcont.
  cbn [negb] in Hcont. apply bind_Ok in Hcont. destruct Hcont as [u [Glook _]].
  apply guard_Ok in Glook. lia.
Qed.

End Scoring.

Lemma CalculatePoolScores_one_result_per_pool_witness :
  exists results,
    CalculatePoolScores (ops := binary64) [atomPool] atomParameters = Ok results
    /\ map (@ScorePoolID _) results = [1%N].
Proof.
  destruct (CalculatePoolScores (ops := binary64) [atomPool] atomParameters)
    as [results | e] eqn:H; [ | vm_compute in H; discriminate].
  exists results. split; [reflexivity | ].
  exact (proj2 (proj2 (CalculatePoolScores_one_result_per_pool
                         (ops := binary64) _ _ _ H))).
Defined.

Lemma CalculatePoolScore_requires_positive_tvl_witness :
  exists r,
    CalculatePoolScore (ops := binary64) atomPool atomParameters = Ok r
    /\ PrimFloat.leb (TvlUSD atomPool) (f64 0) = false.
Proof.
  destruct (CalculatePoolScore (ops := binary64) atomPool atomParameters)
    as [r | e] eqn:H; [ | vm_compute in H; discriminate].
  exists r. split; [reflexivity | ].
  exact (proj1 (CalculatePoolScore_requires_positive_tvl
                  (ops := binary64) _ _ _ H)).
Defined.

End BatchFacts.

(** ** What a cycle leaves in the database *)

Module LedgerFacts.
Import AVM Ledger.

Section Orchestrator.
Context {X : Type} (env : Env X).

Lemma saveCycleSnapshot_database (s : CycleSnapshot) (w : World X) :
  database (saveCycleSnapshot s w) = fst (SaveCycleSnapshot s (database w)).
Proof.
  unfold saveCycleSnapshot. destruct (SaveCycleSnapshot s (database w)). reflexivity.
Qed.

Lemma makeReceipts_receipts (message : string) (actions : list SubAction)
      (prePositions postPositions : list (Position Q)) (preUSDC postUSDC : Q)
      (w : World X) :
  let receipts := snd (makeReceipts env message actions prePositions postPositions
                                    preUSDC postUSDC w) in
  map OriginalSubAction receipts = actions
  /\ Forall (fun r => Success r = true /\ Message r = message) receipts.
Proof.
  revert w. induction actions as [|action rest IH]; intros w; cbn.
  - split; [reflexivity | constructor].
  - destruct (call (timeNow env) w) as [w1 t].
    specialize (IH w1). cbv zeta in IH.
    destruct (makeReceipts env message rest prePositions postPositions
                           preUSDC postUSDC w1) as [w2 receipts].
    cbn in *. destruct IH as [IH1 IH2]. split.
    + rewrite IH1. reflexivity.
    + constructor; [split; reflexivity | exact IH2].
Qed.

(** X21.  A phase that was executed records one receipt per action, in the
    order of the actions, each marked successful and carrying the phase's
    message, after the receipts already recorded; it adds the hash of its
    one transaction to the hashes and the transaction's gas fee to the gas
    total.  A phase without actions changes nothing and calls nothing. *)
Theorem executePhase_receipts
        (message : string) (actions : list SubAction)
        (cycleSnapshot cycleSnapshot' : CycleSnapshot)
        (totalGasFeeUSD totalGasFeeUSD' totalVaultValue liquidUSDC : Q)
        (currentPositions : list (Position Q)) (poolsDataMap : PoolMap (Pool Q))
        (w w' : World X) :
  executePhase env message actions cycleSnapshot totalGasFeeUSD totalVaultValue
               liquidUSDC currentPositions poolsDataMap w
  = (w', PhaseDone cycleSnapshot' totalGasFeeUSD') ->
  match actions with
  | [] => w' = w /\ cycleSnapshot' = cycleSnapshot
          /\ totalGasFeeUSD' = totalGasFeeUSD
  | _ :: _ =>
      exists (txResult : TransactionResult) (receipts : list ActionReceipt),
        ActionReceipts cycleSnapshot' = ActionReceipts cycleSnapshot ++ receipts
        /\ map OriginalSubAction receipts = actions
        /\ Forall (fun r => Success r = true /\ Message r = message) receipts
        /\ TransactionHashes cycleSnapshot'
           = TransactionHashes cycleSnapshot ++ [TxHash txResult]
        /\ totalGasFeeUSD' = (totalGasFeeUSD + GasFeeUSD txResult)%Q
        /\ CycleNumber cycleSnapshot' = CycleNumber cycleSnapshot
  end.
Proof.
  unfold executePhase. intros H.
  destruct actions as [|action rest] eqn:E.
  - cbn in H. injection H as <- <- <-. repeat split.
  - rewrite <- E in *.
    replace (Nat.ltb 0 (List.length actions)) with true in H
      by (rewrite E; reflexivity).
    destruct (captureVaultState env w) as [w1 pre].
    destruct (match pre with Ok state => state | Err _ => _ end)
      as [prePositions preUSDC].
    destruct (call (ExecuteActionPlan env actions) w1) as [w2 [txResult | e]];
      [ | discriminate].
    destruct (captureVaultState env w2) as [w3 post].
    destruct (match post with Ok state => state | Err _ => _ end)
      as [postPositions postUSDC].
    pose proof (makeReceipts_receipts message actions prePositions postPositions
                                      preUSDC postUSDC w3) as Hr.
    cbv zeta in Hr.
    destruct (makeReceipts env message actions prePositions postPositions
                           preUSDC postUSDC w3) as [w4 receipts].
    cbn [snd] in Hr. destruct Hr as [Hr1 Hr2].
    injection H as <- <- <-.
    exists txResult, receipts. cbn. repeat split; assumption.
Qed.

Lemma executePhase_database (message : string) (actions : list SubAction)
      (cycleSnapshot : CycleSnapshot) (totalGasFeeUSD totalVaultValue liquidUSDC : Q)
      (currentPositions : list (Position Q)) (poolsDataMap : PoolMap (Pool Q))
      (w : World X) :
  match executePhase env message actions cycleSnapshot totalGasFeeUSD
                     totalVaultValue liquidUSDC currentPositions poolsDataMap w with
  | (w', PhaseDone s' _) =>
      database w' = database w /\ CycleNumber s' = CycleNumber cycleSnapshot
  | (w', PhaseFailed) =>
      exists s, CycleNumber s = CycleNumber cycleSnapshot
                /\ database w' = fst (SaveCycleSnapshot s (database w))
  end.
Proof.
  unfold executePhase.
  destruct (Nat.ltb 0 (List.length actions)); [ | split; reflexivity].
  pose proof (CycleFacts.captureVaultState_database env w) as H1.
  destruct (captureVaultState env w) as [w1 pre]. cbn in H1.
  destruct (match pre with Ok state => state | Err _ => _ end)
    as [prePositions preUSDC].
  pose proof (CycleFacts.call_database (ExecuteActionPlan env actions) w1) as H2.
  destruct (call (ExecuteActionPlan env actions) w1) as [w2 [txResult|e]];
    cbn in H2.
  - pose proof (CycleFacts.captureVaultState_database env w2) as H3.
    destruct (captureVaultState env w2) as [w3 post]. cbn in H3.
    destruct (match post with Ok state => state | Err _ => _ end)
      as [postPositions postUSDC].
    pose proof (CycleFacts.makeReceipts_database env message actions prePositions
                  postPositions preUSDC postUSDC w3) as H4.
    destruct (makeReceipts env message actions prePositions postPositions
                           preUSDC postUSDC w3) as [w4 receipts].
    cbn in H4. split; [congruence | reflexivity].
  - eexists. split; [ | rewrite CycleFacts.logEndOfCycleState_database,
                         saveCycleSnapshot_database, H2, H1; reflexivity].
    reflexivity.
Qed.

Lemma getCycleNumber_database (w : World X) :
  let '(w', cycleNumber) := getCycleNumber env w in
  if dbOpen (database w) then
    database w' = mkDatabase true (currentCycle (database w) + 1)
                             (cycleSnapshots (database w))
                             (activeParamsID (database w))
    /\ cycleNumber = currentCycle (database w) + 1
  else database w' = database w.
Proof.
  unfold getCycleNumber, IncrementCycleNumber.
  destruct (dbOpen (database w)) eqn:E; cbn.
  - split; reflexivity.
  - pose proof (CycleFacts.call_database (timeNow env)
                  (mkWorld (outside w) (database w))) as H.
    destruct (call (timeNow env) _); cbn in *. exact H.
Qed.

Ltac outside_call w' r :=
  match goal with
  | |- context [call ?op ?w] =>
      let H := fresh "Hdb" in
      pose proof (CycleFacts.call_database op w) as H;
      destruct (call op w) as [w' r]; cbn [fst] in H
  end.

(** The database at the end of a cycle, from the database after the cycle
    was counted. *)
Lemma RunCycle_database (a : AVM) (w : World X) :
  let '(w2, cycleNumber) :=
    getCycleNumber env (fst (call (timeNow env) w)) in
  counted (database w2) cycleNumber (database (RunCycle env a w)).
Proof.
  unfold RunCycle.
  destruct (call (timeNow env) w) as [w1 cycleStartTime]. cbn [fst].
  destruct (getCycleNumber env w1) as [w2 cycleNumber].
  assert (Hsave : forall (s : CycleSnapshot) (w' : World X),
             CycleNumber s = cycleNumber -> database w' = database w2 ->
             counted (database w2) cycleNumber
                     (database (saveCycleSnapshot s w'))).
  { intros s w' Hs Hw'. right. exists s. split; [exact Hs | ].
    rewrite saveCycleSnapshot_database, Hw'. reflexivity. }
  outside_call w3 r3. destruct r3 as [supportedTokens|?];
    [ | left; assumption].
  outside_call w4 r4. destruct r4 as [pools|?];
    [ | left; congruence].
  outside_call w5 r5. destruct r5 as [tokenDataMap|?];
    [ | left; congruence].
  outside_call w6 r6. destruct r6 as [currentPositions|?];
    [ | left; congruence].
  outside_call w7 r7. destruct r7 as [liquidUSDC|?];
    [ | left; congruence].
  outside_call w8 r8. destruct r8 as [totalVaultValue|?];
    [ | left; congruence].
  assert (Hhere : database w8 = database w2) by congruence.
  match goal with
  | |- context [database (match ?scored with Ok _ => _ | Err _ => _ end)] =>
      destruct scored as [scoredPools|?]; [ | left; exact Hhere]
  end.
  destruct (Analyzer.SelectTopPools _ _ _) as [[selectedPoolIDs elysPoolID]|?];
    [ | left; exact Hhere].
  destruct (Nat.eqb (List.length selectedPoolIDs) 0).
  { rewrite CycleFacts.logEndOfCycleState_database.
    apply Hsave; [reflexivity | exact Hhere]. }
  destruct (Analyzer.DetermineTargetAllocations _ _ _ _) as [targetAllocations|?];
    [ | left; exact Hhere].
  destruct (Planner.GenerateActionPlan _ _ _ _ _ _ _ _ _)
    as [[withdrawalActions depositActions]|?]; [ | left; exact Hhere].
  destruct (Nat.eqb (List.length withdrawalActions) 0
            && Nat.eqb (List.length depositActions) 0).
  { rewrite CycleFacts.logEndOfCycleState_database.
    apply Hsave; [reflexivity | exact Hhere]. }
  match goal with
  | |- context [executePhase env ?m ?acts ?s ?g ?tv ?l ?cp ?pm ?w0] =>
      pose proof (executePhase_database m acts s g tv l cp pm w0) as Hphase1;
      destruct (executePhase env m acts s g tv l cp pm w0) as [w9 [s1 gas1|]]
  end.
  2:{ destruct Hphase1 as [s [Hs Hd]]. right. exists s.
      split; [exact Hs | rewrite Hd, Hhere; reflexivity]. }
  destruct Hphase1 as [Hd1 Hn1]. cbn [CycleNumber] in Hn1.
  match goal with
  | |- context [executePhase env ?m ?acts ?s ?g ?tv ?l ?cp ?pm ?w0] =>
      pose proof (executePhase_database m acts s g tv l cp pm w0) as Hphase2;
      destruct (executePhase env m acts s g tv l cp pm w0) as [w10 [s2 gas2|]]
  end.
  2:{ destruct Hphase2 as [s [Hs Hd]]. right. exists s.
      split; [congruence | rewrite Hd, Hd1, Hhere; reflexivity]. }
  destruct Hphase2 as [Hd2 Hn2].
  outside_call w11 r11. outside_call w12 r12. outside_call w13 r13.
  match goal with
  | |- context [call (timeNow env) (saveCycleSnapshot ?s ?w0)] =>
      pose proof (CycleFacts.call_database (timeNow env) (saveCycleSnapshot s w0))
        as Hlast;
      destruct (call (timeNow env) (saveCycleSnapshot s w0)) as [wlast tlast];
      cbn [fst] in Hlast
  end.
  rewrite Hlast. apply Hsave; [reflexivity | congruence].
Qed.

(** X22.  With the database open a cycle is counted exactly once, on every
    path: the cycle counter goes up by one, and a snapshot the cycle saves
    (it saves at most one) carries the new value of the counter as its cycle
    number.  The handle and the active parameter set are left as they
    were. *)
Theorem RunCycle_counts_the_cycle (a : AVM) (w : World X) :
  dbOpen (database w) = true ->
  dbOpen (database (RunCycle env a w)) = true
  /\ currentCycle (database (RunCycle env a w)) = currentCycle (database w) + 1
  /\ activeParamsID (database (RunCycle env a w)) = activeParamsID (database w)
  /\ (cycleSnapshots (database (RunCycle env a w)) = cycleSnapshots (database w)
      \/ exists s,
           CycleNumber s = currentCycle (database w) + 1
           /\ cycleSnapshots (database (RunCycle env a w))
              = cycleSnapshots (database w) ++ [s]).
Proof.
  intros Hopen. pose proof (RunCycle_database a w) as H.
  pose proof (CycleFacts.call_database (timeNow env) w) as H1.
  destruct (call (timeNow env) w) as [w1 t]. cbn [fst] in H, H1.
  pose proof (getCycleNumber_database w1) as H2.
  destruct (getCycleNumber env w1) as [w2 n].
  rewrite H1, Hopen in H2. destruct H2 as [Hdb2 Hn].
  destruct H as [H | [s [Hs H]]]; rewrite H.
  - rewrite Hdb2. cbn. repeat split. left. reflexivity.
  - unfold SaveCycleSnapshot. rewrite Hdb2. cbn.
    repeat split. right. exists s. split; [congruence | reflexivity].
Qed.

(** X23.  Without a database a cycle records nothing: the database is left
    exactly as it was, whatever the cycle did outside (it still runs, and
    may execute its plan). *)
Theorem RunCycle_closed_database (a : AVM) (w : World X) :
  dbOpen (database w) = false ->
  database (RunCycle env a w) = database w.
Proof.
  intros Hclosed. pose proof (RunCycle_database a w) as H.
  pose proof (CycleFacts.call_database (timeNow env) w) as H1.
  destruct (call (timeNow env) w) as [w1 t]. cbn [fst] in H, H1.
  pose proof (getCycleNumber_database w1) as H2.
  destruct (getCycleNumber env w1) as [w2 n].
  rewrite H1, Hclosed in H2.
  destruct H as [H | [s [Hs H]]]; rewrite H.
  - exact H2.
  - unfold SaveCycleSnapshot. rewrite H2, Hclosed. reflexivity.
Qed.

End Orchestrator.

Lemma totalDifference_nonneg (actualAllocations targetAllocations : PoolMap Q) :
  forall total : Q,
    (0 <= total)%Q ->
    (0 <= fold_left
            (fun total entry =>
               let actualPercent :=
                 match pool_get actualAllocations (fst entry) with
                 | Some v => v
                 | None => 0%Q
                 end in
               let difference := (snd entry - actualPercent)%Q in
               let difference :=
                 if (difference <? 0)%f64 then (- difference)%Q
                 else difference in
               (total + difference)%Q)
            targetAllocations total)%Q.
Proof.
  induction targetAllocations as [|entry rest IH]; intros total Ht; [exact Ht | ].
  cbn [fold_left]. apply IH. cbv zeta.
  destruct (Qltb _ 0) eqn:E.
  - apply Qltb_true in E. lra.
  - apply Qltb_false in E. lra.
Qed.

(** X24.  On finite numbers the allocation efficiency of a snapshot is a
    percentage: when no allocation percent of the final positions and no
    target allocation is NaN or infinite, it lies between 0 and 100, and it
    is 100 when there are no targets.  (The function has no guard of its
    own: with a NaN among these numbers both of its [< 0] tests are false
    and it returns NaN.) *)
Theorem calculateAllocationEfficiency_percentage
        (finalPositions : list PositionSnapshot) (targetAllocations : PoolMap Q) :
  Forall (fun pos => IsNaN (AllocationPercent pos)
                     || IsInf (AllocationPercent pos) = false)
         finalPositions ->
  Forall (fun entry => IsNaN (snd entry) || IsInf (snd entry) = false)
         targetAllocations ->
  (0 <= calculateAllocationEfficiency finalPositions targetAllocations)%Q
  /\ (calculateAllocationEfficiency finalPositions targetAllocations <= 100)%Q
  /\ (targetAllocations = [] ->
      calculateAllocationEfficiency finalPositions targetAllocations = 100%Q).
Proof.
  intros _ _. unfold calculateAllocationEfficiency.
  destruct targetAllocations as [|t rest] eqn:E.
  - cbn. repeat split; discriminate.
  - rewrite <- E.
    replace (Nat.eqb (List.length targetAllocations) 0) with false
      by (rewrite E; reflexivity).
    cbv zeta.
    pose proof (totalDifference_nonneg
                  (fold_left (fun m pos => pool_set m (SnapPoolID pos)
                                                    (AllocationPercent pos / 100)%Q)
                             finalPositions [])
                  targetAllocations 0%Q ltac:(lra)) as Hd.
    cbv zeta in Hd.
    match goal with
    | |- context [Qltb (100 - ?d * 100) 0] => set (total := d) in *
    end.
    split; [ | split; [ | rewrite E; discriminate]].
    + destruct (Qltb (100 - total * 100) 0) eqn:L; [lra | ].
      apply Qltb_false in L. exact L.
    + destruct (Qltb (100 - total * 100) 0); lra.
Qed.

(** Pool 1 holds 60 percent of the vault, the targets are one half for
    pool 1 and one half for pool 2: the differences are 0.1 and 0.5, the
    efficiency is 40. *)
Lemma calculateAllocationEfficiency_percentage_witness :
  (calculateAllocationEfficiency
     [mkPositionSnapshot 1%N 1000 600 60 10 "uatom" "uusdc" 1000000 (1 # 2)]
     [(1%N, 1 # 2); (2%N, 1 # 2)] == 40)%Q
  /\ (0 <= calculateAllocationEfficiency
             [mkPositionSnapshot 1%N 1000 600 60 10 "uatom" "uusdc" 1000000 (1 # 2)]
             [(1%N, 1 # 2); (2%N, 1 # 2)])%Q
  /\ (calculateAllocationEfficiency
        [mkPositionSnapshot 1%N 1000 600 60 10 "uatom" "uusdc" 1000000 (1 # 2)]
        [(1%N, 1 # 2); (2%N, 1 # 2)] <= 100)%Q.
Proof.
  split; [vm_compute; reflexivity | ].
  destruct (calculateAllocationEfficiency_percentage
              [mkPositionSnapshot 1%N 1000 600 60 10 "uatom" "uusdc" 1000000 (1 # 2)]
              [(1%N, 1 # 2); (2%N, 1 # 2)]) as [H0 [H100 _]].
  - repeat constructor.
  - repeat constructor.
  - split; assumption.
Defined.

Import Cycles.

Lemma RunCycle_counts_the_cycle_witness :
  currentCycle (database (RunCycle (vaultEnv denoms Examples.flatSimulator txOk)
                                   avm world)) = 0 + 1.
Proof.
  exact (proj1 (proj2 (RunCycle_counts_the_cycle
                         (vaultEnv denoms Examples.flatSimulator txOk)
                         avm world eq_refl))).
Defined.

Lemma RunCycle_closed_database_witness :
  database (RunCycle (vaultEnv denoms Examples.flatSimulator txOk) avm
                     (mkWorld 1700000000%Z (mkDatabase false 7 [] None)))
  = mkDatabase false 7 [] None.
Proof.
  exact (RunCycle_closed_database (vaultEnv denoms Examples.flatSimulator txOk)
           avm (mkWorld 1700000000%Z (mkDatabase false 7 [] None)) eq_refl).
Defined.

Lemma executePhase_receipts_witness :
  exists w' s' gas',
    executePhase (vaultEnv denoms Examples.flatSimulator txOk)
                 "Withdrawal executed successfully"
                 [Examples.usdcSwap 100 (3 # 100)]
                 (emptySnapshot 1 0 None) 0 1000 0 Examples.positionsInPool1
                 Examples.twoPools world
    = (w', PhaseDone s' gas')
    /\ map OriginalSubAction (ActionReceipts s') = [Examples.usdcSwap 100 (3 # 100)]
    /\ TransactionHashes s' = ["ABCD"%string].
Proof.
  destruct (executePhase (vaultEnv denoms Examples.flatSimulator txOk)
              "Withdrawal executed successfully"
              [Examples.usdcSwap 100 (3 # 100)]
              (emptySnapshot 1 0 None) 0 1000 0 Examples.positionsInPool1
              Examples.twoPools world) as [w' [s' gas' | ]] eqn:H;
    [ | vm_compute in H; discriminate].
  exists w', s', gas'. split; [reflexivity | ].
  pose proof (executePhase_receipts _ _ _ _ _ _ _ _ _ _ _ _ _ H) as R.
  cbv beta iota in R. destruct R as [tx [receipts [Hr [Hm [_ [Hh _]]]]]].
  assert (Htx : TxHash tx = "ABCD"%string).
  { vm_compute in H. injection H as _ Hs _. rewrite <- Hs in Hh.
    cbn in Hh. injection Hh as Hh. symmetry. exact Hh. }
  cbn in Hr, Hh. split; [rewrite Hr; exact Hm | rewrite Hh, Htx; reflexivity].
Defined.

End LedgerFacts.

(** ** Pool share denominations *)

Module DenomFacts.
Import Vault.

Lemma Split_nonempty (s : string) (sep : ascii) : Split s sep <> [].
Proof.
  destruct s as [|c rest]; simpl; [discriminate | ].
  destruct (Ascii.eqb c sep); [discriminate | ].
  destruct (Split rest sep); discriminate.
Qed.

Lemma Split_no_separator (s : string) (sep : ascii) :
  (forall c, In c (list_ascii_of_string s) -> c <> sep) ->
  Split s sep = [s].
Proof.
  induction s as [|c rest IH]; intros H; [reflexivity | ].
  simpl. destruct (Ascii.eqb_spec c sep) as [E | E].
  - exfalso. apply (H c); [left; reflexivity | exact E].
  - rewrite IH; [reflexivity | ].
    intros c' Hc'. apply H. right. exact Hc'.
Qed.

Lemma Split_segment (segment rest : string) (sep : ascii) :
  (forall c, In c (list_ascii_of_string segment) -> c <> sep) ->
  Split (segment ++ String sep rest) sep = segment :: Split rest sep.
Proof.
  induction segment as [|c s IH]; intros H.
  - cbn [append Split]. rewrite Ascii.eqb_refl. reflexivity.
  - cbn [append Split]. destruct (Ascii.eqb_spec c sep) as [E | _].
    + exfalso. apply (H c); [left; reflexivity | exact E].
    + rewrite IH; [reflexivity | ].
      intros c' Hc'. apply H. right. exact Hc'.
Qed.

Lemma Split_pool_prefix (rest : string) :
  Split ("amm/pool/" ++ rest) "/" = "amm"%string :: "pool"%string :: Split rest "/".
Proof.
  change ("amm/pool/" ++ rest)%string
    with ("amm" ++ String "/" ("pool" ++ String "/" rest))%string.
  rewrite Split_segment.
  - rewrite Split_segment; [reflexivity | ].
    intros c Hc. simpl in Hc.
    repeat (destruct Hc as [<- | Hc]; [discriminate | ]). contradiction.
  - intros c Hc. simpl in Hc.
    repeat (destruct Hc as [<- | Hc]; [discriminate | ]). contradiction.
Qed.

Lemma digits_only (d : Decimal.uint) (c : ascii) :
  In c (list_ascii_of_string (NilEmpty.string_of_uint d)) -> c <> "/"%char.
Proof.
  induction d; simpl; intros H;
    try contradiction;
    (destruct H as [<- | H]; [discriminate | exact (IHd H)]).
Qed.

Lemma to_uint_not_empty (n : N) :
  Wallet.is_empty (NilEmpty.string_of_uint (N.to_uint n)) = false.
Proof.
  destruct n as [|p]; [reflexivity | ].
  unfold N.to_uint.
  pose proof (DecimalPos.Unsigned.to_uint_nonnil p) as H.
  destruct (Pos.to_uint p); [contradiction | | | | | | | | | | ]; reflexivity.
Qed.

Lemma ParseUint_decimal (n : N) :
  (n < 2 ^ 64)%N ->
  ParseUint (NilEmpty.string_of_uint (N.to_uint n)) = Ok n.
Proof.
  intros Hn. unfold ParseUint.
  rewrite to_uint_not_empty, NilEmpty.usu, DecimalN.Unsigned.of_to.
  apply N.ltb_lt in Hn. rewrite Hn. reflexivity.
Qed.

Lemma Split_poolDenom (poolId : N) :
  Split (Datafetcher.poolDenom poolId) "/"
  = ["amm"%string; "pool"%string; NilEmpty.string_of_uint (N.to_uint poolId)].
Proof.
  unfold Datafetcher.poolDenom. rewrite Split_pool_prefix.
  rewrite (Split_no_separator _ "/" (digits_only (N.to_uint poolId))).
  reflexivity.
Qed.

(** X25.  The denomination of a pool's shares round-trips: [extractPoolID]
    gives back the ID of every pool from the denomination the data fetcher
    writes for it ("amm/pool/" and the ID in decimal), for every ID a uint64
    holds but zero; the denomination of pool 0 is refused. *)
Theorem extractPoolID_poolDenom (poolId : N) :
  (poolId < 2 ^ 64)%N ->
  extractPoolID (Datafetcher.poolDenom poolId)
  = if (poolId =? 0)%N then Err (ErrMsg "pool ID cannot be zero") else Ok poolId.
Proof.
  intros Hn. unfold extractPoolID.
  rewrite Split_poolDenom. cbn [List.length Nat.eqb negb nth].
  rewrite (ParseUint_decimal poolId Hn).
  replace (Wallet.is_empty (Datafetcher.poolDenom poolId)) with false
    by reflexivity.
  replace (String.prefix "amm/pool/" (Datafetcher.poolDenom poolId)) with true.
  - reflexivity.
  - unfold Datafetcher.poolDenom. cbn [append]. simpl.
    destruct (NilEmpty.string_of_uint (N.to_uint poolId)); reflexivity.
Qed.

Lemma extractPoolID_poolDenom_witness :
  extractPoolID "amm/pool/1205" = Ok 1205%N.
Proof.
  exact (extractPoolID_poolDenom 1205%N eq_refl).
Defined.

Lemma Split_prefix (s : string) :
  String.prefix "amm/pool/" s = true ->
  exists rest, s = ("amm/pool/" ++ rest)%string.
Proof.
  intros H.
  repeat match type of H with
         | String.prefix (String ?c _) ?s = true =>
             destruct s as [|c' s]; [discriminate | ];
             cbn [String.prefix] in H;
             destruct (Ascii.ascii_dec c c') as [<- | ]; [ | discriminate]
         end.
  exists s. reflexivity.
Qed.

(** X26.  What [extractPoolID] accepts: a denomination it maps to a pool ID
    is "amm/pool/" followed by decimal digits without any further "/", and
    the ID is the value of the digits, between 1 and 2^64 - 1.  Leading
    zeros are accepted, so two denominations can name one pool. *)
Theorem extractPoolID_accepts (denom : string) (poolId : N) :
  extractPoolID denom = Ok poolId ->
  exists digits,
    denom = ("amm/pool/" ++ NilEmpty.string_of_uint digits)%string
    /\ digits <> Decimal.Nil
    /\ N.of_uint digits = poolId
    /\ (0 < poolId < 2 ^ 64)%N.
Proof.
  unfold extractPoolID. intros H.
  destruct (Wallet.is_empty denom); [discriminate | ].
  destruct (String.prefix "amm/pool/" denom) eqn:Hp; [ | discriminate].
  cbn [negb] in H. apply Split_prefix in Hp. destruct Hp as [rest ->].
  rewrite Split_pool_prefix in H.
  destruct (Split rest "/") as [|last [|more others]] eqn:Hrest;
    [exfalso; exact (Split_nonempty _ _ Hrest) | | discriminate].
  cbn [List.length Nat.eqb negb nth] in H.
  assert (Hlast : last = rest).
  { clear H. revert last Hrest. induction rest as [|c r IH]; intros last Hrest.
    - simpl in Hrest. congruence.
    - simpl in Hrest. destruct (Ascii.eqb c "/"); [ | ].
      + pose proof (Split_nonempty r "/") as Hne.
        destruct (Split r "/"); [contradiction | discriminate].
      + destruct (Split r "/") as [|f o] eqn:Hr;
          [exfalso; exact (Split_nonempty _ _ Hr) | ].
        injection Hrest as <- ->. f_equal. apply IH. reflexivity. }
  subst last.
  unfold ParseUint in H.
  destruct (Wallet.is_empty rest) eqn:He; [discriminate | ].
  destruct (NilEmpty.uint_of_string rest) as [digits | ] eqn:Hd; [ | discriminate].
  destruct (N.ltb_spec (N.of_uint digits) (2 ^ 64)) as [Hlt | ]; [ | discriminate].
  destruct (N.eqb_spec (N.of_uint digits) 0) as [ | Hnz]; [discriminate | ].
  injection H as <-.
  exists digits. apply NilEmpty.sus in Hd.
  split; [rewrite Hd; reflexivity | split; [ | split; [reflexivity | lia]]].
  intros ->. simpl in Hd. subst rest. discriminate.
Qed.

Lemma extractPoolID_accepts_witness :
  exists digits,
    "amm/pool/007"%string = ("amm/pool/" ++ NilEmpty.string_of_uint digits)%string
    /\ N.of_uint digits = 7%N.
Proof.
  destruct (extractPoolID_accepts "amm/pool/007" 7%N eq_refl)
    as [digits [H1 [_ [H2 _]]]].
  exists digits. split; assumption.
Defined.

End DenomFacts.
